(** * Metropolis puzzle engines: acceptance rule, reversible moves,
      incremental energy, and the Sudoku uniqueness oracle.

    Shallow embedding of the C sources (Two Not Touch solver, KenKen
    solver, TSP route finder, magic-square generator, Sudoku solver and
    Sudoku puzzle maker).

    Conventions.
    - A C [int] is a [Z], and the arithmetic is exact.  The puzzles of
      fixed size (9 x 9, 10 x 10, 7 x 7, 183 sites) keep every [int]
      far below 2^31.  Where the size is an input - the order N of the
      magic square, the arguments of [RandomInteger] - the theorems
      state the range in which no [int] overflows and no [double] is
      rounded (N <= 180 for the energy, b < 2^20 for
      [RandomInteger (a, b)]).  The one product that can leave the
      range, in [Operation] of the KenKen solver, is wrapped around
      ([KenKen.wrap]).
    - A heap array indexed from 1 ([int *], [int **]) is a total map
      [Z -> Z] (resp. [Z -> Z -> Z]) updated pointwise; two arrays are
      the same configuration when they agree at every index.
    - A [double] that is only ever compared (temperature, uniform
      variate, acceptance probability) is a rational [Q].
    - The Mersenne Twister is a supply of tempered 32-bit words; the
      list of words still to be produced is the generator state.  A
      rejection loop recurses on that list, so a supply that runs dry
      before the loop exits yields [NeedMore]. *)

From Stdlib Require Import ZArith List Bool Lia QArith Wf_nat Permutation.
Import ListNotations.
Open Scope Z_scope.

(** ** Results of partial computations *)

Inductive res (A : Type) : Type :=
| Done (a : A)          (* the code ran to the end of the fragment *)
| NeedMore              (* the supply of random words / steps ran out *)
| Undefined.            (* a read outside an allocated block *)
Arguments Done {A} a.
Arguments NeedMore {A}.
Arguments Undefined {A}.

Definition bind {A B} (x : res A) (f : A -> res B) : res B :=
  match x with
  | Done a => f a
  | NeedMore => NeedMore
  | Undefined => Undefined
  end.

Notation "'do' x <- e ; k" := (bind e (fun x => k))
  (at level 10, x name, e at level 100, k at level 200).
Notation "'do' ' p <- e ; k" :=
  (bind e (fun r => match r with p => k end))
  (at level 10, p pattern, e at level 100, k at level 200).

(** ** Arrays as total maps *)

Definition upd (a : Z -> Z) (i v : Z) : Z -> Z :=
  fun k => if k =? i then v else a k.

Definition upd2 (a : Z -> Z -> Z) (i j v : Z) : Z -> Z -> Z :=
  fun x y => if (x =? i) && (y =? j) then v else a x y.

Definition b2z (b : bool) : Z := if b then 1 else 0.

(** The integers [lo, lo+1, ..., lo+len-1], the index set of a [for] loop. *)
Definition zrange (lo : Z) (len : nat) : list Z :=
  map (fun k => lo + Z.of_nat k) (seq 0 len).

Definition digits : list Z := [1; 2; 3; 4; 5; 6; 7; 8; 9].

(** The 81 grid sites in the order of the nested loops
    [for (x = 1; x <= 9; x++) for (y = 1; y <= 9; y++)]. *)
Definition cells : list (Z * Z) :=
  flat_map (fun x => map (fun y => (x, y)) digits) digits.

(** ** MetropolisFunctions.h *)

Module Rng.

Definition rng := list Z.

Definition word (N : Z) : Prop := 0 <= N < 4294967296.

(** [return ((N + 0.5) / 4294967296.0)] for the tempered word [N]. *)
Definition uniform (N : Z) : Q := Qmake (2 * N + 1) 8589934592.

Definition MTUniform (g : rng) : res (Q * rng) :=
  match g with
  | [] => NeedMore
  | N :: g' => Done (uniform N, g')
  end.

(** [return ((int) ((b-a+1) * MTUniform () + a))]: the cast truncates
    towards zero the value ((b-a+1)(2N+1) + a 2^33) / 2^33.  This is
    the value the code returns as long as its double arithmetic is
    exact, which is the case for 0 <= a <= b < 2^20: the product and
    the sum are then multiples of 2^-33 below 2^20, within the 53 bits
    of a double.  The ranges the solvers use (up to 1..183, and
    1..N*N for a magic square of order N <= 1023) lie inside; beyond
    2^20 the sum may be rounded, and [b-a+1] leaves the range of [int]
    at 2^31. *)
Definition RandomInteger_of (a b N : Z) : Z :=
  Z.quot ((b - a + 1) * (2 * N + 1) + a * 8589934592) 8589934592.

Definition RandomInteger (a b : Z) (g : rng) : res (Z * rng) :=
  match g with
  | [] => NeedMore
  | N :: g' => Done (RandomInteger_of a b N, g')
  end.

End Rng.
Import Rng.

(** ** The generator behind [MTUniform] *)

Module Twister.

(** [unsigned int] arithmetic is modulo 2^32. *)
Definition u32 (z : Z) : Z := z mod 4294967296.

Record state : Type := mkState {
  X : Z -> Z;   (* static unsigned int X[1248] *)
  k : Z         (* static unsigned int k *)
}.

(** [m[0] = 0; m[1] = 0x9908b0df;] *)
Definition m : Z -> Z := upd (upd (fun _ => 0) 0 0) 1 2567483615.

(** The branch [if (!seeded)]: [X[0]] is the integer typed in, the
    other entries come from the linear congruential generator; the
    counter is left at 624. *)
Definition seed (s : Z) : state :=
  let X := upd (fun _ => 0) 0 (u32 s) in
  let X :=
    fold_left (fun X k => upd X k (u32 (22695477 * X (k - 1) + 1)))
              (zrange 1 623) X in
  mkState X 624.

(** The tempering function:
    <<
    N ^= (N >> 11);
    N ^= (N << 7) & 0x9d2c5680;
    N ^= (N << 15) & 0xefc60000;
    N ^= (N >> 18);
    >> *)
Definition temper (N : Z) : Z :=
  let N := Z.lxor N (Z.shiftr N 11) in
  let N := Z.lxor N (Z.land (u32 (Z.shiftl N 7)) 2636928640) in
  let N := Z.lxor N (Z.land (u32 (Z.shiftl N 15)) 4022730752) in
  Z.lxor N (Z.shiftr N 18).

(** One call of [MTUniform] after seeding, up to the tempered word. *)
Definition step (st : state) : Z * state :=
  let X := X st in
  let k := k st in
  let Y := Z.lor (Z.land (X (k - 624)) 2147483648)
                 (Z.land (X (k - 623)) 2147483647) in
  let X := upd X k (Z.lxor (Z.lxor (Z.shiftr Y 1) (m (Z.land Y 1)))
                           (X (k - 227))) in
  let X := upd X (k - 624) (X k) in
  let N := temper (X k) in
  let k := k + 1 in
  let k := if k =? 1248 then 624 else k in
  (N, mkState X k).

(** The tempered words of the next [n] calls. *)
Fixpoint draws (n : nat) (st : state) : rng :=
  match n with
  | O => []
  | S n' => let '(N, st') := step st in N :: draws n' st'
  end.

(** The state after [n] calls. *)
Fixpoint after (n : nat) (st : state) : state :=
  match n with
  | O => st
  | S n' => after n' (snd (step st))
  end.

End Twister.

(** ** The acceptance test shared by the solvers *)

Module Acceptance.

(** [T > 0] on doubles. *)
Definition positive_temp (T : Q) : bool := negb (Qle_bool T 0).

(** A read [P[i]] of a block of [length P] doubles. *)
Definition read (P : list Q) (i : Z) : res Q :=
  if i <? 0 then Undefined
  else match nth_error P (Z.to_nat i) with
       | Some p => Done p
       | None => Undefined
       end.

(** <<
    AcceptTransition = 0;
    if (deltaE <= 0) { AcceptTransition = 1; }
    else if (T > 0) { if (MTUniform() <= P[deltaE]) AcceptTransition = 1; }
    >> *)
Definition AcceptTransition (T : Q) (P : list Q) (deltaE : Z) (g : rng)
  : res (bool * rng) :=
  if deltaE <=? 0 then Done (true, g)
  else if positive_temp T then
    do '(U, g') <- MTUniform g;
    do p <- read P deltaE;
    Done (Qle_bool U p, g')
  else Done (false, g).

End Acceptance.
Import Acceptance.

(** ** Two Not Touch solver *)

Module TwoNotTouch.

Record config : Type := mkConfig {
  col : Z -> Z -> Z;   (* col[r][s]: column of star s in row r *)
  R : Z; S : Z; C : Z  (* the star last moved and its former column *)
}.

(** The [while (1)] loop of [Proposal]: redraw [col[R][S]] until it
    differs from both [C] and [c]. *)
Fixpoint Proposal_loop (col : Z -> Z -> Z) (R S C c : Z) (g : rng)
  : res ((Z -> Z -> Z) * rng) :=
  match g with
  | [] => NeedMore
  | N :: g' =>
      let col' := upd2 col R S (RandomInteger_of 1 10 N) in
      if negb (col' R S =? C) && negb (col' R S =? c)
      then Done (col', g')
      else Proposal_loop col' R S C c g'
  end.

Definition Proposal (st : config) (g : rng) : res (config * rng) :=
  do '(R, g1) <- RandomInteger 1 10 g;
  do '(S, g2) <- RandomInteger 1 2 g1;
  let C := col st R S in
  let c := col st R (3 - S) in
  do '(col', g3) <- Proposal_loop (col st) R S C c g2;
  Done (mkConfig col' R S C, g3).

(** The rejection branch of [Metropolis]: [col[R][S] = C]. *)
Definition ChangeBack (st : config) : config :=
  mkConfig (upd2 (col st) (R st) (S st) (C st)) (R st) (S st) (C st).

Section Chain.
(** [Energy ()] reads [col] (and the fixed regions) only; the
    acceptance logic does not depend on how it is computed. *)
Variable Energy : (Z -> Z -> Z) -> Z.
Variable T : Q.
Variable P : list Q.   (* calloc (25, sizeof (double)) *)

(** One pass through the body of [while (E > 0)]. *)
Definition Metropolis_step (st : config) (E : Z) (g : rng)
    : res (config * Z * rng) :=
    do '(st1, g1) <- Proposal st g;
    let deltaE := Energy (col st1) - E in
    do '(acc, g2) <- AcceptTransition T P deltaE g1;
    if (acc : bool) then Done (st1, E + deltaE, g2)
    else Done (ChangeBack st1, E, g2).
End Chain.

(** [Energy ()].  [reg[r][c]] is the region of square (r, c);
    [regcount] and [colcount] stand for the local arrays as they are
    found on entry (they are not initialised by their declaration; the
    first loop clears the entries 1..10). *)
Definition Energy (reg : Z -> Z -> Z) (regcount colcount : Z -> Z)
           (col : Z -> Z -> Z) : Z :=
  let '(regcount, colcount) :=
    fold_left
      (fun '(regcount, colcount) c => (upd regcount c 0, upd colcount c 0))
      (zrange 1 10) (regcount, colcount) in
  let '(regcount, colcount) :=
    fold_left
      (fun acc r =>
         fold_left
           (fun '(regcount, colcount) s =>
              let column := col r s in
              let region := reg r column in
              let colcount := upd colcount column (colcount column + 1) in
              let regcount := upd regcount region (regcount region + 1) in
              (regcount, colcount))
           (zrange 1 2) acc)
      (zrange 1 10) (regcount, colcount) in
  let E :=
    fold_left
      (fun E c => E + (Z.abs (regcount c - 2) + Z.abs (colcount c - 2)))
      (zrange 1 10) 0 in
  let E :=
    fold_left (fun E r => E + b2z (Z.abs (col r 1 - col r 2) =? 1))
              (zrange 1 10) E in
  fold_left
    (fun E r =>
       let E := E + b2z (Z.abs (col r 1 - col (r + 1) 1) <=? 1) in
       let E := E + b2z (Z.abs (col r 1 - col (r + 1) 2) <=? 1) in
       let E := E + b2z (Z.abs (col r 2 - col (r + 1) 1) <=? 1) in
       E + b2z (Z.abs (col r 2 - col (r + 1) 2) <=? 1))
    (zrange 1 9) E.

(** [return (abs(a-c) + abs(b-d) == 1);] *)
Definition NearestNeighbor (a b c d : Z) : Z :=
  b2z (Z.abs (a - c) + Z.abs (b - d) =? 1).

(** The loop of [GetPuzzle] that draws the second star of row [r]:
    [col[r][2] = RandomInteger (1,10); if (col[r][2] != col[r][1]) break;] *)
Fixpoint second_star (col : Z -> Z -> Z) (r : Z) (g : rng)
  : res ((Z -> Z -> Z) * rng) :=
  match g with
  | [] => NeedMore
  | N :: g' =>
      let col := upd2 col r 2 (RandomInteger_of 1 10 N) in
      if negb (col r 2 =? col r 1) then Done (col, g')
      else second_star col r g'
  end.

(** The random initial configuration of [GetPuzzle], over the rows
    [rows]. *)
Fixpoint place_stars (rows : list Z) (col : Z -> Z -> Z) (g : rng)
  : res ((Z -> Z -> Z) * rng) :=
  match rows with
  | [] => Done (col, g)
  | r :: rows' =>
      do '(c1, g1) <- RandomInteger 1 10 g;
      let col := upd2 col r 1 c1 in
      do '(col, g2) <- second_star col r g1;
      place_stars rows' col g2
  end.

(** [GetPuzzle] as far as the configuration goes: the seeding call of
    [MTUniform], then the stars. *)
Definition GetPuzzle (col : Z -> Z -> Z) (g : rng) : res ((Z -> Z -> Z) * rng) :=
  do '(_, g1) <- MTUniform g;
  place_stars (zrange 1 10) col g1.

(** [while (E > 0) ...], at most [steps] passes, with the energy
    function [Energy]. *)
Fixpoint Metropolis_loop (steps : nat) (Energy : (Z -> Z -> Z) -> Z) (T : Q)
         (P : list Q) (st : config) (E : Z) (g : rng) : res (config * rng) :=
  if E >? 0 then
    match steps with
    | O => NeedMore
    | Datatypes.S steps' =>
        do '(st', E', g') <- Metropolis_step Energy T P st E g;
        Metropolis_loop steps' Energy T P st' E' g'
    end
  else Done (st, g).

Definition Metropolis (steps : nat) (Energy : (Z -> Z -> Z) -> Z) (T : Q)
           (P : list Q) (st : config) (g : rng) : res (config * rng) :=
  Metropolis_loop steps Energy T P st (Energy (col st)) g.

End TwoNotTouch.

(** ** KenKen solver *)

Module KenKen.

Record config : Type := mkConfig {
  x1 : Z -> Z;     (* digits at the 49 grid sites *)
  I0 : Z; I1 : Z   (* the two sites last swapped *)
}.

(** [temp = x1[I0]; x1[I0] = x1[I1]; x1[I1] = temp;] *)
Definition swap (x1 : Z -> Z) (I0 I1 : Z) : Z -> Z :=
  let temp := x1 I0 in
  let x1' := upd x1 I0 (x1 I1) in
  upd x1' I1 temp.

(** [I1 = I0; while (x1[I1] == x1[I0]) I1 = RandomInteger (1, 49);] *)
Fixpoint pick_I1 (x1 : Z -> Z) (I0 I1 : Z) (g : rng) : res (Z * rng) :=
  if negb (x1 I1 =? x1 I0) then Done (I1, g)
  else match g with
       | [] => NeedMore
       | N :: g' => pick_I1 x1 I0 (RandomInteger_of 1 49 N) g'
       end.

Definition Proposal (st : config) (g : rng) : res (config * rng) :=
  do '(I0, g1) <- RandomInteger 1 49 g;
  do '(I1, g2) <- pick_I1 (x1 st) I0 I0 g1;
  Done (mkConfig (swap (x1 st) I0 I1) I0 I1, g2).

Definition ChangeBack (st : config) : config :=
  mkConfig (swap (x1 st) (I0 st) (I1 st)) (I0 st) (I1 st).

Section Chain.
Variable Energy : (Z -> Z) -> Z.
Variable T : Q.
Variable prob : list Q.   (* calloc (11, sizeof (double)) *)

Definition Metropolis_step (st : config) (E : Z) (g : rng)
    : res (config * Z * rng) :=
    do '(st1, g1) <- Proposal st g;
    let deltaE := Energy (x1 st1) - E in
    do '(acc, g2) <- AcceptTransition T prob deltaE g1;
    if (acc : bool) then Done (st1, E + deltaE, g2)
    else Done (ChangeBack st1, E, g2).
End Chain.

(** [count[x1[k]] ++] on the local array [int count[8]]. *)
Definition tally (x1 count : Z -> Z) (k : Z) : Z -> Z :=
  upd count (x1 k) (count (x1 k) + 1).

(** [for (i = 0; i <= 7; i++) count[i] = 0;] *)
Definition clear (count : Z -> Z) : Z -> Z :=
  fold_left (fun count i => upd count i 0) (zrange 0 8) count.

(** [for (i = 1; i <= 7; i++) E += abs(count[i] - 1);] *)
Definition deviations (count : Z -> Z) (E : Z) : Z :=
  fold_left (fun E i => E + Z.abs (count i - 1)) (zrange 1 7) E.

(** The body of [for (c = 1; c <= 7; c++)] in [Energy]: the sites of
    column c are reached by [k = c] and six times [k += 7]. *)
Definition column_pass (x1 : Z -> Z) (acc : Z * (Z -> Z)) (c : Z)
  : Z * (Z -> Z) :=
  let '(E, count) := acc in
  let count := clear count in
  let k := c in
  let count := tally x1 count k in
  let '(k, count) :=
    fold_left (fun '(k, count) (r : Z) =>
                 let k := k + 7 in (k, tally x1 count k))
              (zrange 2 6) (k, count) in
  (deviations count E, count).

(** The body of [for (r = 1; r <= 7; r++)]: the site number [k] runs
    on from one row to the next. *)
Definition row_pass (x1 : Z -> Z) (acc : Z * (Z -> Z) * Z) (r : Z)
  : Z * (Z -> Z) * Z :=
  let '(E, count, k) := acc in
  let count := clear count in
  let '(k, count) :=
    fold_left (fun '(k, count) (c : Z) =>
                 let k := k + 1 in (k, tally x1 count k))
              (zrange 1 7) (k, count) in
  (deviations count E, count, k).

(** A product kept in a 32-bit [int]: where it leaves the range
    (possible only in a region of twelve or more sites, 7^11 being
    below 2^31) the value wraps around, as two's-complement arithmetic
    does. *)
Definition wrap (z : Z) : Z :=
  (z + 2147483648) mod 4294967296 - 2147483648.

(** [Operation (k)].  [puzzle[k][0]] is the number of sites of region
    k and [puzzle[k][1..]] lists them; [op[k]] is one of the
    characters '+' (43), '-' (45), '*' (42), '/' (47).  [None] stands
    for the call of [Exit ()] in the last branch.  [%] and [/] are the
    truncating operations of C; the divisors are entries of [x1]. *)
Definition Operation (puzzle : Z -> Z -> Z) (op : Z -> Z) (x1 : Z -> Z)
           (k : Z) : option Z :=
  let p := puzzle k in
  if op k =? 43 then
    Some (fold_left (fun answer i => answer + x1 (p i))
                    (zrange 1 (Z.to_nat (p 0))) 0)
  else if op k =? 45 then
    Some (fold_left (fun answer i =>
                       let answer := answer - x1 (p i) in
                       if answer <? 0 then answer * -1 else answer)
                    (zrange 2 (Z.to_nat (p 0 - 1))) (x1 (p 1)))
  else if op k =? 42 then
    Some (fold_left (fun answer i => wrap (answer * x1 (p i)))
                    (zrange 1 (Z.to_nat (p 0))) 1)
  else if op k =? 47 then
    Some (if Z.rem (x1 (p 1)) (x1 (p 2)) =? 0
          then Z.quot (x1 (p 1)) (x1 (p 2))
          else if Z.rem (x1 (p 2)) (x1 (p 1)) =? 0
               then Z.quot (x1 (p 2)) (x1 (p 1))
               else -1)
  else None.

(** [Energy ()].  [count] stands for the local array as it is found
    on entry; [None] when a call of [Operation] ends the program. *)
Definition Energy (puzzle : Z -> Z -> Z) (op ans : Z -> Z) (count : Z -> Z)
           (x1 : Z -> Z) : option Z :=
  let E := 0 in
  let '(E, count) := fold_left (column_pass x1) (zrange 1 7) (E, count) in
  let k := 0 in
  let '(E, count, k) := fold_left (row_pass x1) (zrange 1 7) (E, count, k) in
  fold_left
    (fun E k =>
       match E with
       | Some E =>
           match Operation puzzle op x1 k with
           | Some answer => Some (E + b2z (negb (answer =? ans k)))
           | None => None
           end
       | None => None
       end)
    (zrange 1 (Z.to_nat (puzzle 0 0))) (Some E).

(** [i = 0; while (x1[i] != 0) i = RandomInteger (1, 49);] *)
Fixpoint free_site (x1 : Z -> Z) (i : Z) (g : rng) : res (Z * rng) :=
  if negb (x1 i =? 0) then
    match g with
    | [] => NeedMore
    | N :: g' => free_site x1 (RandomInteger_of 1 49 N) g'
    end
  else Done (i, g).

(** The loop [for (k = 0; k < 49; k++)] of [Initialize], over the
    values [ks] of k. *)
Fixpoint Initialize_loop (ks : list Z) (x1 : Z -> Z) (g : rng)
  : res ((Z -> Z) * rng) :=
  match ks with
  | [] => Done (x1, g)
  | k :: ks' =>
      do '(i, g1) <- free_site x1 0 g;
      Initialize_loop ks' (upd x1 i (Z.rem k 7 + 1)) g1
  end.

Definition Initialize (x1 : Z -> Z) (g : rng) : res ((Z -> Z) * rng) :=
  let x1 := upd x1 0 (-1) in
  Initialize_loop (zrange 0 49) x1 g.

(** The body of the loops of [GetPuzzle] that read the regions:
    [line j] is the character [input[j]] of the current line. *)
Definition read_letter (line : Z -> Z) (acc : Z * Z * (Z -> Z -> Z)) (j : Z)
  : Z * Z * (Z -> Z -> Z) :=
  let '(n, k, puzzle) := acc in
  let k := k + 1 in
  let r := line j - 65 + 1 in
  let n := if r >? n then r else n in
  let puzzle := upd2 puzzle r 0 (puzzle r 0 + 1) in
  let m := puzzle r 0 in
  let puzzle := upd2 puzzle r m k in
  (n, k, puzzle).

(** The seven lines of letters; then [puzzle[0][0] = n]. *)
Definition read_regions (letters : Z -> Z -> Z) (puzzle : Z -> Z -> Z)
  : Z -> Z -> Z :=
  let '(n, k, puzzle) :=
    fold_left (fun acc i => fold_left (read_letter (letters i)) (zrange 0 7) acc)
              (zrange 1 7) (0, 0, puzzle) in
  upd2 puzzle 0 0 n.

(** The n lines of clues: [op[i] = input[2]] and the number read by
    [sscanf], which leaves [ans[i]] alone when it finds none. *)
Definition read_clues (n : Z) (clue_op : Z -> Z) (clue_number : Z -> option Z)
           (op ans : Z -> Z) : (Z -> Z) * (Z -> Z) :=
  fold_left
    (fun '(op, ans) i =>
       (upd op i (clue_op i),
        match clue_number i with Some v => upd ans i v | None => ans end))
    (zrange 1 (Z.to_nat n)) (op, ans).

(** [GetPuzzle ()] once the file is open. *)
Definition GetPuzzle (letters : Z -> Z -> Z) (clue_op : Z -> Z)
           (clue_number : Z -> option Z)
           (puzzle : Z -> Z -> Z) (op ans x1 : Z -> Z) (g : rng)
  : res ((Z -> Z -> Z) * (Z -> Z) * (Z -> Z) * (Z -> Z) * rng) :=
  let puzzle := read_regions letters puzzle in
  let n := puzzle 0 0 in
  let '(op, ans) := read_clues n clue_op clue_number op ans in
  do '(x1, g1) <- Initialize x1 g;
  Done (puzzle, op, ans, x1, g1).

(** [while (E > 0) ...], at most [steps] passes, with the energy
    function [Energy]. *)
Fixpoint Metropolis_loop (steps : nat) (Energy : (Z -> Z) -> Z) (T : Q)
         (prob : list Q) (st : config) (E : Z) (g : rng) : res (config * rng) :=
  if E >? 0 then
    match steps with
    | O => NeedMore
    | S steps' =>
        do '(st', E', g') <- Metropolis_step Energy T prob st E g;
        Metropolis_loop steps' Energy T prob st' E' g'
    end
  else Done (st, g).

Definition Metropolis (steps : nat) (Energy : (Z -> Z) -> Z) (T : Q)
           (prob : list Q) (st : config) (g : rng) : res (config * rng) :=
  Metropolis_loop steps Energy T prob st (Energy (x1 st)) g.


End KenKen.

(** ** TSP route finder: segment reversal *)

Module Tsp.

(** The [while (1)] loop of [Proposal]; [K] is the number of sites
    (183 in [InitializeArrays]). *)
Fixpoint Proposal (K : Z) (g : rng) : res (Z * Z * rng) :=
  match g with
  | N1 :: N2 :: g' =>
      let i0 := RandomInteger_of 2 K N1 in
      let j0 := RandomInteger_of 2 K N2 in
      let '(i0, j0) := if j0 <? i0 then (j0, i0) else (i0, j0) in
      let k := j0 - i0 in
      if (0 <? k) && (k <? K - 2) then Done (i0, j0, g')
      else Proposal K g'
  | _ => NeedMore
  end.

(** [Reverse]: copy [c[i0..j0]] to [temp], then
    [c[k] = temp[i0+j0-k]] for [k = i0..j0]. *)
Definition Reverse (c : Z -> Z) (i0 j0 : Z) : Z -> Z :=
  let len := Z.to_nat (j0 - i0 + 1) in
  let temp := fold_left (fun t k => upd t k (c k)) (zrange i0 len) (fun _ => 0) in
  fold_left (fun c' k => upd c' k (temp (i0 + j0 - k))) (zrange i0 len) c.

(** [n] calls of [MTUniform ()] whose values do not reach the route:
    the seeding call of [RandomRoute] and the 2K perturbations of the
    site coordinates in [InitializeArrays]. *)
Fixpoint discard (n : nat) (g : rng) : res rng :=
  match n with
  | O => Done g
  | S n' => match g with
            | [] => NeedMore
            | _ :: g' => discard n' g'
            end
  end.

(** The loop [for (i = 2; i < K; i++)] of [RandomRoute] over the
    indices [idx]:
    [j = RandomInteger (i,K); k = c[i]; c[i] = c[j]; c[j] = k;] *)
Fixpoint permute_sites (idx : list Z) (K : Z) (c : Z -> Z) (g : rng)
  : res ((Z -> Z) * rng) :=
  match idx with
  | [] => Done (c, g)
  | i :: idx' =>
      do '(j, g1) <- RandomInteger i K g;
      let k := c i in
      let c := upd c i (c j) in
      let c := upd c j k in
      permute_sites idx' K c g1
  end.

(** The route set up by [RandomRoute]; [c] holds whatever the block
    contained before. *)
Definition RandomRoute (K : Z) (c : Z -> Z) (g : rng) : res ((Z -> Z) * rng) :=
  do g1 <- discard (1 + 2 * Z.to_nat K) g;
  let c := fold_left (fun c i => upd c i i) (zrange 1 (Z.to_nat K)) c in
  let c := upd c (K + 1) 1 in
  permute_sites (zrange 2 (Z.to_nat (K - 2))) K c g1.

End Tsp.

(** ** Magic-square generator *)

Module MagicSquare.

(** <<
    if (DeltaE <= 0) AcceptTransition = 1;
    else if (T > 0) {
       U = MTUniform ();
       p = (DeltaE < 100 ? P[DeltaE] : 0.0);
       if (U <= p) AcceptTransition = 1;
    }
    >> *)
Definition AcceptTransition (T : Q) (P : list Q) (DeltaE : Z) (g : rng)
  : res (bool * rng) :=
  if DeltaE <=? 0 then Done (true, g)
  else if positive_temp T then
    do '(U, g') <- MTUniform g;
    do p <- (if DeltaE <? 100 then read P DeltaE else Done 0%Q);
    Done (Qle_bool U p, g')
  else Done (false, g).

(** [Energy ()] for the order [N] and the square [S], in exact
    integers: the value of the code as long as none of its [int]
    variables overflows, which holds for every square with entries in
    1..N^2 up to order 180 ([MagicSquare_Energy_fits]). *)
Definition Energy (N : Z) (S : Z -> Z -> Z) : Z :=
  let sum := Z.quot (N * (N * N + 1)) 2 in
  let idx := zrange 1 (Z.to_nat N) in
  let '(E, d1sum, d2sum) :=
    fold_left
      (fun '(E, d1sum, d2sum) i =>
         let '(rowsum, colsum) :=
           fold_left
             (fun '(rowsum, colsum) j => (rowsum + S i j, colsum + S j i))
             idx (0, 0) in
         let E := E + Z.abs (rowsum - sum) in
         let E := E + Z.abs (colsum - sum) in
         (E, d1sum + S i i, d2sum + S i (N + 1 - i)))
      idx (0, 0, 0) in
  let E := E + Z.abs (d1sum - sum) in
  E + Z.abs (d2sum - sum).

(** <<
    while (i1 == i0 && j1 == j0) {
       i1 = RandomInteger (1, N);
       j1 = RandomInteger (1, N);
    }
    >> *)
Fixpoint second_square (N i0 j0 i1 j1 : Z) (g : rng) : res (Z * Z * rng) :=
  if (i1 =? i0) && (j1 =? j0) then
    match g with
    | N1 :: N2 :: g' =>
        second_square N i0 j0 (RandomInteger_of 1 N N1) (RandomInteger_of 1 N N2) g'
    | _ => NeedMore
    end
  else Done (i1, j1, g).

(** [temp = S[i0][j0]; S[i0][j0] = S[i1][j1]; S[i1][j1] = temp;] *)
Definition swap (S : Z -> Z -> Z) (i0 j0 i1 j1 : Z) : Z -> Z -> Z :=
  let temp := S i0 j0 in
  let S := upd2 S i0 j0 (S i1 j1) in
  upd2 S i1 j1 temp.

(** The body of [while (E > 0)]; [P] is the block of 101 doubles. *)
Definition Metropolis_step (N : Z) (T : Q) (P : list Q) (S : Z -> Z -> Z)
           (E : Z) (g : rng) : res ((Z -> Z -> Z) * Z * rng) :=
  do '(i0, g1) <- RandomInteger 1 N g;
  do '(j0, g2) <- RandomInteger 1 N g1;
  do '(i1, j1, g3) <- second_square N i0 j0 i0 j0 g2;
  let S1 := swap S i0 j0 i1 j1 in
  let DeltaE := Energy N S1 - E in
  do '(acc, g4) <- AcceptTransition T P DeltaE g3;
  if (acc : bool) then Done (S1, E + DeltaE, g4)
  else Done (swap S1 i0 j0 i1 j1, E, g4).

(** [while (E > 0) ...], at most [steps] passes; [E] is the exact
    energy, the value of the [int] of the code while the energy fits
    (see [Energy]). *)
Fixpoint Metropolis_loop (steps : nat) (N : Z) (T : Q) (P : list Q)
         (S : Z -> Z -> Z) (E : Z) (g : rng) : res ((Z -> Z -> Z) * rng) :=
  if E >? 0 then
    match steps with
    | O => NeedMore
    | Datatypes.S steps' =>
        do '(S', E', g') <- Metropolis_step N T P S E g;
        Metropolis_loop steps' N T P S' E' g'
    end
  else Done (S, g).

Definition Metropolis (steps : nat) (N : Z) (T : Q) (P : list Q)
           (S : Z -> Z -> Z) (g : rng) : res ((Z -> Z -> Z) * rng) :=
  Metropolis_loop steps N T P S (Energy N S) g.

(** The loop of [Initialize] that scrambles the list [n[1..M]]:
    [j = RandomInteger (i, N*N); temp = n[i]; n[i] = n[j]; n[j] = temp;] *)
Fixpoint scramble (idx : list Z) (M : Z) (n : Z -> Z) (g : rng)
  : res ((Z -> Z) * rng) :=
  match idx with
  | [] => Done (n, g)
  | i :: idx' =>
      do '(j, g1) <- RandomInteger i M g;
      let temp := n i in
      let n := upd n i (n j) in
      let n := upd n j temp in
      scramble idx' M n g1
  end.

(** The double loop of [Initialize] that places [n[1], n[2], ...] on
    the grid row by row, over the squares [l] with the counter [k]. *)
Definition place (n : Z -> Z) (l : list (Z * Z)) (k : Z) (S : Z -> Z -> Z)
  : Z * (Z -> Z -> Z) :=
  fold_left (fun '(k, S) '(i, j) => let k := k + 1 in (k, upd2 S i j (n k)))
            l (k, S).

(** [Initialize] up to the placement; [n] and [S] hold whatever the
    blocks contained.  The first call of [MTUniform] seeds the
    generator, its value is not used.  [N * N] and the draws
    [RandomInteger (i, N*N)] are those of the code for N <= 1023,
    where N^2 < 2^20 (see [RandomInteger_of]). *)
Definition Initialize (N : Z) (n : Z -> Z) (S : Z -> Z -> Z) (g : rng)
  : res ((Z -> Z -> Z) * rng) :=
  do '(_, g1) <- MTUniform g;
  let n := fold_left (fun n i => upd n i i) (zrange 1 (Z.to_nat (N * N))) n in
  do '(n, g2) <- scramble (zrange 1 (Z.to_nat (N * N - 1))) (N * N) n g1;
  let idx := zrange 1 (Z.to_nat N) in
  Done (snd (place n (flat_map (fun i => map (fun j => (i, j)) idx) idx) 0 S), g2).

End MagicSquare.

(** ** Sudoku solver *)

Module SudokuSolver.

Section Grid.
Variable x : Z -> Z -> Z.      (* the digits *)
Variable clue : Z -> Z -> Z.   (* 1 at clue sites, 0 elsewhere *)

(** [(clue[r0][c0] || clue[r][c] ? 5 : 1)] *)
Definition weight (r0 c0 r c : Z) : Z :=
    if negb (clue r0 c0 =? 0) || negb (clue r c =? 0) then 5 else 1.

Definition Conflicts (r0 c0 d : Z) : Z :=
    let conflicts :=
      fold_left
        (fun conflicts k =>
           let conflicts :=
             if negb (k =? c0)
             then conflicts + b2z (x r0 k =? d) * weight r0 c0 r0 k
             else conflicts in
           if negb (k =? r0)
           then conflicts + b2z (x k c0 =? d) * weight r0 c0 k c0
           else conflicts)
        digits 0 in
    let lower := 1 + 3 * Z.quot (c0 - 1) 3 in
    let left := 1 + 3 * Z.quot (r0 - 1) 3 in
    fold_left
      (fun conflicts r =>
         fold_left
           (fun conflicts c =>
              if negb (r =? r0) && negb (c =? c0)
              then conflicts + b2z (x r c =? d) * weight r0 c0 r c
              else conflicts)
           (zrange lower 3) conflicts)
      (zrange left 3) conflicts.

Definition Energy : Z :=
    let E :=
      fold_left
        (fun E i => fold_left (fun E j => E + Conflicts i j (x i j)) digits E)
        digits 0 in
    Z.quot E 2.
End Grid.

Record config : Type := mkConfig {
  x : Z -> Z -> Z;
  i0 : Z; j0 : Z; x0 : Z   (* the proposed cell and digit *)
}.

(** First loop of [Proposal]: draw a cell until it is not a clue. *)
Fixpoint pick_cell (clue : Z -> Z -> Z) (g : rng) : res (Z * Z * rng) :=
  match g with
  | N1 :: N2 :: g' =>
      let i0 := RandomInteger_of 1 9 N1 in
      let j0 := RandomInteger_of 1 9 N2 in
      if clue i0 j0 =? 0 then Done (i0, j0, g') else pick_cell clue g'
  | _ => NeedMore
  end.

(** Second loop: draw a digit until it differs from the current one. *)
Fixpoint pick_digit (cur : Z) (g : rng) : res (Z * rng) :=
  match g with
  | [] => NeedMore
  | N :: g' =>
      let x0 := RandomInteger_of 1 9 N in
      if negb (x0 =? cur) then Done (x0, g') else pick_digit cur g'
  end.

Definition Proposal (clue : Z -> Z -> Z) (st : config) (g : rng)
  : res (config * rng) :=
  do '(i0, j0, g1) <- pick_cell clue g;
  do '(x0, g2) <- pick_digit (x st i0 j0) g1;
  Done (mkConfig (x st) i0 j0 x0, g2).

Section Chain.
Variable clue : Z -> Z -> Z.
Variable T : Q.
Variable prob : list Q.   (* calloc (21, sizeof (double)) *)

(** The change in energy computed in [Metropolis]. *)
Definition deltaE_of (st : config) : Z :=
    Conflicts (x st) clue (i0 st) (j0 st) (x0 st)
    - Conflicts (x st) clue (i0 st) (j0 st) (x st (i0 st) (j0 st)).

(** The body of [while (E > 0)] after [Proposal ()]. *)
Definition decide (st : config) (E : Z) (g : rng) : res (config * Z * rng) :=
    let deltaE := deltaE_of st in
    do '(acc, g') <- AcceptTransition T prob deltaE g;
    if (acc : bool)
    then Done (mkConfig (upd2 (x st) (i0 st) (j0 st) (x0 st))
                        (i0 st) (j0 st) (x0 st), E + deltaE, g')
    else Done (st, E, g').

Definition Metropolis_step (st : config) (E : Z) (g : rng)
    : res (config * Z * rng) :=
    do '(st1, g1) <- Proposal clue st g;
    decide st1 E g1.
End Chain.

(** The double loop at the end of [GetPuzzle] over the sites [l]:
    flag the clue sites, randomise the others.  [x] holds the digits
    read from the puzzle file, 0 for an empty site. *)
Fixpoint GetPuzzle_loop (l : list (Z * Z)) (x clue : Z -> Z -> Z) (g : rng)
  : res ((Z -> Z -> Z) * (Z -> Z -> Z) * rng) :=
  match l with
  | [] => Done (x, clue, g)
  | (i, j) :: l' =>
      let clue := upd2 clue i j (b2z (negb (x i j =? 0))) in
      if clue i j =? 0 then
        do '(v, g1) <- RandomInteger 1 9 g;
        GetPuzzle_loop l' (upd2 x i j v) clue g1
      else GetPuzzle_loop l' x clue g
  end.

(** [while (E > 0) ...], at most [steps] passes. *)
Fixpoint Metropolis_loop (steps : nat) (clue : Z -> Z -> Z) (T : Q)
         (prob : list Q) (st : config) (E : Z) (g : rng)
  : res (config * rng) :=
  if E >? 0 then
    match steps with
    | O => NeedMore
    | S steps' =>
        do '(st', E', g') <- Metropolis_step clue T prob st E g;
        Metropolis_loop steps' clue T prob st' E' g'
    end
  else Done (st, g).

Definition Metropolis (steps : nat) (clue : Z -> Z -> Z) (T : Q)
           (prob : list Q) (st : config) (g : rng) : res (config * rng) :=
  Metropolis_loop steps clue T prob st (Energy (x st) clue) g.

End SudokuSolver.

(** ** Sudoku puzzle maker: clue reduction and the uniqueness oracle *)

Module PuzzleMaker.

(** *** [Flip] *)

Definition Flip (C : Z -> Z -> Z) (x0 y0 : Z) : (Z -> Z -> Z) * Z :=
  let C := upd2 C x0 y0 (1 - C x0 y0) in
  let both55 := (x0 =? 5) && (y0 =? 5) in
  let C :=
    if negb both55
    then let x1 := 10 - x0 in
         let y1 := 10 - y0 in
         upd2 C x1 y1 (1 - C x1 y1)
    else C in
  let DeltaClues :=
    (if C x0 y0 =? 1 then 1 else -1) * (if both55 then 1 else 2) in
  (C, DeltaClues).

(** *** The trail of the advance/retreat search *)

Record trail : Type := mkTrail {
  r : Z -> Z;             (* r[i], c[i]: the site of trail entry i *)
  c : Z -> Z;
  m : Z -> Z;             (* m[i]: index of the current digit in n[i][.] *)
  n : Z -> Z -> Z;        (* n[i][j]: recorded digits for entry i *)
  Gtilde : Z -> Z -> Z;   (* 1 when the site is on the trail *)
  istar : Z;
  Csize : Z
}.

Definition set_n (t : trail) (n' : Z -> Z -> Z) : trail :=
  mkTrail (r t) (c t) (m t) n' (Gtilde t) (istar t) (Csize t).
Definition set_istar (t : trail) (i : Z) : trail :=
  mkTrail (r t) (c t) (m t) (n t) (Gtilde t) i (Csize t).
Definition set_Gtilde (t : trail) (G : Z -> Z -> Z) : trail :=
  mkTrail (r t) (c t) (m t) (n t) G (istar t) (Csize t).

(** The loop body of [GettingStarted] at site [(x,y)], with loop
    counter [i]. *)
Definition GettingStarted_body (s C : Z -> Z -> Z)
           (acc : Z * trail) (xy : Z * Z) : Z * trail :=
  let '(i, t) := acc in
  let '(x, y) := xy in
  if negb (C x y =? 0) then
    let i := i + 1 in
    (i, mkTrail (upd (r t) i x) (upd (c t) i y) (upd (m t) i 1)
                (upd2 (n t) i 1 (s x y)) (upd2 (Gtilde t) x y 1)
                (istar t) (Csize t))
  else (i, set_Gtilde t (upd2 (Gtilde t) x y 0)).

(** [t0] holds whatever the arrays contained before the call. *)
Definition GettingStarted (s C : Z -> Z -> Z) (t0 : trail) : trail :=
  let '(i, t) := fold_left (GettingStarted_body s C) cells (0, t0) in
  mkTrail (r t) (c t) (m t) (n t) (Gtilde t) i i.

(** [(x-1)/3 + 3*((y-1)/3)] *)
Definition block (x y : Z) : Z := Z.quot (x - 1) 3 + 3 * Z.quot (y - 1) 3.

(** The loop of [Consistent] from entry [i], [cnt] entries to go. *)
Fixpoint Consistent_loop (t : trail) (x y v b0 i : Z) (cnt : nat) : Z :=
  match cnt with
  | O => 1
  | S cnt' =>
      if v =? n t i (m t i) then
        if r t i =? x then 0
        else if c t i =? y then 0
        else if block (r t i) (c t i) =? b0 then 0
        else Consistent_loop t x y v b0 (i + 1) cnt'
      else Consistent_loop t x y v b0 (i + 1) cnt'
  end.

Definition Consistent (t : trail) (x y v k : Z) : Z :=
  let b0 := block x y in
  Consistent_loop t x y v b0 1 (Z.to_nat k).

(** The inner loop of [Advance] that computes [m0]. *)
Definition count_consistent (t : trail) (x y : Z) : Z :=
  fold_left
    (fun m0 v => if negb (Consistent t x y v (istar t) =? 0) then m0 + 1 else m0)
    digits 0.

(** The double loop of [Advance] over the remaining sites [l], with
    the running [mprime], [rprime], [cprime]; [None] is the early
    [return 2]. *)
Fixpoint scan (t : trail) (l : list (Z * Z)) (mprime rprime cprime : Z)
  : option (Z * Z * Z) :=
  match l with
  | [] => Some (mprime, rprime, cprime)
  | (x, y) :: l' =>
      if Gtilde t x y =? 0 then
        let m0 := count_consistent t x y in
        let '(mprime, rprime, cprime) :=
          if m0 <? mprime then (m0, x, y) else (mprime, rprime, cprime) in
        if mprime =? 0 then None
        else scan t l' mprime rprime cprime
      else scan t l' mprime rprime cprime
  end.

(** The loop of [Advance] that records the consistent digits at
    [(rprime, cprime)] in [n[istar][1..]]; it runs after [istar ++]. *)
Definition record_body (rprime cprime : Z) (acc : Z * trail) (v : Z)
  : Z * trail :=
  let '(j, t) := acc in
  if negb (Consistent t rprime cprime v (istar t - 1) =? 0) then
    let j := j + 1 in
    (j, set_n t (upd2 (n t) (istar t) j v))
  else (j, t).

(** [rprime] and [cprime] are not initialised in the source; they are
    assigned at the first site that is not on the trail. *)
Definition Advance (t : trail) : Z * trail :=
  if istar t =? 81 then (0, t)
  else
    match scan t cells 10 0 0 with
    | None => (2, t)
    | Some (mprime, rprime, cprime) =>
        let t := set_istar t (istar t + 1) in
        let '(j, t) := fold_left (record_body rprime cprime) digits (0, t) in
        (1, mkTrail (upd (r t) (istar t) rprime) (upd (c t) (istar t) cprime)
                    (upd (m t) (istar t) mprime) (n t)
                    (upd2 (Gtilde t) rprime cprime 1) (istar t) (Csize t))
    end.

Definition Retreat (t : trail) : Z * trail :=
  if istar t =? Csize t then (0, t)
  else if m t (istar t) >? 1 then
    (1, mkTrail (r t) (c t) (upd (m t) (istar t) (m t (istar t) - 1)) (n t)
                (Gtilde t) (istar t) (Csize t))
  else
    let x := r t (istar t) in
    let y := c t (istar t) in
    (2, mkTrail (r t) (c t) (m t) (n t) (upd2 (Gtilde t) x y 0)
                (istar t - 1) (Csize t)).

(** One turn of [while (status != 0)]. *)
Definition turn (st : Z * trail) : Z * trail :=
  let '(status, t) := st in
  if status =? 1 then Advance t else Retreat t.

(** [while (status != 0) ...], at most [fuel] turns. *)
Fixpoint search (fuel : nat) (status : Z) (t : trail) : res trail :=
  if status =? 0 then Done t
  else match fuel with
       | O => NeedMore
       | S fuel' =>
           let '(status', t') := turn (status, t) in
           search fuel' status' t'
       end.

Inductive outcome : Type :=
| Returned (v : Z)   (* the value returned by [Unique] *)
| Exited.            (* "Problem! No solution was found." then [Exit ()] *)

Definition Unique (fuel : nat) (s C : Z -> Z -> Z) (t0 : trail)
  : res (outcome * trail) :=
  let t := GettingStarted s C t0 in
  do t1 <- search fuel 1 t;
  if negb (istar t1 =? 81) then Done (Exited, t1)
  else
    do t2 <- search fuel 2 t1;
    Done (Returned (if istar t2 =? 81 then 0 else 1), t2).

(** *** [Metropolis2] *)

(** [p[1] = 0.1581; p[2] = .0250;] ([p[0]] is never assigned). *)
Definition p : list Q := [0%Q; Qmake 1581 10000; Qmake 250 10000].

Inductive after_step : Type :=
| Continue (C : Z -> Z -> Z) (E : Z) (t : trail) (g : rng)
| ProgramExit.

(** The body of [while (E > d)]. *)
Definition Metropolis2_step (fuel : nat) (s C : Z -> Z -> Z) (E : Z)
           (t : trail) (g : rng) : res after_step :=
  do '(x, g1) <- RandomInteger 1 5 g;
  do '(y, g2) <- RandomInteger 1 (if x =? 5 then 5 else 9) g1;
  let '(C1, DeltaClues) := Flip C x y in
  if DeltaClues <? 0 then
    do '(u, t') <- Unique fuel s C1 t;
    match u with
    | Exited => Done ProgramExit
    | Returned v =>
        if negb (v =? 0) then Done (Continue C1 (E + DeltaClues) t' g2)
        else Done (Continue (fst (Flip C1 x y)) E t' g2)
    end
  else
    do '(U, g3) <- MTUniform g2;
    do pr <- read p DeltaClues;
    if Qle_bool U pr then Done (Continue C1 (E + DeltaClues) t g3)
    else Done (Continue (fst (Flip C1 x y)) E t g3).

(** The initial configuration of [Metropolis2]: every site is a clue. *)
Definition all_clues (C : Z -> Z -> Z) : Z -> Z -> Z :=
  fold_left (fun C '(x, y) => upd2 C x y 1) cells C.

(** *** What a completion of a clue set is *)

Definition peer (p q : Z * Z) : bool :=
  negb ((fst p =? fst q) && (snd p =? snd q))
  && ((fst p =? fst q) || (snd p =? snd q)
      || (block (fst p) (snd p) =? block (fst q) (snd q))).

Definition at_ (g : Z -> Z -> Z) (p : Z * Z) : Z := g (fst p) (snd p).

(** Every site holds a digit, and no two sites of a row, a column or
    a 3x3 block hold the same digit. *)
Definition valid_grid (g : Z -> Z -> Z) : bool :=
  forallb (fun p => (1 <=? at_ g p) && (at_ g p <=? 9)) cells
  && forallb
       (fun p => forallb
                   (fun q => implb (peer p q) (negb (at_ g p =? at_ g q)))
                   cells)
       cells.

(** [g] keeps the reference digit at every clue site. *)
Definition keeps_clues (s C g : Z -> Z -> Z) : bool :=
  forallb (fun p => implb (negb (at_ C p =? 0)) (at_ g p =? at_ s p)) cells.

Definition completion (s C g : Z -> Z -> Z) : Prop :=
  valid_grid g = true /\ keeps_clues s C g = true.

Definition same_grid (g g' : Z -> Z -> Z) : Prop :=
  forall p, In p cells -> at_ g p = at_ g' p.

Definition exactly_one_completion (s C : Z -> Z -> Z) : Prop :=
  exists g, completion s C g /\
            forall g', completion s C g' -> same_grid g g'.

(** The grid read off a trail: the current digit of the entry at
    each site on it (0 where the trail has no entry). *)
Fixpoint grid_of_loop (t : trail) (x y i : Z) (cnt : nat) : Z :=
  match cnt with
  | O => 0
  | S cnt' =>
      if (r t i =? x) && (c t i =? y) then n t i (m t i)
      else grid_of_loop t x y (i + 1) cnt'
  end.

Definition grid_of (t : trail) : Z -> Z -> Z :=
  fun x y => grid_of_loop t x y 1 (Z.to_nat (istar t)).

(** Reflection of the clue flags about the centre site (5,5). *)
Definition symmetric (C : Z -> Z -> Z) : Prop :=
  forall x y, 1 <= x <= 9 -> 1 <= y <= 9 -> C x y = C (10 - x) (10 - y).

(** *** The solution-generation phase: [Metropolis1] *)

(** [Conflicts (x0, y0, d)] of the puzzle maker: every conflict counts 1. *)
Definition Conflicts (s : Z -> Z -> Z) (x0 y0 d : Z) : Z :=
  let conflicts :=
    fold_left
      (fun conflicts k =>
         let conflicts :=
           if negb (k =? y0) then conflicts + b2z (s x0 k =? d)
           else conflicts in
         if negb (k =? x0) then conflicts + b2z (s k y0 =? d)
         else conflicts)
      digits 0 in
  let left := 1 + 3 * Z.quot (y0 - 1) 3 in
  let lower := 1 + 3 * Z.quot (x0 - 1) 3 in
  fold_left
    (fun conflicts x =>
       fold_left
         (fun conflicts y =>
            if negb (x =? x0) && negb (y =? y0)
            then conflicts + b2z (s x y =? d)
            else conflicts)
         (zrange left 3) conflicts)
    (zrange lower 3) conflicts.

Definition Energy (s : Z -> Z -> Z) : Z :=
  let E :=
    fold_left
      (fun E x => fold_left (fun E y => E + Conflicts s x y (s x y)) digits E)
      digits 0 in
  Z.quot E 2.

(** The double loop of [Randomize] over the sites [l]. *)
Fixpoint Randomize_loop (l : list (Z * Z)) (s : Z -> Z -> Z) (g : rng)
  : res ((Z -> Z -> Z) * rng) :=
  match l with
  | [] => Done (s, g)
  | (x, y) :: l' =>
      do '(v, g1) <- RandomInteger 1 9 g;
      Randomize_loop l' (upd2 s x y v) g1
  end.

(** [Randomize] first calls [MTUniform ()] to seed the generator; the
    variate is thrown away. *)
Definition Randomize (s : Z -> Z -> Z) (g : rng) : res ((Z -> Z -> Z) * rng) :=
  do '(_, g1) <- MTUniform g;
  Randomize_loop cells s g1.

(** [s0 = s[I0][J0]; while (s0 == s[I0][J0]) s0 = RandomInteger (1, 9);] *)
Fixpoint pick_s0 (cur s0 : Z) (g : rng) : res (Z * rng) :=
  if s0 =? cur then
    match g with
    | [] => NeedMore
    | N :: g' => pick_s0 cur (RandomInteger_of 1 9 N) g'
    end
  else Done (s0, g).

Definition Proposal (s : Z -> Z -> Z) (g : rng) : res (Z * Z * Z * rng) :=
  do '(I0, g1) <- RandomInteger 1 9 g;
  do '(J0, g2) <- RandomInteger 1 9 g1;
  do '(s0, g3) <- pick_s0 (s I0 J0) (s I0 J0) g2;
  Done (I0, J0, s0, g3).

(** The body of [while (E > 0)] in [Metropolis1]; [prob] is the block
    of 21 doubles filled by [Probabilities].  There is no temperature
    test: the table is read whenever [deltaE > 0]. *)
Definition Metropolis1_step (prob : list Q) (s : Z -> Z -> Z) (E : Z) (g : rng)
  : res ((Z -> Z -> Z) * Z * rng) :=
  do '(I0, J0, s0, g1) <- Proposal s g;
  let deltaE := Conflicts s I0 J0 s0 - Conflicts s I0 J0 (s I0 J0) in
  do '(acc, g2) <-
     (if deltaE <=? 0 then Done (true, g1)
      else do '(U, g') <- MTUniform g1;
           do pr <- read prob deltaE;
           Done (Qle_bool U pr, g'));
  if (acc : bool) then Done (upd2 s I0 J0 s0, E + deltaE, g2)
  else Done (s, E, g2).

(** [while (E > 0) ...], at most [steps] passes. *)
Fixpoint Metropolis1_loop (steps : nat) (prob : list Q) (s : Z -> Z -> Z)
         (E : Z) (g : rng) : res ((Z -> Z -> Z) * rng) :=
  if E >? 0 then
    match steps with
    | O => NeedMore
    | S steps' =>
        do '(s', E', g') <- Metropolis1_step prob s E g;
        Metropolis1_loop steps' prob s' E' g'
    end
  else Done (s, g).

Definition Metropolis1 (steps : nat) (prob : list Q) (s : Z -> Z -> Z) (g : rng)
  : res ((Z -> Z -> Z) * rng) :=
  Metropolis1_loop steps prob s (Energy s) g.

(** *** The loop of [Metropolis2] *)

(** [while (E > d) ...], at most [steps] passes, each call of [Unique]
    with at most [fuel] turns. *)
Fixpoint Metropolis2_loop (steps fuel : nat) (d : Z) (s C : Z -> Z -> Z)
         (E : Z) (t : trail) (g : rng) : res after_step :=
  if E >? d then
    match steps with
    | O => NeedMore
    | S steps' =>
        do a <- Metropolis2_step fuel s C E t g;
        match a with
        | Continue C' E' t' g' => Metropolis2_loop steps' fuel d s C' E' t' g'
        | ProgramExit => Done ProgramExit
        end
    end
  else Done (Continue C E t g).

(** [Metropolis2] from the start: every site a clue, [E = 81]; [d] is
    the number of clues asked for (35 minus the difficulty). *)
Definition Metropolis2 (steps fuel : nat) (d : Z) (s C0 : Z -> Z -> Z)
           (t : trail) (g : rng) : res after_step :=
  Metropolis2_loop steps fuel d s (all_clues C0) 81 t g.

(** Test data: a solved grid, an empty trail record. *)
Definition blank : Z -> Z -> Z := fun _ _ => 0.
Definition empty_trail : trail :=
  mkTrail (fun _ => 0) (fun _ => 0) (fun _ => 0) blank blank 0 0.
Definition shifted_solution : Z -> Z -> Z :=
  fun x y => (3 * ((x - 1) mod 3) + (x - 1) / 3 + (y - 1)) mod 9 + 1.

End PuzzleMaker.

(** ** Concrete inputs used in the examples *)

Module Samples.

(** A Sudoku puzzle whose only clue is a 2 at (1,2); the other sites
    were randomised to 2 everywhere except a 1 at (1,1). *)
Definition one_clue : Z -> Z -> Z :=
  fun i j => if (i =? 1) && (j =? 2) then 1 else 0.
Definition crowded : Z -> Z -> Z :=
  fun i j => if (i =? 1) && (j =? 1) then 1 else 2.
(** The proposal "set (1,1) to 2". *)
Definition crowded_move : SudokuSolver.config :=
  SudokuSolver.mkConfig crowded 1 1 2.
(** A block of 21 doubles. *)
Definition table21 : list Q := repeat (Qmake 1 2) 21.

(** A KenKen grid with x1[k] = k mod 7 + 1. *)
Definition kk : KenKen.config :=
  KenKen.mkConfig (fun k => k mod 7 + 1) 0 0.
(** Stars in columns 1 and 5 of every row. *)
Definition tnt : TwoNotTouch.config :=
  TwoNotTouch.mkConfig (fun _ s => if s =? 1 then 1 else 5) 0 0 0.

(** The tempered word [word_for v] makes [RandomInteger (1, 9)] return
    the digit [v]. *)
Definition word_for (v : Z) : Z := (v - 1) * 477218589.

(** A solved grid with the digit at (1,1) missing (a puzzle file), and
    with a 2 there instead of the 1. *)
Definition one_missing : Z -> Z -> Z :=
  fun i j => if (i =? 1) && (j =? 1) then 0 else PuzzleMaker.shifted_solution i j.
Definition one_wrong : Z -> Z -> Z :=
  fun i j => if (i =? 1) && (j =? 1) then 2 else PuzzleMaker.shifted_solution i j.
(** The words that make [Randomize] produce [one_wrong]. *)
Definition one_wrong_words : list Z :=
  map (fun p => word_for (PuzzleMaker.at_ one_wrong p)) cells.

(** A solved Two Not Touch grid whose regions are the rows: the stars
    of row r sit in the columns a and a + 5 with a = 2 (r - 1) mod 5 + 1. *)
Definition regions_by_row : Z -> Z -> Z := fun r _ => r.
Definition stars_solved : Z -> Z -> Z :=
  fun r s => (2 * (r - 1)) mod 5 + 1 + 5 * (s - 1).
(** The same with the first star of row 1 in column 2. *)
Definition stars_almost : Z -> Z -> Z :=
  fun r s => if (r =? 1) && (s =? 1) then 2 else stars_solved r s.
(** The tempered word that makes [RandomInteger (1, 10)] return [v]. *)
Definition column_word (v : Z) : Z := ((v - 1) * 4294967296 + 9) / 10.
(** The words that make [GetPuzzle] place [stars_almost]. *)
Definition stars_almost_words : list Z :=
  flat_map (fun r => [column_word (stars_almost r 1);
                      column_word (stars_almost r 2)])
           (zrange 1 10).

(** A KenKen puzzle whose regions are the rows ('A' for row 1 and so
    on), each with the clue "+ 28", and its solution by a cyclic
    Latin square. *)
Definition rows_as_regions : Z -> Z -> Z := fun i _ => 64 + i.
Definition kenken_solved : Z -> Z :=
  fun k => if k =? 0 then -1 else ((k - 1) mod 7 + (k - 1) / 7) mod 7 + 1.
(** The tempered word that makes [RandomInteger (1, 49)] return [v]. *)
Definition site_word (v : Z) : Z := ((v - 1) * 4294967296 + 48) / 49.
(** The site of row k / 7 + 1 where [kenken_solved] has the digit
    k % 7 + 1, and the words that make [Initialize] produce
    [kenken_solved] with the digits of sites 1 and 2 exchanged,
    followed by the two words that make [Proposal] pick these sites. *)
Definition kenken_site (k : Z) : Z := 7 * (k / 7) + (k mod 7 - k / 7) mod 7 + 1.
Definition exchange_1_2 (s : Z) : Z :=
  if s =? 1 then 2 else if s =? 2 then 1 else s.
Definition kenken_words : list Z :=
  map (fun k => site_word (exchange_1_2 (kenken_site k))) (zrange 0 49)
  ++ [site_word 1; site_word 2].

End Samples.

Import PuzzleMaker.

(** ** Notions used to state the properties *)

(** The clue flags after flipping the listed sites in turn, starting
    from the configuration in which every site is a clue. *)
Definition after_flips (C0 : Z -> Z -> Z) (l : list (Z * Z)) : Z -> Z -> Z :=
  fold_left (fun C xy => fst (Flip C (fst xy) (snd xy))) l (all_clues C0).

Definition in_grid (x y : Z) : Prop := 1 <= x <= 9 /\ 1 <= y <= 9.

Definition sum_over (f : Z * Z -> Z) (l : list (Z * Z)) : Z :=
  fold_right (fun q acc => f q + acc) 0 l.

Definition same_site (p q : Z * Z) : bool :=
  (fst p =? fst q) && (snd p =? snd q).

(** The contribution of site [q] to [Conflicts] at site [p] with digit [d]. *)
Definition pair_term (x clue : Z -> Z -> Z) (d : Z) (p q : Z * Z) : Z :=
  if peer p q
  then b2z (at_ x q =? d) * SudokuSolver.weight clue (fst p) (snd p) (fst q) (snd q)
  else 0.

(** The sites read by [Conflicts (r0, c0, .)], in the order of its loops. *)
Definition visit (r0 c0 : Z) : list (Z * Z) :=
  flat_map (fun k => (if negb (k =? c0) then [(r0, k)] else [])
                     ++ (if negb (k =? r0) then [(k, c0)] else []))
           digits
  ++ flat_map (fun r => flat_map (fun c => if negb (r =? r0) && negb (c =? c0)
                                           then [(r, c)] else [])
                                 (zrange (1 + 3 * Z.quot (c0 - 1) 3) 3))
              (zrange (1 + 3 * Z.quot (r0 - 1) 3) 3).

(** Insertion sort of sites by row, then column. *)
Definition site_key (q : Z * Z) : Z := 10 * fst q + snd q.

Fixpoint insert_site (q : Z * Z) (l : list (Z * Z)) : list (Z * Z) :=
  match l with
  | [] => [q]
  | h :: t => if site_key q <=? site_key h then q :: l else h :: insert_site q t
  end.

Definition sort_sites (l : list (Z * Z)) : list (Z * Z) :=
  fold_right insert_site [] l.

(** ** Notions used in the analysis of the advance/retreat search *)

(** The digit currently chosen at trail entry [i]. *)
Definition val (t : trail) (i : Z) : Z := n t i (m t i).

(** The digits consistent at [(x, y)] with the trail through [k], in
    increasing order. *)
Definition candidates (t : trail) (x y k : Z) : list Z :=
  filter (fun v => negb (Consistent t x y v k =? 0)) digits.

(** Entry [i] holds digit [v] at a site in the row, the column or the
    block of [(x, y)]. *)
Definition clash (t : trail) (x y v i : Z) : Prop :=
  v = val t i
  /\ (r t i = x \/ c t i = y \/ block (r t i) (c t i) = block x y).

Definition on_trail (t : trail) (k x y : Z) : Prop :=
  exists i, 1 <= i <= k /\ r t i = x /\ c t i = y.

(** The number of grid sites flagged in [Gtilde]. *)
Definition count_marked (G : Z -> Z -> Z) : Z :=
  sum_over (fun p => b2z (negb (at_ G p =? 0))) cells.

(** The sites of entries 1..k. *)
Definition trail_cells (t : trail) (k : nat) : list (Z * Z) :=
  map (fun i => (r t i, c t i)) (zrange 1 k).

(** Two trails with the same entries 1..k. *)
Definition same_upto (k : Z) (t t' : trail) : Prop :=
  forall i, 1 <= i <= k ->
    r t i = r t' i /\ c t i = c t' i /\ m t i = m t' i
    /\ (forall j, n t i j = n t' i j).

(** Shape of the trail: entries 1..istar sit on distinct grid sites,
    which are exactly the sites flagged in [Gtilde]; the entries above
    the clues have between 1 and 9 digits left. *)
Record wf_trail (t : trail) : Prop := mk_wf {
  wf_range : 0 <= Csize t <= istar t /\ istar t <= 81;
  wf_sites : forall i, 1 <= i <= istar t ->
               in_grid (r t i) (c t i) /\ Gtilde t (r t i) (c t i) <> 0;
  wf_distinct : forall i j, 1 <= i < j /\ j <= istar t ->
                  ~ (r t i = r t j /\ c t i = c t j);
  wf_count : count_marked (Gtilde t) = istar t;
  wf_marked : forall x y, in_grid x y -> Gtilde t x y <> 0 ->
                on_trail t (istar t) x y;
  wf_m : forall i, Csize t < i <= istar t -> 1 <= m t i <= 9
}.

(** Content of the trail: entries 1..Csize are the clues with their
    reference digits; the digits recorded at a later entry are
    consistent with the entries below it. *)
Record search_inv (s C : Z -> Z -> Z) (t : trail) : Prop := mk_si {
  si_clues : forall i, 1 <= i <= Csize t ->
               m t i = 1 /\ n t i 1 = s (r t i) (c t i)
               /\ C (r t i) (c t i) <> 0;
  si_clues_on : forall x y, in_grid x y -> C x y <> 0 ->
                  on_trail t (Csize t) x y;
  si_cand : forall i j, Csize t < i <= istar t -> 1 <= j <= m t i ->
              1 <= n t i j <= 9
              /\ Consistent t (r t i) (c t i) (n t i j) (i - 1) <> 0;
  si_incr : forall i j j', Csize t < i <= istar t -> 1 <= j < j' /\ j' <= m t i ->
              n t i j < n t i j'
}.

(** [g] carries the current digit of every entry 1..k. *)
Definition agrees (g : Z -> Z -> Z) (t : trail) (k : Z) : Prop :=
  forall i, 1 <= i <= k -> g (r t i) (c t i) = val t i.

(** [g] lies in a branch that the search has still to visit: it
    agrees with the trail below some entry [i] and carries at that
    entry one of the digits not tried yet. *)
Definition untried (g : Z -> Z -> Z) (t : trail) : Prop :=
  exists i j, Csize t < i <= istar t /\ agrees g t (i - 1)
              /\ 1 <= j < m t i /\ g (r t i) (c t i) = n t i j.

(** Every completion in the class [P] is still ahead of the search:
    below the current node when advancing, in an untried branch when
    retreating. *)
Definition ahead (P : (Z -> Z -> Z) -> Prop) (s C : Z -> Z -> Z)
           (status : Z) (t : trail) : Prop :=
  forall g, completion s C g -> P g ->
            (status = 1 /\ agrees g t (istar t)) \/ untried g t.

(** A bound on the number of turns of the search below a node at
    depth 81 - d. *)
Fixpoint subtree_cost (d : nat) : Z :=
  match d with
  | O => 1
  | S d' => 10 + 9 * subtree_cost d'
  end.

Definition depth_cost (i : Z) : Z := subtree_cost (Z.to_nat (81 - i)).

Definition level_cost (t : trail) (i : Z) : Z :=
  m t i + (m t i - 1) * depth_cost i.

Fixpoint sum_levels (f : Z -> Z) (lo : Z) (cnt : nat) : Z :=
  match cnt with
  | O => 0
  | S cnt' => sum_levels f lo cnt' + f (lo + Z.of_nat cnt)
  end.

(** The turns left, at most, for a search in the given state. *)
Definition potential (status : Z) (t : trail) : Z :=
  (if status =? 1 then depth_cost (istar t) else 0)
  + sum_levels (level_cost t) (Csize t) (Z.to_nat (istar t - Csize t)).

Definition clue_site (C : Z -> Z -> Z) (p : Z * Z) : bool :=
  negb (at_ C p =? 0).

(** The state of the loop of [GettingStarted] after the sites [l]:
    [i] entries, on the clue sites of [l] in order, each with the
    single reference digit; [Gtilde] decided on [l]. *)
Definition started (s C : Z -> Z -> Z) (l : list (Z * Z)) (i : Z) (t : trail)
  : Prop :=
  i = Z.of_nat (length (filter (clue_site C) l))
  /\ trail_cells t (length (filter (clue_site C) l)) = filter (clue_site C) l
  /\ (forall k, 1 <= k <= i -> m t k = 1 /\ n t k 1 = s (r t k) (c t k))
  /\ (forall p, In p l -> at_ (Gtilde t) p = b2z (clue_site C p)).

Definition site_eq_dec (p q : Z * Z) : {p = q} + {p <> q}.
Proof.
  destruct p as [a b], q as [a' b'].
  destruct (Z.eq_dec a a') as [Ea|Ea]; [|right; congruence].
  destruct (Z.eq_dec b b') as [Eb|Eb]; [|right; congruence].
  left. congruence.
Defined.

(** What the search maintains for the class [P] of completions, in
    state [status]: after the loop has stopped (status 0) the trail is
    either full, or back at the clues with nothing ahead. *)
Definition search_ok (P : (Z -> Z -> Z) -> Prop) (s C : Z -> Z -> Z)
           (status : Z) (t : trail) : Prop :=
  wf_trail t /\ search_inv s C t
  /\ ((status = 1 /\ ahead P s C 1 t)
      \/ (status = 2 /\ ahead P s C 2 t)
      \/ (status = 0
          /\ ((istar t = 81 /\ ahead P s C 1 t)
              \/ (istar t = Csize t /\ ahead P s C 2 t)))).

Definition any_grid (g : Z -> Z -> Z) : Prop := True.

(** [g] departs from the digits of the (full) trail [t1] somewhere. *)
Definition departs_from (t1 : trail) (g : Z -> Z -> Z) : Prop :=
  exists i, 1 <= i <= istar t1 /\ g (r t1 i) (c t1 i) <> val t1 i.

(** The trail set up by [GettingStarted] when no site is a clue. *)
Definition no_clue_start : trail :=
  GettingStarted shifted_solution blank empty_trail.

(** The search has gone past the completion [g1]: it is neither below
    the current node nor in a branch still to be visited. *)
Definition passed (g1 : Z -> Z -> Z) (status : Z) (t : trail) : Prop :=
  (status = 1 /\ ~ agrees g1 t (istar t) /\ ~ untried g1 t)
  \/ (status = 2 /\ ~ untried g1 t)
  \/ (status = 0
      /\ ((istar t = 81 /\ ~ agrees g1 t (istar t)) \/ istar t = Csize t)).

(** Every site holds one of the digits 1-9. *)
Definition digits_only (g : Z -> Z -> Z) : bool :=
  forallb (fun p => (1 <=? at_ g p) && (at_ g p <=? 9)) cells.

(** Every word of the supply is a 32-bit value. *)
Definition all_words (g : rng) : bool :=
  forallb (fun N => (0 <=? N) && (N <? 4294967296)) g.

(** The contents of a puzzle file: a digit or 0 (no clue) at each site. *)
Definition puzzle_file (x : Z -> Z -> Z) : bool :=
  forallb (fun p => (0 <=? at_ x p) && (at_ x p <=? 9)) cells.

(** The clue flags are 0 or 1 at every grid site. *)
Definition flags (C : Z -> Z -> Z) : Prop :=
  forall x y, in_grid x y -> C x y = 0 \/ C x y = 1.

(** The number of clue sites. *)
Definition number_of_clues (C : Z -> Z -> Z) : Z := count_marked C.

(** What the loop of [Metropolis2] maintains: the flags are 0/1 and
    symmetric about (5,5), [E] is the number of clues, and the clues
    have exactly one completion. *)
Record reduction_inv (s C : Z -> Z -> Z) (E : Z) : Prop := mk_ri {
  ri_flags : flags C;
  ri_symmetric : symmetric C;
  ri_count : E = number_of_clues C;
  ri_unique : exactly_one_completion s C
}.

(** The counter of the generator is in 624..1247 and every entry of
    [X] is a 32-bit value. *)
Definition twister_ok (st : Twister.state) : Prop :=
  624 <= Twister.k st <= 1247 /\ forall i, word (Twister.X st i).

(** A closed tour of the sites 1..K: it starts and ends at site 1 and
    lists every site once. *)
Definition tour (K : Z) (c : Z -> Z) : Prop :=
  c 1 = 1 /\ c (K + 1) = 1
  /\ Permutation (map c (zrange 1 (Z.to_nat K))) (zrange 1 (Z.to_nat K)).

(** The exchange of the indices [i] and [j], and the reflection of
    the segment [i0..j0]. *)
Definition transpose (i j k : Z) : Z :=
  if k =? j then i else if k =? i then j else k.

Definition mirror (i0 j0 k : Z) : Z :=
  if (i0 <=? k) && (k <=? j0) then i0 + j0 - k else k.

(** The squares of an N x N grid, row by row. *)
Definition squares (N : Z) : list (Z * Z) :=
  flat_map (fun i => map (fun j => (i, j)) (zrange 1 (Z.to_nat N)))
           (zrange 1 (Z.to_nat N)).

Definition zsum (f : Z -> Z) (l : list Z) : Z :=
  fold_right (fun k acc => f k + acc) 0 l.

(** Every row, every column and the two diagonals add up to
    N (N^2 + 1) / 2. *)
Definition magic (N : Z) (S : Z -> Z -> Z) : Prop :=
  let idx := zrange 1 (Z.to_nat N) in
  let sum := Z.quot (N * (N * N + 1)) 2 in
  (forall i, In i idx -> zsum (fun j => S i j) idx = sum)
  /\ (forall i, In i idx -> zsum (fun j => S j i) idx = sum)
  /\ zsum (fun i => S i i) idx = sum
  /\ zsum (fun i => S i (N + 1 - i)) idx = sum.

(** The grid holds each of the numbers 1..N^2 once. *)
Definition normal_square (N : Z) (S : Z -> Z -> Z) : Prop :=
  Permutation (map (at_ S) (squares N)) (zrange 1 (Z.to_nat (N * N))).

(** The exchange of the grid sites [a] and [b]. *)
Definition transpose_sites (a b p : Z * Z) : Z * Z :=
  if same_site p b then a else if same_site p a then b else p.

(** The twenty stars of a Two Not Touch grid: star [s] of row [r]. *)
Definition stars : list (Z * Z) :=
  flat_map (fun r => map (fun s => (r, s)) (zrange 1 2)) (zrange 1 10).

Definition stars_in_column (col : Z -> Z -> Z) (c : Z) : Z :=
  sum_over (fun p => b2z (at_ col p =? c)) stars.

Definition stars_in_region (reg col : Z -> Z -> Z) (k : Z) : Z :=
  sum_over (fun p => b2z (reg (fst p) (at_ col p) =? k)) stars.

(** Every star sits in a column 1..10, the two stars of a row sit in
    different columns, and every square belongs to a region 1..10. *)
Definition star_grid (reg col : Z -> Z -> Z) : Prop :=
  (forall p, In p stars -> 1 <= at_ col p <= 10)
  /\ (forall r, 1 <= r <= 10 -> col r 1 <> col r 2)
  /\ (forall r c, 1 <= r <= 10 -> 1 <= c <= 10 -> 1 <= reg r c <= 10).

(** The stars [p] and [q] lie on the same square or on squares that
    share an edge or a corner. *)
Definition touch (col : Z -> Z -> Z) (p q : Z * Z) : Prop :=
  Z.abs (fst p - fst q) <= 1 /\ Z.abs (at_ col p - at_ col q) <= 1.

(** The puzzle is solved: two stars in every column and in every
    region (every row has two by construction), and no two stars
    touch. *)
Definition two_not_touch (reg col : Z -> Z -> Z) : Prop :=
  (forall c, 1 <= c <= 10 ->
             stars_in_column col c = 2 /\ stars_in_region reg col c = 2)
  /\ (forall p q, In p stars -> In q stars -> p <> q -> ~ touch col p q).

(** The terms of [Energy] for touching stars: within row [r], and
    between the rows [r] and [r+1]. *)
Definition same_row_term (col : Z -> Z -> Z) (r : Z) : Z :=
  b2z (Z.abs (col r 1 - col r 2) =? 1).

Definition next_row_terms (col : Z -> Z -> Z) (r : Z) : Z :=
  b2z (Z.abs (col r 1 - col (r + 1) 1) <=? 1)
  + b2z (Z.abs (col r 1 - col (r + 1) 2) <=? 1)
  + b2z (Z.abs (col r 2 - col (r + 1) 1) <=? 1)
  + b2z (Z.abs (col r 2 - col (r + 1) 2) <=? 1).

(** KenKen: the sites of a column and of a row, the number of times a
    digit occurs in a line, and the deviation of a line from
    {1, ..., 7}. *)
Definition column_sites (c : Z) : list Z :=
  map (fun r => c + 7 * (r - 1)) (zrange 1 7).

Definition row_sites (r : Z) : list Z :=
  map (fun c => 7 * (r - 1) + c) (zrange 1 7).

Definition occurrences (x1 : Z -> Z) (l : list Z) (d : Z) : Z :=
  zsum (fun k => b2z (x1 k =? d)) l.

Definition deviation (x1 : Z -> Z) (l : list Z) : Z :=
  zsum (fun d => Z.abs (occurrences x1 l d - 1)) (zrange 1 7).

(** Every row and every column holds each of the digits 1..7 once. *)
Definition latin (x1 : Z -> Z) : Prop :=
  forall l d, 1 <= l <= 7 -> 1 <= d <= 7 ->
    occurrences x1 (row_sites l) d = 1 /\ occurrences x1 (column_sites l) d = 1.

(** The grid sites hold digits and the sentinel [x1[0]] is in place. *)
Definition digits_1_7 (x1 : Z -> Z) : Prop :=
  x1 0 = -1 /\ forall k, 1 <= k <= 49 -> 1 <= x1 k <= 7.

(** Region k misses its target. *)
Definition missed (puzzle : Z -> Z -> Z) (op ans x1 : Z -> Z) (k : Z) : Z :=
  match KenKen.Operation puzzle op x1 k with
  | Some answer => b2z (negb (answer =? ans k))
  | None => 0
  end.

Definition known_op (c : Z) : bool :=
  (c =? 43) || (c =? 45) || (c =? 42) || (c =? 47).

(** The letters of the seven lines of a puzzle file stand for regions
    1..49 ('A' is 65). *)
Definition letters_ok (letters : Z -> Z -> Z) : Prop :=
  forall i j, 1 <= i <= 7 -> 0 <= j <= 6 -> 65 <= letters i j <= 113.

(** The region of site k according to the file. *)
Definition region_of (letters : Z -> Z -> Z) (k : Z) : Z :=
  letters ((k - 1) / 7 + 1) ((k - 1) mod 7) - 65 + 1.


(** What the acceptance rule prescribes for the outcome [r] of one
    pass through the loop of [Metropolis], once the proposal has been
    made: [deltaE] is the change of energy it causes, [E] the energy
    before it, [g1] the supply of random words left after it, [kept]
    the state with the proposal in place and [undone] the state with
    the previous configuration back.  A move with [deltaE <= 0] is
    kept and no variate is drawn; a move with [deltaE > 0] is undone
    without a draw unless [T > 0]; with [T > 0] one variate is drawn
    and the move is kept exactly when the variate is at most the table
    entry [P[deltaE]]. *)
Definition follows_acceptance_rule {St : Type} (T : Q) (P : list Q)
           (deltaE E : Z) (g1 : rng) (kept undone : St)
           (r : res (St * Z * rng)) : Prop :=
  (deltaE <= 0 -> r = Done (kept, E + deltaE, g1))
  /\ (0 < deltaE -> ~ (0 < T)%Q -> r = Done (undone, E, g1))
  /\ (forall N g2 p,
         0 < deltaE -> (0 < T)%Q -> g1 = N :: g2 -> read P deltaE = Done p ->
         ((uniform N <= p)%Q -> r = Done (kept, E + deltaE, g2))
         /\ (~ (uniform N <= p)%Q -> r = Done (undone, E, g2))).

(** What the loops of [GetPuzzle] maintain, [k] sites having been
    read: the entries 1..puzzle[r][0] of row r are sites 1..k of
    region r, and the entries after them are still 0. *)
Definition cages_inv (letters : Z -> Z -> Z) (k : Z) (puzzle : Z -> Z -> Z)
  : Prop :=
  (forall r, 0 <= puzzle r 0 <= k)
  /\ (forall r m, 1 <= m <= puzzle r 0 ->
                  1 <= puzzle r m <= k /\ region_of letters (puzzle r m) = r)
  /\ (forall r m, puzzle r 0 < m -> puzzle r m = 0).

(** The regions as [Operation] finds them: an entry puzzle[k][j],
    j >= 1, of a region k >= 1 is 0 or a site 1..49 of region k, and
    then j is at most the size puzzle[k][0] <= 49 of the region. *)
Definition cages_ok (letters : Z -> Z -> Z) (puzzle : Z -> Z -> Z) : Prop :=
  forall k j, 1 <= k -> 1 <= j ->
    puzzle k j = 0
    \/ (1 <= puzzle k j <= 49 /\ region_of letters (puzzle k j) = k
        /\ j <= puzzle k 0 <= 49).

(** The sum of the three parts of the energy. *)
Definition energy_sum (puzzle : Z -> Z -> Z) (op ans x : Z -> Z) : Z :=
  zsum (fun c => deviation x (column_sites c)) (zrange 1 7)
  + zsum (fun r => deviation x (row_sites r)) (zrange 1 7)
  + zsum (missed puzzle op ans x) (zrange 1 (Z.to_nat (puzzle 0 0))).

(** * Properties *)

(** ** Basic facts about arrays and the random source *)

Ltac zb :=
  repeat match goal with
    | |- context [Z.eqb ?a ?b] => destruct (Z.eqb_spec a b)
    | H : context [Z.eqb ?a ?b] |- _ => destruct (Z.eqb_spec a b)
    end.

Ltac bsimpl := cbn [fst snd negb andb orb implb].
Ltac zbs := repeat (zb; bsimpl).

Lemma upd_same a i v : upd a i v i = v.
Proof. unfold upd. now rewrite Z.eqb_refl. Qed.

Lemma upd_other a i v k : k <> i -> upd a i v k = a k.
Proof. unfold upd. intros H. destruct (Z.eqb_spec k i); congruence. Qed.

Lemma upd2_same a i j v : upd2 a i j v i j = v.
Proof. unfold upd2. now rewrite !Z.eqb_refl. Qed.

Lemma upd2_other a i j v x y : (x <> i \/ y <> j) -> upd2 a i j v x y = a x y.
Proof.
  unfold upd2. intros H.
  destruct (Z.eqb_spec x i); destruct (Z.eqb_spec y j); simpl; try reflexivity.
  lia.
Qed.

Lemma RandomInteger_of_range a b N :
  word N -> 0 <= a <= b -> a <= RandomInteger_of a b N <= b.
Proof.
  unfold word, RandomInteger_of. intros HN Hab.
  assert (H0 : 0 <= (b - a + 1) * (2 * N + 1)) by (apply Z.mul_nonneg_nonneg; lia).
  assert (H1 : (b - a + 1) * (2 * N + 1) < (b - a + 1) * 8589934592)
    by (apply Z.mul_lt_mono_pos_l; lia).
  rewrite Z.quot_div_nonneg by lia.
  split.
  - apply Z.div_le_lower_bound; lia.
  - apply Z.lt_succ_r. apply Z.div_lt_upper_bound; lia.
Qed.

Lemma uniform_positive N : word N -> (0 < uniform N)%Q.
Proof.
  unfold word, uniform, Qlt. cbn [Qnum Qden]. lia.
Qed.

Lemma positive_temp_spec T : positive_temp T = true <-> (0 < T)%Q.
Proof.
  unfold positive_temp. rewrite negb_true_iff.
  destruct (Qle_bool T 0) eqn:E.
  - apply Qle_bool_iff in E. split; [discriminate|].
    intros H. exfalso. apply (Qlt_irrefl 0). eapply Qlt_le_trans; eauto.
  - split; [intros _|reflexivity].
    apply Qnot_le_lt. intros H. apply Qle_bool_iff in H. congruence.
Qed.

(** ** C1: the Metropolis acceptance rule *)

Lemma accept_downhill T P deltaE g :
  deltaE <= 0 -> AcceptTransition T P deltaE g = Done (true, g).
Proof.
  intros H. unfold AcceptTransition.
  destruct (Z.leb_spec deltaE 0); [reflexivity | lia].
Qed.

Lemma accept_uphill_cold T P deltaE g :
  0 < deltaE -> ~ (0 < T)%Q -> AcceptTransition T P deltaE g = Done (false, g).
Proof.
  intros H HT. unfold AcceptTransition.
  destruct (Z.leb_spec deltaE 0); [lia|].
  destruct (positive_temp T) eqn:E; [|reflexivity].
  apply positive_temp_spec in E. contradiction.
Qed.

Lemma accept_uphill_warm T P deltaE N g p :
  0 < deltaE -> (0 < T)%Q -> read P deltaE = Done p ->
  AcceptTransition T P deltaE (N :: g) = Done (Qle_bool (uniform N) p, g).
Proof.
  intros H HT HP. unfold AcceptTransition.
  destruct (Z.leb_spec deltaE 0); [lia|].
  apply positive_temp_spec in HT. rewrite HT. simpl. now rewrite HP.
Qed.

(** The three Metropolis steps keep the proposal when the test says so
    and put the previous configuration back otherwise. *)
Lemma TwoNotTouch_step_uses_rule Energy T P st E g st1 g1 acc g2 :
  TwoNotTouch.Proposal st g = Done (st1, g1) ->
  AcceptTransition T P (Energy (TwoNotTouch.col st1) - E) g1 = Done (acc, g2) ->
  TwoNotTouch.Metropolis_step Energy T P st E g
  = Done (if acc then (st1, E + (Energy (TwoNotTouch.col st1) - E), g2)
          else (TwoNotTouch.ChangeBack st1, E, g2)).
Proof.
  intros H1 H2. unfold TwoNotTouch.Metropolis_step.
  rewrite H1. simpl. rewrite H2. simpl. now destruct acc.
Qed.

Lemma KenKen_step_uses_rule Energy T prob st E g st1 g1 acc g2 :
  KenKen.Proposal st g = Done (st1, g1) ->
  AcceptTransition T prob (Energy (KenKen.x1 st1) - E) g1 = Done (acc, g2) ->
  KenKen.Metropolis_step Energy T prob st E g
  = Done (if acc then (st1, E + (Energy (KenKen.x1 st1) - E), g2)
          else (KenKen.ChangeBack st1, E, g2)).
Proof.
  intros H1 H2. unfold KenKen.Metropolis_step.
  rewrite H1. simpl. rewrite H2. simpl. now destruct acc.
Qed.

Lemma Sudoku_step_uses_rule clue T prob st E g acc g' :
  AcceptTransition T prob (SudokuSolver.deltaE_of clue st) g = Done (acc, g') ->
  SudokuSolver.decide clue T prob st E g
  = Done (if acc
          then (SudokuSolver.mkConfig
                  (upd2 (SudokuSolver.x st) (SudokuSolver.i0 st)
                        (SudokuSolver.j0 st) (SudokuSolver.x0 st))
                  (SudokuSolver.i0 st) (SudokuSolver.j0 st) (SudokuSolver.x0 st),
                E + SudokuSolver.deltaE_of clue st, g')
          else (st, E, g')).
Proof.
  intros H. unfold SudokuSolver.decide. rewrite H. simpl. now destruct acc.
Qed.

(** The acceptance test followed by the update of the state, as the
    three loops perform them. *)
Lemma rule_outcome {St : Type} T P deltaE E g1 (kept undone : St) :
  follows_acceptance_rule T P deltaE E g1 kept undone
    (do '(acc, g2) <- AcceptTransition T P deltaE g1;
     if (acc : bool) then Done (kept, E + deltaE, g2)
     else Done (undone, E, g2)).
Proof.
  unfold follows_acceptance_rule. split; [|split].
  - intros Hd. rewrite (accept_downhill T P deltaE g1 Hd). reflexivity.
  - intros Hd HT. rewrite (accept_uphill_cold T P deltaE g1 Hd HT). reflexivity.
  - intros N g2 p Hd HT -> Hp.
    rewrite (accept_uphill_warm T P deltaE N g2 p Hd HT Hp). cbn [bind].
    split; intros HU.
    + apply Qle_bool_iff in HU. rewrite HU. reflexivity.
    + destruct (Qle_bool (uniform N) p) eqn:F; [|reflexivity].
      apply Qle_bool_iff in F. contradiction.
Qed.

Lemma TwoNotTouch_step_follows_rule Energy T P st E g st1 g1 :
  TwoNotTouch.Proposal st g = Done (st1, g1) ->
  follows_acceptance_rule T P (Energy (TwoNotTouch.col st1) - E) E g1
    st1 (TwoNotTouch.ChangeBack st1)
    (TwoNotTouch.Metropolis_step Energy T P st E g).
Proof.
  intros HP. unfold TwoNotTouch.Metropolis_step. rewrite HP. cbn [bind].
  exact (rule_outcome T P (Energy (TwoNotTouch.col st1) - E) E g1
           st1 (TwoNotTouch.ChangeBack st1)).
Qed.

Lemma KenKen_step_follows_rule Energy T prob st E g st1 g1 :
  KenKen.Proposal st g = Done (st1, g1) ->
  follows_acceptance_rule T prob (Energy (KenKen.x1 st1) - E) E g1
    st1 (KenKen.ChangeBack st1)
    (KenKen.Metropolis_step Energy T prob st E g).
Proof.
  intros HP. unfold KenKen.Metropolis_step. rewrite HP. cbn [bind].
  exact (rule_outcome T prob (Energy (KenKen.x1 st1) - E) E g1
           st1 (KenKen.ChangeBack st1)).
Qed.

Lemma Sudoku_step_follows_rule clue T prob st E g st1 g1 :
  SudokuSolver.Proposal clue st g = Done (st1, g1) ->
  follows_acceptance_rule T prob (SudokuSolver.deltaE_of clue st1) E g1
    (SudokuSolver.mkConfig
       (upd2 (SudokuSolver.x st1) (SudokuSolver.i0 st1) (SudokuSolver.j0 st1)
             (SudokuSolver.x0 st1))
       (SudokuSolver.i0 st1) (SudokuSolver.j0 st1) (SudokuSolver.x0 st1))
    st1
    (SudokuSolver.Metropolis_step clue T prob st E g).
Proof.
  intros HP. unfold SudokuSolver.Metropolis_step. rewrite HP. cbn [bind].
  unfold SudokuSolver.decide.
  exact (rule_outcome T prob (SudokuSolver.deltaE_of clue st1) E g1 _ st1).
Qed.

(** C1.  In every pass through the loop of [Metropolis] of the Two Not
    Touch, KenKen and Sudoku solvers, once [Proposal] has returned
    (state [st1], remaining words [g1]): a move whose change of energy
    is [<= 0] is always accepted - the proposal stays in place, the
    energy is updated and no variate is drawn; a move with a change
    [> 0] is accepted exactly when [T > 0] and the single variate
    drawn is [<=] the entry of the precomputed table for that change -
    otherwise the previous configuration is put back ([ChangeBack];
    for the Sudoku solver the grid is left as it was) and the energy
    is kept; when [T > 0] does not hold such a move is rejected
    without drawing a variate. *)
Theorem metropolis_acceptance_rule :
  (forall Energy T P st E g st1 g1,
      TwoNotTouch.Proposal st g = Done (st1, g1) ->
      follows_acceptance_rule T P (Energy (TwoNotTouch.col st1) - E) E g1
        st1 (TwoNotTouch.ChangeBack st1)
        (TwoNotTouch.Metropolis_step Energy T P st E g))
  /\ (forall Energy T prob st E g st1 g1,
         KenKen.Proposal st g = Done (st1, g1) ->
         follows_acceptance_rule T prob (Energy (KenKen.x1 st1) - E) E g1
           st1 (KenKen.ChangeBack st1)
           (KenKen.Metropolis_step Energy T prob st E g))
  /\ (forall clue T prob st E g st1 g1,
         SudokuSolver.Proposal clue st g = Done (st1, g1) ->
         follows_acceptance_rule T prob (SudokuSolver.deltaE_of clue st1) E g1
           (SudokuSolver.mkConfig
              (upd2 (SudokuSolver.x st1) (SudokuSolver.i0 st1)
                    (SudokuSolver.j0 st1) (SudokuSolver.x0 st1))
              (SudokuSolver.i0 st1) (SudokuSolver.j0 st1) (SudokuSolver.x0 st1))
           st1
           (SudokuSolver.Metropolis_step clue T prob st E g)).
Proof.
  split; [|split].
  - exact TwoNotTouch_step_follows_rule.
  - exact KenKen_step_follows_rule.
  - exact Sudoku_step_follows_rule.
Qed.

Lemma metropolis_acceptance_rule_witness :
  SudokuSolver.Proposal (fun _ _ => 0)
    (SudokuSolver.mkConfig PuzzleMaker.shifted_solution 0 0 0)
    [0; 0; 477218589; 5; 7]
  = Done (SudokuSolver.mkConfig PuzzleMaker.shifted_solution 1 1 2, [5; 7])
  /\ SudokuSolver.deltaE_of (fun _ _ => 0)
       (SudokuSolver.mkConfig PuzzleMaker.shifted_solution 1 1 2) = 2
  /\ read Samples.table21 2 = Done (Qmake 1 2)
  /\ SudokuSolver.Metropolis_step (fun _ _ => 0) (Qmake 1 2) Samples.table21
       (SudokuSolver.mkConfig PuzzleMaker.shifted_solution 0 0 0) 0
       [0; 0; 477218589; 5; 7]
     = Done (SudokuSolver.mkConfig (upd2 PuzzleMaker.shifted_solution 1 1 2) 1 1 2,
             0 + SudokuSolver.deltaE_of (fun _ _ => 0)
                   (SudokuSolver.mkConfig PuzzleMaker.shifted_solution 1 1 2),
             [7]).
Proof.
  assert (HP : SudokuSolver.Proposal (fun _ _ => 0)
                 (SudokuSolver.mkConfig PuzzleMaker.shifted_solution 0 0 0)
                 [0; 0; 477218589; 5; 7]
               = Done (SudokuSolver.mkConfig PuzzleMaker.shifted_solution 1 1 2,
                       [5; 7])) by (vm_compute; reflexivity).
  assert (HD : SudokuSolver.deltaE_of (fun _ _ => 0)
                 (SudokuSolver.mkConfig PuzzleMaker.shifted_solution 1 1 2) = 2)
    by (vm_compute; reflexivity).
  split; [exact HP|]. split; [exact HD|]. split; [reflexivity|].
  destruct metropolis_acceptance_rule as (_ & _ & HS).
  destruct (HS (fun _ _ => 0) (Qmake 1 2) Samples.table21
               (SudokuSolver.mkConfig PuzzleMaker.shifted_solution 0 0 0) 0
               [0; 0; 477218589; 5; 7]
               (SudokuSolver.mkConfig PuzzleMaker.shifted_solution 1 1 2)
               [5; 7] HP) as (_ & _ & H3).
  apply (H3 5 [7] (Qmake 1 2)).
  - rewrite HD. lia.
  - reflexivity.
  - reflexivity.
  - rewrite HD. reflexivity.
  - vm_compute. discriminate.
Defined.

(** ** C4: undoing a move *)

Lemma swap_swap x1 I0 I1 k :
  KenKen.swap (KenKen.swap x1 I0 I1) I0 I1 k = x1 k.
Proof.
  unfold KenKen.swap, upd. zb; congruence.
Qed.

Lemma KenKen_Proposal_swaps st g st' g' :
  KenKen.Proposal st g = Done (st', g') ->
  KenKen.x1 st' = KenKen.swap (KenKen.x1 st) (KenKen.I0 st') (KenKen.I1 st').
Proof.
  unfold KenKen.Proposal. destruct g as [|N g]; simpl; [discriminate|].
  destruct (KenKen.pick_I1 _ _ _ g) as [[I1 g2]| |]; simpl; try discriminate.
  intros H. inversion H. reflexivity.
Qed.

Lemma Proposal_loop_frame g : forall col R S C c col' g',
  TwoNotTouch.Proposal_loop col R S C c g = Done (col', g') ->
  forall r s, (r <> R \/ s <> S) -> col' r s = col r s.
Proof.
  induction g as [|N g IH]; simpl; intros col R S C c col' g' H r s Hrs;
    [discriminate|].
  match type of H with
  | (if ?b then _ else _) = _ => destruct b
  end.
  - inversion H; subst. now apply upd2_other.
  - rewrite (IH _ _ _ _ _ _ _ H r s Hrs). now apply upd2_other.
Qed.

(** C4.  Undoing a proposed move restores the configuration at every
    index: [ChangeBack] after the KenKen [Proposal], and
    [col[R][S] = C] after the Two Not Touch [Proposal]. *)
Theorem undo_restores_configuration :
  (forall st g st' g' k,
      KenKen.Proposal st g = Done (st', g') ->
      KenKen.x1 (KenKen.ChangeBack st') k = KenKen.x1 st k)
  /\ (forall st g st' g' r s,
         TwoNotTouch.Proposal st g = Done (st', g') ->
         TwoNotTouch.col (TwoNotTouch.ChangeBack st') r s
         = TwoNotTouch.col st r s).
Proof.
  split.
  - intros st g st' g' k H.
    pose proof (KenKen_Proposal_swaps _ _ _ _ H) as E.
    unfold KenKen.ChangeBack. simpl. rewrite E. apply swap_swap.
  - intros st g st' g' r s H.
    unfold TwoNotTouch.Proposal in H.
    destruct g as [|N1 [|N2 g]]; simpl in H; try discriminate.
    destruct (TwoNotTouch.Proposal_loop _ _ _ _ _ g) as [[col' g3]| |] eqn:L;
      simpl in H; try discriminate.
    inversion H; subst; clear H.
    unfold TwoNotTouch.ChangeBack; simpl.
    unfold upd2 at 1.
    destruct (Z.eqb_spec r (RandomInteger_of 1 10 N1));
      destruct (Z.eqb_spec s (RandomInteger_of 1 2 N2)); simpl;
      try (subst; reflexivity);
      apply (Proposal_loop_frame _ _ _ _ _ _ _ _ L); lia.
Qed.

Lemma undo_restores_configuration_witness :
  (exists st' g', KenKen.Proposal Samples.kk [0; 0; 4294967295] = Done (st', g')
                  /\ KenKen.I1 st' = 49
                  /\ KenKen.x1 (KenKen.ChangeBack st') 1
                     = KenKen.x1 Samples.kk 1)
  /\ (exists st' g', TwoNotTouch.Proposal Samples.tnt [0; 0; 0; 4294967295]
                     = Done (st', g')
                     /\ TwoNotTouch.col st' 1 1 = 10
                     /\ TwoNotTouch.col (TwoNotTouch.ChangeBack st') 1 1
                        = TwoNotTouch.col Samples.tnt 1 1).
Proof.
  split.
  - eexists. eexists. split; [reflexivity|]. split; [reflexivity|].
    eapply (proj1 undo_restores_configuration
                  Samples.kk [0; 0; 4294967295]).
    reflexivity.
  - eexists. eexists. split; [reflexivity|]. split; [reflexivity|].
    eapply (proj2 undo_restores_configuration
                  Samples.tnt [0; 0; 0; 4294967295]).
    reflexivity.
Defined.

(** ** C9: reads of the acceptance table *)

Lemma read_beyond P i : Z.of_nat (length P) <= i -> read P i = Undefined.
Proof.
  intros H. unfold read. destruct (Z.ltb_spec i 0); [reflexivity|].
  destruct (nth_error P (Z.to_nat i)) eqn:E; [|reflexivity].
  assert (nth_error P (Z.to_nat i) <> None) as Hn by congruence.
  apply nth_error_Some in Hn. lia.
Qed.

(** The magic-square generator guards the read: an energy change of
    100 or more is never accepted. *)
Lemma MagicSquare_guard T P DeltaE N g :
  word N -> 100 <= DeltaE -> (0 < T)%Q ->
  MagicSquare.AcceptTransition T P DeltaE (N :: g) = Done (false, g).
Proof.
  intros HN Hd HT. unfold MagicSquare.AcceptTransition.
  destruct (Z.leb_spec DeltaE 0); [lia|].
  apply positive_temp_spec in HT. rewrite HT. simpl.
  destruct (Z.ltb_spec DeltaE 100); [lia|]. simpl.
  destruct (Qle_bool (uniform N) 0) eqn:E; [|reflexivity].
  apply Qle_bool_iff in E. pose proof (uniform_positive N HN) as Hp.
  exfalso. apply (Qlt_irrefl 0). eapply Qlt_le_trans; eauto.
Qed.

(** The Sudoku solver reads [prob[deltaE]] unguarded: with a table of
    21 doubles every energy change above 20 is a read outside it. *)
Lemma Sudoku_unguarded clue T prob st E N g :
  length prob = 21%nat -> 20 < SudokuSolver.deltaE_of clue st -> (0 < T)%Q ->
  SudokuSolver.decide clue T prob st E (N :: g) = Undefined.
Proof.
  intros HL Hd HT. unfold SudokuSolver.decide, AcceptTransition.
  destruct (Z.leb_spec (SudokuSolver.deltaE_of clue st) 0); [lia|].
  apply positive_temp_spec in HT. rewrite HT. simpl.
  rewrite read_beyond; [reflexivity | lia].
Qed.

(** C9 (the Sudoku solver at a move with energy change 24).  At a grid
    the solver can start from, the proposal "set (1,1) to 2" has
    [deltaE = 24 > 20]; at temperature 1/2 the step reads [prob[24]]
    outside the 21 allocated doubles instead of rejecting the move. *)
Theorem Sudoku_table_read_out_of_domain :
  SudokuSolver.deltaE_of Samples.one_clue Samples.crowded_move = 24
  /\ length Samples.table21 = 21%nat
  /\ read Samples.table21 24 = Undefined
  /\ SudokuSolver.decide Samples.one_clue (Qmake 1 2) Samples.table21
                         Samples.crowded_move 24 [0] = Undefined.
Proof.
  repeat split; reflexivity.
Qed.

(** ** C10: the TSP segment-reversal proposal *)



(** ** C6: the clue flags stay symmetric about (5,5) *)

Lemma grid_cases x : 1 <= x <= 9 ->
  x = 1 \/ x = 2 \/ x = 3 \/ x = 4 \/ x = 5 \/ x = 6 \/ x = 7 \/ x = 8 \/ x = 9.
Proof. lia. Qed.

Ltac each_digit x H :=
  destruct (grid_cases x H) as [?|[?|[?|[?|[?|[?|[?|[?|?]]]]]]]]; subst x.

Lemma all_clues_one C0 x y : 1 <= x <= 9 -> 1 <= y <= 9 -> all_clues C0 x y = 1.
Proof.
  intros Hx Hy. each_digit x Hx; each_digit y Hy; reflexivity.
Qed.

Lemma Flip_toggles C x0 y0 :
  let C' := fst (Flip C x0 y0) in
  C' x0 y0 = 1 - C x0 y0
  /\ (~ (x0 = 5 /\ y0 = 5) -> C' (10 - x0) (10 - y0) = 1 - C (10 - x0) (10 - y0))
  /\ (forall x y, ~ (x = x0 /\ y = y0) -> ~ (x = 10 - x0 /\ y = 10 - y0) ->
                  C' x y = C x y).
Proof.
  unfold Flip, upd2; bsimpl. repeat split.
  - zbs; try lia; try reflexivity.
  - intros H. zbs; try lia; try reflexivity.
  - intros x y H1 H2. zbs; try lia; try reflexivity.
Qed.

Lemma Flip_at_toggled C x0 y0 x y :
  (x = x0 /\ y = y0) \/ (x = 10 - x0 /\ y = 10 - y0) ->
  fst (Flip C x0 y0) x y = 1 - C x y.
Proof.
  intros H. destruct (Flip_toggles C x0 y0) as (A & B & D). cbv zeta in A, B, D.
  destruct (Z.eq_dec x x0) as [ex|ex]; [destruct (Z.eq_dec y y0) as [ey|ey]|].
  - subst. exact A.
  - assert (x = 10 - x0 /\ y = 10 - y0) as [-> ->] by lia. apply B. lia.
  - assert (x = 10 - x0 /\ y = 10 - y0) as [-> ->] by lia. apply B. lia.
Qed.

Lemma Flip_at_same C x0 y0 x y :
  ~ (x = x0 /\ y = y0) -> ~ (x = 10 - x0 /\ y = 10 - y0) ->
  fst (Flip C x0 y0) x y = C x y.
Proof.
  intros H1 H2. destruct (Flip_toggles C x0 y0) as (A & B & D). now apply D.
Qed.

Lemma Flip_symmetric C x0 y0 :
  1 <= x0 <= 9 -> 1 <= y0 <= 9 ->
  symmetric C -> symmetric (fst (Flip C x0 y0)).
Proof.
  intros Hx Hy HC x y Hx' Hy'.
  pose proof (HC x y Hx' Hy') as E.
  assert (T : ((x = x0 /\ y = y0) \/ (x = 10 - x0 /\ y = 10 - y0))
              \/ (~ (x = x0 /\ y = y0) /\ ~ (x = 10 - x0 /\ y = 10 - y0)))
    by lia.
  destruct T as [T|[T1 T2]].
  - rewrite (Flip_at_toggled C x0 y0 x y T).
    rewrite (Flip_at_toggled C x0 y0 (10 - x) (10 - y)) by lia. lia.
  - rewrite (Flip_at_same C x0 y0 x y T1 T2).
    rewrite (Flip_at_same C x0 y0 (10 - x) (10 - y)) by lia. exact E.
Qed.

(** C6.  [Flip (x0, y0)] toggles [C[x0][y0]] and, unless the site is
    the centre (5,5), also its reflection [C[10-x0][10-y0]], and
    nothing else; so from the all-clues start, after any sequence of
    flips at grid sites, [C[x][y] = C[10-x][10-y]] for all sites. *)
Theorem clue_flags_symmetric (C0 : Z -> Z -> Z) (l : list (Z * Z)) :
  Forall (fun xy => in_grid (fst xy) (snd xy)) l ->
  symmetric (after_flips C0 l)
  /\ (forall C x0 y0,
         fst (Flip C x0 y0) x0 y0 = 1 - C x0 y0
         /\ (~ (x0 = 5 /\ y0 = 5) ->
             fst (Flip C x0 y0) (10 - x0) (10 - y0) = 1 - C (10 - x0) (10 - y0))
         /\ (x0 = 5 /\ y0 = 5 ->
             forall x y, ~ (x = 5 /\ y = 5) -> fst (Flip C x0 y0) x y = C x y)).
Proof.
  intros Hl. split.
  - unfold after_flips.
    assert (H0 : symmetric (all_clues C0)).
    { intros x y Hx Hy. rewrite !all_clues_one by lia. reflexivity. }
    revert H0. generalize (all_clues C0) as C.
    induction Hl as [|xy l Hxy Hl IH]; intros C HC; simpl; [exact HC|].
    apply IH. destruct Hxy. now apply Flip_symmetric.
  - intros C x0 y0. destruct (Flip_toggles C x0 y0) as (A & B & D).
    split; [exact A|]. split; [exact B|].
    intros [-> ->] x y H. apply D; lia.
Qed.

Lemma clue_flags_symmetric_witness :
  Forall (fun xy => in_grid (fst xy) (snd xy)) [(1, 2); (5, 5); (3, 7)]
  /\ symmetric (after_flips blank [(1, 2); (5, 5); (3, 7)]).
Proof.
  assert (H : Forall (fun xy => in_grid (fst xy) (snd xy)) [(1, 2); (5, 5); (3, 7)])
    by (repeat constructor; simpl; lia).
  split; [exact H|].
  exact (proj1 (clue_flags_symmetric blank _ H)).
Defined.

(** [Metropolis2] changes the flags through [Flip] only, at a site of
    rows 1-5, so each pass of its loop keeps them symmetric. *)
Lemma Metropolis2_step_symmetric fuel s C E t g C' E' t' g' :
  Forall word g -> symmetric C ->
  Metropolis2_step fuel s C E t g = Done (Continue C' E' t' g') ->
  symmetric C'.
Proof.
  intros Hw HC H. unfold Metropolis2_step in H.
  destruct g as [|N1 [|N2 g]]; cbn [bind RandomInteger] in H; try discriminate.
  inversion Hw as [|? ? HN1 Hw1]; subst. inversion Hw1 as [|? ? HN2 Hw2]; subst.
  set (x := RandomInteger_of 1 5 N1) in *.
  set (y := RandomInteger_of 1 (if x =? 5 then 5 else 9) N2) in *.
  assert (Hx : 1 <= x <= 5) by (apply RandomInteger_of_range; auto; lia).
  assert (Hy : 1 <= y <= 9).
  { subst y. destruct (x =? 5).
    - pose proof (RandomInteger_of_range 1 5 N2 HN2 ltac:(lia)). lia.
    - apply RandomInteger_of_range; auto; lia. }
  assert (S1 : symmetric (fst (Flip C x y))) by (apply Flip_symmetric; auto; lia).
  assert (S2 : symmetric (fst (Flip (fst (Flip C x y)) x y)))
    by (apply Flip_symmetric; auto; lia).
  destruct (Flip C x y) as [C1 D] eqn:EF. cbn [fst] in S1, S2.
  destruct (D <? 0).
  - destruct (Unique fuel s C1 t) as [[u t1]| |]; cbn [bind] in H; try discriminate.
    destruct u as [v|]; [|discriminate].
    destruct (negb (v =? 0)); inversion H; subst; assumption.
  - destruct g as [|N3 g]; cbn [bind MTUniform] in H; [discriminate|].
    destruct (read p D) as [pr| |]; cbn [bind] in H; try discriminate.
    destruct (Qle_bool (uniform N3) pr); inversion H; subst; assumption.
Qed.

(** ** C3: the incremental energy change of the Sudoku solver *)

Lemma in_cells_cases p : In p cells ->
  1 <= fst p <= 9 /\ 1 <= snd p <= 9.
Proof.
  intros H. unfold cells, digits in H. cbn [flat_map map app] in H.
  repeat (destruct H as [H|H]; [subst p; cbn [fst snd]; lia|]).
  destruct H.
Qed.

Lemma in_cells x y : 1 <= x <= 9 -> 1 <= y <= 9 -> In (x, y) cells.
Proof.
  intros Hx Hy. each_digit x Hx; each_digit y Hy;
    unfold cells, digits; cbn [flat_map map app];
    repeat (first [left; reflexivity | right]).
Qed.

Lemma sum_over_nil f : sum_over f [] = 0.
Proof. reflexivity. Qed.

Lemma sum_over_cons f a l : sum_over f (a :: l) = f a + sum_over f l.
Proof. reflexivity. Qed.

Lemma sum_over_app f l1 l2 :
  sum_over f (l1 ++ l2) = sum_over f l1 + sum_over f l2.
Proof.
  induction l1 as [|a l1 IH]; cbn [app]; rewrite ?sum_over_cons, ?sum_over_nil; lia.
Qed.

Lemma sum_over_ext f g l :
  (forall q, In q l -> f q = g q) -> sum_over f l = sum_over g l.
Proof.
  induction l as [|a l IH]; intros H; rewrite ?sum_over_cons; [reflexivity|].
  rewrite (H a (or_introl eq_refl)).
  rewrite IH; [reflexivity|]. intros q Hq. apply H. now right.
Qed.

Lemma sum_over_plus f g l :
  sum_over (fun q => f q + g q) l = sum_over f l + sum_over g l.
Proof.
  induction l as [|a l IH]; rewrite ?sum_over_cons, ?sum_over_nil; lia.
Qed.

Lemma sum_over_minus f g l :
  sum_over (fun q => f q - g q) l = sum_over f l - sum_over g l.
Proof.
  induction l as [|a l IH]; rewrite ?sum_over_cons, ?sum_over_nil; lia.
Qed.

Lemma sum_over_scale k f l :
  sum_over (fun q => f q * k) l = sum_over f l * k.
Proof.
  induction l as [|a l IH]; rewrite ?sum_over_cons, ?sum_over_nil; lia.
Qed.

Lemma sum_over_filter f b l :
  sum_over f (filter b l) = sum_over (fun q => if b q then f q else 0) l.
Proof.
  induction l as [|a l IH]; cbn [filter]; [reflexivity|].
  rewrite (sum_over_cons _ a l). destruct (b a); rewrite ?sum_over_cons; lia.
Qed.

Lemma sum_over_insert f q l :
  sum_over f (insert_site q l) = f q + sum_over f l.
Proof.
  induction l as [|h t IH]; cbn [insert_site]; [reflexivity|].
  destruct (site_key q <=? site_key h); rewrite ?sum_over_cons; lia.
Qed.

Lemma sum_over_sort f l : sum_over f (sort_sites l) = sum_over f l.
Proof.
  induction l as [|a l IH]; [reflexivity|].
  change (sort_sites (a :: l)) with (insert_site a (sort_sites l)).
  rewrite sum_over_insert, sum_over_cons. lia.
Qed.

Lemma fold_left_add (g : Z -> Z) l : forall acc,
  fold_left (fun a k => a + g k) l acc = acc + fold_left (fun a k => a + g k) l 0.
Proof.
  induction l as [|k l IH]; intros acc; cbn [fold_left]; [lia|].
  rewrite IH. rewrite (IH (0 + g k)). lia.
Qed.

Section ConflictsShape.
Variables x clue : Z -> Z -> Z.
Variables r0 c0 d : Z.
Let f (q : Z * Z) : Z :=
  b2z (at_ x q =? d) * SudokuSolver.weight clue r0 c0 (fst q) (snd q).

Lemma rowcol_loop l : forall acc,
  fold_left
    (fun conflicts k =>
       let conflicts :=
         if negb (k =? c0)
         then conflicts + b2z (x r0 k =? d) * SudokuSolver.weight clue r0 c0 r0 k
         else conflicts in
       if negb (k =? r0)
       then conflicts + b2z (x k c0 =? d) * SudokuSolver.weight clue r0 c0 k c0
       else conflicts) l acc
  = acc + sum_over f
            (flat_map (fun k => (if negb (k =? c0) then [(r0, k)] else [])
                                ++ (if negb (k =? r0) then [(k, c0)] else [])) l).
Proof.
  induction l as [|k l IH]; intros acc; cbn [fold_left flat_map].
  - rewrite sum_over_nil. lia.
  - rewrite IH. rewrite !sum_over_app.
    destruct (negb (k =? c0)); destruct (negb (k =? r0));
      rewrite ?sum_over_cons, ?sum_over_nil; unfold f, at_; cbn [fst snd]; lia.
Qed.

Lemma block_inner_loop r l : forall acc,
  fold_left
    (fun conflicts c =>
       if negb (r =? r0) && negb (c =? c0)
       then conflicts + b2z (x r c =? d) * SudokuSolver.weight clue r0 c0 r c
       else conflicts) l acc
  = acc + sum_over f
            (flat_map (fun c => if negb (r =? r0) && negb (c =? c0)
                                then [(r, c)] else []) l).
Proof.
  induction l as [|c l IH]; intros acc; cbn [fold_left flat_map].
  - rewrite sum_over_nil. lia.
  - rewrite IH. rewrite !sum_over_app.
    destruct (negb (r =? r0) && negb (c =? c0));
      rewrite ?sum_over_cons, ?sum_over_nil; unfold f, at_; cbn [fst snd]; lia.
Qed.

Lemma block_outer_loop cs l : forall acc,
  fold_left
    (fun conflicts r =>
       fold_left
         (fun conflicts c =>
            if negb (r =? r0) && negb (c =? c0)
            then conflicts + b2z (x r c =? d) * SudokuSolver.weight clue r0 c0 r c
            else conflicts) cs conflicts) l acc
  = acc + sum_over f
            (flat_map (fun r => flat_map (fun c => if negb (r =? r0) && negb (c =? c0)
                                                   then [(r, c)] else []) cs) l).
Proof.
  induction l as [|r l IH]; intros acc; cbn [fold_left flat_map].
  - rewrite sum_over_nil. lia.
  - rewrite IH. rewrite block_inner_loop. rewrite !sum_over_app. lia.
Qed.

Lemma Conflicts_visit :
  SudokuSolver.Conflicts x clue r0 c0 d = sum_over f (visit r0 c0).
Proof.
  unfold SudokuSolver.Conflicts, visit.
  rewrite block_outer_loop, rowcol_loop, sum_over_app. lia.
Qed.
End ConflictsShape.

Lemma visit_sorted r0 c0 :
  1 <= r0 <= 9 -> 1 <= c0 <= 9 ->
  sort_sites (visit r0 c0) = sort_sites (filter (peer (r0, c0)) cells).
Proof.
  intros Hr Hc. each_digit r0 Hr; each_digit c0 Hc; vm_compute; reflexivity.
Qed.

Lemma Conflicts_as_sum x clue d r0 c0 :
  1 <= r0 <= 9 -> 1 <= c0 <= 9 ->
  SudokuSolver.Conflicts x clue r0 c0 d
  = sum_over (pair_term x clue d (r0, c0)) cells.
Proof.
  intros Hr Hc. rewrite Conflicts_visit.
  rewrite <- sum_over_sort, visit_sorted by assumption.
  rewrite sum_over_sort, sum_over_filter.
  apply sum_over_ext. intros q _. unfold pair_term. cbn [fst snd]. reflexivity.
Qed.

Lemma Energy_inner (g : Z -> Z -> Z) i l : forall acc,
  fold_left (fun E j => E + g i j) l acc
  = acc + sum_over (fun p => g (fst p) (snd p)) (map (fun y => (i, y)) l).
Proof.
  induction l as [|j l IH]; intros acc; cbn [fold_left map].
  - rewrite sum_over_nil. lia.
  - rewrite IH, sum_over_cons. cbn [fst snd]. lia.
Qed.

Lemma Energy_outer (g : Z -> Z -> Z) l2 l1 : forall acc,
  fold_left (fun E i => fold_left (fun E j => E + g i j) l2 E) l1 acc
  = acc + sum_over (fun p => g (fst p) (snd p))
                   (flat_map (fun x => map (fun y => (x, y)) l2) l1).
Proof.
  induction l1 as [|i l1 IH]; intros acc; cbn [fold_left flat_map].
  - rewrite sum_over_nil. lia.
  - rewrite IH, Energy_inner, sum_over_app. lia.
Qed.

(** [Energy] is half the sum, over ordered pairs of sites, of the
    conflict weight of the pair. *)
Lemma Energy_as_sum x clue :
  SudokuSolver.Energy x clue
  = Z.quot (sum_over (fun p => sum_over (pair_term x clue (at_ x p) p) cells) cells) 2.
Proof.
  unfold SudokuSolver.Energy.
  rewrite (Energy_outer (fun i j => SudokuSolver.Conflicts x clue i j (x i j))).
  f_equal. rewrite Z.add_0_l. apply sum_over_ext. intros [i j] Hp.
  apply in_cells_cases in Hp. cbn [fst snd] in *.
  now rewrite Conflicts_as_sum.
Qed.

Lemma peer_sym p q : peer p q = peer q p.
Proof.
  unfold peer. rewrite (Z.eqb_sym (fst p)), (Z.eqb_sym (snd p)).
  rewrite (Z.eqb_sym (block (fst p) (snd p))). reflexivity.
Qed.

Lemma peer_irrefl p : peer p p = false.
Proof. unfold peer. now rewrite !Z.eqb_refl. Qed.

Lemma weight_sym clue a b c d :
  SudokuSolver.weight clue a b c d = SudokuSolver.weight clue c d a b.
Proof. unfold SudokuSolver.weight. now rewrite orb_comm. Qed.

Lemma same_site_true p q : same_site p q = true -> p = q.
Proof.
  unfold same_site. destruct p, q; cbn [fst snd]. intros H.
  apply andb_true_iff in H. destruct H as [H1 H2].
  apply Z.eqb_eq in H1, H2. congruence.
Qed.

Lemma same_site_once p0 :
  In p0 cells -> sum_over (fun p => b2z (same_site p p0)) cells = 1.
Proof.
  intros H. unfold cells, digits in H. cbn [flat_map map app] in H.
  repeat (destruct H as [H|H]; [subst p0; vm_compute; reflexivity|]).
  destruct H.
Qed.

Section DoubleSums.
Variable F : Z * Z -> Z * Z -> Z.
Hypothesis F_sym : forall p q, F p q = F q p.
Hypothesis F_diag : forall p, F p p = 0.

Lemma double_sum_cons a l :
  sum_over (fun p => sum_over (F p) (a :: l)) (a :: l)
  = 2 * sum_over (F a) l + sum_over (fun p => sum_over (F p) l) l.
Proof.
  rewrite sum_over_cons, sum_over_cons, F_diag.
  rewrite (sum_over_ext (fun p => sum_over (F p) (a :: l))
                        (fun p => F a p + sum_over (F p) l)).
  - rewrite sum_over_plus. lia.
  - intros q _. rewrite sum_over_cons, F_sym. reflexivity.
Qed.

Lemma double_sum_even l :
  exists h, sum_over (fun p => sum_over (F p) l) l = 2 * h.
Proof.
  induction l as [|a l [h IH]].
  - exists 0. reflexivity.
  - exists (sum_over (F a) l + h). rewrite double_sum_cons, IH. lia.
Qed.
End DoubleSums.

Lemma sum_over_lin a b f g l :
  sum_over (fun q => a * f q + g q * b) l = a * sum_over f l + sum_over g l * b.
Proof.
  induction l as [|h t IH]; rewrite ?sum_over_cons, ?sum_over_nil; [ring|].
  rewrite IH. ring.
Qed.

Section Delta.
Variables x clue : Z -> Z -> Z.
Variables i0 j0 x0 : Z.
Let x' := upd2 x i0 j0 x0.
Let p0 := (i0, j0).
Let F (y : Z -> Z -> Z) (p q : Z * Z) : Z := pair_term y clue (at_ y p) p q.
Let D (q : Z * Z) : Z :=
  pair_term x clue x0 p0 q - pair_term x clue (at_ x p0) p0 q.

Lemma at_upd2 p : at_ x' p = if same_site p p0 then x0 else at_ x p.
Proof. reflexivity. Qed.

Lemma F_sym y p q : F y p q = F y q p.
Proof.
  unfold F, pair_term. rewrite (peer_sym p q), (weight_sym clue (fst p)).
  now rewrite Z.eqb_sym.
Qed.

Lemma F_diag y p : F y p p = 0.
Proof. unfold F, pair_term. now rewrite peer_irrefl. Qed.

Lemma D_p0 : D p0 = 0.
Proof. unfold D, pair_term. now rewrite peer_irrefl. Qed.

Lemma F_change p q :
  F x' p q - F x p q
  = b2z (same_site p p0) * D q + b2z (same_site q p0) * D p.
Proof.
  unfold F. unfold pair_term at 1 2. rewrite !at_upd2.
  destruct (same_site p p0) eqn:Ep; destruct (same_site q p0) eqn:Eq;
    cbn [b2z].
  - apply same_site_true in Ep, Eq. subst p q.
    rewrite peer_irrefl, D_p0. lia.
  - apply same_site_true in Ep. subst p. unfold D, pair_term. 
    destruct (peer p0 q); lia.
  - apply same_site_true in Eq. subst q. unfold D, pair_term.
    rewrite (peer_sym p0 p).
    rewrite (weight_sym clue (fst p0) (snd p0) (fst p) (snd p)).
    rewrite (Z.eqb_sym (at_ x p) x0), (Z.eqb_sym (at_ x p) (at_ x p0)).
    destruct (peer p p0); lia.
  - lia.
Qed.

Lemma total_change :
  In p0 cells ->
  sum_over (fun p => sum_over (F x' p) cells) cells
  - sum_over (fun p => sum_over (F x p) cells) cells
  = 2 * sum_over D cells.
Proof.
  intros Hp0.
  rewrite <- sum_over_minus.
  rewrite (sum_over_ext _
             (fun p => b2z (same_site p p0) * sum_over D cells
                       + D p * sum_over (fun q => b2z (same_site q p0)) cells)).
  - rewrite sum_over_plus.
    rewrite (sum_over_scale (sum_over D cells) (fun p => b2z (same_site p p0))).
    rewrite (sum_over_scale _ D).
    rewrite same_site_once by assumption. lia.
  - intros p _. rewrite <- sum_over_minus.
    rewrite (sum_over_ext _ (fun q => b2z (same_site p p0) * D q
                                      + b2z (same_site q p0) * D p)).
    + rewrite sum_over_lin. lia.
    + intros q _. apply F_change.
Qed.
End Delta.

(** C3.  For every grid [x], clue flags, grid site (i0, j0) and value
    [x0] (so in particular for every site that is not a clue and every
    digit 1-9), the change [Conflicts (i0,j0,x0) -
    Conflicts (i0,j0,x[i0][j0])] computed by the Sudoku solver equals
    [Energy] of the grid with (i0, j0) set to [x0] minus [Energy] of
    the current grid; the weights 5 and 1 and the halving of the
    doubly counted pairs are those of the source. *)
Theorem Sudoku_delta_matches_Energy (x clue : Z -> Z -> Z) (i0 j0 x0 : Z) :
  1 <= i0 <= 9 -> 1 <= j0 <= 9 ->
  SudokuSolver.Conflicts x clue i0 j0 x0
  - SudokuSolver.Conflicts x clue i0 j0 (x i0 j0)
  = SudokuSolver.Energy (upd2 x i0 j0 x0) clue - SudokuSolver.Energy x clue.
Proof.
  intros Hi Hj.
  rewrite !Energy_as_sum.
  pose proof (total_change x clue i0 j0 x0 (in_cells i0 j0 Hi Hj)) as HT.
  destruct (double_sum_even
              (fun p => pair_term (upd2 x i0 j0 x0) clue
                                  (at_ (upd2 x i0 j0 x0) p) p)
              (F_sym clue _) (F_diag clue _) cells) as [h' Eh'].
  destruct (double_sum_even
              (fun p => pair_term x clue (at_ x p) p)
              (F_sym clue _) (F_diag clue _) cells) as [h Eh].
  cbv beta zeta in HT.
  rewrite sum_over_minus in HT.
  rewrite <- !Conflicts_as_sum in HT by assumption.
  change (at_ x (i0, j0)) with (x i0 j0) in HT.
  assert (HT' : 2 * h' - 2 * h
                = 2 * (SudokuSolver.Conflicts x clue i0 j0 x0
                       - SudokuSolver.Conflicts x clue i0 j0 (x i0 j0)))
    by (rewrite <- Eh, <- Eh'; exact HT).
  rewrite Eh, Eh'.
  rewrite !(Z.mul_comm 2), !Z.quot_mul by lia. lia.
Qed.

Lemma Sudoku_delta_matches_Energy_witness :
  1 <= 1 <= 9 /\ Samples.one_clue 1 1 = 0
  /\ SudokuSolver.Conflicts Samples.crowded Samples.one_clue 1 1 2 = 24
  /\ SudokuSolver.Conflicts Samples.crowded Samples.one_clue 1 1 2
  - SudokuSolver.Conflicts Samples.crowded Samples.one_clue 1 1
                           (Samples.crowded 1 1)
  = SudokuSolver.Energy (upd2 Samples.crowded 1 1 2) Samples.one_clue
    - SudokuSolver.Energy Samples.crowded Samples.one_clue.
Proof.
  split; [lia|]. split; [reflexivity|]. split; [reflexivity|].
  apply (Sudoku_delta_matches_Energy Samples.crowded Samples.one_clue 1 1 2); lia.
Defined.

(** ** The uniqueness oracle: [Consistent] *)

Lemma Consistent_loop_01 t x y v b0 cnt : forall i,
  Consistent_loop t x y v b0 i cnt = 0 \/ Consistent_loop t x y v b0 i cnt = 1.
Proof.
  induction cnt as [|cnt IH]; intros i; cbn [Consistent_loop]; [now right|].
  destruct (v =? n t i (m t i)); [|apply IH].
  destruct (r t i =? x); [now left|].
  destruct (c t i =? y); [now left|].
  destruct (block (r t i) (c t i) =? b0); [now left|apply IH].
Qed.

Lemma Consistent_loop_zero t x y v cnt : forall i,
  Consistent_loop t x y v (block x y) i cnt = 0
  <-> exists k, i <= k < i + Z.of_nat cnt /\ clash t x y v k.
Proof.
  induction cnt as [|cnt IH]; intros i; cbn [Consistent_loop].
  - split; [discriminate|]. intros (k & Hk & _). lia.
  - assert (Hrest : (exists k, i + 1 <= k < i + 1 + Z.of_nat cnt /\ clash t x y v k)
                    -> exists k, i <= k < i + Z.of_nat (S cnt) /\ clash t x y v k).
    { intros (k & Hk & Hc). exists k. split; [lia|exact Hc]. }
    assert (Hhere : clash t x y v i
                    -> exists k, i <= k < i + Z.of_nat (S cnt) /\ clash t x y v k).
    { intros Hc. exists i. split; [lia|exact Hc]. }
    assert (Hsplit : (exists k, i <= k < i + Z.of_nat (S cnt) /\ clash t x y v k)
                     -> clash t x y v i
                        \/ exists k, i + 1 <= k < i + 1 + Z.of_nat cnt
                                     /\ clash t x y v k).
    { intros (k & Hk & Hc). destruct (Z.eq_dec k i) as [->|Hne]; [now left|].
      right. exists k. split; [lia|exact Hc]. }
    unfold clash, val in *.
    destruct (Z.eqb_spec v (n t i (m t i))) as [Ev|Ev].
    + destruct (Z.eqb_spec (r t i) x) as [Er|Er];
        [split; [intros _; apply Hhere; tauto | reflexivity]|].
      destruct (Z.eqb_spec (c t i) y) as [Ec|Ec];
        [split; [intros _; apply Hhere; tauto | reflexivity]|].
      destruct (Z.eqb_spec (block (r t i) (c t i)) (block x y)) as [Eb|Eb];
        [split; [intros _; apply Hhere; tauto | reflexivity]|].
      rewrite IH. split; [exact Hrest|].
      intros H. destruct (Hsplit H) as [(_ & [?|[?|?]])|H']; [tauto..|exact H'].
    + rewrite IH. split; [exact Hrest|].
      intros H. destruct (Hsplit H) as [(? & _)|H']; [tauto|exact H'].
Qed.

Lemma Consistent_01 t x y v k :
  Consistent t x y v k = 0 \/ Consistent t x y v k = 1.
Proof. apply Consistent_loop_01. Qed.

Lemma Consistent_zero t x y v k :
  Consistent t x y v k = 0 <-> exists i, 1 <= i <= k /\ clash t x y v i.
Proof.
  unfold Consistent. rewrite Consistent_loop_zero. split.
  - intros (i & Hi & Hc). exists i. split; [lia|exact Hc].
  - intros (i & Hi & Hc). exists i. split; [lia|exact Hc].
Qed.

Lemma clash_same_upto k t t' x y v i :
  same_upto k t t' -> 1 <= i <= k -> clash t x y v i -> clash t' x y v i.
Proof.
  intros H Hi (Hv & Hs). destruct (H i Hi) as (Er & Ec & Em & En).
  unfold clash, val in *. rewrite <- Er, <- Ec, <- Em, <- En. tauto.
Qed.

Lemma same_upto_sym k t t' : same_upto k t t' -> same_upto k t' t.
Proof.
  intros H i Hi. destruct (H i Hi) as (Er & Ec & Em & En).
  repeat split; auto.
Qed.

Lemma same_upto_le k k' t t' : k' <= k -> same_upto k t t' -> same_upto k' t t'.
Proof. intros Hk H i Hi. apply H. lia. Qed.

Lemma Consistent_same_upto k t t' x y v :
  same_upto k t t' -> Consistent t x y v k = Consistent t' x y v k.
Proof.
  intros H.
  destruct (Consistent_01 t x y v k) as [E|E];
    destruct (Consistent_01 t' x y v k) as [E'|E']; try congruence.
  - apply Consistent_zero in E. destruct E as (i & Hi & Hc).
    assert (Consistent t' x y v k = 0) as Z0.
    { apply Consistent_zero. exists i. split; [exact Hi|].
      eapply clash_same_upto; eauto. }
    congruence.
  - apply Consistent_zero in E'. destruct E' as (i & Hi & Hc).
    assert (Consistent t x y v k = 0) as Z0.
    { apply Consistent_zero. exists i. split; [exact Hi|].
      eapply clash_same_upto; eauto using same_upto_sym. }
    congruence.
Qed.

Lemma candidates_same_upto k t t' x y :
  same_upto k t t' -> candidates t x y k = candidates t' x y k.
Proof.
  intros H. unfold candidates. apply filter_ext. intros v.
  now rewrite (Consistent_same_upto k t t').
Qed.

Lemma in_candidates t x y k v :
  In v (candidates t x y k) <-> 1 <= v <= 9 /\ Consistent t x y v k <> 0.
Proof.
  unfold candidates. rewrite filter_In.
  assert (In v digits <-> 1 <= v <= 9) as ->.
  { unfold digits. cbn [In]. lia. }
  rewrite negb_true_iff, Z.eqb_neq. tauto.
Qed.

Lemma candidates_length t x y k :
  (0 <= Z.of_nat (length (candidates t x y k)) <= 9).
Proof.
  unfold candidates.
  pose proof (filter_length_le (fun v => negb (Consistent t x y v k =? 0)) digits).
  change (length digits) with 9%nat in H. lia.
Qed.

Lemma count_fold (b : Z -> bool) l : forall acc,
  fold_left (fun m0 v => if b v then m0 + 1 else m0) l acc
  = acc + Z.of_nat (length (filter b l)).
Proof.
  induction l as [|v l IH]; intros acc; cbn [fold_left filter length]; [lia|].
  rewrite IH. destruct (b v); cbn [length]; lia.
Qed.

Lemma count_consistent_length t x y :
  count_consistent t x y = Z.of_nat (length (candidates t x y (istar t))).
Proof.
  unfold count_consistent, candidates.
  rewrite (count_fold (fun v => negb (Consistent t x y v (istar t) =? 0))). lia.
Qed.

(** ** [Advance]: the scan for the most constrained site *)

Lemma count_consistent_bounds t x y : 0 <= count_consistent t x y <= 9.
Proof. rewrite count_consistent_length. apply candidates_length. Qed.

Lemma scan_none t l : forall mp rp cp,
  0 < mp ->
  (scan t l mp rp cp = None
   <-> exists p, In p l /\ Gtilde t (fst p) (snd p) = 0
                 /\ count_consistent t (fst p) (snd p) = 0).
Proof.
  induction l as [|[x y] l IH]; intros mp rp cp Hmp; cbn [scan].
  - split; [discriminate|]. intros (p & [] & _).
  - pose proof (count_consistent_bounds t x y) as Hb.
    destruct (Z.eqb_spec (Gtilde t x y) 0) as [Hfree|Hbusy].
    + destruct (Z.ltb_spec (count_consistent t x y) mp) as [Hlt|Hge].
      * destruct (Z.eqb_spec (count_consistent t x y) 0) as [Hz|Hnz].
        -- split; [intros _|reflexivity].
           exists (x, y). cbn [fst snd In]. auto.
        -- rewrite IH by lia. split.
           ++ intros (p & Hin & Hp). exists p. split; [now right|exact Hp].
           ++ intros (p & [Hin|Hin] & Hf & Hc).
              ** subst p. cbn [fst snd] in Hc. lia.
              ** exists p. auto.
      * destruct (Z.eqb_spec mp 0) as [Hz|Hnz]; [lia|].
        rewrite IH by lia. split.
        -- intros (p & Hin & Hp). exists p. split; [now right|exact Hp].
        -- intros (p & [Hin|Hin] & Hf & Hc).
           ++ subst p. cbn [fst snd] in Hc. lia.
           ++ exists p. auto.
    + rewrite IH by lia. split.
      * intros (p & Hin & Hp). exists p. split; [now right|exact Hp].
      * intros (p & [Hin|Hin] & Hf & Hc).
        -- subst p. cbn [fst snd] in Hf. contradiction.
        -- exists p. auto.
Qed.

Lemma scan_some t l : forall mp rp cp mp' rp' cp',
  0 < mp ->
  scan t l mp rp cp = Some (mp', rp', cp') ->
  0 < mp' <= mp
  /\ (forall p, In p l -> Gtilde t (fst p) (snd p) = 0 ->
                mp' <= count_consistent t (fst p) (snd p))
  /\ ((mp' = mp /\ rp' = rp /\ cp' = cp)
      \/ (In (rp', cp') l /\ Gtilde t rp' cp' = 0
          /\ count_consistent t rp' cp' = mp' /\ mp' < mp)).
Proof.
  induction l as [|[x y] l IH]; intros mp rp cp mp' rp' cp' Hmp H; cbn [scan] in H.
  - inversion H; subst. split; [lia|]. split; [intros p []|]. left. auto.
  - pose proof (count_consistent_bounds t x y) as Hb.
    destruct (Z.eqb_spec (Gtilde t x y) 0) as [Hfree|Hbusy].
    + destruct (Z.ltb_spec (count_consistent t x y) mp) as [Hlt|Hge].
      * destruct (Z.eqb_spec (count_consistent t x y) 0) as [Hz|Hnz];
          [discriminate|].
        assert (Hpos : 0 < count_consistent t x y) by lia.
        destruct (IH _ _ _ _ _ _ Hpos H) as (A & B & D).
        split; [lia|]. split.
        -- intros p [Hin|Hin] Hf; [subst p; cbn [fst snd]; lia | now apply B].
        -- right. destruct D as [(-> & -> & ->)|(D1 & D2 & D3 & D4)].
           ++ cbn [In]. auto.
           ++ split; [now right|]. split; [exact D2|]. split; [exact D3|lia].
      * destruct (Z.eqb_spec mp 0) as [Hz|Hnz]; [lia|].
        destruct (IH _ _ _ _ _ _ Hmp H) as (A & B & D).
        split; [lia|]. split.
        -- intros p [Hin|Hin] Hf; [subst p; cbn [fst snd]; lia | now apply B].
        -- destruct D as [D|(D1 & D2 & D3 & D4)]; [now left|].
           right. split; [now right|]. auto.
    + destruct (IH _ _ _ _ _ _ Hmp H) as (A & B & D).
      split; [lia|]. split.
      -- intros p [Hin|Hin] Hf;
           [subst p; cbn [fst snd] in Hf; contradiction | now apply B].
      -- destruct D as [D|(D1 & D2 & D3 & D4)]; [now left|].
         right. split; [now right|]. auto.
Qed.

(** When some grid site is off the trail, the site returned by the
    scan is off the trail and has the least number of consistent
    digits among such sites. *)
Lemma scan_cells t mp rp cp :
  (exists p, In p cells /\ Gtilde t (fst p) (snd p) = 0) ->
  scan t cells 10 0 0 = Some (mp, rp, cp) ->
  In (rp, cp) cells /\ Gtilde t rp cp = 0
  /\ count_consistent t rp cp = mp /\ 1 <= mp <= 9
  /\ (forall p, In p cells -> Gtilde t (fst p) (snd p) = 0 ->
                mp <= count_consistent t (fst p) (snd p)).
Proof.
  intros (p & Hin & Hf) H.
  destruct (scan_some t cells 10 0 0 mp rp cp ltac:(lia) H) as (A & B & D).
  pose proof (B p Hin Hf) as Hp.
  pose proof (count_consistent_bounds t (fst p) (snd p)) as Hb.
  destruct D as [(-> & _)|(D1 & D2 & D3 & D4)]; [lia|].
  repeat split; auto; lia.
Qed.

(** ** [Advance]: recording the consistent digits *)

Lemma set_n_same_upto k t n0 :
  (forall i j, i <> k + 1 -> n0 i j = n t i j) ->
  same_upto k (set_n t n0) t.
Proof.
  intros H i Hi. cbn. repeat split; auto. intros j. apply H. lia.
Qed.

Lemma record_fold rp cp t1 k l : forall j0 n0,
  istar t1 = k + 1 ->
  (forall i j, i <> k + 1 -> n0 i j = n t1 i j) ->
  let cands := filter (fun v => negb (Consistent t1 rp cp v k =? 0)) l in
  exists n',
    fold_left (record_body rp cp) l (j0, set_n t1 n0)
    = (j0 + Z.of_nat (length cands), set_n t1 n')
    /\ (forall i j, i <> k + 1 -> n' i j = n t1 i j)
    /\ (forall j, j <= j0 -> n' (k + 1) j = n0 (k + 1) j)
    /\ (forall jj, (jj < length cands)%nat ->
                   n' (k + 1) (j0 + 1 + Z.of_nat jj) = nth jj cands 0).
Proof.
  induction l as [|v l IH]; intros j0 n0 Hk Hn0 cands; subst cands;
    cbn [fold_left filter].
  - exists n0. cbn [length]. rewrite Z.add_0_r. repeat split; auto.
    intros jj Hjj. cbn in Hjj. lia.
  - unfold record_body at 2.
    change (istar (set_n t1 n0)) with (istar t1). rewrite Hk.
    replace (k + 1 - 1) with k by lia.
    rewrite (Consistent_same_upto k (set_n t1 n0) t1)
      by (now apply set_n_same_upto).
    destruct (negb (Consistent t1 rp cp v k =? 0)) eqn:Ev.
    + change (n (set_n t1 n0)) with n0.
      change (set_n (set_n t1 n0) (upd2 n0 (k + 1) (j0 + 1) v))
        with (set_n t1 (upd2 n0 (k + 1) (j0 + 1) v)).
      destruct (IH (j0 + 1) (upd2 n0 (k + 1) (j0 + 1) v) Hk) as (n' & E & A & B & D).
      { intros i j Hi. rewrite upd2_other by lia. now apply Hn0. }
      exists n'. rewrite E. cbn [length]. split; [f_equal; lia|].
      split; [exact A|]. split.
      * intros j Hj. rewrite B by lia. apply upd2_other. lia.
      * intros [|jj] Hjj; cbn [nth].
        -- rewrite Z.add_0_r. rewrite B by lia. apply upd2_same.
        -- replace (j0 + 1 + Z.of_nat (S jj)) with (j0 + 1 + 1 + Z.of_nat jj) by lia.
           apply D. cbn [length] in Hjj. lia.
    + destruct (IH j0 n0 Hk Hn0) as (n' & E & A & B & D).
      exists n'. rewrite E. auto.
Qed.

Lemma Advance_push t mp rp cp :
  istar t <> 81 ->
  scan t cells 10 0 0 = Some (mp, rp, cp) ->
  let k := istar t in
  let cands := candidates t rp cp k in
  exists n',
    Advance t
    = (1, mkTrail (upd (r t) (k + 1) rp) (upd (c t) (k + 1) cp)
                  (upd (m t) (k + 1) mp) n'
                  (upd2 (Gtilde t) rp cp 1) (k + 1) (Csize t))
    /\ (forall i j, i <> k + 1 -> n' i j = n t i j)
    /\ (forall jj, (jj < length cands)%nat ->
                   n' (k + 1) (1 + Z.of_nat jj) = nth jj cands 0).
Proof.
  intros H81 Hscan k cands. unfold Advance.
  destruct (Z.eqb_spec (istar t) 81) as [|_]; [contradiction|].
  rewrite Hscan.
  destruct (record_fold rp cp (set_istar t (k + 1)) k digits 0 (n t) eq_refl
                        ltac:(reflexivity)) as (n' & E & A & B & D).
  cbv zeta in E, D.
  change (set_n (set_istar t (k + 1)) (n t)) with (set_istar t (istar t + 1)) in E.
  rewrite E. exists n'. split; [reflexivity|]. split; [exact A|].
  intros jj Hjj.
  assert (Ec : candidates t rp cp k
               = filter (fun v => negb (Consistent (set_istar t (k + 1)) rp cp v k =? 0))
                        digits).
  { unfold candidates. apply filter_ext. intros v.
    rewrite (Consistent_same_upto k t (set_istar t (k + 1))); [reflexivity|].
    intros i Hi. cbn. auto. }
  subst cands. rewrite Ec in Hjj |- *. rewrite <- (D jj Hjj). reflexivity.
Qed.

Lemma Advance_done t : istar t = 81 -> Advance t = (0, t).
Proof. intros H. unfold Advance. now rewrite H. Qed.

Lemma Advance_stuck t :
  istar t <> 81 -> scan t cells 10 0 0 = None -> Advance t = (2, t).
Proof.
  intros H81 Hscan. unfold Advance.
  destruct (Z.eqb_spec (istar t) 81) as [|_]; [contradiction|].
  now rewrite Hscan.
Qed.

(** ** Counting the flagged sites *)

Lemma count_marked_upd2 G x y v :
  In (x, y) cells ->
  count_marked (upd2 G x y v)
  = count_marked G + (b2z (negb (v =? 0)) - b2z (negb (G x y =? 0))).
Proof.
  intros Hin. unfold count_marked.
  rewrite (sum_over_ext _
             (fun p => b2z (negb (at_ G p =? 0))
                       + b2z (same_site p (x, y))
                         * (b2z (negb (v =? 0)) - b2z (negb (G x y =? 0))))).
  - rewrite sum_over_plus, sum_over_scale, same_site_once by assumption. lia.
  - intros p _. change (at_ (upd2 G x y v) p)
      with (if same_site p (x, y) then v else at_ G p).
    destruct (same_site p (x, y)) eqn:E; cbn [b2z]; [|lia].
    apply same_site_true in E. subst p. unfold at_; cbn [fst snd]. lia.
Qed.

Lemma count_unmarked G l :
  sum_over (fun p => b2z (negb (at_ G p =? 0))) l < Z.of_nat (length l) ->
  exists p, In p l /\ at_ G p = 0.
Proof.
  induction l as [|a l IH]; rewrite ?sum_over_cons, ?sum_over_nil; cbn [length].
  - lia.
  - intros H. destruct (Z.eqb_spec (at_ G a) 0) as [E|E].
    + exists a. split; [now left|exact E].
    + cbn [negb b2z] in H. destruct IH as (p & Hp & Hz); [lia|].
      exists p. split; [now right|exact Hz].
Qed.

Lemma count_marked_le G l :
  0 <= sum_over (fun p => b2z (negb (at_ G p =? 0))) l <= Z.of_nat (length l).
Proof.
  induction l as [|a l IH]; rewrite ?sum_over_cons, ?sum_over_nil; cbn [length].
  - lia.
  - destruct (negb (at_ G a =? 0)); cbn [b2z]; lia.
Qed.

Lemma free_site_exists t :
  wf_trail t -> istar t <> 81 ->
  exists p, In p cells /\ Gtilde t (fst p) (snd p) = 0.
Proof.
  intros W H. apply (count_unmarked (Gtilde t) cells).
  fold (count_marked (Gtilde t)). rewrite (wf_count t W).
  change (length cells) with 81%nat. pose proof (wf_range t W). lia.
Qed.

(** ** The three outcomes of [Advance] and of [Retreat] *)

Lemma Advance_cases t :
  wf_trail t ->
  (istar t = 81 /\ Advance t = (0, t))
  \/ (istar t < 81 /\ Advance t = (2, t)
      /\ exists p, In p cells /\ Gtilde t (fst p) (snd p) = 0
                   /\ candidates t (fst p) (snd p) (istar t) = [])
  \/ (istar t < 81
      /\ exists mp rp cp n',
          Advance t
          = (1, mkTrail (upd (r t) (istar t + 1) rp) (upd (c t) (istar t + 1) cp)
                        (upd (m t) (istar t + 1) mp) n'
                        (upd2 (Gtilde t) rp cp 1) (istar t + 1) (Csize t))
          /\ In (rp, cp) cells /\ Gtilde t rp cp = 0
          /\ mp = Z.of_nat (length (candidates t rp cp (istar t)))
          /\ 1 <= mp <= 9
          /\ (forall p, In p cells -> Gtilde t (fst p) (snd p) = 0 ->
                mp <= Z.of_nat (length (candidates t (fst p) (snd p) (istar t))))
          /\ (forall i j, i <> istar t + 1 -> n' i j = n t i j)
          /\ (forall jj, (jj < length (candidates t rp cp (istar t)))%nat ->
                n' (istar t + 1) (1 + Z.of_nat jj)
                = nth jj (candidates t rp cp (istar t)) 0)).
Proof.
  intros W. pose proof (wf_range t W) as Hr.
  destruct (Z.eq_dec (istar t) 81) as [E|E].
  - left. split; [exact E|now apply Advance_done].
  - right. destruct (scan t cells 10 0 0) as [[[mp rp] cp]|] eqn:Hscan.
    + right. split; [lia|].
      destruct (Advance_push t mp rp cp E Hscan) as (n' & EA & A & B).
      destruct (scan_cells t mp rp cp (free_site_exists t W E) Hscan)
        as (S1 & S2 & S3 & S4 & S5).
      exists mp, rp, cp, n'. rewrite count_consistent_length in S3.
      repeat split; auto; try lia.
      intros p Hp Hf. rewrite <- count_consistent_length. now apply S5.
    + left. split; [lia|]. split; [now apply Advance_stuck|].
      apply scan_none in Hscan; [|lia].
      destruct Hscan as (p & Hp & Hf & Hc). exists p.
      split; [exact Hp|]. split; [exact Hf|].
      rewrite count_consistent_length in Hc.
      destruct (candidates t (fst p) (snd p) (istar t)); [reflexivity|].
      cbn [length] in Hc. lia.
Qed.

Lemma Retreat_cases t :
  wf_trail t ->
  (istar t = Csize t /\ Retreat t = (0, t))
  \/ (Csize t < istar t /\ 1 < m t (istar t)
      /\ Retreat t
         = (1, mkTrail (r t) (c t) (upd (m t) (istar t) (m t (istar t) - 1)) (n t)
                       (Gtilde t) (istar t) (Csize t)))
  \/ (Csize t < istar t /\ m t (istar t) = 1
      /\ Retreat t
         = (2, mkTrail (r t) (c t) (m t) (n t)
                       (upd2 (Gtilde t) (r t (istar t)) (c t (istar t)) 0)
                       (istar t - 1) (Csize t))).
Proof.
  intros W. pose proof (wf_range t W) as Hr. unfold Retreat.
  destruct (Z.eqb_spec (istar t) (Csize t)) as [E|E]; [now left|].
  right. pose proof (wf_m t W (istar t) ltac:(lia)) as Hm.
  destruct (Z.gtb_spec (m t (istar t)) 1) as [G|G].
  - left. repeat split; auto; lia.
  - right. repeat split; auto; lia.
Qed.

(** ** The shape of the trail is preserved *)

Lemma wf_push t mp rp cp n' :
  wf_trail t -> istar t < 81 ->
  In (rp, cp) cells -> Gtilde t rp cp = 0 -> 1 <= mp <= 9 ->
  wf_trail (mkTrail (upd (r t) (istar t + 1) rp) (upd (c t) (istar t + 1) cp)
                    (upd (m t) (istar t + 1) mp) n'
                    (upd2 (Gtilde t) rp cp 1) (istar t + 1) (Csize t)).
Proof.
  intros W H81 Hin Hfree Hmp. pose proof (wf_range t W) as Hr.
  pose proof (in_cells_cases _ Hin) as Hg. cbn [fst snd] in Hg.
  constructor; cbn [r c m n Gtilde istar Csize].
  - lia.
  - intros i Hi. destruct (Z.eq_dec i (istar t + 1)) as [->|Hne].
    + rewrite !upd_same, upd2_same. split; [exact Hg|lia].
    + rewrite !upd_other by lia.
      destruct (wf_sites t W i ltac:(lia)) as (A & B). split; [exact A|].
      rewrite upd2_other; [exact B|].
      destruct (Z.eq_dec (r t i) rp); destruct (Z.eq_dec (c t i) cp); try tauto.
      congruence.
  - intros i j Hij. destruct (Z.eq_dec j (istar t + 1)) as [->|Hne].
    + rewrite upd_same, upd_same, !(upd_other _ _ _ i) by lia.
      destruct (wf_sites t W i ltac:(lia)) as (A & B).
      intros [E1 E2]. rewrite E1, E2 in B. contradiction.
    + rewrite !upd_other by lia. apply (wf_distinct t W). lia.
  - rewrite count_marked_upd2 by assumption. rewrite (wf_count t W), Hfree.
    cbn. lia.
  - intros x y Hxy HG. unfold on_trail. cbn [r c m n Gtilde istar Csize].
    destruct (Z.eq_dec x rp) as [Ex|Ex]; [destruct (Z.eq_dec y cp) as [Ey|Ey]|].
    + exists (istar t + 1). rewrite !upd_same. split; [lia|auto].
    + rewrite upd2_other in HG by lia.
      destruct (wf_marked t W x y Hxy HG) as (i & Hi & E1 & E2).
      exists i. rewrite !upd_other by lia. split; [lia|auto].
    + rewrite upd2_other in HG by lia.
      destruct (wf_marked t W x y Hxy HG) as (i & Hi & E1 & E2).
      exists i. rewrite !upd_other by lia. split; [lia|auto].
  - intros i Hi. destruct (Z.eq_dec i (istar t + 1)) as [->|Hne].
    + now rewrite upd_same.
    + rewrite upd_other by lia. apply (wf_m t W). lia.
Qed.

Lemma wf_next_digit t :
  wf_trail t -> Csize t < istar t -> 1 < m t (istar t) ->
  wf_trail (mkTrail (r t) (c t) (upd (m t) (istar t) (m t (istar t) - 1)) (n t)
                    (Gtilde t) (istar t) (Csize t)).
Proof.
  intros W Hk Hm. destruct W as [W1 W2 W3 W4 W5 W6].
  constructor; cbn [r c m n Gtilde istar Csize]; auto.
  intros i Hi. destruct (Z.eq_dec i (istar t)) as [->|Hne].
  - rewrite upd_same. pose proof (W6 (istar t) Hi). lia.
  - rewrite upd_other by lia. now apply W6.
Qed.

Lemma wf_pop t :
  wf_trail t -> Csize t < istar t ->
  wf_trail (mkTrail (r t) (c t) (m t) (n t)
                    (upd2 (Gtilde t) (r t (istar t)) (c t (istar t)) 0)
                    (istar t - 1) (Csize t)).
Proof.
  intros W Hk. pose proof (wf_range t W) as Hr.
  destruct (wf_sites t W (istar t) ltac:(lia)) as (Hg & HG).
  constructor; cbn [r c m n Gtilde istar Csize].
  - lia.
  - intros i Hi. destruct (wf_sites t W i ltac:(lia)) as (A & B).
    split; [exact A|]. rewrite upd2_other; [exact B|].
    pose proof (wf_distinct t W i (istar t) ltac:(lia)) as Hd.
    destruct (Z.eq_dec (r t i) (r t (istar t)));
      destruct (Z.eq_dec (c t i) (c t (istar t))); tauto.
  - intros i j Hij. apply (wf_distinct t W). lia.
  - rewrite count_marked_upd2 by (apply in_cells; apply Hg).
    rewrite (wf_count t W).
    destruct (Z.eqb_spec (Gtilde t (r t (istar t)) (c t (istar t))) 0);
      [contradiction|]. cbn. lia.
  - intros x y Hxy HG'. unfold on_trail. cbn [r c m n Gtilde istar Csize].
    assert (Hne : ~ (x = r t (istar t) /\ y = c t (istar t))).
    { intros [-> ->]. rewrite upd2_same in HG'. contradiction. }
    rewrite upd2_other in HG' by lia.
    destruct (wf_marked t W x y Hxy HG') as (i & Hi & E1 & E2).
    exists i. split; [|auto].
    destruct (Z.eq_dec i (istar t)) as [->|]; [|lia].
    exfalso. apply Hne. auto.
  - intros i Hi. apply (wf_m t W). lia.
Qed.

(** ** The search halts *)

Lemma subtree_cost_pos d : 1 <= subtree_cost d.
Proof. induction d as [|d IH]; cbn [subtree_cost]; lia. Qed.

Lemma depth_cost_pos i : 1 <= depth_cost i.
Proof. apply subtree_cost_pos. Qed.

Lemma depth_cost_step i :
  i < 81 -> depth_cost i = 10 + 9 * depth_cost (i + 1).
Proof.
  intros H. unfold depth_cost.
  replace (Z.to_nat (81 - i)) with (S (Z.to_nat (81 - (i + 1)))) by lia.
  reflexivity.
Qed.

Lemma sum_levels_ext f g lo cnt :
  (forall i, lo < i <= lo + Z.of_nat cnt -> f i = g i) ->
  sum_levels f lo cnt = sum_levels g lo cnt.
Proof.
  induction cnt as [|cnt IH]; intros H; cbn [sum_levels]; [reflexivity|].
  rewrite IH by (intros i Hi; apply H; lia).
  rewrite H by lia. reflexivity.
Qed.

Lemma sum_levels_nonneg f lo cnt :
  (forall i, lo < i <= lo + Z.of_nat cnt -> 0 <= f i) ->
  0 <= sum_levels f lo cnt.
Proof.
  induction cnt as [|cnt IH]; intros H; cbn [sum_levels]; [lia|].
  pose proof (IH ltac:(intros i Hi; apply H; lia)).
  pose proof (H (lo + Z.of_nat (S cnt)) ltac:(lia)). lia.
Qed.

Lemma level_cost_pos t i : 1 <= m t i -> 1 <= level_cost t i.
Proof.
  intros H. unfold level_cost. pose proof (depth_cost_pos i). nia.
Qed.

Lemma potential_nonneg status t : wf_trail t -> 0 <= potential status t.
Proof.
  intros W. pose proof (wf_range t W) as Hr. unfold potential.
  assert (0 <= sum_levels (level_cost t) (Csize t) (Z.to_nat (istar t - Csize t))).
  { apply sum_levels_nonneg. intros i Hi.
    pose proof (level_cost_pos t i). pose proof (wf_m t W i ltac:(lia)). lia. }
  pose proof (depth_cost_pos (istar t)).
  destruct (status =? 1); lia.
Qed.

Lemma potential_push t mp rp cp n' :
  wf_trail t -> istar t < 81 -> 1 <= mp <= 9 ->
  potential 1 (mkTrail (upd (r t) (istar t + 1) rp) (upd (c t) (istar t + 1) cp)
                       (upd (m t) (istar t + 1) mp) n'
                       (upd2 (Gtilde t) rp cp 1) (istar t + 1) (Csize t))
  < potential 1 t.
Proof.
  intros W H81 Hmp. pose proof (wf_range t W) as Hr.
  unfold potential. cbn [r c m n Gtilde istar Csize Z.eqb Pos.eqb].
  replace (Z.to_nat (istar t + 1 - Csize t))
    with (S (Z.to_nat (istar t - Csize t))) by lia.
  cbn [sum_levels].
  replace (Csize t + Z.of_nat (S (Z.to_nat (istar t - Csize t))))
    with (istar t + 1) by lia.
  rewrite (sum_levels_ext _ (level_cost t)).
  - unfold level_cost at 2. cbn [m]. rewrite upd_same.
    rewrite (depth_cost_step (istar t)) by lia.
    pose proof (depth_cost_pos (istar t + 1)). nia.
  - intros i Hi. unfold level_cost. cbn [m]. rewrite upd_other by lia. reflexivity.
Qed.

Lemma potential_stuck t : potential 2 t < potential 1 t.
Proof.
  unfold potential. cbn [Z.eqb Pos.eqb]. pose proof (depth_cost_pos (istar t)). lia.
Qed.

Lemma potential_next_digit t :
  wf_trail t -> Csize t < istar t -> 1 < m t (istar t) ->
  potential 1 (mkTrail (r t) (c t) (upd (m t) (istar t) (m t (istar t) - 1)) (n t)
                       (Gtilde t) (istar t) (Csize t))
  < potential 2 t.
Proof.
  intros W Hk Hm. unfold potential. cbn [r c m n Gtilde istar Csize Z.eqb Pos.eqb].
  destruct (Z.to_nat (istar t - Csize t)) as [|cnt] eqn:E; [lia|].
  cbn [sum_levels].
  replace (Csize t + Z.of_nat (S cnt)) with (istar t) by lia.
  rewrite (sum_levels_ext _ (level_cost t)).
  - unfold level_cost. cbn [m]. rewrite upd_same.
    pose proof (depth_cost_pos (istar t)). nia.
  - intros i Hi. unfold level_cost. cbn [m]. rewrite upd_other by lia. reflexivity.
Qed.

Lemma potential_pop t :
  wf_trail t -> Csize t < istar t -> m t (istar t) = 1 ->
  potential 2 (mkTrail (r t) (c t) (m t) (n t)
                       (upd2 (Gtilde t) (r t (istar t)) (c t (istar t)) 0)
                       (istar t - 1) (Csize t))
  < potential 2 t.
Proof.
  intros W Hk Hm. unfold potential. cbn [r c m n Gtilde istar Csize Z.eqb Pos.eqb].
  destruct (Z.to_nat (istar t - Csize t)) as [|cnt] eqn:E; [lia|].
  replace (Z.to_nat (istar t - 1 - Csize t)) with cnt by lia.
  cbn [sum_levels].
  replace (Csize t + Z.of_nat (S cnt)) with (istar t) by lia.
  unfold level_cost. cbn [m]. rewrite Hm. lia.
Qed.

(** One turn from a well-shaped trail: the shape is kept, and either
    the loop is left or the potential drops. *)
Lemma turn_progress status t :
  wf_trail t -> status = 1 \/ status = 2 ->
  wf_trail (snd (turn (status, t)))
  /\ Csize (snd (turn (status, t))) = Csize t
  /\ ((fst (turn (status, t)) = 0 /\ snd (turn (status, t)) = t
       /\ ((status = 1 /\ istar t = 81) \/ (status = 2 /\ istar t = Csize t)))
      \/ ((fst (turn (status, t)) = 1 \/ fst (turn (status, t)) = 2)
          /\ potential (fst (turn (status, t))) (snd (turn (status, t)))
             < potential status t)).
Proof.
  intros W [->| ->]; cbn [turn Z.eqb Pos.eqb].
  - destruct (Advance_cases t W)
      as [(E & ->)|[(E & -> & _)|(E & mp & rp & cp & n' & -> & A1 & A2 & A3 & A4 & _)]];
      cbn [fst snd].
    + split; [exact W|]. split; [reflexivity|]. left. auto.
    + split; [exact W|]. split; [reflexivity|]. right.
      split; [now right|apply potential_stuck].
    + split; [now apply wf_push|]. split; [reflexivity|]. right.
      split; [now left|now apply potential_push].
  - destruct (Retreat_cases t W) as [(E & ->)|[(E & Hm & ->)|(E & Hm & ->)]];
      cbn [fst snd].
    + split; [exact W|]. split; [reflexivity|]. left. auto.
    + split; [now apply wf_next_digit|]. split; [reflexivity|]. right.
      split; [now left|now apply potential_next_digit].
    + split; [now apply wf_pop|]. split; [reflexivity|]. right.
      split; [now right|now apply potential_pop].
Qed.

Lemma search_unfold fuel status t :
  search (S fuel) status t
  = if status =? 0 then Done t
    else search fuel (fst (turn (status, t))) (snd (turn (status, t))).
Proof.
  cbn [search]. destruct (status =? 0); [reflexivity|].
  destruct (turn (status, t)); reflexivity.
Qed.

Lemma search_done fuel t : search fuel 0 t = Done t.
Proof. destruct fuel; reflexivity. Qed.

Lemma search_more fuel : forall status t t',
  search fuel status t = Done t' ->
  forall fuel', (fuel <= fuel')%nat -> search fuel' status t = Done t'.
Proof.
  induction fuel as [|fuel IH]; intros status t t' H fuel' Hle.
  - cbn [search] in H. destruct (Z.eqb_spec status 0) as [->|]; [|discriminate].
    rewrite search_done. exact H.
  - destruct fuel' as [|fuel']; [lia|].
    rewrite search_unfold in *. destruct (status =? 0); [exact H|].
    apply (IH _ _ _ H). lia.
Qed.

Lemma search_halts_from : forall (bound : nat) status t,
  wf_trail t -> status = 1 \/ status = 2 ->
  (Z.to_nat (potential status t) < bound)%nat ->
  exists fuel t', search fuel status t = Done t' /\ wf_trail t'
                  /\ Csize t' = Csize t
                  /\ (istar t' = 81 \/ istar t' = Csize t').
Proof.
  induction bound as [|bound IH]; intros status t W Hs Hb; [lia|].
  destruct (turn_progress status t W Hs) as (W' & HC & [(E0 & Et & Hend)|(E12 & Hlt)]).
  - exists 1%nat, t. rewrite search_unfold.
    destruct (Z.eqb_spec status 0) as [->|_]; [lia|].
    rewrite E0, Et, search_done. split; [reflexivity|]. split; [exact W|].
    split; [reflexivity|]. destruct Hend as [(_ & ->)|(_ & ->)]; auto.
  - pose proof (potential_nonneg (fst (turn (status, t))) _ W') as Hnn.
    assert (Hb' : (Z.to_nat (potential (fst (turn (status, t)))
                                       (snd (turn (status, t)))) < bound)%nat)
      by lia.
    destruct (IH _ _ W' E12 Hb') as (fuel & t' & Hrun & Wt' & HC' & Hend).
    exists (S fuel), t'. rewrite search_unfold.
    destruct (Z.eqb_spec status 0) as [->|_]; [lia|].
    split; [exact Hrun|]. split; [exact Wt'|]. split; [congruence|exact Hend].
Qed.

Lemma search_halts status t :
  wf_trail t -> status = 1 \/ status = 2 ->
  exists fuel t', search fuel status t = Done t' /\ wf_trail t'
                  /\ Csize t' = Csize t
                  /\ (istar t' = 81 \/ istar t' = Csize t').
Proof.
  intros W Hs.
  apply (search_halts_from (S (Z.to_nat (potential status t)))); auto.
Qed.

(** ** [GettingStarted] *)

Lemma NoDup_cells : NoDup cells.
Proof.
  apply (NoDup_count_occ' site_eq_dec). intros p Hp.
  unfold cells, digits in Hp. cbn [flat_map map app] in Hp.
  repeat (destruct Hp as [Hp|Hp]; [subst p; vm_compute; reflexivity|]).
  destruct Hp.
Qed.

Lemma zrange_S lo k : zrange lo (S k) = zrange lo k ++ [lo + Z.of_nat k].
Proof.
  unfold zrange. rewrite seq_S, map_app. reflexivity.
Qed.

Lemma in_zrange lo k i : In i (zrange lo k) <-> lo <= i < lo + Z.of_nat k.
Proof.
  unfold zrange. rewrite in_map_iff. split.
  - intros (j & <- & Hj). apply in_seq in Hj. lia.
  - intros H. exists (Z.to_nat (i - lo)). split; [lia|]. apply in_seq. lia.
Qed.

Lemma trail_cells_S t k :
  trail_cells t (S k)
  = trail_cells t k ++ [(r t (1 + Z.of_nat k), c t (1 + Z.of_nat k))].
Proof.
  unfold trail_cells. rewrite zrange_S, map_app. reflexivity.
Qed.

Lemma trail_cells_same t t' k :
  (forall i, 1 <= i <= Z.of_nat k -> r t i = r t' i /\ c t i = c t' i) ->
  trail_cells t k = trail_cells t' k.
Proof.
  intros H. unfold trail_cells. apply map_ext_in. intros i Hi.
  apply in_zrange in Hi. destruct (H i ltac:(lia)) as (-> & ->). reflexivity.
Qed.

Lemma in_trail_cells t k p :
  In p (trail_cells t k)
  <-> exists i, 1 <= i <= Z.of_nat k /\ r t i = fst p /\ c t i = snd p.
Proof.
  unfold trail_cells. rewrite in_map_iff. split.
  - intros (i & <- & Hi). apply in_zrange in Hi. exists i. cbn. split; [lia|auto].
  - intros (i & Hi & E1 & E2). exists i. split.
    + destruct p. cbn in *. congruence.
    + apply in_zrange. lia.
Qed.

Lemma trail_cells_distinct t k :
  NoDup (trail_cells t k) ->
  forall i j, 1 <= i < j /\ j <= Z.of_nat k ->
              ~ (r t i = r t j /\ c t i = c t j).
Proof.
  induction k as [|k IH]; intros ND i j Hij; [lia|].
  rewrite trail_cells_S in ND.
  apply NoDup_remove in ND. rewrite app_nil_r in ND. destruct ND as (ND & Hnin).
  destruct (Z.eq_dec j (1 + Z.of_nat k)) as [->|Hne].
  - intros [E1 E2]. apply Hnin. apply in_trail_cells. exists i.
    cbn [fst snd]. split; [lia|auto].
  - apply IH; [exact ND|lia].
Qed.

Lemma GettingStarted_body_eq s C i t x y :
  GettingStarted_body s C (i, t) (x, y)
  = if clue_site C (x, y)
    then (i + 1, mkTrail (upd (r t) (i + 1) x) (upd (c t) (i + 1) y)
                         (upd (m t) (i + 1) 1) (upd2 (n t) (i + 1) 1 (s x y))
                         (upd2 (Gtilde t) x y 1) (istar t) (Csize t))
    else (i, set_Gtilde t (upd2 (Gtilde t) x y 0)).
Proof. reflexivity. Qed.

Lemma GettingStarted_loop s C l2 : forall l1 i t,
  NoDup (l1 ++ l2) -> started s C l1 i t ->
  started s C (l1 ++ l2)
          (fst (fold_left (GettingStarted_body s C) l2 (i, t)))
          (snd (fold_left (GettingStarted_body s C) l2 (i, t))).
Proof.
  induction l2 as [|[x y] l2 IH]; intros l1 i t ND St.
  - rewrite app_nil_r. exact St.
  - cbn [fold_left].
    replace (l1 ++ (x, y) :: l2) with ((l1 ++ [(x, y)]) ++ l2) in *
      by (rewrite <- app_assoc; reflexivity).
    assert (Hfresh : ~ In (x, y) l1).
    { apply NoDup_app_remove_r in ND. apply NoDup_remove in ND.
      rewrite app_nil_r in ND. tauto. }
    destruct St as (Si & Sc & Sm & SG).
    rewrite GettingStarted_body_eq.
    destruct (clue_site C (x, y)) eqn:Ecl; apply IH; try exact ND.
    + unfold started. rewrite filter_app. cbn [filter]. rewrite Ecl.
      rewrite length_app. cbn [length].
      replace (length (filter (clue_site C) l1) + 1)%nat
        with (S (length (filter (clue_site C) l1))) by lia.
      rewrite trail_cells_S. cbn [r c m n Gtilde]. rewrite <- Si.
      replace (1 + i) with (i + 1) by lia. rewrite !upd_same.
      split; [lia|]. split; [|split].
      * f_equal. etransitivity; [|exact Sc]. apply trail_cells_same.
        intros k Hk. cbn [r c]. rewrite !upd_other by lia. auto.
      * intros k Hk. destruct (Z.eq_dec k (i + 1)) as [->|Hne].
        -- rewrite !upd_same, upd2_same. auto.
        -- rewrite !upd_other by lia. rewrite upd2_other by lia. apply Sm. lia.
      * intros p Hp. apply in_app_or in Hp. destruct Hp as [Hp|[<-|[]]].
        -- destruct p as [px py]. unfold at_. cbn [fst snd].
           rewrite upd2_other; [apply (SG (px, py) Hp)|].
           destruct (Z.eq_dec px x); destruct (Z.eq_dec py y); try tauto.
           subst. contradiction.
        -- unfold at_. cbn [fst snd]. rewrite upd2_same, Ecl. reflexivity.
    + unfold started. rewrite filter_app. cbn [filter]. rewrite Ecl.
      rewrite app_nil_r. cbn [set_Gtilde r c m n Gtilde].
      split; [exact Si|]. split; [|split].
      * etransitivity; [|exact Sc]. apply trail_cells_same.
        intros k Hk. cbn [r c]. auto.
      * exact Sm.
      * intros p Hp. apply in_app_or in Hp. destruct Hp as [Hp|[<-|[]]].
        -- destruct p as [px py]. unfold at_. cbn [fst snd].
           rewrite upd2_other; [apply (SG (px, py) Hp)|].
           destruct (Z.eq_dec px x); destruct (Z.eq_dec py y); try tauto.
           subst. contradiction.
        -- unfold at_. cbn [fst snd]. rewrite upd2_same, Ecl. reflexivity.
Qed.

Lemma GettingStarted_started s C t0 :
  started s C cells (istar (GettingStarted s C t0)) (GettingStarted s C t0)
  /\ Csize (GettingStarted s C t0) = istar (GettingStarted s C t0).
Proof.
  assert (H0 : started s C [] 0 t0).
  { unfold started. cbn [filter length trail_cells zrange seq map].
    repeat split; try reflexivity; try lia. intros p []. }
  pose proof (GettingStarted_loop s C cells [] 0 t0 NoDup_cells H0) as H.
  cbn [app] in H. unfold GettingStarted.
  destruct (fold_left (GettingStarted_body s C) cells (0, t0)) as [i t].
  cbn [fst snd istar Csize] in *. split; [|reflexivity].
  destruct H as (Si & Sc & Sm & SG).
  unfold started. split; [exact Si|]. split; [exact Sc|]. split; [exact Sm|exact SG].
Qed.

Lemma sum_b2z_filter (f : Z * Z -> bool) l :
  sum_over (fun p => b2z (f p)) l = Z.of_nat (length (filter f l)).
Proof.
  induction l as [|a l IH]; cbn [filter]; [reflexivity|].
  rewrite sum_over_cons, IH. destruct (f a); cbn [b2z length]; lia.
Qed.

Lemma started_on_trail s C t x y :
  started s C cells (istar t) t -> in_grid x y ->
  clue_site C (x, y) = true -> on_trail t (istar t) x y.
Proof.
  intros (Si & Sc & Sm & SG) [Hx Hy] Hcl.
  assert (Hin : In (x, y) (trail_cells t (length (filter (clue_site C) cells)))).
  { rewrite Sc. apply filter_In. split; [now apply in_cells|exact Hcl]. }
  apply in_trail_cells in Hin. destruct Hin as (i & Hi & E1 & E2).
  exists i. cbn [fst snd] in *. split; [lia|auto].
Qed.

Lemma started_site s C t i :
  started s C cells (istar t) t -> 1 <= i <= istar t ->
  In (r t i, c t i) cells /\ clue_site C (r t i, c t i) = true.
Proof.
  intros (Si & Sc & Sm & SG) Hi.
  assert (Hin : In (r t i, c t i) (trail_cells t (length (filter (clue_site C) cells)))).
  { apply in_trail_cells. exists i. cbn [fst snd]. split; [lia|auto]. }
  rewrite Sc in Hin. now apply filter_In in Hin.
Qed.

Lemma GettingStarted_wf s C t0 : wf_trail (GettingStarted s C t0).
Proof.
  destruct (GettingStarted_started s C t0) as (St & HC).
  set (t := GettingStarted s C t0) in *.
  pose proof St as (Si & Sc & Sm & SG).
  pose proof (filter_length_le (clue_site C) cells) as Hle.
  change (length cells) with 81%nat in Hle.
  constructor.
  - lia.
  - intros i Hi. destruct (started_site s C t i St Hi) as (Hin & Hcl).
    split; [exact (in_cells_cases _ Hin)|].
    pose proof (SG _ Hin) as HG. unfold at_ in HG. cbn [fst snd] in HG.
    rewrite HG, Hcl. cbn. lia.
  - intros i j Hij. apply (trail_cells_distinct t (length (filter (clue_site C) cells))).
    + rewrite Sc. apply NoDup_filter, NoDup_cells.
    + lia.
  - unfold count_marked.
    rewrite (sum_over_ext _ (fun p => b2z (clue_site C p))).
    + rewrite sum_b2z_filter. lia.
    + intros p Hp. rewrite (SG p Hp). now destruct (clue_site C p).
  - intros x y Hxy HG. apply (started_on_trail s C t x y St Hxy).
    destruct Hxy as [Hx Hy].
    pose proof (SG (x, y) (in_cells x y Hx Hy)) as E. unfold at_ in E.
    cbn [fst snd] in E. rewrite E in HG.
    destruct (clue_site C (x, y)); [reflexivity|]. cbn in HG. lia.
  - intros i Hi. lia.
Qed.

(** ** Valid grids *)

Lemma valid_digit g p : valid_grid g = true -> In p cells -> 1 <= at_ g p <= 9.
Proof.
  unfold valid_grid. intros H Hp. apply andb_true_iff in H. destruct H as [H _].
  rewrite forallb_forall in H. specialize (H p Hp). lia.
Qed.

Lemma valid_peer g p q :
  valid_grid g = true -> In p cells -> In q cells -> peer p q = true ->
  at_ g p <> at_ g q.
Proof.
  unfold valid_grid. intros H Hp Hq Hpq. apply andb_true_iff in H.
  destruct H as [_ H]. rewrite forallb_forall in H. specialize (H p Hp).
  rewrite forallb_forall in H. specialize (H q Hq). rewrite Hpq in H.
  cbn [implb] in H. apply negb_true_iff, Z.eqb_neq in H. exact H.
Qed.

Lemma keeps_clue s C g p :
  keeps_clues s C g = true -> In p cells -> at_ C p <> 0 -> at_ g p = at_ s p.
Proof.
  unfold keeps_clues. intros H Hp Hc. rewrite forallb_forall in H.
  specialize (H p Hp). destruct (Z.eqb_spec (at_ C p) 0); [contradiction|].
  cbn [negb implb] in H. now apply Z.eqb_eq.
Qed.

Lemma peer_intro x y x' y' :
  ~ (x = x' /\ y = y') ->
  x = x' \/ y = y' \/ block x y = block x' y' ->
  peer (x, y) (x', y') = true.
Proof.
  intros Hne H. unfold peer. cbn [fst snd].
  destruct (Z.eqb_spec x x'); destruct (Z.eqb_spec y y');
    destruct (Z.eqb_spec (block x y) (block x' y')); cbn; try reflexivity; tauto.
Qed.

(** A completion that carries the digits of the trail carries, at any
    site off the trail, a digit consistent with the trail. *)
Lemma completion_digit_consistent g t x y :
  wf_trail t -> valid_grid g = true -> agrees g t (istar t) ->
  in_grid x y -> Gtilde t x y = 0 ->
  1 <= g x y <= 9 /\ Consistent t x y (g x y) (istar t) <> 0.
Proof.
  intros W V A [Hx Hy] Hfree.
  pose proof (in_cells x y Hx Hy) as Hin.
  split; [exact (valid_digit g (x, y) V Hin)|].
  intros Hz. apply Consistent_zero in Hz. destruct Hz as (i & Hi & Hv & Hs).
  destruct (wf_sites t W i Hi) as ([Hrx Hcy] & HG).
  assert (Hne : ~ (r t i = x /\ c t i = y)) by (intros [E1 E2]; congruence).
  apply (valid_peer g (r t i, c t i) (x, y) V); auto using in_cells.
  - now apply peer_intro.
  - unfold at_. cbn [fst snd]. rewrite (A i Hi). auto.
Qed.

(** ** The content of the trail is preserved *)

Lemma agrees_same_upto k g t t' :
  same_upto k t t' -> agrees g t k -> agrees g t' k.
Proof.
  intros H A i Hi. destruct (H i Hi) as (Er & Ec & Em & En).
  unfold val. rewrite <- Er, <- Ec, <- Em, <- En. apply A. exact Hi.
Qed.

Lemma agrees_le k k' g t : k' <= k -> agrees g t k -> agrees g t k'.
Proof. intros Hk A i Hi. apply A. lia. Qed.

Lemma same_upto_push t mp rp cp n' :
  (forall i j, i <> istar t + 1 -> n' i j = n t i j) ->
  same_upto (istar t)
            t
            (mkTrail (upd (r t) (istar t + 1) rp) (upd (c t) (istar t + 1) cp)
                     (upd (m t) (istar t + 1) mp) n'
                     (upd2 (Gtilde t) rp cp 1) (istar t + 1) (Csize t)).
Proof.
  intros Hn i Hi. cbn [r c m n]. rewrite !upd_other by lia.
  repeat split; auto. intros j. symmetry. apply Hn. lia.
Qed.

Lemma same_upto_next_digit t :
  same_upto (istar t - 1)
            t
            (mkTrail (r t) (c t) (upd (m t) (istar t) (m t (istar t) - 1)) (n t)
                     (Gtilde t) (istar t) (Csize t)).
Proof.
  intros i Hi. cbn [r c m n]. rewrite !upd_other by lia. repeat split; auto.
Qed.

Lemma same_upto_pop t k G i :
  same_upto k t (mkTrail (r t) (c t) (m t) (n t) G i (Csize t)).
Proof. intros j Hj. cbn [r c m n]. repeat split; auto. Qed.

Lemma on_trail_same_upto k t t' x y :
  same_upto k t t' -> on_trail t k x y -> on_trail t' k x y.
Proof.
  intros H (i & Hi & E1 & E2). destruct (H i Hi) as (Er & Ec & _).
  exists i. split; [exact Hi|]. split; congruence.
Qed.

Lemma increasing_filter (f : Z -> bool) l :
  (forall a b, (a < b < length l)%nat -> nth a l 0 < nth b l 0) ->
  forall a b, (a < b < length (filter f l))%nat ->
              nth a (filter f l) 0 < nth b (filter f l) 0.
Proof.
  induction l as [|h l IH]; intros Hl a b Hab; cbn [filter] in *.
  - cbn in Hab. lia.
  - assert (Hl' : forall a b, (a < b < length l)%nat -> nth a l 0 < nth b l 0).
    { intros a' b' H'. apply (Hl (S a') (S b')). cbn [length]. lia. }
    assert (Hh : forall v, In v (filter f l) -> h < v).
    { intros v Hv. apply filter_In in Hv. destruct Hv as [Hv _].
      destruct (In_nth l v 0 Hv) as (k & Hk & <-).
      apply (Hl 0%nat (S k)). cbn [length]. lia. }
    destruct (f h).
    + cbn [length] in Hab. destruct a as [|a]; destruct b as [|b]; try lia; cbn [nth].
      * apply Hh. apply nth_In. lia.
      * apply IH; [exact Hl'|lia].
    + apply IH; [exact Hl'|exact Hab].
Qed.

Lemma candidates_increasing t x y k a b :
  (a < b < length (candidates t x y k))%nat ->
  nth a (candidates t x y k) 0 < nth b (candidates t x y k) 0.
Proof.
  apply increasing_filter. clear a b. intros a b Hab.
  change (length digits) with 9%nat in Hab.
  assert (Ha : (a = 0 \/ a = 1 \/ a = 2 \/ a = 3 \/ a = 4 \/ a = 5 \/ a = 6 \/ a = 7)%nat)
    by lia.
  assert (Hb : (b = 1 \/ b = 2 \/ b = 3 \/ b = 4 \/ b = 5 \/ b = 6 \/ b = 7 \/ b = 8)%nat)
    by lia.
  destruct Ha as [->|[->|[->|[->|[->|[->|[->| ->]]]]]]];
    destruct Hb as [->|[->|[->|[->|[->|[->|[->| ->]]]]]]];
    cbn [nth digits]; lia.
Qed.

Lemma si_push s C t mp rp cp n' :
  wf_trail t -> search_inv s C t ->
  mp = Z.of_nat (length (candidates t rp cp (istar t))) ->
  (forall i j, i <> istar t + 1 -> n' i j = n t i j) ->
  (forall jj, (jj < length (candidates t rp cp (istar t)))%nat ->
              n' (istar t + 1) (1 + Z.of_nat jj)
              = nth jj (candidates t rp cp (istar t)) 0) ->
  search_inv s C
             (mkTrail (upd (r t) (istar t + 1) rp) (upd (c t) (istar t + 1) cp)
                      (upd (m t) (istar t + 1) mp) n'
                      (upd2 (Gtilde t) rp cp 1) (istar t + 1) (Csize t)).
Proof.
  intros W SI Hmp Hn Hc. pose proof (wf_range t W) as Hr.
  pose proof (same_upto_push t mp rp cp n' Hn) as SU.
  set (t' := mkTrail _ _ _ _ _ _ _) in *.
  assert (Hnew : forall j, 1 <= j <= mp ->
                   n' (istar t + 1) j
                   = nth (Z.to_nat (j - 1)) (candidates t rp cp (istar t)) 0).
  { intros j Hj. rewrite <- Hc by lia. f_equal. lia. }
  constructor.
  - intros i Hi. change (Csize t') with (Csize t) in Hi.
    destruct (SU i ltac:(lia)) as (Er & Ec & Em & En).
    rewrite <- Er, <- Ec, <- Em, <- En. now apply (si_clues s C t SI).
  - intros x y Hxy HC. change (Csize t') with (Csize t).
    apply (on_trail_same_upto (Csize t) t t').
    + apply (same_upto_le (istar t)); [lia|exact SU].
    + now apply (si_clues_on s C t SI).
  - intros i j Hi Hj. change (Csize t') with (Csize t) in Hi.
    change (istar t') with (istar t + 1) in Hi.
    destruct (Z.eq_dec i (istar t + 1)) as [->|Hne].
    + change (m t' (istar t + 1)) with (upd (m t) (istar t + 1) mp (istar t + 1)) in Hj.
      rewrite upd_same in Hj.
      change (r t' (istar t + 1)) with (upd (r t) (istar t + 1) rp (istar t + 1)).
      change (c t' (istar t + 1)) with (upd (c t) (istar t + 1) cp (istar t + 1)).
      change (n t' (istar t + 1) j) with (n' (istar t + 1) j).
      rewrite !upd_same, (Hnew j Hj).
      replace (istar t + 1 - 1) with (istar t) by lia.
      assert (Hin : In (nth (Z.to_nat (j - 1)) (candidates t rp cp (istar t)) 0)
                       (candidates t rp cp (istar t)))
        by (apply nth_In; lia).
      apply in_candidates in Hin. destruct Hin as (A & B). split; [exact A|].
      rewrite <- (Consistent_same_upto (istar t) t t'); assumption.
    + destruct (SU i ltac:(lia)) as (Er & Ec & Em & En).
      rewrite <- Er, <- Ec, <- En. rewrite <- Em in Hj.
      destruct (si_cand s C t SI i j ltac:(lia) Hj) as (A & B).
      split; [exact A|].
      rewrite <- (Consistent_same_upto (i - 1) t t'); [exact B|].
      apply (same_upto_le (istar t)); [lia|exact SU].
  - intros i j j' Hi Hj. change (Csize t') with (Csize t) in Hi.
    change (istar t') with (istar t + 1) in Hi.
    destruct (Z.eq_dec i (istar t + 1)) as [->|Hne].
    + change (m t' (istar t + 1)) with (upd (m t) (istar t + 1) mp (istar t + 1)) in Hj.
      rewrite upd_same in Hj.
      change (n t' (istar t + 1)) with (n' (istar t + 1)).
      rewrite !Hnew by lia. apply candidates_increasing. lia.
    + destruct (SU i ltac:(lia)) as (Er & Ec & Em & En).
      rewrite <- !En. rewrite <- Em in Hj.
      apply (si_incr s C t SI i j j'); [lia|exact Hj].
Qed.

Lemma si_next_digit s C t :
  wf_trail t -> search_inv s C t -> Csize t < istar t -> 1 < m t (istar t) ->
  search_inv s C
             (mkTrail (r t) (c t) (upd (m t) (istar t) (m t (istar t) - 1)) (n t)
                      (Gtilde t) (istar t) (Csize t)).
Proof.
  intros W SI Hk Hm. pose proof (same_upto_next_digit t) as SU.
  set (t' := mkTrail _ _ _ _ _ _ _) in *.
  constructor.
  - intros i Hi. change (Csize t') with (Csize t) in Hi.
    destruct (SU i ltac:(lia)) as (Er & Ec & Em & En).
    rewrite <- Er, <- Ec, <- Em, <- En. now apply (si_clues s C t SI).
  - intros x y Hxy HC. change (Csize t') with (Csize t).
    apply (on_trail_same_upto (Csize t) t t').
    + apply (same_upto_le (istar t - 1)); [lia|exact SU].
    + now apply (si_clues_on s C t SI).
  - intros i j Hi Hj. change (Csize t') with (Csize t) in Hi.
    change (istar t') with (istar t) in Hi.
    change (r t' i) with (r t i). change (c t' i) with (c t i).
    change (n t' i j) with (n t i j).
    assert (Hj' : 1 <= j <= m t i).
    { change (m t' i) with (upd (m t) (istar t) (m t (istar t) - 1) i) in Hj.
      destruct (Z.eq_dec i (istar t)) as [->|Hne];
        [rewrite upd_same in Hj | rewrite upd_other in Hj by lia]; lia. }
    destruct (si_cand s C t SI i j Hi Hj') as (A & B). split; [exact A|].
    rewrite <- (Consistent_same_upto (i - 1) t t'); [exact B|].
    apply (same_upto_le (istar t - 1)); [lia|exact SU].
  - intros i j j' Hi Hj. change (Csize t') with (Csize t) in Hi.
    change (istar t') with (istar t) in Hi. change (n t' i) with (n t i).
    apply (si_incr s C t SI i j j' Hi).
    change (m t' i) with (upd (m t) (istar t) (m t (istar t) - 1) i) in Hj.
    destruct (Z.eq_dec i (istar t)) as [->|Hne];
      [rewrite upd_same in Hj | rewrite upd_other in Hj by lia]; lia.
Qed.

Lemma si_pop s C t :
  wf_trail t -> search_inv s C t -> Csize t < istar t ->
  search_inv s C
             (mkTrail (r t) (c t) (m t) (n t)
                      (upd2 (Gtilde t) (r t (istar t)) (c t (istar t)) 0)
                      (istar t - 1) (Csize t)).
Proof.
  intros W SI Hk.
  set (t' := mkTrail _ _ _ _ _ _ _) in *.
  constructor.
  - intros i Hi. now apply (si_clues s C t SI).
  - intros x y Hxy HC. destruct (si_clues_on s C t SI x y Hxy HC) as (i & Hi & E).
    exists i. split; [exact Hi|exact E].
  - intros i j Hi Hj. change (Csize t') with (Csize t) in Hi.
    change (istar t') with (istar t - 1) in Hi.
    destruct (si_cand s C t SI i j ltac:(lia) Hj) as (A & B). split; [exact A|].
    change (r t' i) with (r t i). change (c t' i) with (c t i).
    change (n t' i j) with (n t i j).
    rewrite <- (Consistent_same_upto (i - 1) t t'); [exact B|].
    apply same_upto_pop.
  - intros i j j' Hi Hj. change (Csize t') with (Csize t) in Hi.
    change (istar t') with (istar t - 1) in Hi.
    apply (si_incr s C t SI i j j'); [lia|exact Hj].
Qed.

(** ** No completion is lost by a turn of the search *)

Lemma untried_same_upto g t t' :
  same_upto (istar t) t t' -> Csize t' = Csize t -> istar t <= istar t' ->
  0 <= Csize t ->
  untried g t -> untried g t'.
Proof.
  intros SU HC Hk H0 (i & j & Hi & A & Hj & E).
  destruct (SU i ltac:(lia)) as (Er & Ec & Em & En).
  exists i, j. rewrite HC, <- Er, <- Ec, <- Em, <- En.
  split; [lia|]. split; [|auto].
  apply (agrees_same_upto (i - 1) g t t'); [|exact A].
  apply (same_upto_le (istar t)); [lia|exact SU].
Qed.

Lemma ahead_stuck P s C t p :
  wf_trail t -> In p cells -> Gtilde t (fst p) (snd p) = 0 ->
  candidates t (fst p) (snd p) (istar t) = [] ->
  ahead P s C 1 t -> ahead P s C 2 t.
Proof.
  intros W Hp Hfree Hnil A g Hg HP.
  destruct (A g Hg HP) as [(_ & Ag)|U]; [|now right].
  exfalso. destruct Hg as (V & _).
  destruct (completion_digit_consistent g t (fst p) (snd p) W V Ag
              (in_cells_cases p Hp) Hfree) as (D & Cn).
  assert (Hin : In (g (fst p) (snd p)) (candidates t (fst p) (snd p) (istar t)))
    by (apply in_candidates; auto).
  rewrite Hnil in Hin. destruct Hin.
Qed.

Lemma ahead_push P s C t mp rp cp n' :
  wf_trail t -> In (rp, cp) cells -> Gtilde t rp cp = 0 ->
  mp = Z.of_nat (length (candidates t rp cp (istar t))) ->
  (forall i j, i <> istar t + 1 -> n' i j = n t i j) ->
  (forall jj, (jj < length (candidates t rp cp (istar t)))%nat ->
              n' (istar t + 1) (1 + Z.of_nat jj)
              = nth jj (candidates t rp cp (istar t)) 0) ->
  ahead P s C 1 t ->
  ahead P s C 1
        (mkTrail (upd (r t) (istar t + 1) rp) (upd (c t) (istar t + 1) cp)
                 (upd (m t) (istar t + 1) mp) n'
                 (upd2 (Gtilde t) rp cp 1) (istar t + 1) (Csize t)).
Proof.
  intros W Hin Hfree Hmp Hn Hc A g Hg HP.
  pose proof (same_upto_push t mp rp cp n' Hn) as SU.
  set (t' := mkTrail _ _ _ _ _ _ _) in *.
  destruct (A g Hg HP) as [(_ & Ag)|U].
  - pose proof Hg as (V & _).
    destruct (completion_digit_consistent g t rp cp W V Ag
                (in_cells_cases _ Hin) Hfree) as (D & Cn).
    assert (Hv : In (g rp cp) (candidates t rp cp (istar t)))
      by (apply in_candidates; auto).
    destruct (In_nth _ _ 0 Hv) as (jj & Hjj & Ejj).
    pose proof (Hc jj Hjj) as En. rewrite Ejj in En.
    assert (Ag' : agrees g t' (istar t))
      by (apply (agrees_same_upto (istar t) g t t'); assumption).
    destruct (Z.eq_dec (1 + Z.of_nat jj) mp) as [Elast|Hnot].
    + left. split; [reflexivity|]. intros i Hi.
      change (istar t') with (istar t + 1) in Hi.
      destruct (Z.eq_dec i (istar t + 1)) as [->|Hne]; [|apply Ag'; lia].
      unfold val. cbn [t' r c m n]. rewrite !upd_same. rewrite <- Elast. auto.
    + right. exists (istar t + 1), (1 + Z.of_nat jj).
      cbn [t' r c m n istar Csize]. rewrite !upd_same.
      pose proof (wf_range t W). split; [lia|].
      replace (istar t + 1 - 1) with (istar t) by lia.
      split; [exact Ag'|]. split; [lia|auto].
  - right. pose proof (wf_range t W).
    apply (untried_same_upto g t t'); auto; cbn; lia.
Qed.

Lemma ahead_next_digit P s C t :
  wf_trail t -> Csize t < istar t -> 1 < m t (istar t) ->
  ahead P s C 2 t ->
  ahead P s C 1
        (mkTrail (r t) (c t) (upd (m t) (istar t) (m t (istar t) - 1)) (n t)
                 (Gtilde t) (istar t) (Csize t)).
Proof.
  intros W Hk Hm A g Hg HP.
  pose proof (same_upto_next_digit t) as SU.
  set (t' := mkTrail _ _ _ _ _ _ _) in *.
  destruct (A g Hg HP) as [(Hs & _)|(i & j & Hi & Ag & Hj & E)]; [lia|].
  assert (Ag' : agrees g t' (i - 1)).
  { apply (agrees_same_upto (i - 1) g t t'); [|exact Ag].
    apply (same_upto_le (istar t - 1)); [lia|exact SU]. }
  destruct (Z.eq_dec i (istar t)) as [->|Hne].
  - destruct (Z.eq_dec j (m t (istar t) - 1)) as [->|Hj'].
    + left. split; [reflexivity|]. intros i Hi'.
      change (istar t') with (istar t) in Hi'.
      destruct (Z.eq_dec i (istar t)) as [->|Hne]; [|apply Ag'; lia].
      unfold val. cbn [t' r c m n]. rewrite upd_same. exact E.
    + right. exists (istar t), j. cbn [t' r c m n istar Csize].
      rewrite upd_same. split; [lia|]. split; [exact Ag'|]. split; [lia|exact E].
  - right. exists i, j. cbn [t' r c m n istar Csize].
    rewrite upd_other by lia. auto.
Qed.

Lemma ahead_pop P s C t :
  wf_trail t -> Csize t < istar t -> m t (istar t) = 1 ->
  ahead P s C 2 t ->
  ahead P s C 2
        (mkTrail (r t) (c t) (m t) (n t)
                 (upd2 (Gtilde t) (r t (istar t)) (c t (istar t)) 0)
                 (istar t - 1) (Csize t)).
Proof.
  intros W Hk Hm A g Hg HP.
  destruct (A g Hg HP) as [(Hs & _)|(i & j & Hi & Ag & Hj & E)]; [lia|].
  right. exists i, j. cbn [r c m n istar Csize].
  destruct (Z.eq_dec i (istar t)) as [->|Hne]; [lia|].
  split; [lia|]. split; [exact Ag|auto].
Qed.

Lemma ahead_weaken P s C status t : ahead P s C 2 t -> ahead P s C status t.
Proof.
  intros A g Hg HP. destruct (A g Hg HP) as [(Hs & _)|U]; [lia|now right].
Qed.

Lemma turn_ok P s C status t :
  search_ok P s C status t -> status <> 0 ->
  search_ok P s C (fst (turn (status, t))) (snd (turn (status, t))).
Proof.
  intros (W & SI & [(-> & A)|[(-> & A)|(-> & _)]]) Hs; [| |contradiction];
    cbn [turn Z.eqb Pos.eqb].
  - destruct (Advance_cases t W)
      as [(E & ->)|[(E & -> & p & Hp & Hf & Hnil)
                   |(E & mp & rp & cp & n' & -> & A1 & A2 & A3 & A4 & A5 & A6 & A7)]];
      cbn [fst snd].
    + split; [exact W|]. split; [exact SI|]. right. right. split; [reflexivity|].
      left. auto.
    + split; [exact W|]. split; [exact SI|]. right. left. split; [reflexivity|].
      now apply (ahead_stuck P s C t p).
    + split; [now apply wf_push|]. split; [now apply si_push|].
      left. split; [reflexivity|]. now apply ahead_push.
  - destruct (Retreat_cases t W) as [(E & ->)|[(E & Hm & ->)|(E & Hm & ->)]];
      cbn [fst snd].
    + split; [exact W|]. split; [exact SI|]. right. right. split; [reflexivity|].
      right. auto.
    + split; [now apply wf_next_digit|]. split; [now apply si_next_digit|].
      left. split; [reflexivity|]. now apply ahead_next_digit.
    + split; [now apply wf_pop|]. split; [now apply si_pop|].
      right. left. split; [reflexivity|]. now apply ahead_pop.
Qed.

Lemma search_ok_final P s C fuel : forall status t t',
  search_ok P s C status t -> search fuel status t = Done t' ->
  search_ok P s C 0 t'.
Proof.
  induction fuel as [|fuel IH]; intros status t t' Hok H.
  - cbn [search] in H. destruct (Z.eqb_spec status 0) as [->|]; [|discriminate].
    inversion H; subst. exact Hok.
  - rewrite search_unfold in H. destruct (Z.eqb_spec status 0) as [->|Hne].
    + inversion H; subst. exact Hok.
    + apply (IH _ _ _ (turn_ok P s C status t Hok Hne) H).
Qed.

Lemma GettingStarted_ok P s C t0 :
  search_ok P s C 1 (GettingStarted s C t0).
Proof.
  destruct (GettingStarted_started s C t0) as (St & HC).
  pose proof (GettingStarted_wf s C t0) as W.
  set (t := GettingStarted s C t0) in *.
  pose proof St as (Si & Sc & Sm & SG).
  split; [exact W|]. split.
  - constructor.
    + intros i Hi. rewrite HC in Hi. destruct (Sm i Hi) as (A & B).
      destruct (started_site s C t i St Hi) as (Hin & Hcl).
      split; [exact A|]. split; [exact B|].
      unfold clue_site, at_ in Hcl. cbn [fst snd] in Hcl.
      apply negb_true_iff, Z.eqb_neq in Hcl. exact Hcl.
    + intros x y Hxy HCl. rewrite HC. apply (started_on_trail s C t x y St Hxy).
      unfold clue_site, at_. cbn [fst snd]. now apply negb_true_iff, Z.eqb_neq.
    + intros i j Hi. lia.
    + intros i j j' Hi. lia.
  - left. split; [reflexivity|]. intros g (V & K) _. left. split; [reflexivity|].
    intros i Hi. destruct (Sm i Hi) as (A & B).
    destruct (started_site s C t i St Hi) as (Hin & Hcl).
    unfold val. rewrite A, B.
    apply (keeps_clue s C g (r t i, c t i) K Hin).
    unfold clue_site in Hcl. now apply negb_true_iff, Z.eqb_neq in Hcl.
Qed.

(** ** What [Unique] returns *)

Lemma all_marked G l :
  sum_over (fun p => b2z (negb (at_ G p =? 0))) l = Z.of_nat (length l) ->
  forall p, In p l -> at_ G p <> 0.
Proof.
  induction l as [|a l IH]; intros H p Hp; [destruct Hp|].
  rewrite sum_over_cons in H. cbn [length] in H.
  pose proof (count_marked_le G l) as Hle.
  destruct (Z.eqb_spec (at_ G a) 0) as [E|E]; cbn [negb b2z] in H; [lia|].
  destruct Hp as [<-|Hp]; [exact E|]. apply IH; [lia|exact Hp].
Qed.

Lemma full_trail_covers t p :
  wf_trail t -> istar t = 81 -> In p cells ->
  on_trail t (istar t) (fst p) (snd p).
Proof.
  intros W H81 Hp. apply (wf_marked t W); [exact (in_cells_cases p Hp)|].
  apply (all_marked (Gtilde t) cells); [|exact Hp].
  fold (count_marked (Gtilde t)). rewrite (wf_count t W), H81. reflexivity.
Qed.

Lemma agree_same_grid t g g' :
  wf_trail t -> istar t = 81 ->
  agrees g t (istar t) -> agrees g' t (istar t) -> same_grid g g'.
Proof.
  intros W H81 A A' p Hp.
  destruct (full_trail_covers t p W H81 Hp) as (i & Hi & E1 & E2).
  unfold at_. rewrite <- E1, <- E2, (A i Hi), (A' i Hi). reflexivity.
Qed.

Lemma not_departs_agrees t g : ~ departs_from t g -> agrees g t (istar t).
Proof.
  intros H i Hi. destruct (Z.eq_dec (g (r t i) (c t i)) (val t i)) as [E|E];
    [exact E|]. exfalso. apply H. exists i. auto.
Qed.

Lemma reference_is_completion s C : valid_grid s = true -> completion s C s.
Proof.
  intros V. split; [exact V|]. unfold keeps_clues. apply forallb_forall.
  intros p _. rewrite Z.eqb_refl. now destruct (negb (at_ C p =? 0)).
Qed.

Lemma nothing_ahead P s C t g :
  istar t = Csize t -> ahead P s C 2 t -> completion s C g -> ~ P g.
Proof.
  intros E A Hg HP. destruct (A g Hg HP) as [(Hs & _)|(i & j & Hi & _)]; lia.
Qed.

(** The first phase ends on a full trail whenever the reference grid
    is a valid solution. *)
Lemma first_phase_finds s C fuel t0 t1 :
  valid_grid s = true ->
  search fuel 1 (GettingStarted s C t0) = Done t1 ->
  istar t1 = 81 /\ wf_trail t1 /\ search_inv s C t1 /\ ahead any_grid s C 1 t1.
Proof.
  intros V H.
  pose proof (search_ok_final any_grid s C fuel 1 _ t1
                (GettingStarted_ok any_grid s C t0) H) as (W & SI & Hend).
  destruct Hend as [(Hs & _)|[(Hs & _)|(_ & [(E & A)|(E & A)])]]; try lia.
  - auto.
  - exfalso.
    apply (nothing_ahead any_grid s C t1 s E A (reference_is_completion s C V)).
    exact I.
Qed.

Lemma second_phase_start s C t1 :
  wf_trail t1 -> search_inv s C t1 -> ahead any_grid s C 1 t1 ->
  search_ok (departs_from t1) s C 2 t1.
Proof.
  intros W SI A. split; [exact W|]. split; [exact SI|]. right. left.
  split; [reflexivity|]. intros g Hg (i & Hi & Hd).
  destruct (A g Hg I) as [(_ & Ag)|U]; [|now right].
  exfalso. apply Hd. now apply Ag.
Qed.

(** If [Unique] returns, it does so through its [return] statement,
    and the value 1 means that the clues have exactly one completion. *)
Lemma Unique_sound s C fuel t0 out t' :
  valid_grid s = true ->
  Unique fuel s C t0 = Done (out, t') ->
  (out = Returned 0 \/ out = Returned 1)
  /\ (out = Returned 1 -> exactly_one_completion s C).
Proof.
  intros V H. unfold Unique in H.
  destruct (search fuel 1 (GettingStarted s C t0)) as [t1| |] eqn:H1;
    cbn [bind] in H; try discriminate.
  destruct (first_phase_finds s C fuel t0 t1 V H1) as (E81 & W1 & SI1 & A1).
  rewrite E81 in H. cbn [Z.eqb Pos.eqb negb] in H.
  destruct (search fuel 2 t1) as [t2| |] eqn:H2; cbn [bind] in H; try discriminate.
  inversion H; subst; clear H.
  pose proof (search_ok_final (departs_from t1) s C fuel 2 t1 t'
                (second_phase_start s C t1 W1 SI1 A1) H2) as (W2 & SI2 & Hend).
  destruct (Z.eqb_spec (istar t') 81) as [E|E].
  - split; [now left|discriminate].
  - split; [now right|]. intros _.
    destruct Hend as [(Hs & _)|[(Hs & _)|(_ & [(E' & _)|(E' & A2)])]]; try lia.
    exists s. split; [now apply reference_is_completion|].
    intros g Hg. apply (agree_same_grid t1); auto.
    + apply not_departs_agrees.
      apply (nothing_ahead _ s C t' s E' A2 (reference_is_completion s C V)).
    + apply not_departs_agrees. apply (nothing_ahead _ s C t' g E' A2 Hg).
Qed.

(** ** C8: the search of [Unique] halts *)

Lemma Unique_runs (s C : Z -> Z -> Z) (t0 : trail) :
  exists fuel out t',
    forall extra, Unique (fuel + extra) s C t0 = Done (out, t').
Proof.
  pose proof (GettingStarted_wf s C t0) as W.
  destruct (search_halts 1 _ W ltac:(now left)) as (f1 & t1 & H1 & W1 & _ & _).
  destruct (Z.eq_dec (istar t1) 81) as [E|E].
  - destruct (search_halts 2 _ W1 ltac:(now right)) as (f2 & t2 & H2 & _).
    exists (f1 + f2)%nat, (Returned (if istar t2 =? 81 then 0 else 1)), t2.
    intros extra. unfold Unique.
    rewrite (search_more f1 _ _ _ H1) by lia. cbn [bind].
    rewrite E. cbn [Z.eqb Pos.eqb negb].
    rewrite (search_more f2 _ _ _ H2) by lia. reflexivity.
  - exists f1, Exited, t1. intros extra. unfold Unique.
    rewrite (search_more f1 _ _ _ H1) by lia. cbn [bind].
    destruct (Z.eqb_spec (istar t1) 81); [contradiction|]. reflexivity.
Qed.

(** C8.  For every clue grid [C], reference grid [s] and prior content
    [t0] of the trail arrays there is a number of turns within which
    both loops of [Unique] stop, whatever is allowed beyond it: from a
    well-shaped trail every turn of [Advance] or [Retreat] either
    leaves the loop or lowers the non-negative [potential]
    ([turn_progress], [potential_nonneg]), and [GettingStarted] always
    builds a well-shaped trail. *)
Theorem Unique_halts (s C : Z -> Z -> Z) (t0 : trail) :
  exists fuel out t',
    forall extra, Unique (fuel + extra) s C t0 = Done (out, t').
Proof. exact (Unique_runs s C t0). Qed.

(** ** C5: a reduction is kept only behind the uniqueness test *)

Lemma Flip_twice C x y a b : fst (Flip (fst (Flip C x y)) x y) a b = C a b.
Proof.
  assert (T : ((a = x /\ b = y) \/ (a = 10 - x /\ b = 10 - y))
              \/ (~ (a = x /\ b = y) /\ ~ (a = 10 - x /\ b = 10 - y))) by lia.
  destruct T as [T|[T1 T2]].
  - rewrite !(Flip_at_toggled _ x y a b T). lia.
  - rewrite !(Flip_at_same _ x y a b T1 T2). reflexivity.
Qed.

(** C5.  In the loop of [Metropolis2], when the flip at the drawn site
    lowers the clue count: once [Unique] is given turns enough it
    returns 1 or 0; on 1 the flipped clue grid is kept, the count is
    lowered, and the kept clue grid has exactly one completion; on 0
    the grid is flipped back, is again the grid before the flip at
    every site, and the count is unchanged. *)
Theorem reduction_gated_by_Unique (s C : Z -> Z -> Z) (E : Z) (t : trail)
        (N1 N2 : Z) (g : rng) :
  valid_grid s = true ->
  snd (Flip C (RandomInteger_of 1 5 N1)
              (RandomInteger_of 1 (if RandomInteger_of 1 5 N1 =? 5 then 5 else 9) N2))
  < 0 ->
  let x := RandomInteger_of 1 5 N1 in
  let y := RandomInteger_of 1 (if x =? 5 then 5 else 9) N2 in
  let C1 := fst (Flip C x y) in
  let D := snd (Flip C x y) in
  exists fuel t1,
    (forall extra,
        Unique (fuel + extra) s C1 t = Done (Returned 1, t1)
        /\ Metropolis2_step (fuel + extra) s C E t (N1 :: N2 :: g)
           = Done (Continue C1 (E + D) t1 g)
        /\ exactly_one_completion s C1)
    \/ (forall extra,
           Unique (fuel + extra) s C1 t = Done (Returned 0, t1)
           /\ Metropolis2_step (fuel + extra) s C E t (N1 :: N2 :: g)
              = Done (Continue (fst (Flip C1 x y)) E t1 g)
           /\ (forall a b, fst (Flip C1 x y) a b = C a b)).
Proof.
  intros V HD x y C1 D. change (snd (Flip C x y) < 0) in HD.
  destruct (Unique_runs s C1 t) as (fuel & out & t1 & HU).
  destruct (Unique_sound s C1 (fuel + 0) t out t1 V (HU 0%nat)) as ([->| ->] & Hone).
  - exists fuel, t1. right. intros extra. split; [apply HU|]. split.
    + unfold Metropolis2_step. cbn [RandomInteger bind]. fold x. fold y.
      destruct (Flip C x y) as [C1' D'] eqn:EF. cbn [fst snd] in *.
      subst C1 D. destruct (Z.ltb_spec D' 0); [|lia].
      rewrite HU. reflexivity.
    + intros a b. apply Flip_twice.
  - exists fuel, t1. left. intros extra. split; [apply HU|]. split.
    + unfold Metropolis2_step. cbn [RandomInteger bind]. fold x. fold y.
      destruct (Flip C x y) as [C1' D'] eqn:EF. cbn [fst snd] in *.
      subst C1 D. destruct (Z.ltb_spec D' 0); [|lia].
      rewrite HU. reflexivity.
    + now apply Hone.
Qed.

(** ** C7: what [Advance] does *)

Lemma nth_last_of (l : list Z) :
  l <> [] -> nth (length l - 1) l 0 = last l 0.
Proof.
  induction l as [|a [|b l] IH]; intros H; [contradiction|reflexivity|].
  change (last (a :: b :: l) 0) with (last (b :: l) 0).
  rewrite <- IH by discriminate.
  change (length (a :: b :: l)) with (S (length (b :: l))).
  replace (S (length (b :: l)) - 1)%nat with (S (length (b :: l) - 1))
    by (cbn [length]; lia).
  reflexivity.
Qed.

(** C7 (amended).  From a trail that is not full, with some grid site
    off the trail, [Advance] counts at every site off the trail the
    digits 1-9 consistent with the trail.  If a site has none it
    returns 2 and leaves the trail as it is.  Otherwise it returns 1
    and adds one entry: its site is off the old trail and has the
    least count, [n[istar][1..]] lists the consistent digits of that
    site in increasing order, [m[istar]] is their number, the site is
    flagged in [Gtilde], the entries below are untouched, and the
    current digit [n[istar][m[istar]]] is the LAST digit of that list. *)
Theorem Advance_extends_with_last_candidate (t : trail) :
  istar t <> 81 ->
  (exists p, In p cells /\ Gtilde t (fst p) (snd p) = 0) ->
  ((exists p, In p cells /\ Gtilde t (fst p) (snd p) = 0
              /\ candidates t (fst p) (snd p) (istar t) = []) ->
   Advance t = (2, t))
  /\ ((forall p, In p cells -> Gtilde t (fst p) (snd p) = 0 ->
                 candidates t (fst p) (snd p) (istar t) <> []) ->
      exists t',
        Advance t = (1, t')
        /\ istar t' = istar t + 1 /\ Csize t' = Csize t
        /\ In (r t' (istar t'), c t' (istar t')) cells
        /\ Gtilde t (r t' (istar t')) (c t' (istar t')) = 0
        /\ Gtilde t' (r t' (istar t')) (c t' (istar t')) = 1
        /\ (forall p, In p cells -> Gtilde t (fst p) (snd p) = 0 ->
              (length (candidates t (r t' (istar t')) (c t' (istar t')) (istar t))
               <= length (candidates t (fst p) (snd p) (istar t)))%nat)
        /\ m t' (istar t')
           = Z.of_nat (length (candidates t (r t' (istar t')) (c t' (istar t'))
                                          (istar t)))
        /\ (forall jj,
              (jj < length (candidates t (r t' (istar t')) (c t' (istar t'))
                                       (istar t)))%nat ->
              n t' (istar t') (1 + Z.of_nat jj)
              = nth jj (candidates t (r t' (istar t')) (c t' (istar t')) (istar t)) 0)
        /\ val t' (istar t')
           = last (candidates t (r t' (istar t')) (c t' (istar t')) (istar t)) 0
        /\ same_upto (istar t) t t').
Proof.
  intros H81 Hfree. split.
  - intros (p & Hp & Hf & Hnil). apply Advance_stuck; [exact H81|].
    apply scan_none; [lia|]. exists p. split; [exact Hp|]. split; [exact Hf|].
    rewrite count_consistent_length, Hnil. reflexivity.
  - intros Hall.
    destruct (scan t cells 10 0 0) as [[[mp rp] cp]|] eqn:Hscan.
    + destruct (Advance_push t mp rp cp H81 Hscan) as (n' & EA & A & B).
      destruct (scan_cells t mp rp cp Hfree Hscan) as (S1 & S2 & S3 & S4 & S5).
      rewrite count_consistent_length in S3.
      eexists. split; [exact EA|]. cbn [r c m n Gtilde istar Csize].
      rewrite !upd_same, upd2_same.
      split; [reflexivity|]. split; [reflexivity|]. split; [exact S1|].
      split; [exact S2|]. split; [reflexivity|]. split.
      { intros p Hp Hf. pose proof (S5 p Hp Hf) as Hle.
        rewrite count_consistent_length in Hle. lia. }
      split; [lia|]. split; [exact B|]. split.
      * unfold val. cbn [m n]. rewrite upd_same.
        rewrite <- nth_last_of by (apply (Hall (rp, cp)); assumption).
        rewrite <- B by lia. f_equal. lia.
      * now apply same_upto_push.
    + exfalso. apply scan_none in Hscan; [|lia].
      destruct Hscan as (p & Hp & Hf & Hc). apply (Hall p Hp Hf).
      rewrite count_consistent_length in Hc.
      destruct (candidates t (fst p) (snd p) (istar t)); [reflexivity|].
      cbn [length] in Hc. lia.
Qed.

Lemma no_clue_start_candidates p :
  In p cells -> candidates no_clue_start (fst p) (snd p) (istar no_clue_start) <> [].
Proof.
  intros Hp. unfold cells, digits in Hp. cbn [flat_map map app] in Hp.
  repeat (destruct Hp as [Hp|Hp]; [subst p; vm_compute; discriminate|]).
  destruct Hp.
Qed.

Lemma Advance_extends_with_last_candidate_witness :
  istar no_clue_start <> 81
  /\ (exists p, In p cells /\ Gtilde no_clue_start (fst p) (snd p) = 0)
  /\ exists t',
       Advance no_clue_start = (1, t')
       /\ istar t' = istar no_clue_start + 1
       /\ val t' (istar t')
          = last (candidates no_clue_start (r t' (istar t')) (c t' (istar t'))
                             (istar no_clue_start)) 0.
Proof.
  assert (H1 : istar no_clue_start <> 81) by (vm_compute; discriminate).
  assert (H2 : exists p, In p cells /\ Gtilde no_clue_start (fst p) (snd p) = 0).
  { exists (1, 1). split; [now left|reflexivity]. }
  split; [exact H1|]. split; [exact H2|].
  destruct (proj2 (Advance_extends_with_last_candidate no_clue_start H1 H2)
                  (fun p Hp _ => no_clue_start_candidates p Hp))
    as (t' & A & B & _ & _ & _ & _ & _ & _ & _ & L & _).
  exists t'. auto.
Defined.

(** C7, as stated, fails: on the trail without clues [Advance] enters
    site (1,1) with the nine candidates 1..9 and the current digit
    [n[1][m[1]]] is 9, not the first candidate 1. *)
Lemma Advance_current_digit_is_not_the_first :
  fst (Advance no_clue_start) = 1
  /\ istar (snd (Advance no_clue_start)) = 1
  /\ r (snd (Advance no_clue_start)) 1 = 1
  /\ c (snd (Advance no_clue_start)) 1 = 1
  /\ candidates no_clue_start 1 1 0 = [1; 2; 3; 4; 5; 6; 7; 8; 9]
  /\ n (snd (Advance no_clue_start)) 1 1 = 1
  /\ val (snd (Advance no_clue_start)) 1 = 9
  /\ val (snd (Advance no_clue_start)) 1
     <> hd 0 (candidates no_clue_start 1 1 0).
Proof.
  repeat split; try (vm_compute; reflexivity). vm_compute. discriminate.
Qed.

Lemma reduction_gated_by_Unique_witness :
  valid_grid shifted_solution = true
  /\ snd (Flip (all_clues blank) (RandomInteger_of 1 5 0)
               (RandomInteger_of 1 (if RandomInteger_of 1 5 0 =? 5 then 5 else 9) 0))
     < 0
  /\ exists fuel t1,
       (forall extra,
           Unique (fuel + extra) shifted_solution
                  (fst (Flip (all_clues blank) 1 1)) empty_trail
           = Done (Returned 1, t1)
           /\ Metropolis2_step (fuel + extra) shifted_solution (all_clues blank)
                               81 empty_trail [0; 0]
              = Done (Continue (fst (Flip (all_clues blank) 1 1))
                               (81 + snd (Flip (all_clues blank) 1 1)) t1 [])
           /\ exactly_one_completion shifted_solution
                                     (fst (Flip (all_clues blank) 1 1)))
       \/ (forall extra,
              Unique (fuel + extra) shifted_solution
                     (fst (Flip (all_clues blank) 1 1)) empty_trail
              = Done (Returned 0, t1)
              /\ Metropolis2_step (fuel + extra) shifted_solution (all_clues blank)
                                  81 empty_trail [0; 0]
                 = Done (Continue (fst (Flip (fst (Flip (all_clues blank) 1 1)) 1 1))
                                  81 t1 [])
              /\ (forall a b,
                     fst (Flip (fst (Flip (all_clues blank) 1 1)) 1 1) a b
                     = all_clues blank a b)).
Proof.
  assert (H1 : valid_grid shifted_solution = true) by (vm_compute; reflexivity).
  assert (H2 : snd (Flip (all_clues blank) (RandomInteger_of 1 5 0)
                         (RandomInteger_of 1
                            (if RandomInteger_of 1 5 0 =? 5 then 5 else 9) 0)) < 0)
    by (vm_compute; reflexivity).
  split; [exact H1|]. split; [exact H2|].
  exact (reduction_gated_by_Unique shifted_solution (all_clues blank) 81
                                   empty_trail 0 0 [] H1 H2).
Defined.

(** ** C2: [Unique] on the clue grid without a free site *)




Lemma full_clue_grid_unique s C0 :
  valid_grid s = true -> exactly_one_completion s (all_clues C0).
Proof.
  intros V. exists s. split; [now apply reference_is_completion|].
  intros g (_ & K) p Hp. symmetry. apply (keeps_clue s (all_clues C0) g p K Hp).
  unfold at_. destruct (in_cells_cases p Hp) as [Hx Hy].
  rewrite all_clues_one by assumption. lia.
Qed.


(** ** The grid read off a full trail *)

Lemma grid_of_loop_hit t i cnt : forall lo,
  lo <= i < lo + Z.of_nat cnt ->
  (forall k, lo <= k < i -> ~ (r t k = r t i /\ c t k = c t i)) ->
  grid_of_loop t (r t i) (c t i) lo cnt = val t i.
Proof.
  induction cnt as [|cnt IH]; intros lo Hi Hd; [lia|].
  cbn [grid_of_loop].
  destruct (Z.eq_dec lo i) as [->|Hne].
  - rewrite !Z.eqb_refl. reflexivity.
  - pose proof (Hd lo ltac:(lia)) as Hlo.
    destruct (Z.eqb_spec (r t lo) (r t i)); destruct (Z.eqb_spec (c t lo) (c t i));
      cbn [andb]; try tauto; apply IH; try lia; intros k Hk; apply Hd; lia.
Qed.

Lemma grid_of_on_trail t i :
  wf_trail t -> 1 <= i <= istar t -> grid_of t (r t i) (c t i) = val t i.
Proof.
  intros W Hi. unfold grid_of. apply grid_of_loop_hit; [lia|].
  intros k Hk. apply (wf_distinct t W). lia.
Qed.

Lemma grid_of_agrees t : wf_trail t -> agrees (grid_of t) t (istar t).
Proof. intros W i Hi. now apply grid_of_on_trail. Qed.

Lemma peer_elim p q :
  peer p q = true ->
  ~ (fst p = fst q /\ snd p = snd q)
  /\ (fst p = fst q \/ snd p = snd q
      \/ block (fst p) (snd p) = block (fst q) (snd q)).
Proof.
  unfold peer. intros H. apply andb_true_iff in H. destruct H as [H1 H2].
  apply negb_true_iff, andb_false_iff in H1.
  rewrite !orb_true_iff, !Z.eqb_eq in H2. rewrite !Z.eqb_neq in H1.
  split; [|tauto]. tauto.
Qed.

Lemma trail_digit s C t i :
  wf_trail t -> search_inv s C t -> valid_grid s = true ->
  1 <= i <= istar t -> 1 <= val t i <= 9.
Proof.
  intros W SI V Hi. destruct (Z_le_gt_dec i (Csize t)) as [Hc|Hc].
  - destruct (si_clues s C t SI i ltac:(lia)) as (Em & En & _).
    unfold val. rewrite Em, En.
    destruct (wf_sites t W i Hi) as ([Hx Hy] & _).
    exact (valid_digit s (r t i, c t i) V (in_cells _ _ Hx Hy)).
  - pose proof (wf_m t W i ltac:(lia)) as Hm.
    destruct (si_cand s C t SI i (m t i) ltac:(lia) ltac:(lia)) as (A & _).
    exact A.
Qed.

Lemma trail_peers_differ s C t i j :
  wf_trail t -> search_inv s C t -> valid_grid s = true ->
  1 <= i < j /\ j <= istar t ->
  peer (r t i, c t i) (r t j, c t j) = true -> val t i <> val t j.
Proof.
  intros W SI V Hij Hp.
  destruct (wf_sites t W i ltac:(lia)) as ([Hxi Hyi] & _).
  destruct (wf_sites t W j ltac:(lia)) as ([Hxj Hyj] & _).
  destruct (Z_le_gt_dec j (Csize t)) as [Hc|Hc].
  - destruct (si_clues s C t SI i ltac:(lia)) as (Emi & Eni & _).
    destruct (si_clues s C t SI j ltac:(lia)) as (Emj & Enj & _).
    unfold val. rewrite Emi, Eni, Emj, Enj.
    apply (valid_peer s (r t i, c t i) (r t j, c t j) V); auto using in_cells.
  - pose proof (wf_m t W j ltac:(lia)) as Hm.
    destruct (si_cand s C t SI j (m t j) ltac:(lia) ltac:(lia)) as (_ & B).
    intros E. apply B. apply Consistent_zero. exists i. split; [lia|].
    destruct (peer_elim _ _ Hp) as (_ & Hs). cbn [fst snd] in Hs.
    split; [unfold val in *; congruence|exact Hs].
Qed.

Lemma full_trail_completion s C t :
  wf_trail t -> search_inv s C t -> valid_grid s = true -> istar t = 81 ->
  completion s C (grid_of t).
Proof.
  intros W SI V H81. split.
  - unfold valid_grid. apply andb_true_iff. split; apply forallb_forall.
    + intros p Hp. destruct (full_trail_covers t p W H81 Hp) as (i & Hi & E1 & E2).
      unfold at_. rewrite <- E1, <- E2, grid_of_on_trail by assumption.
      pose proof (trail_digit s C t i W SI V Hi). lia.
    + intros p Hp. apply forallb_forall. intros q Hq.
      destruct (peer p q) eqn:Hpq; [|reflexivity]. cbn [implb].
      apply negb_true_iff, Z.eqb_neq.
      destruct (full_trail_covers t p W H81 Hp) as (i & Hi & E1 & E2).
      destruct (full_trail_covers t q W H81 Hq) as (j & Hj & F1 & F2).
      unfold at_. rewrite <- E1, <- E2, <- F1, <- F2.
      rewrite !grid_of_on_trail by assumption.
      assert (Hp' : peer (r t i, c t i) (r t j, c t j) = true).
      { destruct p, q. cbn [fst snd] in *. congruence. }
      destruct (Z.lt_trichotomy i j) as [L|[L|L]].
      * apply (trail_peers_differ s C t i j); auto. lia.
      * subst j. rewrite peer_irrefl in Hp'. discriminate.
      * rewrite peer_sym in Hp'. intros E. symmetry in E. revert E.
        apply (trail_peers_differ s C t j i); auto. lia.
  - unfold keeps_clues. apply forallb_forall. intros p Hp.
    destruct (Z.eqb_spec (at_ C p) 0) as [E|E]; [reflexivity|]. cbn [negb implb].
    apply Z.eqb_eq.
    destruct (si_clues_on s C t SI (fst p) (snd p) (in_cells_cases p Hp) E)
      as (i & Hi & E1 & E2).
    pose proof (wf_range t W) as Hr.
    destruct (si_clues s C t SI i Hi) as (Em & En & _).
    unfold at_. rewrite <- E1, <- E2, grid_of_on_trail by (auto; lia).
    unfold val. rewrite Em, En. reflexivity.
Qed.

(** ** [Unique]: the search does not come back to a solution it has left *)

Lemma agrees_back k g t t' :
  same_upto k t t' -> agrees g t' k -> agrees g t k.
Proof. intros SU. apply agrees_same_upto. now apply same_upto_sym. Qed.

Lemma passed_push g1 t mp rp cp n' :
  wf_trail t ->
  (forall i j, i <> istar t + 1 -> n' i j = n t i j) ->
  ~ agrees g1 t (istar t) -> ~ untried g1 t ->
  let t' := mkTrail (upd (r t) (istar t + 1) rp) (upd (c t) (istar t + 1) cp)
                    (upd (m t) (istar t + 1) mp) n'
                    (upd2 (Gtilde t) rp cp 1) (istar t + 1) (Csize t) in
  ~ agrees g1 t' (istar t') /\ ~ untried g1 t'.
Proof.
  intros W Hn NA NU t'. pose proof (same_upto_push t mp rp cp n' Hn) as SU.
  pose proof (wf_range t W) as Hr. fold t' in SU.
  assert (Hback : agrees g1 t' (istar t) -> False).
  { intros A. apply NA. now apply (agrees_back (istar t) g1 t t'). }
  split.
  - intros A. apply Hback. apply (agrees_le (istar t')); [unfold t'; cbn [istar]; lia|exact A].
  - intros (i & j & Hi & A & Hj & E). cbn [t' istar Csize] in Hi.
    destruct (Z.eq_dec i (istar t + 1)) as [->|Hne].
    + apply Hback. replace (istar t + 1 - 1) with (istar t) in A by lia. exact A.
    + apply NU. destruct (SU i ltac:(lia)) as (Er & Ec & Em & En).
      exists i, j. rewrite Er, Ec, Em, En. split; [lia|]. split; [|auto].
      apply (agrees_back (i - 1) g1 t t'); [|exact A].
      apply (same_upto_le (istar t)); [lia|exact SU].
Qed.

Lemma passed_next_digit g1 t :
  wf_trail t -> Csize t < istar t -> 1 < m t (istar t) ->
  ~ untried g1 t ->
  let t' := mkTrail (r t) (c t) (upd (m t) (istar t) (m t (istar t) - 1)) (n t)
                    (Gtilde t) (istar t) (Csize t) in
  ~ agrees g1 t' (istar t') /\ ~ untried g1 t'.
Proof.
  intros W Hk Hm NU t'. pose proof (same_upto_next_digit t) as SU. fold t' in SU.
  pose proof (wf_range t W) as Hr.
  split.
  - intros A. apply NU. exists (istar t), (m t (istar t) - 1).
    split; [lia|]. split.
    + apply (agrees_back (istar t - 1) g1 t t'); [exact SU|].
      apply (agrees_le (istar t')); [unfold t'; cbn [istar]; lia|exact A].
    + split; [lia|]. specialize (A (istar t) ltac:(unfold t'; cbn [istar]; lia)).
      unfold val in A. cbn [t' r c m n] in A. rewrite upd_same in A. exact A.
  - intros (i & j & Hi & A & Hj & E). cbn [t' istar Csize r c m n] in Hi, Hj, E.
    apply NU. exists i, j. split; [lia|]. split.
    + apply (agrees_back (i - 1) g1 t t'); [|exact A].
      apply (same_upto_le (istar t - 1)); [lia|exact SU].
    + destruct (Z.eq_dec i (istar t)) as [->|Hne];
        [rewrite upd_same in Hj | rewrite upd_other in Hj by lia]; split; auto; lia.
Qed.

Lemma passed_pop g1 t :
  Csize t < istar t -> ~ untried g1 t ->
  ~ untried g1 (mkTrail (r t) (c t) (m t) (n t)
                        (upd2 (Gtilde t) (r t (istar t)) (c t (istar t)) 0)
                        (istar t - 1) (Csize t)).
Proof.
  intros Hk NU (i & j & Hi & A & Hj & E). cbn [istar Csize r c m n] in *.
  apply NU. exists i, j. split; [lia|]. split; [exact A|auto].
Qed.

Lemma turn_passed g1 status t :
  wf_trail t -> passed g1 status t -> status <> 0 ->
  passed g1 (fst (turn (status, t))) (snd (turn (status, t))).
Proof.
  intros W [(-> & NA & NU)|[(-> & NU)|(-> & _)]] Hs; [| |contradiction];
    cbn [turn Z.eqb Pos.eqb].
  - destruct (Advance_cases t W)
      as [(E & ->)|[(E & -> & _)
                   |(E & mp & rp & cp & n' & -> & A1 & A2 & A3 & A4 & A5 & A6 & A7)]];
      cbn [fst snd].
    + right. right. split; [reflexivity|]. left. auto.
    + right. left. auto.
    + left. split; [reflexivity|]. now apply passed_push.
  - destruct (Retreat_cases t W) as [(E & ->)|[(E & Hm & ->)|(E & Hm & ->)]];
      cbn [fst snd].
    + right. right. split; [reflexivity|]. now right.
    + left. split; [reflexivity|]. now apply passed_next_digit.
    + right. left. split; [reflexivity|]. now apply passed_pop.
Qed.

Lemma search_keeps fuel : forall status t t',
  wf_trail t -> status = 0 \/ status = 1 \/ status = 2 ->
  search fuel status t = Done t' ->
  wf_trail t' /\ Csize t' = Csize t.
Proof.
  induction fuel as [|fuel IH]; intros status t t' W Hst H.
  - cbn [search] in H. destruct (Z.eqb_spec status 0) as [->|]; [|discriminate].
    inversion H; subst. auto.
  - rewrite search_unfold in H. destruct (Z.eqb_spec status 0) as [->|Hne].
    + inversion H; subst. auto.
    + assert (Hs : status = 1 \/ status = 2) by lia.
      destruct (turn_progress status t W Hs) as (W' & HC & Hcase).
      assert (Hst' : fst (turn (status, t)) = 0 \/ fst (turn (status, t)) = 1
                     \/ fst (turn (status, t)) = 2)
        by (destruct Hcase as [(E0 & _)|(E12 & _)]; lia).
      destruct (IH _ _ _ W' Hst' H) as (B & D).
      split; [exact B|congruence].
Qed.

Lemma search_passed g1 fuel : forall status t t',
  wf_trail t -> status = 0 \/ status = 1 \/ status = 2 ->
  passed g1 status t -> search fuel status t = Done t' ->
  passed g1 0 t' /\ wf_trail t' /\ Csize t' = Csize t.
Proof.
  induction fuel as [|fuel IH]; intros status t t' W Hst Hp H.
  - cbn [search] in H. destruct (Z.eqb_spec status 0) as [->|]; [|discriminate].
    inversion H; subst. auto.
  - rewrite search_unfold in H. destruct (Z.eqb_spec status 0) as [->|Hne].
    + inversion H; subst. auto.
    + assert (Hs : status = 1 \/ status = 2) by lia.
      destruct (turn_progress status t W Hs) as (W' & HC & Hcase).
      assert (Hst' : fst (turn (status, t)) = 0 \/ fst (turn (status, t)) = 1
                     \/ fst (turn (status, t)) = 2)
        by (destruct Hcase as [(E0 & _)|(E12 & _)]; lia).
      destruct (IH _ _ _ W' Hst' (turn_passed g1 status t W Hp Hne) H)
        as (A & B & D).
      split; [exact A|]. split; [exact B|congruence].
Qed.

Lemma first_solution_passed s C t1 :
  wf_trail t1 -> search_inv s C t1 -> passed (grid_of t1) 2 t1.
Proof.
  intros W SI. right. left. split; [reflexivity|].
  intros (i & j & Hi & A & Hj & E).
  rewrite grid_of_on_trail in E by (auto; pose proof (wf_range t1 W); lia).
  pose proof (si_incr s C t1 SI i j (m t1 i) Hi ltac:(lia)). unfold val in E. lia.
Qed.

Lemma filter_shorter (f : Z * Z -> bool) l p :
  In p l -> f p = false -> (length (filter f l) < length l)%nat.
Proof.
  induction l as [|a l IH]; intros Hp Hf; [destruct Hp|].
  cbn [filter length]. pose proof (filter_length_le f l).
  destruct Hp as [->|Hp].
  - rewrite Hf. lia.
  - specialize (IH Hp Hf). destruct (f a); cbn [length]; lia.
Qed.

Lemma GettingStarted_free s C t0 p :
  In p cells -> at_ C p = 0 -> Csize (GettingStarted s C t0) < 81.
Proof.
  intros Hp Hz. destruct (GettingStarted_started s C t0) as ((Si & _) & HC).
  rewrite HC, Si.
  pose proof (filter_shorter (clue_site C) cells p Hp) as Hlt.
  change (length cells) with 81%nat in Hlt.
  assert (clue_site C p = false) by (unfold clue_site; rewrite Hz; reflexivity).
  specialize (Hlt H). lia.
Qed.

(** With a valid reference grid and a site that is not a clue,
    [Unique] returns 0 only when the clues have two completions that
    differ at some site. *)
Lemma Unique_complete s C fuel t0 t' p :
  valid_grid s = true -> In p cells -> at_ C p = 0 ->
  Unique fuel s C t0 = Done (Returned 0, t') ->
  exists g1 g2, completion s C g1 /\ completion s C g2 /\ ~ same_grid g1 g2.
Proof.
  intros V Hp Hz H. unfold Unique in H.
  destruct (search fuel 1 (GettingStarted s C t0)) as [t1| |] eqn:H1;
    cbn [bind] in H; try discriminate.
  destruct (first_phase_finds s C fuel t0 t1 V H1) as (E81 & W1 & SI1 & A1).
  rewrite E81 in H. cbn [Z.eqb Pos.eqb negb] in H.
  destruct (search fuel 2 t1) as [t2| |] eqn:H2; cbn [bind] in H; try discriminate.
  destruct (Z.eqb_spec (istar t2) 81) as [E2|E2]; [|discriminate].
  inversion H; subst t'; clear H.
  pose proof (search_ok_final (departs_from t1) s C fuel 2 t1 t2
                (second_phase_start s C t1 W1 SI1 A1) H2) as (W2 & SI2 & _).
  destruct (search_passed (grid_of t1) fuel 2 t1 t2 W1 ltac:(lia)
              (first_solution_passed s C t1 W1 SI1) H2) as (Hpass & _ & HC2).
  destruct (search_keeps fuel 1 _ t1 (GettingStarted_wf s C t0) ltac:(lia) H1)
    as (_ & HC1).
  pose proof (GettingStarted_free s C t0 p Hp Hz) as Hfree.
  exists (grid_of t1), (grid_of t2).
  split; [now apply full_trail_completion|].
  split; [now apply full_trail_completion|].
  intros Hsame.
  destruct Hpass as [(Hs & _)|[(Hs & _)|(_ & [(_ & NA)|E])]]; try lia.
  apply NA. intros i Hi.
  destruct (wf_sites t2 W2 i Hi) as ([Hx Hy] & _).
  pose proof (Hsame (r t2 i, c t2 i) (in_cells _ _ Hx Hy)) as Eg.
  unfold at_ in Eg. cbn [fst snd] in Eg. rewrite Eg.
  now apply grid_of_on_trail.
Qed.

Lemma same_grid_sym g g' : same_grid g g' -> same_grid g' g.
Proof. intros H p Hp. symmetry. now apply H. Qed.

Lemma same_grid_trans g g' g'' :
  same_grid g g' -> same_grid g' g'' -> same_grid g g''.
Proof. intros H H' p Hp. rewrite (H p Hp). now apply H'. Qed.

(** X27.  Whenever some grid site is not a clue (as in every
    call made by [Metropolis2], which follows the removal of a clue)
    and the reference grid is a valid solution, [Unique] -- first
    search from the clues with [Advance], then a forced [Retreat] and
    a second search -- halts and returns 1 or 0, and it returns 1
    exactly when the clues have exactly one completion; when it
    returns 0 the two full trails it has reached are two completions
    that differ at some site ([Unique_complete]). *)
Theorem Unique_decides_uniqueness (s C : Z -> Z -> Z) (t0 : trail) (p : Z * Z) :
  valid_grid s = true -> In p cells -> at_ C p = 0 ->
  exists fuel out t',
    (forall extra, Unique (fuel + extra) s C t0 = Done (out, t'))
    /\ (out = Returned 0 \/ out = Returned 1)
    /\ (out = Returned 1 <-> exactly_one_completion s C).
Proof.
  intros V Hp Hz.
  destruct (Unique_runs s C t0) as (fuel & out & t' & HU).
  exists fuel, out, t'. split; [exact HU|].
  destruct (Unique_sound s C (fuel + 0) t0 out t' V (HU 0%nat)) as (H01 & Hone).
  split; [exact H01|]. split; [exact Hone|].
  intros (g & Hg & Huniq). destruct H01 as [->|H1]; [|exact H1].
  exfalso.
  destruct (Unique_complete s C (fuel + 0) t0 t' p V Hp Hz (HU 0%nat))
    as (g1 & g2 & Hg1 & Hg2 & Hdiff).
  apply Hdiff.
  apply (same_grid_trans g1 g g2); [apply same_grid_sym|]; now apply Huniq.
Qed.

Lemma Unique_decides_uniqueness_witness :
  valid_grid shifted_solution = true
  /\ In (1, 1) cells
  /\ at_ (fst (Flip (all_clues blank) 1 1)) (1, 1) = 0
  /\ exists fuel out t',
       (forall extra,
           Unique (fuel + extra) shifted_solution
                  (fst (Flip (all_clues blank) 1 1)) empty_trail = Done (out, t'))
       /\ (out = Returned 0 \/ out = Returned 1)
       /\ (out = Returned 1
           <-> exactly_one_completion shifted_solution
                                      (fst (Flip (all_clues blank) 1 1))).
Proof.
  assert (H1 : valid_grid shifted_solution = true) by (vm_compute; reflexivity).
  assert (H2 : In (1, 1) cells) by (now left).
  assert (H3 : at_ (fst (Flip (all_clues blank) 1 1)) (1, 1) = 0)
    by (vm_compute; reflexivity).
  split; [exact H1|]. split; [exact H2|]. split; [exact H3|].
  exact (Unique_decides_uniqueness shifted_solution _ empty_trail (1, 1) H1 H2 H3).
Defined.

(** ** Energy of a Sudoku grid and solved grids *)

Lemma fold_left_ext {A B} (f g : A -> B -> A) l :
  (forall a b, f a b = g a b) -> forall a, fold_left f l a = fold_left g l a.
Proof.
  intros H. induction l as [|b l IH]; intros a; cbn [fold_left]; [reflexivity|].
  now rewrite H, IH.
Qed.

Lemma sum_over_nonneg f l :
  (forall q, In q l -> 0 <= f q) -> 0 <= sum_over f l.
Proof.
  induction l as [|a l IH]; intros H; rewrite ?sum_over_nil, ?sum_over_cons; [lia|].
  pose proof (H a (or_introl eq_refl)).
  assert (0 <= sum_over f l) by (apply IH; intros q Hq; apply H; now right). lia.
Qed.

Lemma sum_over_zero f l :
  (forall q, In q l -> 0 <= f q) ->
  (sum_over f l = 0 <-> forall q, In q l -> f q = 0).
Proof.
  induction l as [|a l IH]; intros H; rewrite ?sum_over_nil, ?sum_over_cons.
  - split; [intros _ q []|reflexivity].
  - pose proof (H a (or_introl eq_refl)) as Ha.
    assert (Hl : forall q, In q l -> 0 <= f q) by (intros q Hq; apply H; now right).
    pose proof (sum_over_nonneg f l Hl) as Hs. specialize (IH Hl). split.
    + intros E q [<-|Hq]; [lia|]. apply IH; [lia|exact Hq].
    + intros E. rewrite (E a (or_introl eq_refl)).
      rewrite (proj2 IH); [reflexivity|]. intros q Hq. apply E. now right.
Qed.

Lemma sum_over_le f g l :
  (forall q, In q l -> f q <= g q) -> sum_over f l <= sum_over g l.
Proof.
  induction l as [|a l IH]; intros H; rewrite ?sum_over_nil, ?sum_over_cons; [lia|].
  pose proof (H a (or_introl eq_refl)).
  assert (sum_over f l <= sum_over g l) by (apply IH; intros q Hq; apply H; now right).
  lia.
Qed.

Lemma weight_cases clue a b c d :
  SudokuSolver.weight clue a b c d = 1 \/ SudokuSolver.weight clue a b c d = 5.
Proof.
  unfold SudokuSolver.weight.
  destruct (negb (clue a b =? 0) || negb (clue c d =? 0)); auto.
Qed.

Lemma b2z_cases b : b2z b = 0 \/ b2z b = 1.
Proof. destruct b; auto. Qed.

Lemma pair_term_bounds x clue d p q :
  0 <= pair_term x clue d p q <= 5 * b2z (peer p q).
Proof.
  unfold pair_term.
  destruct (weight_cases clue (fst p) (snd p) (fst q) (snd q)) as [-> | ->];
    destruct (peer p q); destruct (at_ x q =? d); cbn [b2z]; lia.
Qed.

Lemma pair_term_blank x d p q :
  pair_term x blank d p q = b2z (peer p q && (at_ x q =? d)).
Proof.
  unfold pair_term, SudokuSolver.weight, blank.
  destruct (peer p q); destruct (at_ x q =? d); reflexivity.
Qed.

Lemma peers_20 p : In p cells -> sum_over (fun q => b2z (peer p q)) cells = 20.
Proof.
  intros H. unfold cells, digits in H. cbn [flat_map map app] in H.
  repeat (destruct H as [H|H]; [subst p; vm_compute; reflexivity|]).
  destruct H.
Qed.

(** Each unordered pair of clashing peers is counted twice in the
    double loop, so the total is even and [E /= 2] is exact. *)
Lemma Energy_double x clue :
  2 * SudokuSolver.Energy x clue
  = sum_over (fun p => sum_over (pair_term x clue (at_ x p) p) cells) cells.
Proof.
  rewrite Energy_as_sum.
  destruct (double_sum_even
              (fun p => pair_term x clue (at_ x p) p)
              (F_sym clue _) (F_diag clue _) cells) as [h Eh].
  rewrite Eh. rewrite (Z.mul_comm 2 h), Z.quot_mul by lia. lia.
Qed.

Lemma Energy_nonneg x clue : 0 <= SudokuSolver.Energy x clue.
Proof.
  pose proof (Energy_double x clue) as E.
  assert (0 <= sum_over (fun p => sum_over (pair_term x clue (at_ x p) p) cells) cells).
  { apply sum_over_nonneg. intros p _. apply sum_over_nonneg. intros q _.
    apply pair_term_bounds. }
  lia.
Qed.

Lemma Energy_zero_iff x clue :
  SudokuSolver.Energy x clue = 0
  <-> forall p q, In p cells -> In q cells -> peer p q = true ->
                  at_ x p <> at_ x q.
Proof.
  pose proof (Energy_double x clue) as E.
  assert (In0 : forall p, In p cells ->
                  0 <= sum_over (pair_term x clue (at_ x p) p) cells).
  { intros p _. apply sum_over_nonneg. intros q _. apply pair_term_bounds. }
  pose proof (sum_over_zero _ cells In0) as Z1.
  split.
  - intros E0 p q Hp Hq Hpq Heq.
    assert (S0 : sum_over (fun p => sum_over (pair_term x clue (at_ x p) p) cells)
                          cells = 0) by lia.
    pose proof (proj1 Z1 S0 p Hp) as Zp. cbv beta in Zp.
    pose proof (proj1 (sum_over_zero (pair_term x clue (at_ x p) p) cells
                         (fun q _ => proj1 (pair_term_bounds x clue (at_ x p) p q))) Zp q Hq) as Zq.
    clear Zp. rename Zq into Zp. unfold pair_term in Zp. rewrite Hpq in Zp.
    rewrite <- Heq, Z.eqb_refl in Zp. cbn [b2z] in Zp.
    destruct (weight_cases clue (fst p) (snd p) (fst q) (snd q)) as [W|W];
      rewrite W in Zp; lia.
  - intros H.
    assert (S0 : sum_over (fun p => sum_over (pair_term x clue (at_ x p) p) cells)
                          cells = 0); [|lia].
    apply Z1. intros p Hp. cbv beta.
    apply sum_over_zero; [intros; apply pair_term_bounds|].
    intros q Hq. unfold pair_term. destruct (peer p q) eqn:Hpq; [|reflexivity].
    destruct (Z.eqb_spec (at_ x q) (at_ x p)) as [Heq|Hne]; [|reflexivity].
    exfalso. apply (H p q Hp Hq Hpq). congruence.
Qed.

Lemma valid_grid_spec g :
  valid_grid g = true
  <-> digits_only g = true
      /\ forall p q, In p cells -> In q cells -> peer p q = true ->
                     at_ g p <> at_ g q.
Proof.
  unfold valid_grid, digits_only. rewrite andb_true_iff. split.
  - intros [D P]. split; [exact D|]. intros p q Hp Hq Hpq Heq.
    rewrite forallb_forall in P. specialize (P p Hp).
    rewrite forallb_forall in P. specialize (P q Hq).
    rewrite Hpq, Heq, Z.eqb_refl in P. discriminate.
  - intros [D P]. split; [exact D|].
    apply forallb_forall. intros p Hp. apply forallb_forall. intros q Hq.
    destruct (peer p q) eqn:Hpq; [|reflexivity]. cbn [implb].
    destruct (Z.eqb_spec (at_ g p) (at_ g q)) as [Heq|Hne]; [|reflexivity].
    exfalso. exact (P p q Hp Hq Hpq Heq).
Qed.

(** ** The puzzle maker's [Conflicts] and [Energy] *)

Lemma fold_left_ext2 {A B} (f g : A -> B -> A) l a a' :
  (forall a b, f a b = g a b) -> a = a' -> fold_left f l a = fold_left g l a'.
Proof. intros H ->. now apply fold_left_ext. Qed.

(** The puzzle maker's functions are the solver's with no clue
    flagged, where every weight is 1. *)
Lemma maker_Conflicts s x0 y0 d :
  PuzzleMaker.Conflicts s x0 y0 d = SudokuSolver.Conflicts s blank x0 y0 d.
Proof.
  unfold PuzzleMaker.Conflicts, SudokuSolver.Conflicts.
  cbv zeta.
  assert (W : forall a b c e, SudokuSolver.weight blank a b c e = 1) by reflexivity.
  apply fold_left_ext2.
  - intros a x. apply fold_left_ext. intros a' y.
    rewrite W, Z.mul_1_r. reflexivity.
  - apply fold_left_ext. intros a k. rewrite !W, !Z.mul_1_r. reflexivity.
Qed.

Lemma maker_Energy s : PuzzleMaker.Energy s = SudokuSolver.Energy s blank.
Proof.
  unfold PuzzleMaker.Energy, SudokuSolver.Energy. cbv zeta. f_equal.
  apply fold_left_ext. intros a x. apply fold_left_ext. intros a' y.
  now rewrite maker_Conflicts.
Qed.

Lemma maker_Conflicts_bounds s x0 y0 d :
  1 <= x0 <= 9 -> 1 <= y0 <= 9 -> 0 <= PuzzleMaker.Conflicts s x0 y0 d <= 20.
Proof.
  intros Hx Hy. rewrite maker_Conflicts, Conflicts_as_sum by assumption.
  rewrite <- (peers_20 (x0, y0)) by (now apply in_cells).
  split.
  - apply sum_over_nonneg. intros q _. apply pair_term_bounds.
  - apply sum_over_le. intros q _. rewrite pair_term_blank.
    destruct (peer (x0, y0) q); destruct (at_ s q =? d); cbn [andb b2z]; lia.
Qed.

Lemma solver_Conflicts_bounds x clue r0 c0 d :
  1 <= r0 <= 9 -> 1 <= c0 <= 9 -> 0 <= SudokuSolver.Conflicts x clue r0 c0 d <= 100.
Proof.
  intros Hx Hy. rewrite Conflicts_as_sum by assumption.
  pose proof (peers_20 (r0, c0) (in_cells r0 c0 Hx Hy)) as P20.
  split.
  - apply sum_over_nonneg. intros q _. apply pair_term_bounds.
  - transitivity (sum_over (fun q => 5 * b2z (peer (r0, c0) q)) cells).
    + apply sum_over_le. intros q _. apply pair_term_bounds.
    + rewrite (sum_over_ext _ (fun q => b2z (peer (r0, c0) q) * 5))
        by (intros; lia).
      rewrite sum_over_scale. lia.
Qed.

(** ** Random draws stay in range *)

Lemma all_words_spec g : all_words g = true <-> Forall word g.
Proof.
  unfold all_words. rewrite forallb_forall, Forall_forall. unfold word.
  split; intros H N HN; specialize (H N HN).
  - apply andb_true_iff in H. destruct H as [A B].
    apply Z.leb_le in A. apply Z.ltb_lt in B. lia.
  - apply andb_true_iff. split; [apply Z.leb_le|apply Z.ltb_lt]; lia.
Qed.

Lemma RandomInteger_draw a b g v g' :
  Forall word g -> 0 <= a <= b ->
  RandomInteger a b g = Done (v, g') ->
  a <= v <= b /\ Forall word g'.
Proof.
  intros Hw Hab H. destruct g as [|N g]; cbn [RandomInteger] in H; [discriminate|].
  inversion H; subst. inversion Hw; subst.
  split; [now apply RandomInteger_of_range|assumption].
Qed.

Lemma MTUniform_draw g U g' :
  Forall word g -> MTUniform g = Done (U, g') ->
  Forall word g' /\ exists N, word N /\ U = uniform N.
Proof.
  intros Hw H. destruct g as [|N g]; cbn [MTUniform] in H; [discriminate|].
  inversion H; subst. inversion Hw; subst. split; [assumption|]. now exists N.
Qed.

Lemma AcceptTransition_words T P deltaE g acc g' :
  Forall word g -> AcceptTransition T P deltaE g = Done (acc, g') -> Forall word g'.
Proof.
  intros Hw H. unfold AcceptTransition in H.
  destruct (deltaE <=? 0); [inversion H; now subst|].
  destruct (positive_temp T); [|inversion H; now subst].
  destruct g as [|N g]; cbn [MTUniform bind] in H; [discriminate|].
  destruct (read P deltaE); cbn [bind] in H; try discriminate.
  inversion H; subst. now inversion Hw.
Qed.

Lemma read_in_range (P : list Q) i :
  0 <= i < Z.of_nat (length P) -> exists q, read P i = Done q.
Proof.
  intros Hi. unfold read. destruct (Z.ltb_spec i 0); [lia|].
  destruct (nth_error P (Z.to_nat i)) as [q|] eqn:E; [now exists q|].
  apply nth_error_None in E. lia.
Qed.

Lemma digits_only_spec g :
  digits_only g = true <-> forall p, In p cells -> 1 <= at_ g p <= 9.
Proof.
  unfold digits_only. rewrite forallb_forall.
  split; intros H p Hp; specialize (H p Hp).
  - apply andb_true_iff in H. destruct H as [A B].
    apply Z.leb_le in A. apply Z.leb_le in B. lia.
  - apply andb_true_iff. split; apply Z.leb_le; lia.
Qed.

Lemma digits_only_upd2 g i j v :
  digits_only g = true -> 1 <= v <= 9 -> digits_only (upd2 g i j v) = true.
Proof.
  rewrite !digits_only_spec. intros H Hv p Hp.
  change (at_ (upd2 g i j v) p) with (if same_site p (i, j) then v else at_ g p).
  destruct (same_site p (i, j)); [lia|now apply H].
Qed.

(** ** The Sudoku solver's chain *)

(** The change computed from [Conflicts] is the change of [Energy]. *)
Lemma delta_is_Energy_change x clue i0 j0 x0 :
  1 <= i0 <= 9 -> 1 <= j0 <= 9 ->
  SudokuSolver.Conflicts x clue i0 j0 x0
  - SudokuSolver.Conflicts x clue i0 j0 (x i0 j0)
  = SudokuSolver.Energy (upd2 x i0 j0 x0) clue - SudokuSolver.Energy x clue.
Proof.
  intros Hi Hj.
  pose proof (Energy_double x clue) as E1.
  pose proof (Energy_double (upd2 x i0 j0 x0) clue) as E2.
  pose proof (total_change x clue i0 j0 x0 (in_cells i0 j0 Hi Hj)) as HT.
  cbv beta zeta in HT.
  rewrite sum_over_minus in HT.
  rewrite <- !Conflicts_as_sum in HT by assumption.
  change (at_ x (i0, j0)) with (x i0 j0) in HT.
  assert (HT' : sum_over (fun p => sum_over
                   (pair_term (upd2 x i0 j0 x0) clue (at_ (upd2 x i0 j0 x0) p) p)
                   cells) cells
                - sum_over (fun p => sum_over (pair_term x clue (at_ x p) p) cells)
                           cells
                = 2 * (SudokuSolver.Conflicts x clue i0 j0 x0
                       - SudokuSolver.Conflicts x clue i0 j0 (x i0 j0)))
    by exact HT.
  lia.
Qed.

Lemma pick_cell_spec clue g : forall i0 j0 g',
  Forall word g -> SudokuSolver.pick_cell clue g = Done (i0, j0, g') ->
  1 <= i0 <= 9 /\ 1 <= j0 <= 9 /\ clue i0 j0 = 0 /\ Forall word g'.
Proof.
  remember (length g) as len eqn:El. revert g El.
  induction len as [len IH] using lt_wf_ind. intros g El i0 j0 g' Hw H.
  destruct g as [|N1 [|N2 g]]; cbn [SudokuSolver.pick_cell] in H; try discriminate.
  inversion Hw as [|? ? H1 Hw1]; subst. inversion Hw1 as [|? ? H2 Hw2]; subst.
  destruct (Z.eqb_spec (clue (RandomInteger_of 1 9 N1) (RandomInteger_of 1 9 N2)) 0)
    as [E|E].
  - inversion H; subst.
    pose proof (RandomInteger_of_range 1 9 N1 H1 ltac:(lia)).
    pose proof (RandomInteger_of_range 1 9 N2 H2 ltac:(lia)). auto.
  - apply (IH (length g)) with (g := g); auto. cbn [length]. lia.
Qed.

Lemma pick_digit_spec cur g : forall x0 g',
  Forall word g -> SudokuSolver.pick_digit cur g = Done (x0, g') ->
  1 <= x0 <= 9 /\ x0 <> cur /\ Forall word g'.
Proof.
  induction g as [|N g IH]; intros x0 g' Hw H; cbn [SudokuSolver.pick_digit] in H;
    [discriminate|].
  inversion Hw as [|? ? H1 Hw1]; subst.
  destruct (Z.eqb_spec (RandomInteger_of 1 9 N) cur) as [E|E]; cbn [negb] in H.
  - now apply IH.
  - inversion H; subst.
    pose proof (RandomInteger_of_range 1 9 N H1 ltac:(lia)). auto.
Qed.

Lemma Sudoku_step_inv clue T prob st E g st' E' g' :
  Forall word g ->
  digits_only (SudokuSolver.x st) = true ->
  E = SudokuSolver.Energy (SudokuSolver.x st) clue ->
  SudokuSolver.Metropolis_step clue T prob st E g = Done (st', E', g') ->
  E' = SudokuSolver.Energy (SudokuSolver.x st') clue
  /\ digits_only (SudokuSolver.x st') = true
  /\ (forall i j, clue i j <> 0 -> SudokuSolver.x st' i j = SudokuSolver.x st i j)
  /\ Forall word g'.
Proof.
  intros Hw Hd HE H. unfold SudokuSolver.Metropolis_step, SudokuSolver.Proposal in H.
  destruct (SudokuSolver.pick_cell clue g) as [[[i0 j0] g1]| |] eqn:Hc;
    cbn [bind] in H; try discriminate.
  destruct (pick_cell_spec clue g i0 j0 g1 Hw Hc) as (Hi & Hj & Hclue & Hw1).
  destruct (SudokuSolver.pick_digit (SudokuSolver.x st i0 j0) g1) as [[x0 g2]| |] eqn:Hp;
    cbn [bind] in H; try discriminate.
  destruct (pick_digit_spec _ g1 x0 g2 Hw1 Hp) as (Hx0 & _ & Hw2).
  unfold SudokuSolver.decide in H.
  cbn [SudokuSolver.x SudokuSolver.i0 SudokuSolver.j0 SudokuSolver.x0] in H.
  destruct (AcceptTransition T prob _ g2) as [[acc g3]| |] eqn:Ha;
    cbn [bind] in H; try discriminate.
  pose proof (AcceptTransition_words _ _ _ _ _ _ Hw2 Ha) as Hw3.
  destruct acc; inversion H; subst; cbn [SudokuSolver.x].
  - split.
    + unfold SudokuSolver.deltaE_of.
      cbn [SudokuSolver.x SudokuSolver.i0 SudokuSolver.j0 SudokuSolver.x0].
      rewrite delta_is_Energy_change by assumption. lia.
    + split; [now apply digits_only_upd2|]. split; [|assumption].
      intros i j Hij. apply upd2_other.
      destruct (Z.eq_dec i i0); [|now left]. destruct (Z.eq_dec j j0); [|now right].
      subst. contradiction.
  - auto.
Qed.

Lemma Sudoku_loop_inv clue T prob steps : forall st E g st' g',
  Forall word g ->
  digits_only (SudokuSolver.x st) = true ->
  E = SudokuSolver.Energy (SudokuSolver.x st) clue ->
  SudokuSolver.Metropolis_loop steps clue T prob st E g = Done (st', g') ->
  SudokuSolver.Energy (SudokuSolver.x st') clue = 0
  /\ digits_only (SudokuSolver.x st') = true
  /\ (forall i j, clue i j <> 0 -> SudokuSolver.x st' i j = SudokuSolver.x st i j).
Proof.
  induction steps as [|steps IH]; intros st E g st' g' Hw Hd HE H;
    cbn [SudokuSolver.Metropolis_loop] in H;
    destruct (Z.gtb_spec E 0) as [Hpos|Hz]; try discriminate.
  - inversion H; subst. pose proof (Energy_nonneg (SudokuSolver.x st') clue).
    split; [lia|]. auto.
  - destruct (SudokuSolver.Metropolis_step clue T prob st E g) as [[[st1 E1] g1]| |] eqn:Hs;
      cbn [bind] in H; try discriminate.
    destruct (Sudoku_step_inv _ _ _ _ _ _ _ _ _ Hw Hd HE Hs) as (HE1 & Hd1 & Hc1 & Hw1).
    destruct (IH _ _ _ _ _ Hw1 Hd1 HE1 H) as (A & B & D).
    split; [exact A|]. split; [exact B|].
    intros i j Hij. rewrite D, Hc1 by assumption. reflexivity.
  - inversion H; subst. pose proof (Energy_nonneg (SudokuSolver.x st') clue).
    split; [lia|]. auto.
Qed.

Lemma GetPuzzle_loop_spec l : forall x clue g x' clue' g',
  Forall word g -> NoDup l ->
  SudokuSolver.GetPuzzle_loop l x clue g = Done (x', clue', g') ->
  (forall p, In p l ->
             at_ clue' p = b2z (negb (at_ x p =? 0))
             /\ (at_ x p <> 0 -> at_ x' p = at_ x p)
             /\ (at_ x p = 0 -> 1 <= at_ x' p <= 9))
  /\ (forall p, ~ In p l -> at_ clue' p = at_ clue p /\ at_ x' p = at_ x p)
  /\ Forall word g'.
Proof.
  induction l as [|[i j] l IH]; intros x clue g x' clue' g' Hw Hnd H;
    cbn [SudokuSolver.GetPuzzle_loop] in H.
  - inversion H; subst. split; [intros p []|]. auto.
  - inversion Hnd as [|? ? Hnotin Hnd']; subst.
    rewrite upd2_same in H.
    assert (Hsite : forall (a : Z -> Z -> Z) v p,
               at_ (upd2 a i j v) p = if same_site p (i, j) then v else at_ a p)
      by reflexivity.
    assert (Hself : same_site (i, j) (i, j) = true)
      by (unfold same_site; cbn [fst snd]; now rewrite !Z.eqb_refl).
    assert (Hoth : forall p, In p l -> same_site p (i, j) = false).
    { intros p Hp. destruct (same_site p (i, j)) eqn:E; [|reflexivity].
      apply same_site_true in E. subst p. contradiction. }
    destruct (Z.eqb_spec (x i j) 0) as [Ez|Ez]; cbn [negb b2z Z.eqb] in H.
    + destruct (RandomInteger 1 9 g) as [[v g1]| |] eqn:Hr; cbn [bind] in H;
        try discriminate.
      destruct (RandomInteger_draw 1 9 g v g1 Hw ltac:(lia) Hr) as (Hv & Hw1).
      destruct (IH _ _ _ _ _ _ Hw1 Hnd' H) as (A & B & D).
      split; [|split; [|exact D]].
      * intros p [<-|Hp].
        -- destruct (B (i, j) Hnotin) as [B1 B2].
           rewrite B1, B2, !Hsite, Hself. unfold at_; cbn [fst snd].
           rewrite Ez. cbn [Z.eqb negb b2z]. split; [reflexivity|]. split; lia.
        -- destruct (A p Hp) as (A1 & A2 & A3).
           rewrite Hsite, (Hoth p Hp) in A1, A2, A3. auto.
      * intros p Hp. destruct (B p) as [B1 B2]; [intros Hin; apply Hp; now right|].
        rewrite B1, B2, !Hsite.
        destruct (same_site p (i, j)) eqn:E; [|auto].
        apply same_site_true in E. subst p. exfalso. apply Hp. now left.
    + destruct (IH _ _ _ _ _ _ Hw Hnd' H) as (A & B & D).
      split; [|split; [|exact D]].
      * intros p [<-|Hp].
        -- destruct (B (i, j) Hnotin) as [B1 B2].
           rewrite B1, B2, !Hsite, Hself. unfold at_; cbn [fst snd].
           destruct (Z.eqb_spec (x i j) 0); [contradiction|]. cbn [negb b2z].
           split; [reflexivity|]. split; [reflexivity|]. intros; contradiction.
        -- destruct (A p Hp) as (A1 & A2 & A3). auto.
      * intros p Hp. destruct (B p) as [B1 B2]; [intros Hin; apply Hp; now right|].
        rewrite B1, B2, !Hsite.
        destruct (same_site p (i, j)) eqn:E; [|auto].
        apply same_site_true in E. subst p. exfalso. apply Hp. now left.
Qed.

(** ** The puzzle maker's first chain *)

Lemma pick_s0_spec cur g : forall s0 v g',
  Forall word g -> (s0 <> cur -> 1 <= s0 <= 9) ->
  pick_s0 cur s0 g = Done (v, g') ->
  1 <= v <= 9 /\ v <> cur /\ Forall word g'.
Proof.
  induction g as [|N g IH]; intros s0 v g' Hw Hs H; cbn [pick_s0] in H;
    destruct (Z.eqb_spec s0 cur) as [E|E]; try discriminate.
  - inversion H; subst. auto.
  - inversion Hw as [|? ? H1 Hw1]; subst.
    apply (IH (RandomInteger_of 1 9 N)); auto.
    intros _. apply RandomInteger_of_range; [assumption|lia].
  - inversion H; subst. auto.
Qed.

Lemma maker_Proposal_spec s g I0 J0 s0 g' :
  Forall word g -> PuzzleMaker.Proposal s g = Done (I0, J0, s0, g') ->
  1 <= I0 <= 9 /\ 1 <= J0 <= 9 /\ 1 <= s0 <= 9 /\ s0 <> s I0 J0 /\ Forall word g'.
Proof.
  intros Hw H. unfold PuzzleMaker.Proposal in H.
  destruct (RandomInteger 1 9 g) as [[i g1]| |] eqn:H1; cbn [bind] in H;
    try discriminate.
  destruct (RandomInteger_draw 1 9 g i g1 Hw ltac:(lia) H1) as (Hi & Hw1).
  destruct (RandomInteger 1 9 g1) as [[j g2]| |] eqn:H2; cbn [bind] in H;
    try discriminate.
  destruct (RandomInteger_draw 1 9 g1 j g2 Hw1 ltac:(lia) H2) as (Hj & Hw2).
  destruct (pick_s0 (s i j) (s i j) g2) as [[v g3]| |] eqn:H3; cbn [bind] in H;
    try discriminate.
  inversion H; subst.
  assert (Hfirst : s I0 J0 <> s I0 J0 -> 1 <= s I0 J0 <= 9) by (intros C; now contradiction C).
  destruct (pick_s0_spec _ _ _ _ _ Hw2 Hfirst H3) as (Hv & Hne & Hw3).
  auto.
Qed.

Lemma Metropolis1_step_inv prob s E g s' E' g' :
  Forall word g -> digits_only s = true -> E = PuzzleMaker.Energy s ->
  Metropolis1_step prob s E g = Done (s', E', g') ->
  E' = PuzzleMaker.Energy s' /\ digits_only s' = true /\ Forall word g'.
Proof.
  intros Hw Hd HE H. unfold Metropolis1_step in H.
  destruct (PuzzleMaker.Proposal s g) as [[[[I0 J0] s0] g1]| |] eqn:Hp;
    cbn [bind] in H; try discriminate.
  destruct (maker_Proposal_spec s g I0 J0 s0 g1 Hw Hp) as (Hi & Hj & Hs0 & _ & Hw1).
  set (deltaE := PuzzleMaker.Conflicts s I0 J0 s0
                 - PuzzleMaker.Conflicts s I0 J0 (s I0 J0)) in *.
  assert (HD : deltaE = PuzzleMaker.Energy (upd2 s I0 J0 s0) - PuzzleMaker.Energy s).
  { subst deltaE. rewrite !maker_Conflicts, !maker_Energy.
    now apply delta_is_Energy_change. }
  assert (Hacc : forall acc g2,
             (if deltaE <=? 0 then Done (true, g1)
              else do '(U, g'0) <- MTUniform g1;
                   do pr <- read prob deltaE; Done (Qle_bool U pr, g'0))
             = Done (acc, g2) -> Forall word g2).
  { intros acc g2 Ha. destruct (deltaE <=? 0); [inversion Ha; now subst|].
    destruct g1 as [|N g1]; cbn [MTUniform bind] in Ha; [discriminate|].
    destruct (read prob deltaE); cbn [bind] in Ha; try discriminate.
    inversion Ha; subst. now inversion Hw1. }
  destruct (if deltaE <=? 0 then Done (true, g1)
            else do '(U, g'0) <- MTUniform g1;
                 do pr <- read prob deltaE; Done (Qle_bool U pr, g'0))
    as [[acc g2]| |] eqn:Ha; cbn [bind] in H; try discriminate.
  specialize (Hacc acc g2 eq_refl).
  destruct acc; inversion H; subst.
  - split; [lia|]. split; [now apply digits_only_upd2|assumption].
  - auto.
Qed.

(** With I0 and J0 on the grid the change of energy is at most 20,
    the last index of the block of 21 doubles. *)
Lemma Metropolis1_step_defined prob s E g :
  Forall word g -> length prob = 21%nat ->
  Metropolis1_step prob s E g <> Undefined.
Proof.
  intros Hw Hlen H. unfold Metropolis1_step in H.
  destruct (PuzzleMaker.Proposal s g) as [[[[I0 J0] s0] g1]| |] eqn:Hp;
    cbn [bind] in H; try discriminate.
  - destruct (maker_Proposal_spec s g I0 J0 s0 g1 Hw Hp) as (Hi & Hj & _).
    pose proof (maker_Conflicts_bounds s I0 J0 s0 Hi Hj) as B1.
    pose proof (maker_Conflicts_bounds s I0 J0 (s I0 J0) Hi Hj) as B2.
    set (deltaE := PuzzleMaker.Conflicts s I0 J0 s0
                   - PuzzleMaker.Conflicts s I0 J0 (s I0 J0)) in *.
    destruct (Z.leb_spec deltaE 0) as [Hle|Hgt]; cbn [bind] in H.
    + destruct (upd2 s I0 J0 s0); discriminate.
    + destruct g1 as [|N g1]; cbn [MTUniform bind] in H; [discriminate|].
      destruct (read_in_range prob deltaE) as [q Hq]; [rewrite Hlen; lia|].
      rewrite Hq in H. cbn [bind] in H.
      destruct (Qle_bool (uniform N) q); discriminate.
  - unfold PuzzleMaker.Proposal in Hp.
    destruct (RandomInteger 1 9 g) as [[i g1]| |] eqn:H1; cbn [bind] in Hp;
      try discriminate.
    + destruct (RandomInteger 1 9 g1) as [[j g2]| |] eqn:H2; cbn [bind] in Hp;
        try discriminate.
      * destruct (pick_s0 (s i j) (s i j) g2) as [[v g3]| |] eqn:H3; cbn [bind] in Hp;
          try discriminate.
        clear - H3. revert H3. generalize (s i j) at 2. 
        induction g2 as [|N g2 IH]; intros s0 H3; cbn [pick_s0] in H3;
          destruct (s0 =? s i j); try discriminate.
        now apply IH in H3.
      * destruct g1; discriminate.
    + destruct g; discriminate.
Qed.

Lemma Metropolis1_loop_inv prob steps : forall s E g s' g',
  Forall word g -> digits_only s = true -> E = PuzzleMaker.Energy s ->
  Metropolis1_loop steps prob s E g = Done (s', g') ->
  PuzzleMaker.Energy s' = 0 /\ digits_only s' = true /\ Forall word g'.
Proof.
  induction steps as [|steps IH]; intros s E g s' g' Hw Hd HE H;
    cbn [Metropolis1_loop] in H;
    destruct (Z.gtb_spec E 0) as [Hpos|Hz]; try discriminate.
  - inversion H; subst. pose proof (Energy_nonneg s' blank).
    rewrite <- maker_Energy in *. split; [lia|]. auto.
  - destruct (Metropolis1_step prob s E g) as [[[s1 E1] g1]| |] eqn:Hs;
      cbn [bind] in H; try discriminate.
    destruct (Metropolis1_step_inv _ _ _ _ _ _ _ Hw Hd HE Hs) as (HE1 & Hd1 & Hw1).
    apply (IH _ _ _ _ _ Hw1 Hd1 HE1 H).
  - inversion H; subst. pose proof (Energy_nonneg s' blank).
    rewrite <- maker_Energy in *. split; [lia|]. auto.
Qed.

Lemma Randomize_loop_spec l : forall s g s' g',
  Forall word g -> Randomize_loop l s g = Done (s', g') ->
  (forall p, In p l -> 1 <= at_ s' p <= 9)
  /\ (forall p, ~ In p l -> at_ s' p = at_ s p)
  /\ Forall word g'.
Proof.
  induction l as [|[x y] l IH]; intros s g s' g' Hw H; cbn [Randomize_loop] in H.
  - inversion H; subst. split; [intros p []|]. auto.
  - destruct (RandomInteger 1 9 g) as [[v g1]| |] eqn:Hr; cbn [bind] in H;
      try discriminate.
    destruct (RandomInteger_draw 1 9 g v g1 Hw ltac:(lia) Hr) as (Hv & Hw1).
    destruct (IH _ _ _ _ Hw1 H) as (A & B & D).
    split; [|split; [|exact D]].
    + intros p Hp. destruct (in_dec site_eq_dec p l) as [Hin|Hnin]; [now apply A|].
      destruct Hp as [<-|Hp]; [|contradiction].
      rewrite (B _ Hnin). unfold at_; cbn [fst snd]. rewrite upd2_same. lia.
    + intros p Hp. rewrite B by (intros Hin; apply Hp; now right).
      unfold at_. apply upd2_other.
      destruct p as [a b]; cbn [fst snd].
      destruct (Z.eq_dec a x); [|now left]. destruct (Z.eq_dec b y); [|now right].
      subst. exfalso. apply Hp. now left.
Qed.

Lemma Randomize_spec s g s' g' :
  Forall word g -> Randomize s g = Done (s', g') ->
  digits_only s' = true /\ Forall word g'.
Proof.
  intros Hw H. unfold Randomize in H.
  destruct g as [|N g]; cbn [MTUniform bind] in H; [discriminate|].
  inversion Hw; subst.
  destruct (Randomize_loop_spec cells s g s' g' ltac:(assumption) H) as (A & _ & D).
  split; [|exact D]. apply digits_only_spec. exact A.
Qed.

(** ** What the Sudoku solver guarantees *)

(** X1.  Sudoku solver, [Energy]: a grid is a valid Sudoku solution
    (digits 1-9 everywhere, no digit twice in a row, a column or a
    3x3 block) exactly when it holds digits only and [Energy ()], as
    computed by the double loop over [Conflicts] with the weights 5 and
    1 and the final halving, is 0 - the exit condition of
    [while (E > 0)].  This holds for every placement of the clue flags. *)
Theorem Sudoku_Energy_zero_iff_solved (x clue : Z -> Z -> Z) :
  valid_grid x = true
  <-> digits_only x = true /\ SudokuSolver.Energy x clue = 0.
Proof.
  rewrite valid_grid_spec, Energy_zero_iff. reflexivity.
Qed.

(** X2.  Sudoku solver, one pass of the loop of [Metropolis]: if [E]
    is the energy of the current grid and the grid holds digits only,
    then after [Proposal] and the acceptance test the updated [E] is
    again the energy of the updated grid (the bookkeeping [E += deltaE]
    never drifts from [Energy ()]), the grid still holds digits only,
    and no clue site has been changed. *)
Theorem Sudoku_step_keeps_energy_and_clues
        (clue : Z -> Z -> Z) (T : Q) (prob : list Q)
        (st : SudokuSolver.config) (E : Z) (g : rng)
        (st' : SudokuSolver.config) (E' : Z) (g' : rng) :
  Forall word g ->
  digits_only (SudokuSolver.x st) = true ->
  E = SudokuSolver.Energy (SudokuSolver.x st) clue ->
  SudokuSolver.Metropolis_step clue T prob st E g = Done (st', E', g') ->
  E' = SudokuSolver.Energy (SudokuSolver.x st') clue
  /\ digits_only (SudokuSolver.x st') = true
  /\ (forall i j, clue i j <> 0 ->
                  SudokuSolver.x st' i j = SudokuSolver.x st i j).
Proof.
  intros Hw Hd HE H.
  destruct (Sudoku_step_inv clue T prob st E g st' E' g' Hw Hd HE H)
    as (A & B & D & _).
  auto.
Qed.

Lemma Sudoku_step_keeps_energy_and_clues_witness :
  let st := SudokuSolver.mkConfig Samples.crowded 0 0 0 in
  let st' := SudokuSolver.mkConfig (upd2 Samples.crowded 1 1 3) 1 1 3 in
  SudokuSolver.Metropolis_step Samples.one_clue (1 # 2) Samples.table21 st 866
                               [0; 0; Samples.word_for 3]
  = Done (st', 866, [])
  /\ 866 = SudokuSolver.Energy (SudokuSolver.x st') Samples.one_clue
  /\ digits_only (SudokuSolver.x st') = true
  /\ (forall i j, Samples.one_clue i j <> 0 ->
                  SudokuSolver.x st' i j = SudokuSolver.x st i j).
Proof.
  intros st st'. split; [vm_compute; reflexivity|].
  apply (Sudoku_step_keeps_energy_and_clues
           Samples.one_clue (1 # 2) Samples.table21 st 866
           [0; 0; Samples.word_for 3] st' 866 []).
  - apply all_words_spec. vm_compute. reflexivity.
  - vm_compute. reflexivity.
  - vm_compute. reflexivity.
  - vm_compute. reflexivity.
Defined.

(** X3.  Sudoku solver, [GetPuzzle] followed by [Metropolis]: for a
    puzzle file holding a digit or 0 at each site, whenever the loop
    [while (E > 0)] is left, the grid is a valid Sudoku solution and
    carries the file's digit at every clue site.  (The loop is random;
    nothing is said here about when, or whether, it is left.) *)
Theorem Sudoku_solver_result_is_a_solution
        (file clue0 : Z -> Z -> Z) (T : Q) (prob : list Q) (g : rng)
        (steps : nat) (x1 clue : Z -> Z -> Z) (g1 : rng) (i j v : Z)
        (st' : SudokuSolver.config) (g' : rng) :
  Forall word g ->
  puzzle_file file = true ->
  SudokuSolver.GetPuzzle_loop cells file clue0 g = Done (x1, clue, g1) ->
  SudokuSolver.Metropolis steps clue T prob (SudokuSolver.mkConfig x1 i j v) g1
  = Done (st', g') ->
  valid_grid (SudokuSolver.x st') = true
  /\ forall p, In p cells -> at_ file p <> 0 ->
               at_ (SudokuSolver.x st') p = at_ file p.
Proof.
  intros Hw Hf H1 H2.
  destruct (GetPuzzle_loop_spec cells file clue0 g x1 clue g1 Hw NoDup_cells H1)
    as (A & _ & Hw1).
  assert (Hd : digits_only x1 = true).
  { apply digits_only_spec. intros p Hp. destruct (A p Hp) as (_ & A2 & A3).
    unfold puzzle_file in Hf. rewrite forallb_forall in Hf. specialize (Hf p Hp).
    apply andb_true_iff in Hf. destruct Hf as [F1 F2].
    apply Z.leb_le in F1. apply Z.leb_le in F2.
    destruct (Z.eq_dec (at_ file p) 0) as [E|E]; [now apply A3|].
    rewrite A2 by assumption. lia. }
  unfold SudokuSolver.Metropolis in H2.
  destruct (Sudoku_loop_inv clue T prob steps (SudokuSolver.mkConfig x1 i j v)
              (SudokuSolver.Energy x1 clue) g1 st' g' Hw1 Hd eq_refl H2)
    as (E0 & Hd' & Hc).
  split.
  - apply (proj2 (valid_grid_spec _)). split; [exact Hd'|].
    now apply (proj1 (Energy_zero_iff _ clue)).
  - intros p Hp Hne. destruct (A p Hp) as (A1 & A2 & _).
    unfold at_ in *. rewrite Hc; cbn [SudokuSolver.x]; [now apply A2|].
    rewrite A1. destruct (Z.eqb_spec (file (fst p) (snd p)) 0); [contradiction|].
    cbn [negb b2z]. lia.
Qed.

Lemma Sudoku_solver_result_is_a_solution_witness :
  exists x1 clue g1 st',
    SudokuSolver.GetPuzzle_loop cells Samples.one_missing blank
                                [Samples.word_for 2; 0; 0; 0]
    = Done (x1, clue, g1)
    /\ x1 1 1 = 2
    /\ SudokuSolver.Metropolis 1 clue (1 # 2) Samples.table21
                               (SudokuSolver.mkConfig x1 0 0 0) g1
       = Done (st', [])
    /\ valid_grid (SudokuSolver.x st') = true
    /\ forall p, In p cells -> at_ Samples.one_missing p <> 0 ->
                 at_ (SudokuSolver.x st') p = at_ Samples.one_missing p.
Proof.
  pose (start := SudokuSolver.GetPuzzle_loop cells Samples.one_missing blank
                   [Samples.word_for 2; 0; 0; 0]).
  pose (x1 := match start with Done (x1, _, _) => x1 | _ => blank end).
  pose (clue := match start with Done (_, clue, _) => clue | _ => blank end).
  pose (st' := match SudokuSolver.Metropolis 1 clue (1 # 2) Samples.table21
                       (SudokuSolver.mkConfig x1 0 0 0) [0; 0; 0] with
               | Done (st', _) => st'
               | _ => SudokuSolver.mkConfig blank 0 0 0
               end).
  assert (H1 : SudokuSolver.GetPuzzle_loop cells Samples.one_missing blank
                 [Samples.word_for 2; 0; 0; 0] = Done (x1, clue, [0; 0; 0]))
    by (vm_compute; reflexivity).
  assert (H2 : SudokuSolver.Metropolis 1 clue (1 # 2) Samples.table21
                 (SudokuSolver.mkConfig x1 0 0 0) [0; 0; 0] = Done (st', []))
    by (vm_compute; reflexivity).
  exists x1, clue, [0; 0; 0], st'.
  split; [exact H1|]. split; [vm_compute; reflexivity|]. split; [exact H2|].
  apply (Sudoku_solver_result_is_a_solution
           Samples.one_missing blank (1 # 2) Samples.table21
           [Samples.word_for 2; 0; 0; 0] 1 x1 clue [0; 0; 0] 0 0 0 st' []).
  - apply all_words_spec. vm_compute. reflexivity.
  - vm_compute. reflexivity.
  - exact H1.
  - exact H2.
Defined.

(** ** What the puzzle maker's first chain guarantees *)

(** X4.  Sudoku puzzle maker, [Energy] and [Conflicts] of the
    solution-generation phase (every conflict counts 1): a grid is a
    valid Sudoku solution exactly when it holds digits only and
    [Energy ()] is 0. *)
Theorem Maker_Energy_zero_iff_solved (s : Z -> Z -> Z) :
  valid_grid s = true
  <-> digits_only s = true /\ PuzzleMaker.Energy s = 0.
Proof.
  rewrite maker_Energy, valid_grid_spec, Energy_zero_iff. reflexivity.
Qed.

(** X5.  Sudoku puzzle maker, the body of the loop of [Metropolis1]:
    the read [prob[deltaE]] always falls inside the block of 21
    doubles.  [Conflicts] counts at most the 20 sites that share a
    row, a column or a block with (I0, J0), so [deltaE <= 20]; the
    pass therefore never runs into a read outside the block, whatever
    the grid holds.  (The Sudoku solver shares the table size but
    weighs clue conflicts 5, and its read can leave the block.) *)
Theorem Metropolis1_reads_inside_table
        (prob : list Q) (s : Z -> Z -> Z) (E : Z) (g : rng) :
  Forall word g -> length prob = 21%nat ->
  Metropolis1_step prob s E g <> Undefined.
Proof. exact (Metropolis1_step_defined prob s E g). Qed.

Lemma Metropolis1_reads_inside_table_witness :
  PuzzleMaker.Conflicts Samples.crowded 1 1 2
  - PuzzleMaker.Conflicts Samples.crowded 1 1 (Samples.crowded 1 1) = 20
  /\ Metropolis1_step Samples.table21 Samples.crowded 790
                      [0; 0; Samples.word_for 2; 0]
     <> Undefined.
Proof.
  split; [vm_compute; reflexivity|].
  apply (Metropolis1_reads_inside_table Samples.table21 Samples.crowded 790
           [0; 0; Samples.word_for 2; 0]).
  - apply all_words_spec. vm_compute. reflexivity.
  - vm_compute. reflexivity.
Defined.

(** X6.  Sudoku puzzle maker, [Randomize] followed by [Metropolis1]:
    whenever the loop [while (E > 0)] is left, the grid [s] handed to
    the clue-reduction phase is a valid Sudoku solution.  [Randomize]
    fills the grid with digits, [Proposal] only ever proposes digits,
    and [E] stays equal to [Energy ()] along the chain. *)
Theorem Metropolis1_result_is_valid_grid
        (prob : list Q) (s0 : Z -> Z -> Z) (g : rng) (steps : nat)
        (s1 : Z -> Z -> Z) (g1 : rng) (s : Z -> Z -> Z) (g' : rng) :
  Forall word g ->
  Randomize s0 g = Done (s1, g1) ->
  Metropolis1 steps prob s1 g1 = Done (s, g') ->
  valid_grid s = true.
Proof.
  intros Hw H1 H2.
  destruct (Randomize_spec s0 g s1 g1 Hw H1) as (Hd & Hw1).
  unfold Metropolis1 in H2.
  destruct (Metropolis1_loop_inv prob steps s1 (PuzzleMaker.Energy s1) g1 s g'
              Hw1 Hd eq_refl H2) as (E0 & Hd' & _).
  apply (proj2 (valid_grid_spec s)). split; [exact Hd'|].
  apply (proj1 (Energy_zero_iff s blank)). now rewrite <- maker_Energy.
Qed.

Lemma Metropolis1_result_is_valid_grid_witness :
  exists s1 s,
    Randomize blank (0 :: Samples.one_wrong_words ++ [0; 0; 0])
    = Done (s1, [0; 0; 0])
    /\ s1 1 1 = 2
    /\ Metropolis1 1 Samples.table21 s1 [0; 0; 0] = Done (s, [])
    /\ valid_grid s = true.
Proof.
  pose (s1 := match Randomize blank (0 :: Samples.one_wrong_words ++ [0; 0; 0]) with
              | Done (s1, _) => s1
              | _ => blank
              end).
  pose (s := match Metropolis1 1 Samples.table21 s1 [0; 0; 0] with
             | Done (s, _) => s
             | _ => blank
             end).
  assert (H1 : Randomize blank (0 :: Samples.one_wrong_words ++ [0; 0; 0])
               = Done (s1, [0; 0; 0])) by (vm_compute; reflexivity).
  assert (H2 : Metropolis1 1 Samples.table21 s1 [0; 0; 0] = Done (s, []))
    by (vm_compute; reflexivity).
  exists s1, s.
  split; [exact H1|]. split; [vm_compute; reflexivity|]. split; [exact H2|].
  apply (Metropolis1_result_is_valid_grid Samples.table21 blank
           (0 :: Samples.one_wrong_words ++ [0; 0; 0]) 1 s1 [0; 0; 0] s []).
  - apply all_words_spec. vm_compute. reflexivity.
  - exact H1.
  - exact H2.
Defined.

(** ** The loop of [Metropolis2] *)

Lemma Flip_fst C x0 y0 :
  fst (Flip C x0 y0)
  = let C1 := upd2 C x0 y0 (1 - C x0 y0) in
    if negb ((x0 =? 5) && (y0 =? 5))
    then upd2 C1 (10 - x0) (10 - y0) (1 - C1 (10 - x0) (10 - y0))
    else C1.
Proof. reflexivity. Qed.

Lemma Flip_snd C x0 y0 :
  snd (Flip C x0 y0)
  = (if fst (Flip C x0 y0) x0 y0 =? 1 then 1 else -1)
    * (if (x0 =? 5) && (y0 =? 5) then 1 else 2).
Proof. reflexivity. Qed.

Lemma Flip_flags C x0 y0 : flags C -> flags (fst (Flip C x0 y0)).
Proof.
  intros HC x y Hxy. pose proof (HC x y Hxy) as H.
  assert (T : ((x = x0 /\ y = y0) \/ (x = 10 - x0 /\ y = 10 - y0))
              \/ (~ (x = x0 /\ y = y0) /\ ~ (x = 10 - x0 /\ y = 10 - y0)))
    by lia.
  destruct T as [T|[T1 T2]].
  - rewrite (Flip_at_toggled C x0 y0 x y T). lia.
  - rewrite (Flip_at_same C x0 y0 x y T1 T2). exact H.
Qed.

(** [DeltaClues] is the change in the number of clue sites. *)
Lemma Flip_count C x0 y0 :
  flags C -> symmetric C -> in_grid x0 y0 ->
  number_of_clues (fst (Flip C x0 y0))
  = number_of_clues C + snd (Flip C x0 y0).
Proof.
  intros HF HS [Hx Hy]. unfold number_of_clues.
  pose proof (HF x0 y0 (conj Hx Hy)) as Hc.
  pose proof (HS x0 y0 Hx Hy) as Hm.
  rewrite Flip_snd, (Flip_at_toggled C x0 y0 x0 y0) by (left; auto).
  rewrite Flip_fst. cbv zeta.
  destruct (Z.eqb_spec x0 5) as [E5|E5]; [destruct (Z.eqb_spec y0 5) as [F5|F5]|];
    cbn [andb negb].
  - subst. rewrite count_marked_upd2 by (apply in_cells; lia).
    destruct Hc as [-> | ->]; cbn; lia.
  - rewrite !count_marked_upd2 by (apply in_cells; lia).
    rewrite upd2_other by (right; lia). rewrite <- Hm.
    destruct Hc as [-> | ->]; cbn; lia.
  - rewrite !count_marked_upd2 by (apply in_cells; lia).
    rewrite upd2_other by (left; lia). rewrite <- Hm.
    destruct Hc as [-> | ->]; cbn; lia.
Qed.

Lemma Flip_sign C x0 y0 :
  flags C -> in_grid x0 y0 ->
  (snd (Flip C x0 y0) < 0 /\ C x0 y0 = 1)
  \/ (1 <= snd (Flip C x0 y0) <= 2 /\ C x0 y0 = 0).
Proof.
  intros HF Hxy. rewrite Flip_snd, (Flip_at_toggled C x0 y0 x0 y0) by (left; auto).
  destruct (HF x0 y0 Hxy) as [-> | ->]; destruct ((x0 =? 5) && (y0 =? 5)); cbn; lia.
Qed.

(** [DeltaClues] is one of -2, -1, 1, 2 whatever the flags hold. *)
Lemma Flip_delta_values C x0 y0 :
  let D := snd (Flip C x0 y0) in D = -2 \/ D = -1 \/ D = 1 \/ D = 2.
Proof.
  cbv zeta. rewrite Flip_snd.
  destruct (fst (Flip C x0 y0) x0 y0 =? 1); destruct ((x0 =? 5) && (y0 =? 5)); lia.
Qed.

Lemma completion_ext s C C' g :
  (forall p, In p cells -> (at_ C' p <> 0 -> at_ C p <> 0)) ->
  completion s C g -> completion s C' g.
Proof.
  intros H [V K]. split; [exact V|]. unfold keeps_clues. apply forallb_forall.
  intros p Hp. destruct (Z.eqb_spec (at_ C' p) 0) as [E|E]; [reflexivity|].
  cbn [negb implb]. apply Z.eqb_eq. apply (keeps_clue s C g p K Hp). now apply H.
Qed.

(** Adding clues keeps the completion unique. *)
Lemma more_clues_unique s C C' :
  valid_grid s = true ->
  (forall p, In p cells -> (at_ C p <> 0 -> at_ C' p <> 0)) ->
  exactly_one_completion s C -> exactly_one_completion s C'.
Proof.
  intros V H (g0 & Hg0 & Hu). exists s.
  split; [now apply reference_is_completion|].
  intros g' Hg'.
  apply (same_grid_trans s g0 g').
  - apply same_grid_sym. apply Hu. now apply reference_is_completion.
  - apply Hu. apply (completion_ext s C' C g' H Hg').
Qed.

Lemma same_flags_unique s C C' :
  (forall a b, C' a b = C a b) ->
  exactly_one_completion s C -> exactly_one_completion s C'.
Proof.
  intros H (g0 & Hg0 & Hu). exists g0. split.
  - apply (completion_ext s C C' g0); [|exact Hg0].
    intros p _. unfold at_. now rewrite H.
  - intros g' Hg'. apply Hu. apply (completion_ext s C' C g'); [|exact Hg'].
    intros p _. unfold at_. now rewrite H.
Qed.

Lemma same_flags_inv s C C' E :
  (forall a b, C' a b = C a b) -> reduction_inv s C E -> reduction_inv s C' E.
Proof.
  intros H [F S N U]. split.
  - intros x y Hxy. rewrite H. now apply F.
  - intros x y Hx Hy. rewrite !H. now apply S.
  - rewrite N. unfold number_of_clues, count_marked. apply sum_over_ext.
    intros q _. unfold at_. now rewrite H.
  - now apply (same_flags_unique s C C').
Qed.

Lemma Metropolis2_step_inv fuel s C E t g a :
  valid_grid s = true -> Forall word g -> reduction_inv s C E ->
  Metropolis2_step fuel s C E t g = Done a ->
  exists C' E' t' g',
    a = Continue C' E' t' g' /\ reduction_inv s C' E' /\ Forall word g'
    /\ E - 2 <= E' <= E + 2.
Proof.
  intros V Hw [F S N U] H. unfold Metropolis2_step in H.
  destruct g as [|N1 [|N2 g]]; cbn [bind RandomInteger] in H; try discriminate.
  inversion Hw as [|? ? HN1 Hw1]; subst. inversion Hw1 as [|? ? HN2 Hw2]; subst.
  pose proof (Flip_delta_values C (RandomInteger_of 1 5 N1)
                (RandomInteger_of 1 (if RandomInteger_of 1 5 N1 =? 5 then 5 else 9) N2))
    as HDv. cbv zeta in HDv.
  set (x := RandomInteger_of 1 5 N1) in *.
  set (y := RandomInteger_of 1 (if x =? 5 then 5 else 9) N2) in *.
  assert (Hx : 1 <= x <= 5) by (apply RandomInteger_of_range; auto; lia).
  assert (Hy : 1 <= y <= 9).
  { subst y. destruct (x =? 5).
    - pose proof (RandomInteger_of_range 1 5 N2 HN2 ltac:(lia)). lia.
    - apply RandomInteger_of_range; auto; lia. }
  assert (Hxy : in_grid x y) by (split; lia).
  pose proof (Flip_flags C x y F) as F1.
  assert (S1 : symmetric (fst (Flip C x y))) by (apply Flip_symmetric; auto; lia).
  pose proof (Flip_count C x y F S Hxy) as N1'.
  pose proof (Flip_sign C x y F Hxy) as Sg.
  pose proof (Flip_twice C x y) as Back.
  destruct (Flip C x y) as [C1 D] eqn:EF. cbn [fst snd] in *.
  assert (Kept : forall E0 : Z, E0 = number_of_clues C ->
                   exactly_one_completion s C1 ->
                   reduction_inv s C1 (E0 + D)).
  { intros E0 HE0 U1. split; auto. lia. }
  assert (Undone : reduction_inv s (fst (Flip C1 x y)) (number_of_clues C)).
  { apply (same_flags_inv s C); [exact Back|]. now split. }
  destruct (Z.ltb_spec D 0) as [Hneg|Hpos].
  - destruct (Unique fuel s C1 t) as [[u t1]| |] eqn:HU; cbn [bind] in H;
      try discriminate.
    destruct (Unique_sound s C1 fuel t u t1 V HU) as ([-> | ->] & Hone).
    + cbn [Z.eqb negb] in H. inversion H; subst.
      exists (fst (Flip C1 x y)), (number_of_clues C), t1, g.
      split; [reflexivity|]. split; [exact Undone|]. split; [assumption|lia].
    + cbn [Z.eqb Pos.eqb negb] in H. inversion H; subst.
      exists C1, (number_of_clues C + D), t1, g.
      split; [reflexivity|]. split; [apply Kept; auto|]. split; [assumption|lia].
  - destruct Sg as [[Hn _]|[HD Hc0]]; [lia|].
    destruct g as [|N3 g]; cbn [bind MTUniform] in H; [discriminate|].
    inversion Hw2 as [|? ? HN3 Hw3]; subst.
    destruct (read p D) as [pr| |]; cbn [bind] in H; try discriminate.
    destruct (Qle_bool (uniform N3) pr); inversion H; subst.
    + exists C1, (number_of_clues C + D), t, g.
      split; [reflexivity|]. split; [|split; [assumption|lia]].
      apply Kept; [reflexivity|].
      apply (more_clues_unique s C C1 V); [|exact U].
      intros q Hq Hcq.
      assert (T : ((fst q = x /\ snd q = y) \/ (fst q = 10 - x /\ snd q = 10 - y))
              \/ (~ (fst q = x /\ snd q = y)
                  /\ ~ (fst q = 10 - x /\ snd q = 10 - y))) by lia.
      pose proof (f_equal fst EF) as EF1. cbn [fst] in EF1. subst C1.
      unfold at_ in *.
      destruct T as [T|[T1 T2]].
      * rewrite (Flip_at_toggled C x y _ _ T).
        assert (C (fst q) (snd q) = 0); [|lia].
        destruct T as [[-> ->]|[-> ->]]; [exact Hc0|].
        rewrite <- (S x y) by lia. exact Hc0.
      * rewrite (Flip_at_same C x y _ _ T1 T2). exact Hcq.
    + exists (fst (Flip C1 x y)), (number_of_clues C), t, g.
      split; [reflexivity|]. split; [exact Undone|]. split; [assumption|lia].
Qed.


Lemma Metropolis2_loop_inv steps fuel d s : forall C E t g a,
  valid_grid s = true -> Forall word g -> reduction_inv s C E ->
  Metropolis2_loop steps fuel d s C E t g = Done a ->
  exists C' E' t' g',
    a = Continue C' E' t' g' /\ reduction_inv s C' E' /\ E' <= d.
Proof.
  induction steps as [|steps IH]; intros C E t g a V Hw HI H;
    cbn [Metropolis2_loop] in H;
    destruct (Z.gtb_spec E d) as [Hgt|Hle]; try discriminate.
  - inversion H; subst. exists C, E, t, g. auto.
  - destruct (Metropolis2_step fuel s C E t g) as [a1| |] eqn:Hs; cbn [bind] in H;
      try discriminate.
    destruct (Metropolis2_step_inv fuel s C E t g a1 V Hw HI Hs)
      as (C1 & E1 & t1 & g1 & -> & HI1 & Hw1 & _).
    now apply (IH C1 E1 t1 g1 a V Hw1 HI1).
  - inversion H; subst. exists C, E, t, g. auto.
Qed.

Lemma all_clues_inv s C0 :
  valid_grid s = true -> reduction_inv s (all_clues C0) 81.
Proof.
  intros V. split.
  - intros x y [Hx Hy]. right. now apply all_clues_one.
  - intros x y Hx Hy. rewrite !all_clues_one by lia. reflexivity.
  - unfold number_of_clues, count_marked.
    rewrite (sum_over_ext _ (fun _ => 1)); [reflexivity|].
    intros q Hq. destruct (in_cells_cases q Hq) as [Hx Hy].
    unfold at_. now rewrite all_clues_one.
  - now apply full_clue_grid_unique.
Qed.

(** X7.  Sudoku puzzle maker, [Flip]: when the clue flags are 0/1 and
    symmetric about the centre, the value [DeltaClues] returned by
    [Flip (x0, y0)] is the change in the number of clue sites caused by
    the flip (+-1 at the centre, +-2 elsewhere), which is what makes
    [E += DeltaClues] in [Metropolis2] a count of the clues. *)
Theorem Flip_reports_change_in_clue_count (C : Z -> Z -> Z) (x0 y0 : Z) :
  flags C -> symmetric C -> in_grid x0 y0 ->
  number_of_clues (fst (Flip C x0 y0))
  = number_of_clues C + snd (Flip C x0 y0).
Proof. exact (Flip_count C x0 y0). Qed.

Lemma Flip_reports_change_in_clue_count_witness :
  number_of_clues (all_clues blank) = 81
  /\ snd (Flip (all_clues blank) 2 3) = -2
  /\ number_of_clues (fst (Flip (all_clues blank) 2 3))
     = number_of_clues (all_clues blank) + snd (Flip (all_clues blank) 2 3).
Proof.
  split; [vm_compute; reflexivity|]. split; [vm_compute; reflexivity|].
  apply (Flip_reports_change_in_clue_count (all_clues blank) 2 3).
  - intros x y [Hx Hy]. right. apply all_clues_one; assumption.
  - intros x y Hx Hy. rewrite !all_clues_one by lia. reflexivity.
  - unfold in_grid. lia.
Defined.


(** X9.  Sudoku puzzle maker, [Metropolis2] from its start (every site
    a clue, [E = 81]) with a valid reference grid [s]: whenever the
    loop [while (E > d)] is left, it is left through its end and not
    through the "No solution was found" exit of [Unique]; the clue
    flags are 0/1 and symmetric about (5,5); [E] is the number of clue
    sites and is at most [d]; and the clues have exactly one
    completion - the reported puzzle has a unique solution. *)
Theorem Metropolis2_result_is_a_proper_puzzle
        (steps fuel : nat) (d : Z) (s C0 : Z -> Z -> Z) (t : trail) (g : rng)
        (a : after_step) :
  valid_grid s = true -> Forall word g ->
  Metropolis2 steps fuel d s C0 t g = Done a ->
  exists C E t' g',
    a = Continue C E t' g'
    /\ flags C /\ symmetric C
    /\ E = number_of_clues C /\ E <= d
    /\ exactly_one_completion s C.
Proof.
  intros V Hw H. unfold Metropolis2 in H.
  destruct (Metropolis2_loop_inv steps fuel d s (all_clues C0) 81 t g a V Hw
              (all_clues_inv s C0 V) H)
    as (C & E & t' & g' & -> & [F S N U] & Hd).
  exists C, E, t', g'. auto 10.
Qed.

Lemma Metropolis2_result_is_a_proper_puzzle_witness :
  exists C t',
    Metropolis2 1 20 79 shifted_solution blank empty_trail [0; 0]
    = Done (Continue C 79 t' [])
    /\ C 1 1 = 0 /\ C 9 9 = 0
    /\ exists C' E t'' g',
         Continue C 79 t' [] = Continue C' E t'' g'
         /\ flags C' /\ symmetric C'
         /\ E = number_of_clues C' /\ E <= 79
         /\ exactly_one_completion shifted_solution C'.
Proof.
  pose (a := Metropolis2 1 20 79 shifted_solution blank empty_trail [0; 0]).
  pose (C := match a with Done (Continue C _ _ _) => C | _ => blank end).
  pose (t' := match a with Done (Continue _ _ t' _) => t' | _ => empty_trail end).
  assert (H : Metropolis2 1 20 79 shifted_solution blank empty_trail [0; 0]
              = Done (Continue C 79 t' [])) by (vm_compute; reflexivity).
  exists C, t'. split; [exact H|].
  split; [vm_compute; reflexivity|]. split; [vm_compute; reflexivity|].
  apply (Metropolis2_result_is_a_proper_puzzle 1 20 79 shifted_solution blank
           empty_trail [0; 0] (Continue C 79 t' [])).
  - vm_compute. reflexivity.
  - apply all_words_spec. vm_compute. reflexivity.
  - exact H.
Defined.

(** ** More on the uniqueness oracle *)

(** X10.  Sudoku puzzle maker, [Consistent (x, y, v, k)]: the function
    returns 0 or 1, and it returns 0 exactly when one of the trail
    entries 1..k currently holds the digit [v] at a site in the row,
    the column or the 3x3 block of (x, y). *)
Theorem Consistent_detects_clash (t : trail) (x y v k : Z) :
  (Consistent t x y v k = 0 \/ Consistent t x y v k = 1)
  /\ (Consistent t x y v k = 0
      <-> exists i, 1 <= i <= k /\ n t i (m t i) = v
                    /\ (r t i = x \/ c t i = y
                        \/ block (r t i) (c t i) = block x y)).
Proof.
  split; [apply Consistent_01|].
  rewrite Consistent_zero. unfold clash, val.
  split; intros (i & Hi & Hv & Hs); exists i; auto.
Qed.

(** X11.  Sudoku puzzle maker, [GettingStarted]: whatever the arrays
    held before, afterwards [istar = Csize] is the number of clue
    sites; the trail entries 1..istar sit on the clue sites in the
    order of the double loop (rows, then columns); each holds the
    single digit of the reference grid at its site ([m = 1],
    [n[.][1] = s[x][y]]); and [Gtilde] is 1 on the clue sites and 0 on
    the other grid sites. *)
Theorem GettingStarted_lists_the_clues (s C : Z -> Z -> Z) (t0 : trail) :
  let t := GettingStarted s C t0 in
  istar t = Csize t
  /\ istar t = number_of_clues C
  /\ trail_cells t (Z.to_nat (istar t)) = filter (clue_site C) cells
  /\ (forall k, 1 <= k <= istar t -> m t k = 1 /\ n t k 1 = s (r t k) (c t k))
  /\ (forall q, In q cells -> at_ (Gtilde t) q = b2z (clue_site C q)).
Proof.
  cbv zeta. destruct (GettingStarted_started s C t0) as ((Si & Sc & Sm & SG) & HC).
  split; [now rewrite HC|]. split.
  - rewrite Si. unfold number_of_clues, count_marked.
    now rewrite <- (sum_b2z_filter (clue_site C) cells).
  - split; [|split; assumption].
    rewrite Si at 1. rewrite Nat2Z.id. exact Sc.
Qed.

(** X12.  Sudoku puzzle maker, first loop of [Unique]: with a valid
    reference grid, when the loop [while (status != 0)] that follows
    [GettingStarted] stops, the trail is full ([istar = 81], so the
    "No solution was found" exit is not taken) and the digits on the
    trail form a valid Sudoku solution that keeps every clue. *)
Theorem Unique_first_loop_ends_on_a_completion
        (s C : Z -> Z -> Z) (fuel : nat) (t0 t1 : trail) :
  valid_grid s = true ->
  search fuel 1 (GettingStarted s C t0) = Done t1 ->
  istar t1 = 81 /\ completion s C (grid_of t1).
Proof.
  intros V H.
  destruct (first_phase_finds s C fuel t0 t1 V H) as (E81 & W1 & SI1 & _).
  split; [exact E81|]. now apply full_trail_completion.
Qed.

Lemma Unique_first_loop_ends_on_a_completion_witness :
  exists t1,
    search 5 1 (GettingStarted shifted_solution
                               (fst (Flip (all_clues blank) 1 1)) empty_trail)
    = Done t1
    /\ istar t1 = 81
    /\ completion shifted_solution (fst (Flip (all_clues blank) 1 1)) (grid_of t1).
Proof.
  pose (t1 := match search 5 1 (GettingStarted shifted_solution
                                  (fst (Flip (all_clues blank) 1 1)) empty_trail)
              with Done t1 => t1 | _ => empty_trail end).
  assert (H : search 5 1 (GettingStarted shifted_solution
                            (fst (Flip (all_clues blank) 1 1)) empty_trail)
              = Done t1) by (vm_compute; reflexivity).
  exists t1. split; [exact H|].
  apply (Unique_first_loop_ends_on_a_completion
           shifted_solution (fst (Flip (all_clues blank) 1 1)) 5 empty_trail t1).
  - vm_compute. reflexivity.
  - exact H.
Defined.

(** ** The Mersenne Twister produces 32-bit words *)

Lemma word_mod N : word N <-> N mod 4294967296 = N.
Proof.
  unfold word. split.
  - intros H. now apply Z.mod_small.
  - intros H. rewrite <- H. apply Z.mod_pos_bound. lia.
Qed.

Lemma word_land_ones N : word N <-> Z.land N (Z.ones 32) = N.
Proof. rewrite Z.land_ones by lia. apply word_mod. Qed.

Lemma land_lxor_distr a b c :
  Z.land (Z.lxor a b) c = Z.lxor (Z.land a c) (Z.land b c).
Proof.
  apply Z.bits_inj'. intros i Hi.
  rewrite Z.land_spec, !Z.lxor_spec, !Z.land_spec.
  destruct (Z.testbit a i), (Z.testbit b i), (Z.testbit c i); reflexivity.
Qed.

Lemma word_lxor a b : word a -> word b -> word (Z.lxor a b).
Proof.
  rewrite !word_land_ones. intros Ha Hb.
  rewrite land_lxor_distr, Ha, Hb. reflexivity.
Qed.

Lemma word_lor a b : word a -> word b -> word (Z.lor a b).
Proof.
  rewrite !word_land_ones. intros Ha Hb.
  rewrite Z.land_lor_distr_l, Ha, Hb. reflexivity.
Qed.

Lemma word_land_r a b : word b -> word (Z.land a b).
Proof.
  rewrite !word_land_ones. intros Hb.
  rewrite <- Z.land_assoc, Hb. reflexivity.
Qed.

Lemma word_shiftr a n : 0 <= n -> word a -> word (Z.shiftr a n).
Proof.
  unfold word. intros Hn Ha. rewrite Z.shiftr_div_pow2 by assumption.
  assert (0 < 2 ^ n) by (apply Z.pow_pos_nonneg; lia).
  split.
  - apply Z.div_pos; lia.
  - apply Z.le_lt_trans with a; [|lia]. apply Z.div_le_upper_bound; nia.
Qed.

Lemma word_u32 z : word (Twister.u32 z).
Proof. unfold word, Twister.u32. apply Z.mod_pos_bound. lia. Qed.

Lemma temper_word N : word N -> word (Twister.temper N).
Proof.
  intros H. unfold Twister.temper. cbv zeta.
  assert (H1 : word (Z.lxor N (Z.shiftr N 11)))
    by (apply word_lxor; [assumption|apply word_shiftr; [lia|assumption]]).
  set (N1 := Z.lxor N (Z.shiftr N 11)) in *.
  assert (H2 : word (Z.lxor N1 (Z.land (Twister.u32 (Z.shiftl N1 7)) 2636928640))).
  { apply word_lxor; [assumption|]. apply word_land_r. unfold word. lia. }
  set (N2 := Z.lxor N1 _) in *.
  assert (H3 : word (Z.lxor N2 (Z.land (Twister.u32 (Z.shiftl N2 15)) 4022730752))).
  { apply word_lxor; [assumption|]. apply word_land_r. unfold word. lia. }
  set (N3 := Z.lxor N2 _) in *.
  apply word_lxor; [assumption|apply word_shiftr; [lia|assumption]].
Qed.

Lemma seed_ok s : twister_ok (Twister.seed s).
Proof.
  unfold Twister.seed, twister_ok. cbv zeta. cbn [Twister.k Twister.X].
  split; [lia|].
  assert (G : forall l X, (forall i, word (X i)) ->
                forall i, word (fold_left
                                  (fun X k => upd X k (Twister.u32 (22695477 * X (k - 1) + 1)))
                                  l X i)).
  { induction l as [|a l IH]; intros X HX i; cbn [fold_left]; [apply HX|].
    apply IH. intros j. unfold upd. destruct (j =? a); [apply word_u32|apply HX]. }
  apply G. intros i. unfold upd. destruct (i =? 0); [apply word_u32|].
  unfold word. lia.
Qed.

Lemma m_word i : word (Twister.m i).
Proof.
  unfold Twister.m, upd, word. destruct (i =? 1); [lia|]. destruct (i =? 0); lia.
Qed.

Lemma step_ok st :
  twister_ok st ->
  word (fst (Twister.step st)) /\ twister_ok (snd (Twister.step st)).
Proof.
  intros [Hk HX]. unfold Twister.step. cbv zeta. cbn [fst snd].
  set (Y := Z.lor (Z.land (Twister.X st (Twister.k st - 624)) 2147483648)
                  (Z.land (Twister.X st (Twister.k st - 623)) 2147483647)).
  assert (HY : word Y).
  { apply word_lor; apply word_land_r; unfold word; lia. }
  set (Xk := Z.lxor (Z.lxor (Z.shiftr Y 1) (Twister.m (Z.land Y 1)))
                    (Twister.X st (Twister.k st - 227))).
  assert (HXk : word Xk).
  { apply word_lxor; [|apply HX].
    apply word_lxor; [apply word_shiftr; [lia|assumption]|apply m_word]. }
  assert (HX1 : forall i, word (upd (Twister.X st) (Twister.k st) Xk i)).
  { intros i. unfold upd. destruct (i =? Twister.k st); [assumption|apply HX]. }
  set (X1 := upd (Twister.X st) (Twister.k st) Xk) in *.
  assert (HX2 : forall i, word (upd X1 (Twister.k st - 624) (X1 (Twister.k st)) i)).
  { intros i. unfold upd at 1. destruct (i =? Twister.k st - 624); apply HX1. }
  split; [apply temper_word; apply HX2|].
  split; [|exact HX2]. cbn [Twister.k].
  destruct (Z.eqb_spec (Twister.k st + 1) 1248); lia.
Qed.

Lemma after_ok n : forall st, twister_ok st -> twister_ok (Twister.after n st).
Proof.
  induction n as [|n IH]; intros st H; cbn [Twister.after]; [exact H|].
  apply IH. now apply step_ok.
Qed.

Lemma draws_words n : forall st, twister_ok st -> Forall word (Twister.draws n st).
Proof.
  induction n as [|n IH]; intros st H; cbn [Twister.draws]; [constructor|].
  destruct (step_ok st H) as [HN Hst'].
  destruct (Twister.step st) as [N st']. cbn [fst snd] in *.
  constructor; [exact HN|now apply IH].
Qed.

(** X13.  MetropolisFunctions.h, [MTUniform]: after seeding with any
    integer, every entry of the state array is a 32-bit value and the
    tempering of [X[k]] (shifts, masks and exclusive-ors) yields a
    32-bit word [N] at every call, however many calls are made; and
    the counter [k] stays in 624..1247, so the indices [k-624],
    [k-623], [k-227] and [k] used in a call all lie inside [X[1248]]. *)
Theorem Twister_words_and_indices (s : Z) (n : nat) :
  Forall word (Twister.draws n (Twister.seed s))
  /\ (let st := Twister.after n (Twister.seed s) in
      624 <= Twister.k st <= 1247
      /\ Forall (fun i => 0 <= i < 1248)
                [Twister.k st - 624; Twister.k st - 623;
                 Twister.k st - 227; Twister.k st]
      /\ forall i, word (Twister.X st i)).
Proof.
  split; [apply draws_words, seed_ok|]. cbv zeta.
  destruct (after_ok n (Twister.seed s) (seed_ok s)) as [Hk HX].
  split; [exact Hk|]. split; [|exact HX].
  repeat constructor; lia.
Qed.

(** X14.  MetropolisFunctions.h, [MTUniform]: the value returned for
    a 32-bit word [N], [(N + 0.5) / 4294967296.0], lies strictly
    between 0 and 1; neither endpoint is ever returned. *)
Theorem MTUniform_in_open_interval (g : rng) (U : Q) (g' : rng) :
  Forall word g -> MTUniform g = Done (U, g') -> (0 < U /\ U < 1)%Q.
Proof.
  intros Hw H. destruct (MTUniform_draw g U g' Hw H) as (_ & N & HN & ->).
  unfold word in HN. unfold uniform, Qlt. cbn [Qnum Qden]. lia.
Qed.

Lemma MTUniform_in_open_interval_witness :
  MTUniform [4294967295] = Done (8589934591 # 8589934592, [])
  /\ (0 < 8589934591 # 8589934592 /\ 8589934591 # 8589934592 < 1)%Q.
Proof.
  split; [reflexivity|].
  apply (MTUniform_in_open_interval [4294967295] (8589934591 # 8589934592) []).
  - apply all_words_spec. vm_compute. reflexivity.
  - reflexivity.
Defined.

(** X15.  MetropolisFunctions.h, [RandomInteger (a, b)]: for
    [0 <= a <= b < 2^20] the value returned, the truncation of
    [(b-a+1) * MTUniform () + a], lies in [{a, ..., b}].  On this
    range the product and the sum are multiples of 2^-33 below 2^20,
    which a double holds exactly, so no rounding takes place; every
    call in the solvers lies inside it. *)
Theorem RandomInteger_stays_in_range (a b : Z) (g : rng) (v : Z) (g' : rng) :
  Forall word g -> 0 <= a <= b -> b < 1048576 ->
  RandomInteger a b g = Done (v, g') -> a <= v <= b.
Proof.
  intros Hw Hab _ H. now destruct (RandomInteger_draw a b g v g' Hw Hab H).
Qed.

Lemma RandomInteger_stays_in_range_witness :
  RandomInteger 2 183 [4294967295] = Done (183, []) /\ 2 <= 183 <= 183.
Proof.
  split; [vm_compute; reflexivity|].
  apply (RandomInteger_stays_in_range 2 183 [4294967295] 183 []).
  - apply all_words_spec. vm_compute. reflexivity.
  - lia.
  - lia.
  - vm_compute. reflexivity.
Defined.

Lemma RandomInteger_of_onto a b v :
  0 <= a -> a <= v <= b -> b < 2147483648 ->
  exists N, word N /\ RandomInteger_of a b N = v.
Proof.
  intros Ha Hv Hb.
  set (n := b - a + 1). set (j := v - a).
  assert (Hn : 0 < n <= 2147483648) by (subst n; lia).
  assert (Hj : 0 <= j < n) by (subst j n; lia).
  set (N := (j * 4294967296 + n - 1) / n).
  assert (HN1 : j * 4294967296 <= n * N).
  { subst N. pose proof (Z.mul_div_le (j * 4294967296 + n - 1) n ltac:(lia)).
    pose proof (Z.mod_pos_bound (j * 4294967296 + n - 1) n ltac:(lia)).
    pose proof (Z.div_mod (j * 4294967296 + n - 1) n ltac:(lia)). lia. }
  assert (HN2 : n * N <= j * 4294967296 + n - 1).
  { subst N. apply Z.mul_div_le. lia. }
  assert (HN0 : 0 <= N).
  { subst N. apply Z.div_pos; nia. }
  assert (HN3 : N < 4294967296) by nia.
  exists N. split; [unfold word; lia|].
  unfold RandomInteger_of. fold n.
  rewrite Z.quot_div_nonneg by nia.
  replace (n * (2 * N + 1) + a * 8589934592)
    with ((n * (2 * N + 1) - j * 8589934592) + v * 8589934592) by (subst j; ring).
  rewrite Z.div_add by lia.
  rewrite Z.div_small by nia. lia.
Qed.

(** X16.  MetropolisFunctions.h, [RandomInteger (a, b)]: for
    [0 <= a <= b < 2^20] (where the double arithmetic of the function
    is exact) every value of [{a, ..., b}] is returned for some 32-bit
    word of the generator - the set of possible results is exactly
    [{a, ..., b}]. *)
Theorem RandomInteger_reaches_every_value (a b v : Z) :
  0 <= a -> a <= v <= b -> b < 1048576 ->
  exists N, word N /\ RandomInteger a b [N] = Done (v, []).
Proof.
  intros Ha Hv Hb.
  assert (Hb' : b < 2147483648) by lia.
  destruct (RandomInteger_of_onto a b v Ha Hv Hb') as (N & HN & E).
  exists N. split; [exact HN|]. cbn [RandomInteger]. now rewrite E.
Qed.

Lemma RandomInteger_reaches_every_value_witness :
  exists N, word N /\ RandomInteger 1 49 [N] = Done (49, []).
Proof.
  apply (RandomInteger_reaches_every_value 1 49 49); lia.
Defined.

(** ** Arrays written in a loop, and re-indexed arrays *)

Lemma fold_upd_lookup (f : Z -> Z) l : forall a k,
  fold_left (fun a k => upd a k (f k)) l a k
  = if in_dec Z.eq_dec k l then f k else a k.
Proof.
  induction l as [|h l IH]; intros a k; cbn [fold_left]; [reflexivity|].
  rewrite IH. destruct (in_dec Z.eq_dec k l) as [Hin|Hnin].
  - destruct (in_dec Z.eq_dec k (h :: l)) as [_|C]; [reflexivity|].
    exfalso. apply C. now right.
  - unfold upd. destruct (Z.eqb_spec k h) as [->|Hne].
    + destruct (in_dec Z.eq_dec h (h :: l)) as [_|C]; [reflexivity|].
      exfalso. apply C. now left.
    + destruct (in_dec Z.eq_dec k (h :: l)) as [[C|C]|_]; [congruence|contradiction|].
      reflexivity.
Qed.

Lemma NoDup_zrange lo n : NoDup (zrange lo n).
Proof.
  unfold zrange. apply NoDup_map_NoDup_ForallPairs; [|apply seq_NoDup].
  intros a b _ _ H. lia.
Qed.

Lemma length_zrange lo n : length (zrange lo n) = n.
Proof. unfold zrange. now rewrite length_map, length_seq. Qed.

(** Reading an array through an involution of its index set permutes
    the values. *)
Lemma reindex_Permutation {A : Type} (c : A -> Z) (sigma : A -> A) (l : list A) :
  NoDup l ->
  (forall k, In k l -> In (sigma k) l) ->
  (forall k, In k l -> sigma (sigma k) = k) ->
  Permutation (map (fun k => c (sigma k)) l) (map c l).
Proof.
  intros Hnd Hin Hinv.
  rewrite <- (map_map sigma c). apply Permutation_map.
  apply NoDup_Permutation; [|exact Hnd|].
  - apply NoDup_map_NoDup_ForallPairs; [|exact Hnd].
    intros a b Ha Hb E. rewrite <- (Hinv a Ha), <- (Hinv b Hb). now rewrite E.
  - intros x. rewrite in_map_iff. split.
    + intros (k & <- & Hk). now apply Hin.
    + intros Hx. exists (sigma x). split; [now apply Hinv|now apply Hin].
Qed.

Lemma exchange_transpose (c : Z -> Z) i j k :
  upd (upd c i (c j)) j (c i) k = c (transpose i j k).
Proof.
  unfold upd, transpose.
  destruct (Z.eqb_spec k j); [reflexivity|]. destruct (Z.eqb_spec k i); reflexivity.
Qed.

Lemma transpose_involutive i j k : transpose i j (transpose i j k) = k.
Proof.
  unfold transpose.
  destruct (Z.eqb_spec k j); destruct (Z.eqb_spec k i);
    repeat match goal with |- context [Z.eqb ?a ?b] => destruct (Z.eqb_spec a b) end;
    lia.
Qed.

Lemma transpose_cases i j k : transpose i j k = k \/ transpose i j k = i \/ transpose i j k = j.
Proof.
  unfold transpose. destruct (k =? j); [auto|]. destruct (k =? i); auto.
Qed.

Lemma transpose_other i j k : k <> i -> k <> j -> transpose i j k = k.
Proof.
  intros Hi Hj. unfold transpose.
  destruct (Z.eqb_spec k j); [contradiction|]. destruct (Z.eqb_spec k i); [contradiction|].
  reflexivity.
Qed.

Lemma exchange_Permutation (c : Z -> Z) i j l :
  NoDup l -> In i l -> In j l ->
  Permutation (map (upd (upd c i (c j)) j (c i)) l) (map c l).
Proof.
  intros Hnd Hi Hj.
  rewrite (map_ext _ (fun k => c (transpose i j k)))
    by (intros k; apply exchange_transpose).
  apply reindex_Permutation; [exact Hnd| |].
  - intros k Hk. destruct (transpose_cases i j k) as [-> |[-> | ->]]; assumption.
  - intros k _. apply transpose_involutive.
Qed.

(** ** TSP: segment reversal and the random initial route *)

Lemma Reverse_closed_form c i0 j0 k :
  Tsp.Reverse c i0 j0 k = c (mirror i0 j0 k).
Proof.
  unfold Tsp.Reverse, mirror. cbv zeta.
  set (len := Z.to_nat (j0 - i0 + 1)).
  rewrite (fold_upd_lookup
             (fun k => fold_left (fun t k0 => upd t k0 (c k0)) (zrange i0 len)
                                 (fun _ => 0) (i0 + j0 - k))).
  destruct (in_dec Z.eq_dec k (zrange i0 len)) as [Hin|Hnin].
  - apply in_zrange in Hin.
    rewrite (fold_upd_lookup c).
    destruct (in_dec Z.eq_dec (i0 + j0 - k) (zrange i0 len)) as [_|C].
    + destruct (Z.leb_spec i0 k); destruct (Z.leb_spec k j0); cbn [andb];
        try reflexivity; subst len; lia.
    + exfalso. apply C. apply in_zrange. subst len. lia.
  - rewrite in_zrange in Hnin.
    destruct (Z.leb_spec i0 k); destruct (Z.leb_spec k j0); cbn [andb];
      try reflexivity. exfalso. apply Hnin. subst len. lia.
Qed.

Lemma mirror_involutive i0 j0 k : mirror i0 j0 (mirror i0 j0 k) = k.
Proof.
  unfold mirror.
  destruct (Z.leb_spec i0 k); destruct (Z.leb_spec k j0); cbn [andb];
    repeat match goal with
           | |- context [Z.leb ?a ?b] => destruct (Z.leb_spec a b)
           end; cbn [andb]; lia.
Qed.

Lemma mirror_range i0 j0 lo hi k :
  lo <= i0 -> j0 <= hi -> lo <= k <= hi -> lo <= mirror i0 j0 k <= hi.
Proof.
  intros H1 H2 Hk. unfold mirror.
  destruct (Z.leb_spec i0 k); destruct (Z.leb_spec k j0); cbn [andb]; lia.
Qed.

Lemma mirror_outside i0 j0 k : k < i0 \/ j0 < k -> mirror i0 j0 k = k.
Proof.
  intros H. unfold mirror.
  destruct (Z.leb_spec i0 k); destruct (Z.leb_spec k j0); cbn [andb]; lia.
Qed.

Lemma Reverse_tour K c i0 j0 :
  2 <= i0 -> j0 <= K -> tour K c -> tour K (Tsp.Reverse c i0 j0).
Proof.
  intros Hi Hj (H1 & HK & HP). unfold tour.
  rewrite !Reverse_closed_form, !mirror_outside by lia.
  split; [exact H1|]. split; [exact HK|].
  rewrite (map_ext _ (fun k => c (mirror i0 j0 k)))
    by (intros k; apply Reverse_closed_form).
  rewrite <- HP at 2.
  apply reindex_Permutation; [apply NoDup_zrange| |].
  - intros k Hk. apply in_zrange in Hk. apply in_zrange.
    pose proof (mirror_range i0 j0 1 K k). lia.
  - intros k _. apply mirror_involutive.
Qed.

Lemma Tsp_Proposal_range K : forall g i0 j0 g',
  2 <= K -> Forall word g ->
  Tsp.Proposal K g = Done (i0, j0, g') ->
  2 <= i0 /\ i0 < j0 /\ j0 <= K /\ Forall word g'.
Proof.
  intros g. remember (length g) as len eqn:Hlen. revert g Hlen.
  induction len as [len IH] using lt_wf_ind.
  intros g Hlen i0 j0 g' HK Hw H.
  destruct g as [|N1 [|N2 rest]]; cbn [Tsp.Proposal] in H; try discriminate.
  inversion Hw as [|? ? HN1 Hw1]; subst. inversion Hw1 as [|? ? HN2 Hw2]; subst.
  pose proof (RandomInteger_of_range 2 K N1 HN1 ltac:(lia)) as R1.
  pose proof (RandomInteger_of_range 2 K N2 HN2 ltac:(lia)) as R2.
  assert (Rec : Tsp.Proposal K rest = Done (i0, j0, g') ->
                2 <= i0 /\ i0 < j0 /\ j0 <= K /\ Forall word g').
  { intros H'. apply (IH (length rest)) with (g := rest); auto. cbn [length]. lia. }
  destruct (Z.ltb_spec (RandomInteger_of 2 K N2) (RandomInteger_of 2 K N1)) as [L|L].
  - destruct (Z.ltb_spec 0 (RandomInteger_of 2 K N1 - RandomInteger_of 2 K N2));
      destruct (Z.ltb_spec (RandomInteger_of 2 K N1 - RandomInteger_of 2 K N2) (K - 2));
      cbn [andb] in H; try (now apply Rec).
    inversion H; subst. repeat split; try lia. assumption.
  - destruct (Z.ltb_spec 0 (RandomInteger_of 2 K N2 - RandomInteger_of 2 K N1));
      destruct (Z.ltb_spec (RandomInteger_of 2 K N2 - RandomInteger_of 2 K N1) (K - 2));
      cbn [andb] in H; try (now apply Rec).
    inversion H; subst. repeat split; try lia. assumption.
Qed.

Lemma permute_sites_tour K idx : forall c g c' g',
  Forall word g -> (forall i, In i idx -> 2 <= i <= K) -> tour K c ->
  Tsp.permute_sites idx K c g = Done (c', g') ->
  tour K c' /\ Forall word g'.
Proof.
  induction idx as [|i idx IH]; intros c g c' g' Hw Hidx HT H;
    cbn [Tsp.permute_sites] in H.
  - inversion H; subst. auto.
  - destruct (RandomInteger i K g) as [[j g1]| |] eqn:Hr; cbn [bind] in H;
      try discriminate.
    pose proof (Hidx i (or_introl eq_refl)) as Hi.
    destruct (RandomInteger_draw i K g j g1 Hw ltac:(lia) Hr) as (Hj & Hw1).
    apply (IH _ _ _ _ Hw1 (fun i' H' => Hidx i' (or_intror H'))) in H; [exact H|].
    destruct HT as (H1 & HK & HP). unfold tour. cbv zeta.
    rewrite !exchange_transpose, !transpose_other by lia.
    split; [exact H1|]. split; [exact HK|].
    rewrite <- HP at 2.
    apply exchange_Permutation; [apply NoDup_zrange| |]; apply in_zrange; lia.
Qed.

Lemma discard_words n : forall g g',
  Forall word g -> Tsp.discard n g = Done g' -> Forall word g'.
Proof.
  induction n as [|n IH]; intros g g' Hw H; cbn [Tsp.discard] in H.
  - inversion H; now subst.
  - destruct g as [|N g]; [discriminate|]. inversion Hw; subst. now apply (IH g).
Qed.

(** X17.  TSP, [Reverse]: after the call, [c[k]] holds the former
    [c[i0+j0-k]] for every k in i0..j0 and is unchanged outside the
    segment (for [j0 < i0] nothing is changed); reversing the same
    segment again gives back the route. *)
Theorem Reverse_reverses_the_segment (c : Z -> Z) (i0 j0 k : Z) :
  Tsp.Reverse c i0 j0 k
  = (if (i0 <=? k) && (k <=? j0) then c (i0 + j0 - k) else c k)
  /\ Tsp.Reverse (Tsp.Reverse c i0 j0) i0 j0 k = c k.
Proof.
  split.
  - rewrite Reverse_closed_form. unfold mirror.
    destruct ((i0 <=? k) && (k <=? j0)); reflexivity.
  - rewrite !Reverse_closed_form, mirror_involutive. reflexivity.
Qed.

(** X18.  TSP, [Proposal] followed by [Reverse]: if the route is a
    closed tour of the sites 1..K (it starts and ends at site 1 and
    lists every site once), so is the route after reversing the
    proposed segment; the first and last entries are never moved. *)
Theorem Tsp_move_keeps_the_tour
        (K : Z) (c : Z -> Z) (g : rng) (i0 j0 : Z) (g' : rng) :
  2 <= K -> Forall word g -> tour K c ->
  Tsp.Proposal K g = Done (i0, j0, g') ->
  tour K (Tsp.Reverse c i0 j0).
Proof.
  intros HK Hw HT H.
  destruct (Tsp_Proposal_range K g i0 j0 g' HK Hw H) as (A & B & D & _).
  apply Reverse_tour; auto.
Qed.

Lemma Tsp_move_keeps_the_tour_witness :
  Tsp.Proposal 5 [0; 2147483648] = Done (2, 4, [])
  /\ map (Tsp.Reverse (fun k => if k =? 6 then 1 else k) 2 4) [1; 2; 3; 4; 5; 6]
     = [1; 4; 3; 2; 5; 1]
  /\ tour 5 (Tsp.Reverse (fun k => if k =? 6 then 1 else k) 2 4).
Proof.
  split; [vm_compute; reflexivity|]. split; [vm_compute; reflexivity|].
  apply (Tsp_move_keeps_the_tour 5 (fun k => if k =? 6 then 1 else k)
           [0; 2147483648] 2 4 []).
  - lia.
  - apply all_words_spec. vm_compute. reflexivity.
  - split; [reflexivity|]. split; [reflexivity|]. apply Permutation_refl.
  - vm_compute. reflexivity.
Defined.

(** X19.  TSP, [RandomRoute]: whatever the block [c] held before, the
    initial route is a closed tour of the sites 1..K: [c[1] = 1],
    [c[K+1] = 1], and [c[1..K]] lists every site once (the random
    exchanges only involve positions 2..K). *)
Theorem RandomRoute_is_a_tour (K : Z) (c : Z -> Z) (g : rng)
        (c' : Z -> Z) (g' : rng) :
  1 <= K -> Forall word g ->
  Tsp.RandomRoute K c g = Done (c', g') ->
  tour K c'.
Proof.
  intros HK Hw H. unfold Tsp.RandomRoute in H.
  destruct (Tsp.discard (1 + 2 * Z.to_nat K) g) as [g1| |] eqn:Hd; cbn [bind] in H;
    try discriminate.
  pose proof (discard_words _ _ _ Hw Hd) as Hw1. cbv zeta in H.
  apply (permute_sites_tour K _ _ _ _ _ Hw1) in H; [now destruct H| |].
  - intros i Hi. apply in_zrange in Hi. lia.
  - assert (Hid : forall k, 1 <= k <= K ->
                    upd (fold_left (fun c i => upd c i i) (zrange 1 (Z.to_nat K)) c)
                        (K + 1) 1 k = k).
    { intros k Hk. unfold upd at 1. destruct (Z.eqb_spec k (K + 1)); [lia|].
      rewrite (fold_upd_lookup (fun i => i)).
      destruct (in_dec Z.eq_dec k (zrange 1 (Z.to_nat K))) as [_|C]; [reflexivity|].
      exfalso. apply C. apply in_zrange. lia. }
    split; [apply Hid; lia|]. split; [apply upd_same|].
    rewrite (map_ext_in _ (fun k => k)); [rewrite map_id; apply Permutation_refl|].
    intros k Hk. apply in_zrange in Hk. apply Hid. lia.
Qed.

Lemma RandomRoute_is_a_tour_witness :
  exists c',
    Tsp.RandomRoute 4 (fun _ => 0) [0; 0; 0; 0; 0; 0; 0; 0; 0; 4294967295; 0]
    = Done (c', [])
    /\ map c' [1; 2; 3; 4; 5] = [1; 4; 3; 2; 1]
    /\ tour 4 c'.
Proof.
  pose (c' := match Tsp.RandomRoute 4 (fun _ => 0)
                      [0; 0; 0; 0; 0; 0; 0; 0; 0; 4294967295; 0] with
              | Done (c', _) => c'
              | _ => fun _ => 0
              end).
  assert (H : Tsp.RandomRoute 4 (fun _ => 0)
                [0; 0; 0; 0; 0; 0; 0; 0; 0; 4294967295; 0] = Done (c', []))
    by (vm_compute; reflexivity).
  exists c'. split; [exact H|]. split; [vm_compute; reflexivity|].
  apply (RandomRoute_is_a_tour 4 (fun _ => 0)
           [0; 0; 0; 0; 0; 0; 0; 0; 0; 4294967295; 0] c' []).
  - lia.
  - apply all_words_spec. vm_compute. reflexivity.
  - exact H.
Defined.

(** ** Sums over an index list *)

Lemma zsum_nil f : zsum f [] = 0.
Proof. reflexivity. Qed.

Lemma zsum_cons f a l : zsum f (a :: l) = f a + zsum f l.
Proof. reflexivity. Qed.

Lemma zsum_ext f g l :
  (forall k, In k l -> f k = g k) -> zsum f l = zsum g l.
Proof.
  induction l as [|a l IH]; intros H; [reflexivity|].
  rewrite !zsum_cons, (H a (or_introl eq_refl)), IH; [reflexivity|].
  intros k Hk. apply H. now right.
Qed.

Lemma zsum_nonneg f l : (forall k, In k l -> 0 <= f k) -> 0 <= zsum f l.
Proof.
  induction l as [|a l IH]; intros H; [cbn; lia|]. rewrite zsum_cons.
  pose proof (H a (or_introl eq_refl)).
  assert (0 <= zsum f l) by (apply IH; intros k Hk; apply H; now right). lia.
Qed.

Lemma zsum_zero f l :
  (forall k, In k l -> 0 <= f k) ->
  (zsum f l = 0 <-> forall k, In k l -> f k = 0).
Proof.
  induction l as [|a l IH]; intros H.
  - split; [intros _ k []|reflexivity].
  - rewrite zsum_cons. pose proof (H a (or_introl eq_refl)) as Ha.
    assert (Hl : forall k, In k l -> 0 <= f k) by (intros k Hk; apply H; now right).
    pose proof (zsum_nonneg f l Hl) as Hs. specialize (IH Hl). split.
    + intros E k [<-|Hk]; [lia|]. apply IH; [lia|exact Hk].
    + intros E. rewrite (E a (or_introl eq_refl)).
      rewrite (proj2 IH); [reflexivity|]. intros k Hk. apply E. now right.
Qed.

Lemma zsum_plus f g l : zsum (fun k => f k + g k) l = zsum f l + zsum g l.
Proof.
  induction l as [|a l IH]; [reflexivity|]. rewrite !zsum_cons, IH. lia.
Qed.

Lemma zsum_le f g l : (forall k, In k l -> f k <= g k) -> zsum f l <= zsum g l.
Proof.
  induction l as [|a l IH]; intros H; [cbn; lia|]. rewrite !zsum_cons.
  pose proof (H a (or_introl eq_refl)).
  assert (zsum f l <= zsum g l) by (apply IH; intros k Hk; apply H; now right). lia.
Qed.

(** ** The magic-square generator *)

Lemma pair_sums (f g : Z -> Z) l : forall r0 c0,
  fold_left (fun '(rowsum, colsum) j => (rowsum + f j, colsum + g j)) l (r0, c0)
  = (r0 + zsum f l, c0 + zsum g l).
Proof.
  induction l as [|a l IH]; intros r0 c0; cbn [fold_left].
  - rewrite !zsum_nil, !Z.add_0_r. reflexivity.
  - rewrite IH, !zsum_cons, !Z.add_assoc. reflexivity.
Qed.

Lemma triple_sums (a b c : Z -> Z) l : forall E0 d1 d2,
  fold_left (fun '(E, d1sum, d2sum) i => (E + a i, d1sum + b i, d2sum + c i))
            l (E0, d1, d2)
  = (E0 + zsum a l, d1 + zsum b l, d2 + zsum c l).
Proof.
  induction l as [|h l IH]; intros E0 d1 d2; cbn [fold_left].
  - rewrite !zsum_nil, !Z.add_0_r. reflexivity.
  - rewrite IH, !zsum_cons, !Z.add_assoc. reflexivity.
Qed.

(** [Energy] as a sum of deviations. *)
Lemma MagicSquare_Energy_sum N S :
  let idx := zrange 1 (Z.to_nat N) in
  let sum := Z.quot (N * (N * N + 1)) 2 in
  MagicSquare.Energy N S
  = zsum (fun i => Z.abs (zsum (fun j => S i j) idx - sum)
                   + Z.abs (zsum (fun j => S j i) idx - sum)) idx
    + Z.abs (zsum (fun i => S i i) idx - sum)
    + Z.abs (zsum (fun i => S i (N + 1 - i)) idx - sum).
Proof.
  cbv zeta. unfold MagicSquare.Energy. cbv zeta.
  set (idx := zrange 1 (Z.to_nat N)). set (sum := Z.quot (N * (N * N + 1)) 2).
  rewrite (fold_left_ext _
             (fun '(E, d1sum, d2sum) i =>
                (E + (Z.abs (zsum (fun j => S i j) idx - sum)
                      + Z.abs (zsum (fun j => S j i) idx - sum)),
                 d1sum + S i i, d2sum + S i (N + 1 - i)))).
  - rewrite triple_sums. lia.
  - intros [[E d1] d2] i. rewrite pair_sums. f_equal. f_equal.
    change (zsum (S i) idx) with (zsum (fun j => S i j) idx). lia.
Qed.

Lemma MagicSquare_Energy_nonneg N S : 0 <= MagicSquare.Energy N S.
Proof.
  rewrite MagicSquare_Energy_sum.
  assert (0 <= zsum (fun i =>
                 Z.abs (zsum (fun j => S i j) (zrange 1 (Z.to_nat N))
                        - Z.quot (N * (N * N + 1)) 2)
                 + Z.abs (zsum (fun j => S j i) (zrange 1 (Z.to_nat N))
                          - Z.quot (N * (N * N + 1)) 2))
               (zrange 1 (Z.to_nat N))) by (apply zsum_nonneg; intros; lia).
  lia.
Qed.

Lemma MagicSquare_Energy_zero N S : MagicSquare.Energy N S = 0 <-> magic N S.
Proof.
  rewrite MagicSquare_Energy_sum. unfold magic.
  set (idx := zrange 1 (Z.to_nat N)). set (sum := Z.quot (N * (N * N + 1)) 2).
  set (a := fun i => Z.abs (zsum (fun j => S i j) idx - sum)
                     + Z.abs (zsum (fun j => S j i) idx - sum)).
  assert (Ha : forall k, In k idx -> 0 <= a k) by (intros; subst a; cbv beta; lia).
  pose proof (zsum_nonneg a idx Ha) as Hs.
  pose proof (zsum_zero a idx Ha) as Hz.
  split.
  - intros E.
    assert (E0 : zsum a idx = 0) by lia.
    pose proof (proj1 Hz E0) as Hall.
    split; [|split; [|split]]; try lia.
    + intros i Hi. specialize (Hall i Hi). subst a. cbv beta in Hall. lia.
    + intros i Hi. specialize (Hall i Hi). subst a. cbv beta in Hall. lia.
  - intros (R & C & D1 & D2).
    rewrite (proj2 Hz).
    + lia.
    + intros k Hk. subst a. cbv beta. rewrite (R k Hk), (C k Hk). lia.
Qed.

Lemma MagicSquare_Energy_ext N S S' :
  (forall i j, S' i j = S i j) -> MagicSquare.Energy N S' = MagicSquare.Energy N S.
Proof.
  intros H. rewrite !MagicSquare_Energy_sum. cbv zeta.
  f_equal; [f_equal|].
  - apply zsum_ext. intros i _. f_equal; f_equal; f_equal; apply zsum_ext;
      intros j _; apply H.
  - f_equal. f_equal. apply zsum_ext. intros i _. apply H.
  - f_equal. f_equal. apply zsum_ext. intros i _. apply H.
Qed.

Lemma in_squares N i j :
  In (i, j) (squares N) <-> 1 <= i <= N /\ 1 <= j <= N.
Proof.
  unfold squares. rewrite in_flat_map. split.
  - intros (x & Hx & Hin). apply in_map_iff in Hin. destruct Hin as (y & E & Hy).
    inversion E; subst. apply in_zrange in Hx. apply in_zrange in Hy. lia.
  - intros [Hi Hj]. exists i. split; [apply in_zrange; lia|].
    apply in_map_iff. exists j. split; [reflexivity|apply in_zrange; lia].
Qed.

Lemma NoDup_grid (l1 l2 : list Z) :
  NoDup l1 -> NoDup l2 ->
  NoDup (flat_map (fun i => map (fun j => (i, j)) l2) l1).
Proof.
  intros H1 H2. induction H1 as [|a l1 Ha H1 IH]; cbn [flat_map]; [constructor|].
  apply NoDup_app; [| exact IH |].
  - apply NoDup_map_NoDup_ForallPairs; [|exact H2]. intros x y _ _ E. now inversion E.
  - intros p Hp Hq. apply in_map_iff in Hp. destruct Hp as (y & <- & _).
    apply in_flat_map in Hq. destruct Hq as (x & Hx & Hin).
    apply in_map_iff in Hin. destruct Hin as (y' & E & _). inversion E; subst.
    contradiction.
Qed.

Lemma NoDup_squares N : NoDup (squares N).
Proof. apply NoDup_grid; apply NoDup_zrange. Qed.

Lemma length_grid (l1 l2 : list Z) :
  length (flat_map (fun i => map (fun j => (i, j)) l2) l1)
  = (length l1 * length l2)%nat.
Proof.
  induction l1 as [|a l1 IH]; cbn [flat_map length]; [reflexivity|].
  rewrite length_app, length_map, IH. lia.
Qed.

Lemma length_squares N : 0 <= N -> length (squares N) = Z.to_nat (N * N).
Proof.
  intros HN. unfold squares. rewrite length_grid, !length_zrange.
  rewrite Z2Nat.inj_mul by lia. reflexivity.
Qed.

Lemma same_site_spec p q : same_site p q = true <-> p = q.
Proof.
  split; [apply same_site_true|]. intros ->. unfold same_site.
  now rewrite !Z.eqb_refl.
Qed.

Lemma same_site_false p q : same_site p q = false <-> p <> q.
Proof.
  split.
  - intros H E. apply same_site_spec in E. congruence.
  - intros H. destruct (same_site p q) eqn:E; [|reflexivity].
    apply same_site_true in E. contradiction.
Qed.

Lemma transpose_sites_involutive a b p :
  transpose_sites a b (transpose_sites a b p) = p.
Proof.
  unfold transpose_sites.
  destruct (same_site p b) eqn:E1.
  - apply same_site_true in E1. subst p.
    destruct (same_site a b) eqn:E2; [now apply same_site_true in E2|].
    assert (same_site a a = true) as -> by now apply same_site_spec.
    reflexivity.
  - destruct (same_site p a) eqn:E2.
    + apply same_site_true in E2. subst p.
      assert (same_site b b = true) as -> by now apply same_site_spec.
      reflexivity.
    + now rewrite E1, E2.
Qed.

Lemma transpose_sites_cases a b p :
  transpose_sites a b p = p \/ transpose_sites a b p = a \/ transpose_sites a b p = b.
Proof.
  unfold transpose_sites. destruct (same_site p b); [auto|].
  destruct (same_site p a); auto.
Qed.

Lemma swap_transpose S i0 j0 i1 j1 p :
  at_ (MagicSquare.swap S i0 j0 i1 j1) p
  = at_ S (transpose_sites (i0, j0) (i1, j1) p).
Proof.
  unfold MagicSquare.swap, transpose_sites. cbv zeta.
  change (at_ (upd2 (upd2 S i0 j0 (S i1 j1)) i1 j1 (S i0 j0)) p)
    with (if same_site p (i1, j1) then S i0 j0
          else if same_site p (i0, j0) then S i1 j1 else at_ S p).
  destruct (same_site p (i1, j1)); [reflexivity|].
  destruct (same_site p (i0, j0)); reflexivity.
Qed.

Lemma swap_back S i0 j0 i1 j1 i j :
  MagicSquare.swap (MagicSquare.swap S i0 j0 i1 j1) i0 j0 i1 j1 i j = S i j.
Proof.
  change (at_ (MagicSquare.swap (MagicSquare.swap S i0 j0 i1 j1) i0 j0 i1 j1) (i, j)
          = at_ S (i, j)).
  now rewrite !swap_transpose, transpose_sites_involutive.
Qed.

Lemma swap_Permutation S i0 j0 i1 j1 l :
  NoDup l -> In (i0, j0) l -> In (i1, j1) l ->
  Permutation (map (at_ (MagicSquare.swap S i0 j0 i1 j1)) l) (map (at_ S) l).
Proof.
  intros Hnd H0 H1.
  rewrite (map_ext _ (fun p => at_ S (transpose_sites (i0, j0) (i1, j1) p)))
    by (intros p; apply swap_transpose).
  apply reindex_Permutation; [exact Hnd| |].
  - intros p Hp.
    destruct (transpose_sites_cases (i0, j0) (i1, j1) p) as [-> |[-> | ->]]; assumption.
  - intros p _. apply transpose_sites_involutive.
Qed.

Lemma second_square_spec N i0 j0 : forall g i1 j1 i1' j1' g',
  1 <= N -> Forall word g -> 1 <= i1 <= N /\ 1 <= j1 <= N ->
  MagicSquare.second_square N i0 j0 i1 j1 g = Done (i1', j1', g') ->
  1 <= i1' <= N /\ 1 <= j1' <= N /\ (i1', j1') <> (i0, j0) /\ Forall word g'.
Proof.
  intros g. remember (length g) as len eqn:Hlen. revert g Hlen.
  induction len as [len IH] using lt_wf_ind.
  intros g Hlen i1 j1 i1' j1' g' HN Hw Hr H.
  destruct g as [|N1 [|N2 rest]]; cbn [MagicSquare.second_square] in H;
    destruct (Z.eqb_spec i1 i0) as [Ei|Ei]; destruct (Z.eqb_spec j1 j0) as [Ej|Ej];
    cbn [andb] in H; try discriminate;
    try (inversion H; subst; repeat split; try lia; try assumption; congruence).
  inversion Hw as [|? ? HN1 Hw1]; subst. inversion Hw1 as [|? ? HN2 Hw2]; subst.
  apply (IH (length rest)) with (g := rest) (i1 := RandomInteger_of 1 N N1)
                                (j1 := RandomInteger_of 1 N N2); auto.
  - cbn [length]. lia.
  - split; apply RandomInteger_of_range; auto; lia.
Qed.

Lemma MagicSquare_accept_words T P DeltaE g acc g' :
  Forall word g -> MagicSquare.AcceptTransition T P DeltaE g = Done (acc, g') ->
  Forall word g'.
Proof.
  intros Hw H. unfold MagicSquare.AcceptTransition in H.
  destruct (DeltaE <=? 0); [inversion H; now subst|].
  destruct (positive_temp T); [|inversion H; now subst].
  destruct g as [|N g]; cbn [MTUniform bind] in H; [discriminate|].
  destruct (if DeltaE <? 100 then read P DeltaE else Done 0%Q); cbn [bind] in H;
    try discriminate.
  inversion H; subst. now inversion Hw.
Qed.

(** The guard [DeltaE < 100] keeps the read inside the 101 doubles. *)
Lemma MagicSquare_accept_defined T P DeltaE g :
  (100 <= length P)%nat -> MagicSquare.AcceptTransition T P DeltaE g <> Undefined.
Proof.
  intros HP H. unfold MagicSquare.AcceptTransition in H.
  destruct (Z.leb_spec DeltaE 0); [discriminate|].
  destruct (positive_temp T); [|discriminate].
  destruct g as [|N g]; cbn [MTUniform bind] in H; [discriminate|].
  destruct (Z.ltb_spec DeltaE 100).
  - destruct (read_in_range P DeltaE) as [q Hq]; [lia|].
    rewrite Hq in H. discriminate.
  - discriminate.
Qed.

Lemma second_square_defined N i0 j0 : forall g i1 j1,
  MagicSquare.second_square N i0 j0 i1 j1 g <> Undefined.
Proof.
  intros g. remember (length g) as len eqn:Hlen. revert g Hlen.
  induction len as [len IH] using lt_wf_ind.
  intros g Hlen i1 j1 H.
  destruct g as [|N1 [|N2 rest]]; cbn [MagicSquare.second_square] in H;
    destruct ((i1 =? i0) && (j1 =? j0)); try discriminate.
  apply (IH (length rest)) with (g := rest) in H; auto. subst. cbn [length]. lia.
Qed.

Lemma MagicSquare_step_defined N T P S E g :
  (100 <= length P)%nat -> MagicSquare.Metropolis_step N T P S E g <> Undefined.
Proof.
  intros HP H. unfold MagicSquare.Metropolis_step in H.
  destruct g as [|N1 g]; cbn [RandomInteger bind] in H; [discriminate|].
  destruct g as [|N2 g]; cbn [RandomInteger bind] in H; [discriminate|].
  destruct (MagicSquare.second_square N _ _ _ _ g) as [[[i1 j1] g3]| |] eqn:H2;
    cbn [bind] in H; try discriminate.
  - cbv zeta in H.
    match type of H with
    | context [MagicSquare.AcceptTransition ?a ?b ?c ?d] =>
        destruct (MagicSquare.AcceptTransition a b c d) as [[acc g4]| |] eqn:Ha
    end; cbn [bind] in H; try discriminate.
    + destruct acc; discriminate.
    + now apply MagicSquare_accept_defined in Ha.
  - now apply second_square_defined in H2.
Qed.

Lemma MagicSquare_step_inv N T P S E g S' E' g' :
  1 <= N -> Forall word g -> E = MagicSquare.Energy N S ->
  MagicSquare.Metropolis_step N T P S E g = Done (S', E', g') ->
  E' = MagicSquare.Energy N S'
  /\ Permutation (map (at_ S') (squares N)) (map (at_ S) (squares N))
  /\ Forall word g'.
Proof.
  intros HN Hw HE H. unfold MagicSquare.Metropolis_step in H.
  destruct (RandomInteger 1 N g) as [[i0 g1]| |] eqn:H1; cbn [bind] in H;
    try discriminate.
  destruct (RandomInteger_draw 1 N g i0 g1 Hw ltac:(lia) H1) as (Hi0 & Hw1).
  destruct (RandomInteger 1 N g1) as [[j0 g2]| |] eqn:H2; cbn [bind] in H;
    try discriminate.
  destruct (RandomInteger_draw 1 N g1 j0 g2 Hw1 ltac:(lia) H2) as (Hj0 & Hw2).
  destruct (MagicSquare.second_square N i0 j0 i0 j0 g2) as [[[i1 j1] g3]| |] eqn:H3;
    cbn [bind] in H; try discriminate.
  destruct (second_square_spec N i0 j0 g2 i0 j0 i1 j1 g3 HN Hw2 (conj Hi0 Hj0) H3)
    as (Hi1 & Hj1 & _ & Hw3).
  cbv zeta in H.
  destruct (MagicSquare.AcceptTransition T P
              (MagicSquare.Energy N (MagicSquare.swap S i0 j0 i1 j1) - E) g3)
    as [[acc g4]| |] eqn:Ha; cbn [bind] in H; try discriminate.
  pose proof (MagicSquare_accept_words _ _ _ _ _ _ Hw3 Ha) as Hw4.
  destruct acc; inversion H; subst.
  - split; [lia|]. split; [|assumption].
    apply swap_Permutation; [apply NoDup_squares| |]; apply in_squares; lia.
  - split; [|split; [|assumption]].
    + symmetry. apply MagicSquare_Energy_ext. intros i j. apply swap_back.
    + rewrite (map_ext _ (at_ S)); [apply Permutation_refl|].
      intros [i j]. unfold at_. cbn [fst snd]. apply swap_back.
Qed.

Lemma MagicSquare_loop_inv N T P steps : forall S E g S' g',
  1 <= N -> Forall word g -> E = MagicSquare.Energy N S ->
  MagicSquare.Metropolis_loop steps N T P S E g = Done (S', g') ->
  MagicSquare.Energy N S' = 0
  /\ Permutation (map (at_ S') (squares N)) (map (at_ S) (squares N)).
Proof.
  induction steps as [|steps IH]; intros S E g S' g' HN Hw HE H;
    cbn [MagicSquare.Metropolis_loop] in H;
    destruct (Z.gtb_spec E 0) as [Hpos|Hz]; try discriminate.
  - inversion H; subst. pose proof (MagicSquare_Energy_nonneg N S').
    split; [lia|apply Permutation_refl].
  - destruct (MagicSquare.Metropolis_step N T P S E g) as [[[S1 E1] g1]| |] eqn:Hs;
      cbn [bind] in H; try discriminate.
    destruct (MagicSquare_step_inv N T P S E g S1 E1 g1 HN Hw HE Hs) as (HE1 & HP1 & Hw1).
    destruct (IH S1 E1 g1 S' g' HN Hw1 HE1 H) as (A & B).
    split; [exact A|]. now apply (Permutation_trans B).
  - inversion H; subst. pose proof (MagicSquare_Energy_nonneg N S').
    split; [lia|apply Permutation_refl].
Qed.

Lemma zrange_cons lo n : zrange lo (S n) = lo :: zrange (lo + 1) n.
Proof.
  unfold zrange. cbn [seq map]. f_equal; [lia|].
  rewrite <- seq_shift, map_map. apply map_ext. intros k. lia.
Qed.

Lemma scramble_Permutation M idx : forall n g n' g',
  Forall word g -> (forall i, In i idx -> 1 <= i <= M) ->
  MagicSquare.scramble idx M n g = Done (n', g') ->
  Permutation (map n' (zrange 1 (Z.to_nat M))) (map n (zrange 1 (Z.to_nat M)))
  /\ Forall word g'.
Proof.
  induction idx as [|i idx IH]; intros n g n' g' Hw Hidx H;
    cbn [MagicSquare.scramble] in H.
  - inversion H; subst. split; [apply Permutation_refl|assumption].
  - destruct (RandomInteger i M g) as [[j g1]| |] eqn:Hr; cbn [bind] in H;
      try discriminate.
    pose proof (Hidx i (or_introl eq_refl)) as Hi.
    destruct (RandomInteger_draw i M g j g1 Hw ltac:(lia) Hr) as (Hj & Hw1).
    cbv zeta in H.
    destruct (IH _ _ _ _ Hw1 (fun i' H' => Hidx i' (or_intror H')) H) as (A & B).
    split; [|exact B]. apply (Permutation_trans A).
    apply exchange_Permutation; [apply NoDup_zrange| |]; apply in_zrange; lia.
Qed.

Lemma place_cons n i j l k S :
  MagicSquare.place n ((i, j) :: l) k S
  = MagicSquare.place n l (k + 1) (upd2 S i j (n (k + 1))).
Proof. reflexivity. Qed.

Lemma place_frame n l : forall k S p,
  ~ In p l -> at_ (snd (MagicSquare.place n l k S)) p = at_ S p.
Proof.
  induction l as [|[i j] l IH]; intros k S p Hp; [reflexivity|].
  rewrite place_cons, IH by (intros C; apply Hp; now right).
  change (at_ (upd2 S i j (n (k + 1))) p)
    with (if same_site p (i, j) then n (k + 1) else at_ S p).
  destruct (same_site p (i, j)) eqn:E; [|reflexivity].
  apply same_site_true in E. subst p. exfalso. apply Hp. now left.
Qed.

Lemma place_values n l : forall k S,
  NoDup l ->
  map (at_ (snd (MagicSquare.place n l k S))) l = map n (zrange (k + 1) (length l)).
Proof.
  induction l as [|[i j] l IH]; intros k S Hnd; [reflexivity|].
  inversion Hnd as [|? ? Hnotin Hnd']; subst.
  rewrite place_cons. cbn [map length]. rewrite zrange_cons. cbn [map].
  rewrite IH by assumption. f_equal.
  rewrite place_frame by assumption. unfold at_; cbn [fst snd]. apply upd2_same.
Qed.

Lemma Initialize_normal N n S g S' g' :
  1 <= N -> Forall word g ->
  MagicSquare.Initialize N n S g = Done (S', g') ->
  normal_square N S' /\ Forall word g'.
Proof.
  intros HN Hw H. unfold MagicSquare.Initialize in H.
  destruct g as [|N0 g]; cbn [MTUniform bind] in H; [discriminate|].
  inversion Hw as [|? ? _ Hw0]; subst. cbv zeta in H.
  destruct (MagicSquare.scramble _ _ _ g) as [[n1 g2]| |] eqn:Hs; cbn [bind] in H;
    try discriminate.
  inversion H; subst. clear H.
  apply scramble_Permutation in Hs; [|assumption|].
  2:{ intros i Hi. apply in_zrange in Hi. nia. }
  destruct Hs as (HP & Hw2). split; [|exact Hw2].
  unfold normal_square.
  change (flat_map (fun i => map (fun j => (i, j)) (zrange 1 (Z.to_nat N)))
                   (zrange 1 (Z.to_nat N))) with (squares N).
  rewrite place_values by apply NoDup_squares.
  rewrite length_squares by lia. cbn [Z.add].
  apply (Permutation_trans HP).
  rewrite (map_ext_in _ (fun k => k)); [rewrite map_id; apply Permutation_refl|].
  intros k Hk. rewrite (fold_upd_lookup (fun i => i)).
  destruct (in_dec Z.eq_dec k (zrange 1 (Z.to_nat (N * N)))); [reflexivity|contradiction].
Qed.

Lemma zsum_bounds f l lo hi :
  (forall k, In k l -> lo <= f k <= hi) ->
  lo * Z.of_nat (length l) <= zsum f l <= hi * Z.of_nat (length l).
Proof.
  induction l as [|a l IH]; intros H.
  - rewrite zsum_nil. cbn [length]. lia.
  - rewrite zsum_cons. cbn [length]. rewrite Nat2Z.inj_succ.
    pose proof (H a (or_introl eq_refl)).
    assert (lo * Z.of_nat (length l) <= zsum f l <= hi * Z.of_nat (length l))
      by (apply IH; intros k Hk; apply H; right; exact Hk).
    lia.
Qed.

(** For an order up to 180 and entries in 1..N^2 the sums of a line
    lie in 0..N^3, and so does N (N^2 + 1) / 2: the energy is at most
    (2N + 2) N^3 <= 2111184000, inside the range of [int].  The
    running values of [rowsum], [colsum], [d1sum], [d2sum] and [E] are
    sums of non-negative terms, so they stay below their final values:
    no [int] of [Energy ()] overflows. *)
Lemma MagicSquare_Energy_fits N S :
  1 <= N <= 180 ->
  (forall i j, 1 <= i <= N -> 1 <= j <= N -> 1 <= S i j <= N * N) ->
  MagicSquare.Energy N S <= 2147483647.
Proof.
  intros HN HS. rewrite MagicSquare_Energy_sum. cbv zeta.
  set (idx := zrange 1 (Z.to_nat N)).
  set (sum := Z.quot (N * (N * N + 1)) 2).
  assert (Hlen : Z.of_nat (length idx) = N)
    by (subst idx; rewrite length_zrange; lia).
  assert (Hidx : forall i, In i idx -> 1 <= i <= N)
    by (intros i Hi; subst idx; apply in_zrange in Hi; lia).
  assert (HNN : 1 <= N * N <= 32400) by nia.
  assert (Hcube : N * (N * N) <= 5832000) by nia.
  assert (Hsum : 0 <= sum <= N * (N * N)).
  { subst sum. split.
    - apply Z.quot_pos; nia.
    - apply Z.quot_le_upper_bound; nia. }
  assert (Hline : forall f, (forall k, In k idx -> 1 <= f k <= N * N) ->
                            Z.abs (zsum f idx - sum) <= N * (N * N)).
  { intros f Hf. pose proof (zsum_bounds f idx 1 (N * N) Hf) as B.
    rewrite Hlen in B. lia. }
  assert (H1 : zsum (fun i => Z.abs (zsum (fun j => S i j) idx - sum)
                              + Z.abs (zsum (fun j => S j i) idx - sum)) idx
               <= 2 * (N * (N * N)) * N).
  { pose proof (zsum_bounds
                  (fun i => Z.abs (zsum (fun j => S i j) idx - sum)
                            + Z.abs (zsum (fun j => S j i) idx - sum))
                  idx 0 (2 * (N * (N * N)))) as B.
    rewrite Hlen in B. apply B. intros i Hi. apply Hidx in Hi.
    pose proof (Hline (fun j => S i j)
                  (fun j Hj => HS i j Hi (Hidx j Hj))).
    pose proof (Hline (fun j => S j i)
                  (fun j Hj => HS j i (Hidx j Hj) Hi)).
    lia. }
  pose proof (Hline (fun i => S i i) (fun i Hi => HS i i (Hidx i Hi) (Hidx i Hi))) as H2.
  assert (H3 : Z.abs (zsum (fun i => S i (N + 1 - i)) idx - sum) <= N * (N * N)).
  { apply Hline. intros i Hi. apply Hidx in Hi. apply HS; lia. }
  nia.
Qed.

(** X20.  Magic-square generator, [Energy]: for a square of order
    N <= 180 whose entries lie in 1..N^2 (no [int] of the function
    overflows there) the value returned is never negative, it fits in
    an [int], and it is 0 - the exit condition of [while (E > 0)] -
    exactly when every row sum, every column sum and the sums of the
    two diagonals equal N (N^2 + 1) / 2. *)
Theorem MagicSquare_Energy_zero_iff_magic (N : Z) (S : Z -> Z -> Z) :
  1 <= N <= 180 ->
  (forall i j, 1 <= i <= N -> 1 <= j <= N -> 1 <= S i j <= N * N) ->
  0 <= MagicSquare.Energy N S <= 2147483647
  /\ (MagicSquare.Energy N S = 0 <-> magic N S).
Proof.
  intros HN HS. split; [split|].
  - apply MagicSquare_Energy_nonneg.
  - now apply MagicSquare_Energy_fits.
  - apply MagicSquare_Energy_zero.
Qed.

Lemma MagicSquare_Energy_zero_iff_magic_witness :
  0 <= MagicSquare.Energy 3 (fun i j => 3 * (i - 1) + j) <= 2147483647
  /\ (MagicSquare.Energy 3 (fun i j => 3 * (i - 1) + j) = 0
      <-> magic 3 (fun i j => 3 * (i - 1) + j)).
Proof.
  apply (MagicSquare_Energy_zero_iff_magic 3 (fun i j => 3 * (i - 1) + j)).
  - lia.
  - intros i j Hi Hj. lia.
Defined.

(** X21.  Magic-square generator, the body of the loop of
    [Metropolis]: thanks to the guard [DeltaE < 100 ? P[DeltaE] : 0.0]
    a pass never reads outside the block of 101 doubles, whatever the
    square holds and however large the change of energy is. *)
Theorem MagicSquare_reads_inside_table
        (N : Z) (T : Q) (P : list Q) (S : Z -> Z -> Z) (E : Z) (g : rng) :
  length P = 101%nat ->
  MagicSquare.Metropolis_step N T P S E g <> Undefined.
Proof.
  intros HP. apply MagicSquare_step_defined. lia.
Qed.

Lemma MagicSquare_reads_inside_table_witness :
  (100 <=? MagicSquare.Energy 6 (MagicSquare.swap (fun i j => 6 * (i - 1) + j)
                                                  1 1 6 6) - 0) = true
  /\ MagicSquare.Metropolis_step 6 (1 # 2) (repeat (1 # 2)%Q 101)
                                 (fun i j => 6 * (i - 1) + j) 0
                                 [0; 0; 4294967295; 4294967295; 0]
     <> Undefined.
Proof.
  split; [vm_compute; reflexivity|].
  apply (MagicSquare_reads_inside_table 6 (1 # 2) (repeat (1 # 2)%Q 101)
           (fun i j => 6 * (i - 1) + j) 0 [0; 0; 4294967295; 4294967295; 0]).
  vm_compute. reflexivity.
Defined.

(** X22.  Magic-square generator, [Initialize]: for an order
    N <= 1023 (so that N^2 < 2^20: [N*N] is far from the range of
    [int] and every [RandomInteger (i, N*N)] is computed without
    rounding), after the list 1..N^2 has been scrambled and placed row
    by row the square holds each of the numbers 1..N^2 exactly once. *)
Theorem Initialize_places_each_number_once
        (N : Z) (n : Z -> Z) (S : Z -> Z -> Z) (g : rng)
        (S' : Z -> Z -> Z) (g' : rng) :
  1 <= N <= 1023 -> Forall word g ->
  MagicSquare.Initialize N n S g = Done (S', g') ->
  normal_square N S'.
Proof.
  intros [HN _] Hw H. now destruct (Initialize_normal N n S g S' g' HN Hw H).
Qed.

Lemma Initialize_places_each_number_once_witness :
  exists S',
    MagicSquare.Initialize 2 (fun _ => 0) (fun _ _ => 0) [0; 4294967295; 0; 0]
    = Done (S', [])
    /\ map (at_ S') (squares 2) = [4; 2; 3; 1]
    /\ normal_square 2 S'.
Proof.
  pose (S' := match MagicSquare.Initialize 2 (fun _ => 0) (fun _ _ => 0)
                      [0; 4294967295; 0; 0] with
              | Done (S', _) => S'
              | _ => fun _ _ => 0
              end).
  assert (H : MagicSquare.Initialize 2 (fun _ => 0) (fun _ _ => 0)
                [0; 4294967295; 0; 0] = Done (S', []))
    by (vm_compute; reflexivity).
  exists S'. split; [exact H|]. split; [vm_compute; reflexivity|].
  apply (Initialize_places_each_number_once 2 (fun _ => 0) (fun _ _ => 0)
           [0; 4294967295; 0; 0] S' []).
  - lia.
  - apply all_words_spec. vm_compute. reflexivity.
  - exact H.
Defined.

Lemma normal_square_entries N S i j :
  normal_square N S -> 1 <= i <= N -> 1 <= j <= N -> 1 <= S i j <= N * N.
Proof.
  intros H Hi Hj. unfold normal_square in H.
  assert (Hin : In (at_ S (i, j)) (map (at_ S) (squares N))).
  { apply in_map. apply in_squares. split; assumption. }
  apply (Permutation_in _ H) in Hin. apply in_zrange in Hin.
  unfold at_ in Hin. cbn [fst snd] in Hin. nia.
Qed.

(** Every square that the loop of [Metropolis] meets holds 1..N^2, so
    up to order 180 its energy is the value the [int] arithmetic of
    the code gives. *)
Lemma normal_square_Energy_fits N S :
  1 <= N <= 180 -> normal_square N S ->
  0 <= MagicSquare.Energy N S <= 2147483647.
Proof.
  intros HN H. split; [apply MagicSquare_Energy_nonneg|].
  apply MagicSquare_Energy_fits; [exact HN|].
  intros i j Hi Hj. now apply normal_square_entries.
Qed.

(** X23.  Magic-square generator, [Initialize] followed by
    [Metropolis], for an order N <= 180: whenever the loop
    [while (E > 0)] is left, the square is a normal magic square - it
    holds each of the numbers 1..N^2 exactly once, and all rows, all
    columns and both diagonals add up to N (N^2 + 1) / 2.  Each pass
    either exchanges two squares or puts them back, and [E] stays
    equal to [Energy ()].  Up to order 180 the energy of a square
    holding 1..N^2 fits in an [int] ([normal_square_Energy_fits]), so
    [E] and [DeltaE] are the values the code computes. *)
Theorem MagicSquare_result_is_magic
        (N : Z) (T : Q) (P : list Q) (n : Z -> Z) (S0 : Z -> Z -> Z) (g : rng)
        (steps : nat) (S1 : Z -> Z -> Z) (g1 : rng) (S : Z -> Z -> Z) (g' : rng) :
  1 <= N <= 180 -> Forall word g ->
  MagicSquare.Initialize N n S0 g = Done (S1, g1) ->
  MagicSquare.Metropolis steps N T P S1 g1 = Done (S, g') ->
  magic N S /\ normal_square N S.
Proof.
  intros [HN _] Hw H1 H2.
  destruct (Initialize_normal N n S0 g S1 g1 HN Hw H1) as (Hn & Hw1).
  unfold MagicSquare.Metropolis in H2.
  destruct (MagicSquare_loop_inv N T P steps S1 (MagicSquare.Energy N S1) g1 S g'
              HN Hw1 eq_refl H2) as (E0 & HP).
  split; [now apply MagicSquare_Energy_zero|].
  unfold normal_square in *. now apply (Permutation_trans HP).
Qed.

Lemma MagicSquare_result_is_magic_witness :
  exists S1 S,
    MagicSquare.Initialize 3 (fun _ => 0) (fun _ _ => 0)
      [0; 2863311531; 0; 1840700270; 3579139414; 0; 1073741824; 2863311531;
       2147483648; 0; 0; 0; 2147483648]
    = Done (S1, [0; 0; 0; 2147483648])
    /\ map (at_ S1) (squares 3) = [7; 2; 6; 9; 5; 1; 4; 3; 8]
    /\ MagicSquare.Metropolis 1 3 (1 # 2) (repeat (1 # 2)%Q 101) S1
                              [0; 0; 0; 2147483648]
       = Done (S, [])
    /\ map (at_ S) (squares 3) = [2; 7; 6; 9; 5; 1; 4; 3; 8]
    /\ magic 3 S /\ normal_square 3 S.
Proof.
  pose (S1 := match MagicSquare.Initialize 3 (fun _ => 0) (fun _ _ => 0)
                      [0; 2863311531; 0; 1840700270; 3579139414; 0; 1073741824;
                       2863311531; 2147483648; 0; 0; 0; 2147483648] with
              | Done (S1, _) => S1
              | _ => fun _ _ => 0
              end).
  pose (S := match MagicSquare.Metropolis 1 3 (1 # 2) (repeat (1 # 2)%Q 101) S1
                     [0; 0; 0; 2147483648] with
             | Done (S2, _) => S2
             | _ => fun _ _ => 0
             end).
  assert (H1 : MagicSquare.Initialize 3 (fun _ => 0) (fun _ _ => 0)
                 [0; 2863311531; 0; 1840700270; 3579139414; 0; 1073741824;
                  2863311531; 2147483648; 0; 0; 0; 2147483648]
               = Done (S1, [0; 0; 0; 2147483648])) by (vm_compute; reflexivity).
  assert (H2 : MagicSquare.Metropolis 1 3 (1 # 2) (repeat (1 # 2)%Q 101) S1
                 [0; 0; 0; 2147483648] = Done (S, []))
    by (vm_compute; reflexivity).
  exists S1, S. split; [exact H1|]. split; [vm_compute; reflexivity|].
  split; [exact H2|]. split; [vm_compute; reflexivity|].
  apply (MagicSquare_result_is_magic 3 (1 # 2) (repeat (1 # 2)%Q 101)
           (fun _ => 0) (fun _ _ => 0)
           [0; 2863311531; 0; 1840700270; 3579139414; 0; 1073741824; 2863311531;
            2147483648; 0; 0; 0; 2147483648]
           1 S1 [0; 0; 0; 2147483648] S []).
  - lia.
  - apply all_words_spec. vm_compute. reflexivity.
  - exact H1.
  - exact H2.
Defined.

(** ** Two Not Touch: the energy *)

Lemma fold_left_flat_map {A B C} (f : A -> C -> A) (h : B -> list C) l : forall a,
  fold_left f (flat_map h l) a = fold_left (fun a x => fold_left f (h x) a) l a.
Proof.
  induction l as [|x l IH]; intros a; cbn [flat_map fold_left]; [reflexivity|].
  now rewrite fold_left_app, IH.
Qed.

Lemma fold_left_map {A B C} (f : A -> C -> A) (h : B -> C) l : forall a,
  fold_left f (map h l) a = fold_left (fun a x => f a (h x)) l a.
Proof.
  induction l as [|x l IH]; intros a; cbn [map fold_left]; [reflexivity|].
  now rewrite IH.
Qed.

Lemma fold_zsum (f : Z -> Z) l : forall E0,
  fold_left (fun E k => E + f k) l E0 = E0 + zsum f l.
Proof.
  induction l as [|a l IH]; intros E0; cbn [fold_left].
  - rewrite zsum_nil. lia.
  - rewrite IH, zsum_cons. lia.
Qed.

Lemma clear_both l : forall (a b : Z -> Z),
  fold_left (fun '(a, b) c => (upd a c 0, upd b c 0)) l (a, b)
  = (fold_left (fun a c => upd a c ((fun _ => 0) c)) l a,
     fold_left (fun b c => upd b c ((fun _ => 0) c)) l b).
Proof.
  induction l as [|c l IH]; intros a b; cbn [fold_left]; [reflexivity|].
  now rewrite IH.
Qed.

(** Counting by increments: afterwards each counter has gone up by
    the number of keys equal to its index. *)
Lemma count_both (kr kc : Z * Z -> Z) l : forall (rc cc : Z -> Z),
  let res := fold_left
               (fun '(rc, cc) p =>
                  let cc := upd cc (kc p) (cc (kc p) + 1) in
                  let rc := upd rc (kr p) (rc (kr p) + 1) in
                  (rc, cc))
               l (rc, cc) in
  forall c, fst res c = rc c + sum_over (fun p => b2z (kr p =? c)) l
            /\ snd res c = cc c + sum_over (fun p => b2z (kc p =? c)) l.
Proof.
  induction l as [|p l IH]; intros rc cc; cbv zeta; cbn [fold_left fst snd].
  - intros c. rewrite !sum_over_nil. lia.
  - intros c. specialize (IH (upd rc (kr p) (rc (kr p) + 1))
                             (upd cc (kc p) (cc (kc p) + 1))).
    cbv zeta in IH. destruct (IH c) as [A B]. rewrite A, B, !sum_over_cons.
    unfold upd. rewrite (Z.eqb_sym c (kr p)), (Z.eqb_sym c (kc p)).
    destruct (Z.eqb_spec (kr p) c) as [->|]; destruct (Z.eqb_spec (kc p) c) as [->|];
      cbn [b2z]; lia.
Qed.

Lemma TNT_Energy_sum reg rc cc col :
  TwoNotTouch.Energy reg rc cc col
  = zsum (fun c => Z.abs (stars_in_region reg col c - 2)
                   + Z.abs (stars_in_column col c - 2)) (zrange 1 10)
    + zsum (same_row_term col) (zrange 1 10)
    + zsum (next_row_terms col) (zrange 1 9).
Proof.
  unfold TwoNotTouch.Energy.
  rewrite clear_both.
  set (rc0 := fold_left (fun a c => upd a c ((fun _ => 0) c)) (zrange 1 10) rc).
  set (cc0 := fold_left (fun b c => upd b c ((fun _ => 0) c)) (zrange 1 10) cc).
  assert (Hrc0 : forall c, 1 <= c <= 10 -> rc0 c = 0).
  { intros c Hc. subst rc0. rewrite (fold_upd_lookup (fun _ => 0)).
    destruct (in_dec Z.eq_dec c (zrange 1 10)) as [_|C]; [reflexivity|].
    exfalso. apply C. apply in_zrange. lia. }
  assert (Hcc0 : forall c, 1 <= c <= 10 -> cc0 c = 0).
  { intros c Hc. subst cc0. rewrite (fold_upd_lookup (fun _ => 0)).
    destruct (in_dec Z.eq_dec c (zrange 1 10)) as [_|C]; [reflexivity|].
    exfalso. apply C. apply in_zrange. lia. }
  pose proof (count_both (fun p => reg (fst p) (at_ col p)) (fun p => at_ col p)
                         stars rc0 cc0) as HC.
  cbv zeta in HC.
  cbv beta iota.
  match goal with
  | |- context [fold_left ?F (zrange 1 10) (rc0, cc0)] =>
      assert (Hfold :
        fold_left F (zrange 1 10) (rc0, cc0)
        = fold_left
            (fun '(rc, cc) p =>
               let cc := upd cc (at_ col p) (cc (at_ col p) + 1) in
               let rc := upd rc (reg (fst p) (at_ col p))
                             (rc (reg (fst p) (at_ col p)) + 1) in
               (rc, cc))
            stars (rc0, cc0))
  end.
  { unfold stars. rewrite fold_left_flat_map.
    apply fold_left_ext. intros acc r. rewrite fold_left_map.
    apply fold_left_ext. intros [a b] s. reflexivity. }
  rewrite Hfold.
  destruct (fold_left _ stars (rc0, cc0)) as [rc1 cc1]. cbn [fst snd] in HC.
  rewrite (fold_left_ext _ (fun E r => E + next_row_terms col r) (zrange 1 9))
    by (intros E r; unfold next_row_terms; cbv zeta; lia).
  rewrite !fold_zsum. rewrite Z.add_0_l.
  rewrite (zsum_ext _ (fun c => Z.abs (stars_in_region reg col c - 2)
                                + Z.abs (stars_in_column col c - 2)) (zrange 1 10)).
  - reflexivity.
  - intros c Hc. apply in_zrange in Hc.
    destruct (HC c) as [A B]. rewrite A, B, Hrc0, Hcc0 by lia.
    unfold stars_in_region, stars_in_column. now rewrite !Z.add_0_l.
Qed.

Lemma b2z_range b : 0 <= b2z b <= 1.
Proof. destruct b; cbn; lia. Qed.

Ltac b2z_bounds :=
  repeat match goal with
         | |- context [b2z ?b] =>
             lazymatch goal with
             | _ : 0 <= b2z b <= 1 |- _ => fail
             | _ => pose proof (b2z_range b)
             end
         end.

Lemma in_stars r s : In (r, s) stars <-> 1 <= r <= 10 /\ 1 <= s <= 2.
Proof.
  unfold stars. rewrite in_flat_map. split.
  - intros (x & Hx & Hin). apply in_map_iff in Hin. destruct Hin as (y & E & Hy).
    inversion E; subst. apply in_zrange in Hx. apply in_zrange in Hy. lia.
  - intros [Hi Hj]. exists r. split; [apply in_zrange; lia|].
    apply in_map_iff. exists s. split; [reflexivity|apply in_zrange; lia].
Qed.

Lemma NoDup_stars : NoDup stars.
Proof. apply NoDup_grid; apply NoDup_zrange. Qed.

Lemma same_site_count p0 l :
  NoDup l -> In p0 l -> sum_over (fun p => b2z (same_site p p0)) l = 1.
Proof.
  induction l as [|a l IH]; intros Hnd Hin; [destruct Hin|].
  inversion Hnd as [|? ? Hnotin Hnd']; subst. rewrite sum_over_cons.
  destruct Hin as [->|Hin].
  - rewrite (proj2 (same_site_spec p0 p0) eq_refl). cbn [b2z].
    rewrite (sum_over_ext _ (fun _ => 0)).
    + assert (Z0 : forall l' : list (Z * Z), sum_over (fun _ => 0) l' = 0).
      { induction l' as [|x l' IH']; [reflexivity|]. rewrite sum_over_cons, IH'. lia. }
      rewrite Z0. lia.
    + intros q Hq. destruct (same_site q p0) eqn:E; [|reflexivity].
      apply same_site_true in E. subst q. contradiction.
  - rewrite IH by assumption.
    destruct (same_site a p0) eqn:E; [|cbn [b2z]; lia].
    apply same_site_true in E. subst a. contradiction.
Qed.

(** Changing one entry of a table changes a sum over its sites by the
    change of that site's term. *)
Lemma sum_over_upd2 (F : Z * Z -> Z -> Z) g i j v l :
  NoDup l -> In (i, j) l ->
  sum_over (fun p => F p (at_ (upd2 g i j v) p)) l
  = sum_over (fun p => F p (at_ g p)) l + (F (i, j) v - F (i, j) (g i j)).
Proof.
  intros Hnd Hin.
  rewrite (sum_over_ext _
             (fun p => F p (at_ g p)
                       + b2z (same_site p (i, j)) * (F (i, j) v - F (i, j) (g i j)))).
  - rewrite sum_over_plus, sum_over_scale, same_site_count by assumption. lia.
  - intros p _.
    change (at_ (upd2 g i j v) p) with (if same_site p (i, j) then v else at_ g p).
    destruct (same_site p (i, j)) eqn:E; cbn [b2z]; [|lia].
    apply same_site_true in E. subst p. unfold at_; cbn [fst snd]. lia.
Qed.

Lemma zsum_indicator a l : NoDup l -> 0 <= zsum (fun k => b2z (a =? k)) l <= 1.
Proof.
  induction l as [|h l IH]; intros Hnd; [cbn; lia|].
  inversion Hnd as [|? ? Hnotin Hnd']; subst. rewrite zsum_cons.
  destruct (Z.eqb_spec a h) as [->|Hne]; cbn [b2z]; [|specialize (IH Hnd'); lia].
  rewrite (zsum_ext _ (fun _ => 0)).
  - assert (Z0 : forall l' : list Z, zsum (fun _ => 0) l' = 0).
    { induction l' as [|x l' IH']; [reflexivity|]. rewrite zsum_cons, IH'. lia. }
    rewrite Z0. lia.
  - intros k Hk. destruct (Z.eqb_spec h k); [subst; contradiction|reflexivity].
Qed.

Lemma zsum_scale_l k f l : zsum (fun i => k * f i) l = k * zsum f l.
Proof.
  induction l as [|a l IH]; [cbn; lia|]. rewrite !zsum_cons, IH. lia.
Qed.

(** Moving one star changes the energy by at most 9. *)
Lemma TNT_move_bound reg rc cc rc' cc' col R S v :
  1 <= R <= 10 -> 1 <= S <= 2 ->
  TwoNotTouch.Energy reg rc' cc' (upd2 col R S v)
  - TwoNotTouch.Energy reg rc cc col <= 9.
Proof.
  intros HR HS. rewrite !TNT_Energy_sum.
  set (col' := upd2 col R S v).
  assert (Hin : In (R, S) stars) by (apply in_stars; lia).
  (* the counts *)
  assert (HCc : forall c, stars_in_column col' c
                          = stars_in_column col c
                            + (b2z (v =? c) - b2z (col R S =? c))).
  { intros c. apply (sum_over_upd2 (fun _ x => b2z (x =? c)) col R S v stars);
      [apply NoDup_stars|exact Hin]. }
  assert (HRg : forall c, stars_in_region reg col' c
                          = stars_in_region reg col c
                            + (b2z (reg R v =? c) - b2z (reg R (col R S) =? c))).
  { intros c.
    apply (sum_over_upd2 (fun p x => b2z (reg (fst p) x =? c)) col R S v stars);
      [apply NoDup_stars|exact Hin]. }
  assert (HA :
    zsum (fun c => Z.abs (stars_in_region reg col' c - 2)
                   + Z.abs (stars_in_column col' c - 2)) (zrange 1 10)
    <= zsum (fun c => Z.abs (stars_in_region reg col c - 2)
                      + Z.abs (stars_in_column col c - 2)) (zrange 1 10) + 4).
  { pose proof (zsum_indicator v (zrange 1 10) (NoDup_zrange 1 10)) as I1.
    pose proof (zsum_indicator (col R S) (zrange 1 10) (NoDup_zrange 1 10)) as I2.
    pose proof (zsum_indicator (reg R v) (zrange 1 10) (NoDup_zrange 1 10)) as I3.
    pose proof (zsum_indicator (reg R (col R S)) (zrange 1 10) (NoDup_zrange 1 10))
      as I4.
    pose proof (zsum_le
      (fun c => Z.abs (stars_in_region reg col' c - 2)
                + Z.abs (stars_in_column col' c - 2))
      (fun c => (Z.abs (stars_in_region reg col c - 2)
                 + Z.abs (stars_in_column col c - 2))
                + ((b2z (v =? c) + b2z (col R S =? c))
                   + (b2z (reg R v =? c) + b2z (reg R (col R S) =? c))))
      (zrange 1 10)) as L.
    rewrite (zsum_plus
               (fun c => Z.abs (stars_in_region reg col c - 2)
                         + Z.abs (stars_in_column col c - 2))
               (fun c => (b2z (v =? c) + b2z (col R S =? c))
                         + (b2z (reg R v =? c) + b2z (reg R (col R S) =? c)))) in L.
    rewrite (zsum_plus
               (fun c => b2z (v =? c) + b2z (col R S =? c))
               (fun c => b2z (reg R v =? c) + b2z (reg R (col R S) =? c))) in L.
    rewrite (zsum_plus (fun c => b2z (v =? c)) (fun c => b2z (col R S =? c))) in L.
    rewrite (zsum_plus (fun c => b2z (reg R v =? c))
                       (fun c => b2z (reg R (col R S) =? c))) in L.
    assert (Hpt : forall k, In k (zrange 1 10) ->
      Z.abs (stars_in_region reg col' k - 2) + Z.abs (stars_in_column col' k - 2)
      <= Z.abs (stars_in_region reg col k - 2) + Z.abs (stars_in_column col k - 2)
         + (b2z (v =? k) + b2z (col R S =? k)
            + (b2z (reg R v =? k) + b2z (reg R (col R S) =? k)))).
    { intros k _. rewrite HCc, HRg. b2z_bounds. lia. }
    specialize (L Hpt). lia. }
  assert (HT1 : zsum (same_row_term col') (zrange 1 10)
                <= zsum (same_row_term col) (zrange 1 10) + 1).
  { pose proof (zsum_indicator R (zrange 1 10) (NoDup_zrange 1 10)) as I1.
    pose proof (zsum_le (same_row_term col')
                        (fun r => same_row_term col r + b2z (R =? r)) (zrange 1 10))
      as L.
    rewrite (zsum_plus (same_row_term col) (fun r => b2z (R =? r))) in L.
    assert (Hpt : forall k, In k (zrange 1 10) ->
                    same_row_term col' k <= same_row_term col k + b2z (R =? k)).
    { intros k _. unfold same_row_term. subst col'.
      destruct (Z.eqb_spec R k) as [E0|Hne].
      - b2z_bounds. cbn [b2z]. lia.
      - rewrite !upd2_other by (left; lia). cbn [b2z]. lia. }
    specialize (L Hpt). lia. }
  assert (HT2 : zsum (next_row_terms col') (zrange 1 9)
                <= zsum (next_row_terms col) (zrange 1 9) + 4).
  { pose proof (zsum_indicator R (zrange 1 9) (NoDup_zrange 1 9)) as I1.
    pose proof (zsum_indicator (R - 1) (zrange 1 9) (NoDup_zrange 1 9)) as I2.
    pose proof (zsum_le (next_row_terms col')
                        (fun r => next_row_terms col r
                                  + (2 * b2z (R =? r) + 2 * b2z (R - 1 =? r)))
                        (zrange 1 9)) as L.
    rewrite (zsum_plus (next_row_terms col)
                       (fun r => 2 * b2z (R =? r) + 2 * b2z (R - 1 =? r))) in L.
    rewrite (zsum_plus (fun r => 2 * b2z (R =? r))
                       (fun r => 2 * b2z (R - 1 =? r))) in L.
    rewrite !zsum_scale_l in L.
    assert (Hpt : forall k, In k (zrange 1 9) ->
                    next_row_terms col' k
                    <= next_row_terms col k
                       + (2 * b2z (R =? k) + 2 * b2z (R - 1 =? k))).
    { intros k _. unfold next_row_terms. subst col'.
      destruct (Z.eqb_spec R k) as [E0|Hne];
        destruct (Z.eqb_spec (R - 1) k) as [E1|Hne1]; try lia; cbn [b2z].
      - subst k. assert (S = 1 \/ S = 2) as [-> | ->] by lia.
        + rewrite (upd2_other col R 1 v R 2), (upd2_other col R 1 v (R + 1) 1),
            (upd2_other col R 1 v (R + 1) 2) by lia.
          b2z_bounds. lia.
        + rewrite (upd2_other col R 2 v R 1), (upd2_other col R 2 v (R + 1) 1),
            (upd2_other col R 2 v (R + 1) 2) by lia.
          b2z_bounds. lia.
      - replace (k + 1) with R by lia.
        assert (S = 1 \/ S = 2) as [-> | ->] by lia.
        + rewrite (upd2_other col R 1 v k 1), (upd2_other col R 1 v k 2),
            (upd2_other col R 1 v R 2) by lia.
          b2z_bounds. lia.
        + rewrite (upd2_other col R 2 v k 1), (upd2_other col R 2 v k 2),
            (upd2_other col R 2 v R 1) by lia.
          b2z_bounds. lia.
      - rewrite !upd2_other by (left; lia). lia. }
    specialize (L Hpt). lia. }
  lia.
Qed.

Lemma TNT_Energy_ext reg rc cc rc' cc' col col' :
  (forall r s, col' r s = col r s) ->
  TwoNotTouch.Energy reg rc' cc' col' = TwoNotTouch.Energy reg rc cc col.
Proof.
  intros H. rewrite !TNT_Energy_sum.
  assert (Hat : forall p, at_ col' p = at_ col p) by (intros p; apply H).
  f_equal; [f_equal|].
  - apply zsum_ext. intros c _. unfold stars_in_region, stars_in_column.
    f_equal; f_equal; f_equal; apply sum_over_ext; intros p _; now rewrite Hat.
  - apply zsum_ext. intros r _. unfold same_row_term. now rewrite !H.
  - apply zsum_ext. intros r _. unfold next_row_terms. now rewrite !H.
Qed.

Lemma TNT_Energy_nonneg reg rc cc col : 0 <= TwoNotTouch.Energy reg rc cc col.
Proof.
  rewrite TNT_Energy_sum.
  assert (0 <= zsum (fun c => Z.abs (stars_in_region reg col c - 2)
                              + Z.abs (stars_in_column col c - 2)) (zrange 1 10))
    by (apply zsum_nonneg; intros; lia).
  assert (0 <= zsum (same_row_term col) (zrange 1 10)).
  { apply zsum_nonneg. intros r _. unfold same_row_term. b2z_bounds. lia. }
  assert (0 <= zsum (next_row_terms col) (zrange 1 9)).
  { apply zsum_nonneg. intros r _. unfold next_row_terms. b2z_bounds. lia. }
  lia.
Qed.

Lemma TNT_Energy_zero reg rc cc col :
  (forall r, 1 <= r <= 10 -> col r 1 <> col r 2) ->
  TwoNotTouch.Energy reg rc cc col = 0 <-> two_not_touch reg col.
Proof.
  intros Hrow. rewrite TNT_Energy_sum.
  set (A := fun c => Z.abs (stars_in_region reg col c - 2)
                     + Z.abs (stars_in_column col c - 2)).
  assert (HA : forall k, In k (zrange 1 10) -> 0 <= A k)
    by (intros; subst A; cbv beta; lia).
  assert (H1 : forall k, In k (zrange 1 10) -> 0 <= same_row_term col k)
    by (intros; unfold same_row_term; b2z_bounds; lia).
  assert (H2 : forall k, In k (zrange 1 9) -> 0 <= next_row_terms col k)
    by (intros; unfold next_row_terms; b2z_bounds; lia).
  pose proof (zsum_nonneg _ _ HA) as NA. pose proof (zsum_nonneg _ _ H1) as N1.
  pose proof (zsum_nonneg _ _ H2) as N2.
  pose proof (zsum_zero _ _ HA) as ZA. pose proof (zsum_zero _ _ H1) as Z1.
  pose proof (zsum_zero _ _ H2) as Z2.
  split.
  - intros E.
    assert (EA : zsum A (zrange 1 10) = 0) by lia.
    assert (E1 : zsum (same_row_term col) (zrange 1 10) = 0) by lia.
    assert (E2 : zsum (next_row_terms col) (zrange 1 9) = 0) by lia.
    pose proof (proj1 ZA EA) as PA. pose proof (proj1 Z1 E1) as P1.
    pose proof (proj1 Z2 E2) as P2. clear ZA Z1 Z2.
    split.
    + intros c Hc. specialize (PA c (proj2 (in_zrange 1 10 c) ltac:(lia))).
      subst A. cbv beta in PA. lia.
    + intros [r s] [r' s'] Hp Hq Hne [T1 T2].
      apply in_stars in Hp. apply in_stars in Hq.
      unfold at_ in T2. cbn [fst snd] in T1, T2.
      assert (Hs : (s = 1 \/ s = 2) /\ (s' = 1 \/ s' = 2)) by lia.
      assert (Hr : r' = r \/ r' = r + 1 \/ r = r' + 1) by lia.
      destruct Hr as [-> |[-> | ->]].
      * specialize (P1 r (proj2 (in_zrange 1 10 r) ltac:(lia))).
        unfold same_row_term in P1. specialize (Hrow r ltac:(lia)).
        destruct (Z.eqb_spec (Z.abs (col r 1 - col r 2)) 1); cbn [b2z] in P1; [lia|].
        destruct Hs as [[-> | ->] [-> | ->]]; try (apply Hne; reflexivity); lia.
      * specialize (P2 r (proj2 (in_zrange 1 9 r) ltac:(lia))).
        unfold next_row_terms in P2.
        destruct (Z.leb_spec (Z.abs (col r 1 - col (r + 1) 1)) 1);
          destruct (Z.leb_spec (Z.abs (col r 1 - col (r + 1) 2)) 1);
          destruct (Z.leb_spec (Z.abs (col r 2 - col (r + 1) 1)) 1);
          destruct (Z.leb_spec (Z.abs (col r 2 - col (r + 1) 2)) 1);
          cbn [b2z] in P2; try lia.
        destruct Hs as [[-> | ->] [-> | ->]]; lia.
      * specialize (P2 r' (proj2 (in_zrange 1 9 r') ltac:(lia))).
        unfold next_row_terms in P2.
        destruct (Z.leb_spec (Z.abs (col r' 1 - col (r' + 1) 1)) 1);
          destruct (Z.leb_spec (Z.abs (col r' 1 - col (r' + 1) 2)) 1);
          destruct (Z.leb_spec (Z.abs (col r' 2 - col (r' + 1) 1)) 1);
          destruct (Z.leb_spec (Z.abs (col r' 2 - col (r' + 1) 2)) 1);
          cbn [b2z] in P2; try lia.
        destruct Hs as [[-> | ->] [-> | ->]]; lia.
  - intros [HC HT].
    assert (Touch : forall r s r' s',
               1 <= r <= 10 -> 1 <= r' <= 10 -> 1 <= s <= 2 -> 1 <= s' <= 2 ->
               (r, s) <> (r', s') -> Z.abs (r - r') <= 1 ->
               1 < Z.abs (col r s - col r' s')).
    { intros r s r' s' Hr Hr' Hs Hs' Hne Hd.
      destruct (Z.leb_spec (Z.abs (col r s - col r' s')) 1) as [L|L]; [|lia].
      exfalso. apply (HT (r, s) (r', s')); [apply in_stars; lia|apply in_stars; lia| |].
      - exact Hne.
      - split; unfold at_; cbn [fst snd]; lia. }
    rewrite (proj2 ZA), (proj2 Z1), (proj2 Z2); [reflexivity| | |].
    + intros r Hr. apply in_zrange in Hr. unfold next_row_terms.
      pose proof (Touch r 1 (r + 1) 1 ltac:(lia) ltac:(lia) ltac:(lia) ltac:(lia)
                        ltac:(intros C; inversion C; lia) ltac:(lia)).
      pose proof (Touch r 1 (r + 1) 2 ltac:(lia) ltac:(lia) ltac:(lia) ltac:(lia)
                        ltac:(intros C; inversion C; lia) ltac:(lia)).
      pose proof (Touch r 2 (r + 1) 1 ltac:(lia) ltac:(lia) ltac:(lia) ltac:(lia)
                        ltac:(intros C; inversion C; lia) ltac:(lia)).
      pose proof (Touch r 2 (r + 1) 2 ltac:(lia) ltac:(lia) ltac:(lia) ltac:(lia)
                        ltac:(intros C; inversion C; lia) ltac:(lia)).
      destruct (Z.leb_spec (Z.abs (col r 1 - col (r + 1) 1)) 1);
        destruct (Z.leb_spec (Z.abs (col r 1 - col (r + 1) 2)) 1);
        destruct (Z.leb_spec (Z.abs (col r 2 - col (r + 1) 1)) 1);
        destruct (Z.leb_spec (Z.abs (col r 2 - col (r + 1) 2)) 1);
        cbn [b2z]; lia.
    + intros r Hr. apply in_zrange in Hr. unfold same_row_term.
      pose proof (Touch r 1 r 2 ltac:(lia) ltac:(lia) ltac:(lia) ltac:(lia)
                        ltac:(intros C; inversion C) ltac:(lia)).
      destruct (Z.eqb_spec (Z.abs (col r 1 - col r 2)) 1); cbn [b2z]; lia.
    + intros c Hc. apply in_zrange in Hc. subst A. cbv beta.
      destruct (HC c ltac:(lia)) as [-> ->]. lia.
Qed.

(** ** Two Not Touch: the chain *)

Lemma Proposal_loop_spec g : forall col R S C c col' g',
  Forall word g ->
  TwoNotTouch.Proposal_loop col R S C c g = Done (col', g') ->
  exists v, 1 <= v <= 10 /\ v <> C /\ v <> c
            /\ (forall r s, col' r s = upd2 col R S v r s)
            /\ Forall word g'.
Proof.
  induction g as [|N g IH]; intros col R S C c col' g' Hw H;
    cbn [TwoNotTouch.Proposal_loop] in H; [discriminate|].
  inversion Hw as [|? ? HN Hw']; subst. cbv zeta in H.
  rewrite upd2_same in H.
  destruct (Z.eqb_spec (RandomInteger_of 1 10 N) C) as [E1|E1];
    [|destruct (Z.eqb_spec (RandomInteger_of 1 10 N) c) as [E2|E2]];
    cbn [negb andb] in H.
  - destruct (IH _ _ _ _ _ _ _ Hw' H) as (v & Hv & H1 & H2 & H3 & H4).
    exists v. split; [exact Hv|]. split; [exact H1|]. split; [exact H2|].
    split; [|exact H4]. intros r s. rewrite H3. unfold upd2.
    destruct ((r =? R) && (s =? S)); reflexivity.
  - destruct (IH _ _ _ _ _ _ _ Hw' H) as (v & Hv & H1 & H2 & H3 & H4).
    exists v. split; [exact Hv|]. split; [exact H1|]. split; [exact H2|].
    split; [|exact H4]. intros r s. rewrite H3. unfold upd2.
    destruct ((r =? R) && (s =? S)); reflexivity.
  - inversion H; subst. exists (RandomInteger_of 1 10 N).
    split; [apply RandomInteger_of_range; [assumption|lia]|]. auto.
Qed.

Lemma TNT_Proposal_spec st g st' g' :
  Forall word g -> TwoNotTouch.Proposal st g = Done (st', g') ->
  exists v,
    1 <= TwoNotTouch.R st' <= 10 /\ 1 <= TwoNotTouch.S st' <= 2
    /\ TwoNotTouch.C st' = TwoNotTouch.col st (TwoNotTouch.R st') (TwoNotTouch.S st')
    /\ 1 <= v <= 10
    /\ v <> TwoNotTouch.col st (TwoNotTouch.R st') (3 - TwoNotTouch.S st')
    /\ (forall r s, TwoNotTouch.col st' r s
                    = upd2 (TwoNotTouch.col st) (TwoNotTouch.R st')
                           (TwoNotTouch.S st') v r s)
    /\ Forall word g'.
Proof.
  intros Hw H. unfold TwoNotTouch.Proposal in H.
  destruct (RandomInteger 1 10 g) as [[R g1]| |] eqn:H1; cbn [bind] in H;
    try discriminate.
  destruct (RandomInteger_draw 1 10 g R g1 Hw ltac:(lia) H1) as (HR & Hw1).
  destruct (RandomInteger 1 2 g1) as [[S g2]| |] eqn:H2; cbn [bind] in H;
    try discriminate.
  destruct (RandomInteger_draw 1 2 g1 S g2 Hw1 ltac:(lia) H2) as (HS & Hw2).
  cbv zeta in H.
  destruct (TwoNotTouch.Proposal_loop _ R S _ _ g2) as [[col' g3]| |] eqn:H3;
    cbn [bind] in H; try discriminate.
  inversion H; subst. cbn [TwoNotTouch.R TwoNotTouch.S TwoNotTouch.C TwoNotTouch.col].
  destruct (Proposal_loop_spec _ _ _ _ _ _ _ _ Hw2 H3) as (v & Hv & _ & Hc & Hcol & Hw3).
  exists v. repeat split; auto; lia.
Qed.

Lemma star_grid_ext reg col col' :
  (forall r s, col' r s = col r s) -> star_grid reg col -> star_grid reg col'.
Proof.
  intros H (A & B & D). split; [|split; [|exact D]].
  - intros p Hp. unfold at_. rewrite H. now apply A.
  - intros r Hr. rewrite !H. now apply B.
Qed.

Lemma star_grid_move reg col R S v :
  star_grid reg col -> 1 <= R <= 10 -> 1 <= S <= 2 -> 1 <= v <= 10 ->
  v <> col R (3 - S) ->
  star_grid reg (upd2 col R S v).
Proof.
  intros (A & B & D) HR HS Hv Hne. split; [|split; [|exact D]].
  - intros p Hp.
    change (at_ (upd2 col R S v) p) with (if same_site p (R, S) then v else at_ col p).
    destruct (same_site p (R, S)); [lia|now apply A].
  - intros r Hr.
    destruct (Z.eq_dec r R) as [->|Hr'].
    + assert (S = 1 \/ S = 2) as [-> | ->] by lia.
      * replace (3 - 1) with 2 in Hne by lia.
        rewrite upd2_same, upd2_other by (right; lia). exact Hne.
      * replace (3 - 2) with 1 in Hne by lia.
        rewrite upd2_same, upd2_other by (right; lia).
        intros C. apply Hne. now rewrite C.
    + rewrite !upd2_other by (left; assumption). now apply B.
Qed.

(** After a [destruct] of the head of a [do]: reduce [bind] and close
    the branches that ended without a value. *)
Ltac bind_step H :=
  cbn [bind] in H;
  try match type of H with
      | NeedMore = _ => discriminate H
      | Undefined = _ => discriminate H
      | Done _ = Undefined => discriminate H
      | Done _ = NeedMore => discriminate H
      end.

Lemma Done_triple {A B C : Type} (a a' : A) (b b' : B) (c c' : C) :
  Done (a, b, c) = Done (a', b', c') -> a' = a /\ b' = b /\ c' = c.
Proof. intros H. inversion H. auto. Qed.

Lemma Done_pair {A B : Type} (a a' : A) (b b' : B) :
  Done (a, b) = Done (a', b') -> a' = a /\ b' = b.
Proof. intros H. inversion H. auto. Qed.

Lemma Proposal_loop_defined g : forall col R S C c,
  TwoNotTouch.Proposal_loop col R S C c g <> Undefined.
Proof.
  induction g as [|N g IH]; intros col R S C c H;
    cbn [TwoNotTouch.Proposal_loop] in H; [discriminate H|].
  cbv zeta in H.
  match type of H with
  | (if ?b then _ else _) = _ => destruct b
  end; [discriminate H|]. exact (IH _ _ _ _ _ H).
Qed.

(** The chain of [Metropolis], for an energy function that depends on
    the configuration only, is never negative, and changes by at most
    9 when one star is moved. *)
Section TwoNotTouchChain.
Variable reg : Z -> Z -> Z.
Variable En : (Z -> Z -> Z) -> Z.
Hypothesis En_ext :
  forall col col', (forall r s, col' r s = col r s) -> En col' = En col.
Hypothesis En_nonneg : forall col, 0 <= En col.
Hypothesis En_move :
  forall col R S v, 1 <= R <= 10 -> 1 <= S <= 2 ->
                    En (upd2 col R S v) - En col <= 9.

Lemma TNT_step_inv T P st E g st' E' g' :
  Forall word g -> star_grid reg (TwoNotTouch.col st) ->
  E = En (TwoNotTouch.col st) ->
  TwoNotTouch.Metropolis_step (En) T P st E g
  = Done (st', E', g') ->
  E' = En (TwoNotTouch.col st')
  /\ star_grid reg (TwoNotTouch.col st')
  /\ Forall word g'.
Proof.
  intros Hw HG HE H. unfold TwoNotTouch.Metropolis_step in H.
  destruct (TwoNotTouch.Proposal st g) as [[st1 g1]| |] eqn:Hp; bind_step H.
  destruct (TNT_Proposal_spec st g st1 g1 Hw Hp)
    as (v & HR & HS & HC & Hv & Hne & Hcol & Hw1).
  cbv zeta in H.
  destruct (AcceptTransition T P _ g1) as [[acc g2]| |] eqn:Ha; bind_step H.
  pose proof (AcceptTransition_words _ _ _ _ _ _ Hw1 Ha) as Hw2.
  destruct acc; apply Done_triple in H; destruct H as (-> & -> & ->).
  - split; [subst E; lia|]. split; [|assumption].
    apply (star_grid_ext reg (upd2 (TwoNotTouch.col st) (TwoNotTouch.R st1)
                                   (TwoNotTouch.S st1) v)); [exact Hcol|].
    apply star_grid_move; assumption.
  - assert (Hback : forall r s,
               TwoNotTouch.col (TwoNotTouch.ChangeBack st1) r s
               = TwoNotTouch.col st r s).
    { intros r s. unfold TwoNotTouch.ChangeBack. cbn [TwoNotTouch.col].
      unfold upd2 at 1.
      destruct (Z.eqb_spec r (TwoNotTouch.R st1)) as [->|Hr];
        [destruct (Z.eqb_spec s (TwoNotTouch.S st1)) as [->|Hs]|]; cbn [andb].
      - exact HC.
      - rewrite Hcol. apply upd2_other. right. exact Hs.
      - rewrite Hcol. apply upd2_other. left. exact Hr. }
    split; [subst E; apply eq_sym, En_ext, Hback|].
    split; [|assumption]. apply (star_grid_ext reg (TwoNotTouch.col st)); assumption.
Qed.

(** With [E] the energy of the current configuration, the change of
    energy is at most 9, inside [P[1..24]]. *)
Lemma TNT_step_defined T P st E g :
  Forall word g -> length P = 25%nat ->
  E = En (TwoNotTouch.col st) ->
  TwoNotTouch.Metropolis_step (En) T P st E g
  <> Undefined.
Proof.
  intros Hw HP HE H. unfold TwoNotTouch.Metropolis_step in H.
  destruct (TwoNotTouch.Proposal st g) as [[st1 g1]| |] eqn:Hp; bind_step H.
  - destruct (TNT_Proposal_spec st g st1 g1 Hw Hp)
      as (v & HR & HS & HC & Hv & Hne & Hcol & Hw1).
    cbv zeta in H.
    pose proof (En_move (TwoNotTouch.col st)
                  (TwoNotTouch.R st1) (TwoNotTouch.S st1) v HR HS) as Hb.
    rewrite <- (En_ext _ (TwoNotTouch.col st1) Hcol) in Hb.
    rewrite <- HE in Hb.
    set (deltaE := En (TwoNotTouch.col st1) - E) in *.
    unfold AcceptTransition in H.
    destruct (Z.leb_spec deltaE 0); cbn [bind] in H.
    + discriminate H.
    + destruct (positive_temp T); bind_step H.
      destruct g1 as [|N g1]; cbn [MTUniform bind] in H; [discriminate H|].
      destruct (read_in_range P deltaE) as [q Hq]; [rewrite HP; lia|].
      rewrite Hq in H. cbn [bind] in H.
      destruct (Qle_bool (uniform N) q); discriminate H.
  - unfold TwoNotTouch.Proposal in Hp.
    destruct g as [|N1 g]; cbn [RandomInteger bind] in Hp; [discriminate Hp|].
    destruct g as [|N2 g]; cbn [RandomInteger bind] in Hp; [discriminate Hp|].
    cbv zeta in Hp.
    match type of Hp with
    | context [TwoNotTouch.Proposal_loop ?a ?b ?c ?d ?e ?f] =>
        destruct (TwoNotTouch.Proposal_loop a b c d e f) as [[col' g3]| |] eqn:H3
    end; bind_step Hp.
    exact (Proposal_loop_defined _ _ _ _ _ _ H3).
Qed.

Lemma TNT_loop_inv T P steps : forall st E g st' g',
  Forall word g -> star_grid reg (TwoNotTouch.col st) ->
  E = En (TwoNotTouch.col st) ->
  TwoNotTouch.Metropolis_loop steps (En) T P st E g
  = Done (st', g') ->
  En (TwoNotTouch.col st') = 0
  /\ star_grid reg (TwoNotTouch.col st').
Proof.
  induction steps as [|steps IH]; intros st E g st' g' Hw HG HE H;
    cbn [TwoNotTouch.Metropolis_loop] in H;
    destruct (Z.gtb_spec E 0) as [Hpos|Hz]; try discriminate H.
  - apply Done_pair in H. destruct H as (-> & ->).
    pose proof (En_nonneg (TwoNotTouch.col st)).
    split; [lia|assumption].
  - destruct (TwoNotTouch.Metropolis_step _ T P st E g) as [[[st1 E1] g1]| |] eqn:Hs;
      bind_step H.
    destruct (TNT_step_inv T P st E g st1 E1 g1 Hw HG HE Hs)
      as (HE1 & HG1 & Hw1).
    apply (IH st1 E1 g1 st' g' Hw1 HG1 HE1 H).
  - apply Done_pair in H. destruct H as (-> & ->).
    pose proof (En_nonneg (TwoNotTouch.col st)).
    split; [lia|assumption].
Qed.

End TwoNotTouchChain.

Lemma second_star_spec g : forall col r col' g',
  Forall word g -> 
  TwoNotTouch.second_star col r g = Done (col', g') ->
  exists v, 1 <= v <= 10 /\ v <> col r 1
            /\ (forall x y, col' x y = upd2 col r 2 v x y)
            /\ Forall word g'.
Proof.
  induction g as [|N g IH]; intros col r col' g' Hw H;
    cbn [TwoNotTouch.second_star] in H; [discriminate|].
  inversion Hw as [|? ? HN Hw']; subst. cbv zeta in H.
  rewrite upd2_same, (upd2_other col r 2 _ r 1) in H by (right; lia).
  destruct (Z.eqb_spec (RandomInteger_of 1 10 N) (col r 1)) as [E1|E1];
    cbn [negb] in H.
  - destruct (IH _ _ _ _ Hw' H) as (v & Hv & H1 & H3 & H4).
    rewrite (upd2_other col r 2 _ r 1) in H1 by (right; lia).
    exists v. split; [exact Hv|]. split; [exact H1|]. split; [|exact H4].
    intros x y. rewrite H3. unfold upd2.
    destruct ((x =? r) && (y =? 2)); reflexivity.
  - inversion H; subst. exists (RandomInteger_of 1 10 N).
    split; [apply RandomInteger_of_range; [assumption|lia]|]. auto.
Qed.

Lemma place_stars_spec rows : forall col g col' g',
  Forall word g -> NoDup rows ->
  TwoNotTouch.place_stars rows col g = Done (col', g') ->
  (forall r, In r rows ->
             1 <= col' r 1 <= 10 /\ 1 <= col' r 2 <= 10 /\ col' r 1 <> col' r 2)
  /\ (forall r s, ~ In r rows -> col' r s = col r s)
  /\ Forall word g'.
Proof.
  induction rows as [|r0 rows IH]; intros col g col' g' Hw Hnd H;
    cbn [TwoNotTouch.place_stars] in H.
  - inversion H; subst. split; [intros r []|]. auto.
  - inversion Hnd as [|? ? Hnotin Hnd']; subst.
    destruct (RandomInteger 1 10 g) as [[c1 g1]| |] eqn:H1; bind_step H.
    destruct (RandomInteger_draw 1 10 g c1 g1 Hw ltac:(lia) H1) as (Hc1 & Hw1).
    cbv zeta in H.
    destruct (TwoNotTouch.second_star (upd2 col r0 1 c1) r0 g1) as [[col2 g2]| |] eqn:H2;
      bind_step H.
    destruct (second_star_spec _ _ _ _ _ Hw1 H2) as (v & Hv & Hne & Hcol2 & Hw2).
    rewrite upd2_same in Hne.
    destruct (IH _ _ _ _ Hw2 Hnd' H) as (A & B & D).
    split; [|split; [|exact D]].
    + intros r [<-|Hr]; [|now apply A].
      rewrite !(B r0) by assumption. rewrite !Hcol2.
      rewrite upd2_same, (upd2_other _ r0 2 v r0 1) by (right; lia).
      rewrite upd2_same. lia.
    + intros r s Hr. rewrite B by (intros C; apply Hr; now right).
      rewrite Hcol2. rewrite !upd2_other; [reflexivity| |];
        left; intros ->; apply Hr; now left.
Qed.

Lemma GetPuzzle_star_grid reg col g col' g' :
  (forall r c, 1 <= r <= 10 -> 1 <= c <= 10 -> 1 <= reg r c <= 10) ->
  Forall word g -> TwoNotTouch.GetPuzzle col g = Done (col', g') ->
  star_grid reg col' /\ Forall word g'.
Proof.
  intros Hreg Hw H. unfold TwoNotTouch.GetPuzzle in H.
  destruct g as [|N g]; cbn [MTUniform bind] in H; [discriminate|].
  inversion Hw as [|? ? _ Hw0]; subst.
  destruct (place_stars_spec (zrange 1 10) col g col' g' Hw0 (NoDup_zrange 1 10) H)
    as (A & _ & D).
  split; [|exact D]. split; [|split; [|exact Hreg]].
  - intros [r s] Hp. apply in_stars in Hp. unfold at_; cbn [fst snd].
    destruct (A r (proj2 (in_zrange 1 10 r) ltac:(lia))) as (A1 & A2 & _).
    assert (s = 1 \/ s = 2) as [-> | ->] by lia; assumption.
  - intros r Hr. now destruct (A r (proj2 (in_zrange 1 10 r) ltac:(lia))).
Qed.

(** ** What the Two Not Touch solver guarantees *)

(** X24.  Two Not Touch, [Energy]: for a configuration whose stars lie
    in the columns 1..10 with the two stars of a row in different
    columns (what [GetPuzzle] sets up and [Proposal] maintains),
    [Energy ()] is 0 - the exit condition of [while (E > 0)] - exactly
    when the puzzle is solved: every column and every region holds two
    stars and no two stars touch, not even diagonally.  The value does
    not depend on what the local arrays [regcount], [colcount] held on
    entry. *)
Theorem TNT_Energy_zero_iff_solved
        (reg : Z -> Z -> Z) (regcount colcount : Z -> Z) (col : Z -> Z -> Z) :
  star_grid reg col ->
  (TwoNotTouch.Energy reg regcount colcount col = 0 <-> two_not_touch reg col).
Proof.
  intros (_ & Hrow & _). now apply TNT_Energy_zero.
Qed.

Lemma stars_solved_grid : star_grid Samples.regions_by_row Samples.stars_solved.
Proof.
  split; [|split].
  - intros [r s] Hp. apply in_stars in Hp. unfold at_, Samples.stars_solved.
    cbn [fst snd]. pose proof (Z.mod_pos_bound (2 * (r - 1)) 5 ltac:(lia)). lia.
  - intros r Hr. unfold Samples.stars_solved. lia.
  - intros r c Hr Hc. unfold Samples.regions_by_row. lia.
Qed.

Lemma TNT_Energy_zero_iff_solved_witness :
  star_grid Samples.regions_by_row Samples.stars_solved
  /\ TwoNotTouch.Energy Samples.regions_by_row (fun _ => 7) (fun _ => 7)
                        Samples.stars_solved = 0
  /\ two_not_touch Samples.regions_by_row Samples.stars_solved.
Proof.
  split; [exact stars_solved_grid|]. split; [vm_compute; reflexivity|].
  apply (proj1 (TNT_Energy_zero_iff_solved Samples.regions_by_row
                  (fun _ => 7) (fun _ => 7) Samples.stars_solved
                  stars_solved_grid)).
  vm_compute. reflexivity.
Defined.

(** X25.  Two Not Touch, the body of the loop of [Metropolis]: with
    [E] the energy of the current configuration, the read [P[deltaE]]
    always falls inside the block of 25 doubles.  Moving one star
    changes two column counts and two region counts by one, one
    same-row term and at most four next-row terms, so
    [deltaE <= 9]. *)
Theorem TNT_reads_inside_table
        (reg : Z -> Z -> Z) (regcount colcount : Z -> Z) (T : Q) (P : list Q)
        (st : TwoNotTouch.config) (E : Z) (g : rng) :
  Forall word g -> length P = 25%nat ->
  E = TwoNotTouch.Energy reg regcount colcount (TwoNotTouch.col st) ->
  TwoNotTouch.Metropolis_step (TwoNotTouch.Energy reg regcount colcount) T P st E g
  <> Undefined.
Proof.
  intros Hw HP HE.
  apply (TNT_step_defined (TwoNotTouch.Energy reg regcount colcount)
           (fun col col' => TNT_Energy_ext reg regcount colcount regcount colcount
                                           col col')
           (fun col R S v => TNT_move_bound reg regcount colcount regcount colcount
                                            col R S v)
           T P st E g Hw HP HE).
Qed.

Lemma TNT_reads_inside_table_witness :
  TwoNotTouch.Energy Samples.regions_by_row (fun _ => 0) (fun _ => 0)
                     Samples.stars_solved = 0
  /\ TwoNotTouch.Energy Samples.regions_by_row (fun _ => 0) (fun _ => 0)
                        (upd2 Samples.stars_solved 2 1 2) = 3
  /\ TwoNotTouch.Metropolis_step
       (TwoNotTouch.Energy Samples.regions_by_row (fun _ => 0) (fun _ => 0))
       (1 # 2) (repeat (1 # 2)%Q 25)
       (TwoNotTouch.mkConfig Samples.stars_solved 0 0 0) 0
       [Samples.column_word 2; 0; Samples.column_word 2; 0]
     <> Undefined.
Proof.
  split; [vm_compute; reflexivity|]. split; [vm_compute; reflexivity|].
  apply (TNT_reads_inside_table Samples.regions_by_row (fun _ => 0) (fun _ => 0)
           (1 # 2) (repeat (1 # 2)%Q 25)
           (TwoNotTouch.mkConfig Samples.stars_solved 0 0 0) 0
           [Samples.column_word 2; 0; Samples.column_word 2; 0]).
  - apply all_words_spec. vm_compute. reflexivity.
  - vm_compute. reflexivity.
  - vm_compute. reflexivity.
Defined.

(** X26.  Two Not Touch, [GetPuzzle] followed by [Metropolis]: for a
    grid whose squares all belong to regions 1..10, whenever the loop
    [while (E > 0)] is left the configuration solves the puzzle: two
    stars in every row, every column and every region, and no two
    stars touching.  The random start puts the two stars of each row
    in different columns 1..10, every pass keeps that, and [E] stays
    equal to [Energy ()]. *)
Theorem TNT_result_is_solved
        (reg : Z -> Z -> Z) (regcount colcount : Z -> Z) (T : Q) (P : list Q)
        (col0 : Z -> Z -> Z) (g : rng) (steps : nat)
        (col1 : Z -> Z -> Z) (g1 : rng) (R S C : Z)
        (st' : TwoNotTouch.config) (g' : rng) :
  (forall r c, 1 <= r <= 10 -> 1 <= c <= 10 -> 1 <= reg r c <= 10) ->
  Forall word g ->
  TwoNotTouch.GetPuzzle col0 g = Done (col1, g1) ->
  TwoNotTouch.Metropolis steps (TwoNotTouch.Energy reg regcount colcount) T P
                         (TwoNotTouch.mkConfig col1 R S C) g1
  = Done (st', g') ->
  star_grid reg (TwoNotTouch.col st')
  /\ two_not_touch reg (TwoNotTouch.col st').
Proof.
  intros Hreg Hw H1 H2.
  destruct (GetPuzzle_star_grid reg col0 g col1 g1 Hreg Hw H1) as (HG & Hw1).
  unfold TwoNotTouch.Metropolis in H2. cbn [TwoNotTouch.col] in H2.
  destruct (TNT_loop_inv reg (TwoNotTouch.Energy reg regcount colcount)
              (fun col col' => TNT_Energy_ext reg regcount colcount regcount colcount
                                              col col')
              (TNT_Energy_nonneg reg regcount colcount)
              T P steps (TwoNotTouch.mkConfig col1 R S C)
              (TwoNotTouch.Energy reg regcount colcount col1) g1 st' g'
              Hw1 HG eq_refl H2) as (E0 & HG').
  split; [exact HG'|].
  destruct HG' as (_ & Hrow & _).
  exact (proj1 (TNT_Energy_zero reg regcount colcount _ Hrow) E0).
Qed.

Lemma TNT_result_is_solved_witness :
  exists col1 st',
    TwoNotTouch.GetPuzzle (fun _ _ => 0) (0 :: Samples.stars_almost_words ++ [0; 0; 0])
    = Done (col1, [0; 0; 0])
    /\ col1 1 1 = 2
    /\ TwoNotTouch.Metropolis 1
         (TwoNotTouch.Energy Samples.regions_by_row (fun _ => 0) (fun _ => 0))
         (1 # 2) (repeat (1 # 2)%Q 25) (TwoNotTouch.mkConfig col1 0 0 0) [0; 0; 0]
       = Done (st', [])
    /\ TwoNotTouch.col st' 1 1 = 1
    /\ star_grid Samples.regions_by_row (TwoNotTouch.col st')
    /\ two_not_touch Samples.regions_by_row (TwoNotTouch.col st').
Proof.
  pose (col1 := match TwoNotTouch.GetPuzzle (fun _ _ => 0)
                        (0 :: Samples.stars_almost_words ++ [0; 0; 0]) with
                | Done (col1, _) => col1
                | _ => fun _ _ => 0
                end).
  pose (st' := match TwoNotTouch.Metropolis 1
                       (TwoNotTouch.Energy Samples.regions_by_row
                                           (fun _ => 0) (fun _ => 0))
                       (1 # 2) (repeat (1 # 2)%Q 25)
                       (TwoNotTouch.mkConfig col1 0 0 0) [0; 0; 0] with
               | Done (st', _) => st'
               | _ => TwoNotTouch.mkConfig (fun _ _ => 0) 0 0 0
               end).
  assert (H1 : TwoNotTouch.GetPuzzle (fun _ _ => 0)
                 (0 :: Samples.stars_almost_words ++ [0; 0; 0])
               = Done (col1, [0; 0; 0])) by (vm_compute; reflexivity).
  assert (H2 : TwoNotTouch.Metropolis 1
                 (TwoNotTouch.Energy Samples.regions_by_row (fun _ => 0) (fun _ => 0))
                 (1 # 2) (repeat (1 # 2)%Q 25) (TwoNotTouch.mkConfig col1 0 0 0)
                 [0; 0; 0] = Done (st', [])) by (vm_compute; reflexivity).
  exists col1, st'. split; [exact H1|]. split; [vm_compute; reflexivity|].
  split; [exact H2|]. split; [vm_compute; reflexivity|].
  apply (TNT_result_is_solved Samples.regions_by_row (fun _ => 0) (fun _ => 0)
           (1 # 2) (repeat (1 # 2)%Q 25) (fun _ _ => 0)
           (0 :: Samples.stars_almost_words ++ [0; 0; 0]) 1 col1 [0; 0; 0] 0 0 0
           st' []).
  - intros r c Hr Hc. unfold Samples.regions_by_row. lia.
  - apply all_words_spec. vm_compute. reflexivity.
  - exact H1.
  - exact H2.
Defined.

(** ** KenKen: the energy in closed form *)

Lemma tally_fold x l : forall count i,
  fold_left (KenKen.tally x) l count i = count i + occurrences x l i.
Proof.
  unfold occurrences.
  induction l as [|k l IH]; intros count i; cbn [fold_left].
  - rewrite zsum_nil. lia.
  - rewrite IH, zsum_cons. unfold KenKen.tally, upd.
    rewrite (Z.eqb_sym i (x k)).
    destruct (Z.eqb_spec (x k) i) as [->|]; cbn [b2z]; lia.
Qed.

Lemma clear_spec count i : 0 <= i <= 7 -> KenKen.clear count i = 0.
Proof.
  intros Hi. unfold KenKen.clear.
  rewrite (fold_upd_lookup (fun _ => 0)).
  destruct (in_dec Z.eq_dec i (zrange 0 8)) as [_|C]; [reflexivity|].
  exfalso. apply C. apply in_zrange. lia.
Qed.

Lemma deviations_sum count E :
  KenKen.deviations count E
  = E + zsum (fun i => Z.abs (count i - 1)) (zrange 1 7).
Proof. unfold KenKen.deviations. apply fold_zsum. Qed.

Lemma deviation_of_count x l count E :
  KenKen.deviations (fold_left (KenKen.tally x) l (KenKen.clear count)) E
  = E + deviation x l.
Proof.
  rewrite deviations_sum. f_equal. unfold deviation.
  apply zsum_ext. intros i Hi. apply in_zrange in Hi.
  rewrite tally_fold, clear_spec by lia. now rewrite Z.add_0_l.
Qed.

Lemma column_sites_list c :
  column_sites c
  = [c; c + 7; c + 7 + 7; c + 7 + 7 + 7; c + 7 + 7 + 7 + 7;
     c + 7 + 7 + 7 + 7 + 7; c + 7 + 7 + 7 + 7 + 7 + 7].
Proof.
  unfold column_sites.
  change (zrange 1 7) with [1; 2; 3; 4; 5; 6; 7]. cbn [map].
  repeat (f_equal; try lia).
Qed.

Lemma row_sites_list r :
  row_sites r
  = [7 * (r - 1) + 1; 7 * (r - 1) + 1 + 1; 7 * (r - 1) + 1 + 1 + 1;
     7 * (r - 1) + 1 + 1 + 1 + 1; 7 * (r - 1) + 1 + 1 + 1 + 1 + 1;
     7 * (r - 1) + 1 + 1 + 1 + 1 + 1 + 1;
     7 * (r - 1) + 1 + 1 + 1 + 1 + 1 + 1 + 1].
Proof.
  unfold row_sites.
  change (zrange 1 7) with [1; 2; 3; 4; 5; 6; 7]. cbn [map].
  repeat (f_equal; try lia).
Qed.

Lemma column_pass_spec x E count c :
  fst (KenKen.column_pass x (E, count) c) = E + deviation x (column_sites c).
Proof.
  unfold KenKen.column_pass.
  change (zrange 2 6) with [2; 3; 4; 5; 6; 7].
  cbn [fold_left]. cbv beta iota zeta. cbn [fst].
  rewrite column_sites_list.
  rewrite <- (deviation_of_count x _ count E).
  reflexivity.
Qed.

Lemma row_pass_spec x E count r :
  exists count',
    KenKen.row_pass x (E, count, 7 * (r - 1)) r
    = (E + deviation x (row_sites r), count', 7 * r).
Proof.
  unfold KenKen.row_pass.
  change (zrange 1 7) with [1; 2; 3; 4; 5; 6; 7].
  cbn [fold_left]. cbv beta iota zeta.
  rewrite row_sites_list.
  rewrite <- (deviation_of_count x _ count E).
  eexists. cbn [fold_left]. f_equal. lia.
Qed.

Lemma columns_fold x l : forall E count,
  fst (fold_left (KenKen.column_pass x) l (E, count))
  = E + zsum (fun c => deviation x (column_sites c)) l.
Proof.
  induction l as [|c l IH]; intros E count; cbn [fold_left].
  - rewrite zsum_nil. cbn [fst]. lia.
  - pose proof (column_pass_spec x E count c) as H.
    destruct (KenKen.column_pass x (E, count) c) as [E1 count1].
    cbn [fst] in H. subst E1. rewrite IH, zsum_cons. lia.
Qed.

Lemma rows_fold x n : forall r E count,
  fst (fst (fold_left (KenKen.row_pass x) (zrange r n) (E, count, 7 * (r - 1))))
  = E + zsum (fun r => deviation x (row_sites r)) (zrange r n).
Proof.
  induction n as [|n IH]; intros r E count.
  - cbn [zrange seq map fold_left fst]. rewrite zsum_nil. lia.
  - rewrite zrange_cons. cbn [fold_left].
    destruct (row_pass_spec x E count r) as [count' H]. rewrite H.
    replace (7 * r) with (7 * (r + 1 - 1)) by lia.
    rewrite IH, zsum_cons. lia.
Qed.

Lemma Operation_exits puzzle op x k :
  KenKen.Operation puzzle op x k = None <-> known_op (op k) = false.
Proof.
  unfold KenKen.Operation, known_op.
  destruct (op k =? 43), (op k =? 45), (op k =? 42), (op k =? 47);
    cbn [orb]; split; intros H; try reflexivity; discriminate H.
Qed.

Lemma cages_fold puzzle op ans x l : forall E,
  fold_left
    (fun E k =>
       match E with
       | Some E =>
           match KenKen.Operation puzzle op x k with
           | Some answer => Some (E + b2z (negb (answer =? ans k)))
           | None => None
           end
       | None => None
       end) l (Some E)
  = if forallb (fun k => known_op (op k)) l
    then Some (E + zsum (missed puzzle op ans x) l) else None.
Proof.
  assert (HN : forall l',
    fold_left
      (fun E k =>
         match E with
         | Some E =>
             match KenKen.Operation puzzle op x k with
             | Some answer => Some (E + b2z (negb (answer =? ans k)))
             | None => None
             end
         | None => None
         end) l' None = None).
  { induction l' as [|k l' IH]; cbn [fold_left]; [reflexivity | exact IH]. }
  induction l as [|k l IH]; intros E; cbn [fold_left forallb].
  - rewrite zsum_nil. f_equal. lia.
  - rewrite zsum_cons. unfold missed at 1.
    pose proof (Operation_exits puzzle op x k) as HX.
    destruct (KenKen.Operation puzzle op x k) as [v|].
    + destruct (known_op (op k)); [|destruct HX as [_ HX]; discriminate (HX eq_refl)].
      cbn [andb]. rewrite IH.
      destruct (forallb _ l); [f_equal; lia | reflexivity].
    + rewrite (proj1 HX eq_refl). cbn [andb]. apply HN.
Qed.

(** The cages that [Energy] visits, and whether all of them carry one
    of the four operations. *)
Lemma KenKen_Energy_sum puzzle op ans count x :
  KenKen.Energy puzzle op ans count x
  = if forallb (fun k => known_op (op k)) (zrange 1 (Z.to_nat (puzzle 0 0)))
    then Some (zsum (fun c => deviation x (column_sites c)) (zrange 1 7)
               + zsum (fun r => deviation x (row_sites r)) (zrange 1 7)
               + zsum (missed puzzle op ans x) (zrange 1 (Z.to_nat (puzzle 0 0))))
    else None.
Proof.
  unfold KenKen.Energy. cbv zeta.
  pose proof (columns_fold x (zrange 1 7) 0 count) as HC.
  destruct (fold_left (KenKen.column_pass x) (zrange 1 7) (0, count)) as [E1 count1].
  cbn [fst] in HC.
  pose proof (rows_fold x 7 1 E1 count1) as HR.
  change (7 * (1 - 1)) with 0 in HR.
  destruct (fold_left (KenKen.row_pass x) (zrange 1 7) (E1, count1, 0))
    as [[E2 count2] k2].
  cbn [fst] in HR.
  rewrite cages_fold. subst E2 E1. rewrite Z.add_0_l. reflexivity.
Qed.

Lemma occurrences_nonneg x l d : 0 <= occurrences x l d.
Proof.
  unfold occurrences. apply zsum_nonneg. intros k _.
  destruct (b2z_cases (x k =? d)); lia.
Qed.

Lemma deviation_nonneg x l : 0 <= deviation x l.
Proof. unfold deviation. apply zsum_nonneg. intros d _. lia. Qed.

Lemma deviation_zero x l :
  deviation x l = 0 <-> forall d, 1 <= d <= 7 -> occurrences x l d = 1.
Proof.
  unfold deviation. rewrite zsum_zero by (intros d _; lia). split.
  - intros H d Hd. specialize (H d). rewrite in_zrange in H. lia.
  - intros H d Hd. apply in_zrange in Hd. specialize (H d). lia.
Qed.

Lemma occurrences_ext x x' l d :
  (forall k, In k l -> x' k = x k) -> occurrences x' l d = occurrences x l d.
Proof.
  intros H. unfold occurrences. apply zsum_ext. intros k Hk. now rewrite H.
Qed.

Lemma deviation_ext x x' l :
  (forall k, In k l -> x' k = x k) -> deviation x' l = deviation x l.
Proof.
  intros H. unfold deviation. apply zsum_ext. intros d _.
  now rewrite (occurrences_ext x x' l d H).
Qed.

Lemma missed_range puzzle op ans x k : 0 <= missed puzzle op ans x k <= 1.
Proof.
  unfold missed. destruct (KenKen.Operation puzzle op x k) as [v|]; [|lia].
  apply b2z_range.
Qed.

Lemma missed_zero puzzle op ans x k :
  known_op (op k) = true ->
  (missed puzzle op ans x k = 0
   <-> KenKen.Operation puzzle op x k = Some (ans k)).
Proof.
  intros Hk. unfold missed.
  pose proof (Operation_exits puzzle op x k) as HX.
  destruct (KenKen.Operation puzzle op x k) as [v|].
  - destruct (Z.eqb_spec v (ans k)) as [->|Hne]; cbn [negb b2z]; split; intros H.
    + reflexivity.
    + reflexivity.
    + discriminate H.
    + exfalso. apply Hne. congruence.
  - rewrite (proj1 HX eq_refl) in Hk. discriminate Hk.
Qed.

Lemma known_ops_spec op n :
  forallb (fun k => known_op (op k)) (zrange 1 (Z.to_nat n)) = true
  <-> forall k, 1 <= k <= n -> known_op (op k) = true.
Proof.
  rewrite forallb_forall. split.
  - intros H k Hk. apply H. apply in_zrange. lia.
  - intros H k Hk. apply in_zrange in Hk. apply H. lia.
Qed.

Lemma fold_left_ext_in {A B} (f g : A -> B -> A) l :
  (forall a b, In b l -> f a b = g a b) ->
  forall a, fold_left f l a = fold_left g l a.
Proof.
  induction l as [|b l IH]; intros H a; cbn [fold_left]; [reflexivity|].
  rewrite (H a b) by (left; reflexivity).
  apply IH. intros a' b' Hb. apply H. right. exact Hb.
Qed.

(** [Operation (k)] reads [x1] at the entries [puzzle[k][1..]] only. *)
Lemma Operation_ext puzzle op x x' k :
  (forall j, 1 <= j -> x' (puzzle k j) = x (puzzle k j)) ->
  KenKen.Operation puzzle op x' k = KenKen.Operation puzzle op x k.
Proof.
  intros H. unfold KenKen.Operation. cbv zeta.
  destruct (op k =? 43).
  { f_equal. apply fold_left_ext_in. intros a i Hi. apply in_zrange in Hi.
    rewrite H by lia. reflexivity. }
  destruct (op k =? 45).
  { f_equal. rewrite (H 1) by lia.
    apply fold_left_ext_in. intros a i Hi. apply in_zrange in Hi.
    rewrite H by lia. reflexivity. }
  destruct (op k =? 42).
  { f_equal. apply fold_left_ext_in. intros a i Hi. apply in_zrange in Hi.
    rewrite H by lia. reflexivity. }
  destruct (op k =? 47); [|reflexivity].
  rewrite (H 1), (H 2) by lia. reflexivity.
Qed.

Lemma missed_ext puzzle op ans x x' k :
  (forall j, 1 <= j -> x' (puzzle k j) = x (puzzle k j)) ->
  missed puzzle op ans x' k = missed puzzle op ans x k.
Proof.
  intros H. unfold missed. now rewrite (Operation_ext puzzle op x x' k H).
Qed.

Lemma KenKen_Energy_some puzzle op ans count x E :
  KenKen.Energy puzzle op ans count x = Some E ->
  (forall k, 1 <= k <= puzzle 0 0 -> known_op (op k) = true)
  /\ E = zsum (fun c => deviation x (column_sites c)) (zrange 1 7)
         + zsum (fun r => deviation x (row_sites r)) (zrange 1 7)
         + zsum (missed puzzle op ans x) (zrange 1 (Z.to_nat (puzzle 0 0))).
Proof.
  rewrite KenKen_Energy_sum. intros H.
  destruct (forallb _ _) eqn:F; [|discriminate H].
  split; [now apply known_ops_spec|]. congruence.
Qed.

Lemma KenKen_Energy_known puzzle op ans count x :
  (forall k, 1 <= k <= puzzle 0 0 -> known_op (op k) = true) ->
  KenKen.Energy puzzle op ans count x
  = Some (zsum (fun c => deviation x (column_sites c)) (zrange 1 7)
          + zsum (fun r => deviation x (row_sites r)) (zrange 1 7)
          + zsum (missed puzzle op ans x) (zrange 1 (Z.to_nat (puzzle 0 0)))).
Proof.
  intros H. rewrite KenKen_Energy_sum.
  now rewrite (proj2 (known_ops_spec op (puzzle 0 0)) H).
Qed.

Lemma forallb_exists_false {A} (f : A -> bool) l :
  forallb f l = false -> exists a, In a l /\ f a = false.
Proof.
  induction l as [|a l IH]; cbn [forallb]; intros H; [discriminate H|].
  destruct (f a) eqn:F.
  - cbn [andb] in H. destruct (IH H) as (b & Hb & Fb).
    exists b. split; [right; exact Hb | exact Fb].
  - exists a. split; [left; reflexivity | exact F].
Qed.

Lemma KenKen_Energy_none puzzle op ans count x :
  KenKen.Energy puzzle op ans count x = None
  <-> exists k, 1 <= k <= puzzle 0 0 /\ known_op (op k) = false.
Proof.
  rewrite KenKen_Energy_sum.
  destruct (forallb _ _) eqn:F; split.
  - intros H. discriminate H.
  - intros (k & Hk & Hop).
    rewrite (proj1 (known_ops_spec op (puzzle 0 0)) F k Hk) in Hop.
    discriminate Hop.
  - intros _.
    destruct (forallb_exists_false (fun k => known_op (op k))
                (zrange 1 (Z.to_nat (puzzle 0 0))) F) as (k & Hk & Hop).
    exists k. apply in_zrange in Hk. split; [lia|exact Hop].
  - reflexivity.
Qed.

Lemma KenKen_Energy_ext puzzle op ans count count' x x' :
  (forall k, x' k = x k) ->
  KenKen.Energy puzzle op ans count' x' = KenKen.Energy puzzle op ans count x.
Proof.
  intros H. rewrite !KenKen_Energy_sum.
  destruct (forallb _ _); [|reflexivity].
  f_equal. f_equal; [f_equal|].
  - apply zsum_ext. intros c _. apply deviation_ext. intros k _. apply H.
  - apply zsum_ext. intros c _. apply deviation_ext. intros k _. apply H.
  - apply zsum_ext. intros k _. apply missed_ext. intros j _. apply H.
Qed.

Lemma KenKen_Energy_nonneg puzzle op ans count x E :
  KenKen.Energy puzzle op ans count x = Some E -> 0 <= E.
Proof.
  intros H. apply KenKen_Energy_some in H. destruct H as [_ ->].
  pose proof (zsum_nonneg (fun c => deviation x (column_sites c)) (zrange 1 7)
                (fun c _ => deviation_nonneg x (column_sites c))).
  pose proof (zsum_nonneg (fun r => deviation x (row_sites r)) (zrange 1 7)
                (fun r _ => deviation_nonneg x (row_sites r))).
  pose proof (zsum_nonneg (missed puzzle op ans x)
                (zrange 1 (Z.to_nat (puzzle 0 0)))
                (fun k _ => proj1 (missed_range puzzle op ans x k))).
  lia.
Qed.

Lemma KenKen_Energy_zero puzzle op ans count x :
  KenKen.Energy puzzle op ans count x = Some 0
  <-> latin x
      /\ forall k, 1 <= k <= puzzle 0 0 ->
                   KenKen.Operation puzzle op x k = Some (ans k).
Proof.
  pose proof (zsum_nonneg (fun c => deviation x (column_sites c)) (zrange 1 7)
                (fun c _ => deviation_nonneg x (column_sites c))) as N1.
  pose proof (zsum_nonneg (fun r => deviation x (row_sites r)) (zrange 1 7)
                (fun r _ => deviation_nonneg x (row_sites r))) as N2.
  pose proof (zsum_nonneg (missed puzzle op ans x)
                (zrange 1 (Z.to_nat (puzzle 0 0)))
                (fun k _ => proj1 (missed_range puzzle op ans x k))) as N3.
  pose proof (zsum_zero (fun c => deviation x (column_sites c)) (zrange 1 7)
                (fun c _ => deviation_nonneg x (column_sites c))) as Z1.
  pose proof (zsum_zero (fun r => deviation x (row_sites r)) (zrange 1 7)
                (fun r _ => deviation_nonneg x (row_sites r))) as Z2.
  pose proof (zsum_zero (missed puzzle op ans x)
                (zrange 1 (Z.to_nat (puzzle 0 0)))
                (fun k _ => proj1 (missed_range puzzle op ans x k))) as Z3.
  split.
  - intros H. apply KenKen_Energy_some in H. destruct H as [Hk HE].
    assert (A1 : zsum (fun c => deviation x (column_sites c)) (zrange 1 7) = 0) by lia.
    assert (A2 : zsum (fun r => deviation x (row_sites r)) (zrange 1 7) = 0) by lia.
    assert (A3 : zsum (missed puzzle op ans x)
                      (zrange 1 (Z.to_nat (puzzle 0 0))) = 0) by lia.
    split.
    + intros l d Hl Hd. split.
      * apply (proj1 (deviation_zero x (row_sites l))); [|exact Hd].
        apply (proj1 Z2 A2). apply in_zrange. lia.
      * apply (proj1 (deviation_zero x (column_sites l))); [|exact Hd].
        apply (proj1 Z1 A1). apply in_zrange. lia.
    + intros k Hkk. apply missed_zero; [now apply Hk|].
      apply (proj1 Z3 A3). apply in_zrange. lia.
  - intros [HL HO].
    assert (Hk : forall k, 1 <= k <= puzzle 0 0 -> known_op (op k) = true).
    { intros k Hk. specialize (HO k Hk).
      destruct (known_op (op k)) eqn:F; [reflexivity|].
      rewrite (proj2 (Operation_exits puzzle op x k) F) in HO. discriminate HO. }
    rewrite (KenKen_Energy_known puzzle op ans count x Hk). f_equal.
    assert (A1 : zsum (fun c => deviation x (column_sites c)) (zrange 1 7) = 0).
    { apply (proj2 Z1). intros c Hc. apply in_zrange in Hc.
      apply deviation_zero. intros d Hd. apply HL; lia. }
    assert (A2 : zsum (fun r => deviation x (row_sites r)) (zrange 1 7) = 0).
    { apply (proj2 Z2). intros r Hr. apply in_zrange in Hr.
      apply deviation_zero. intros d Hd. apply HL; lia. }
    assert (A3 : zsum (missed puzzle op ans x)
                      (zrange 1 (Z.to_nat (puzzle 0 0))) = 0).
    { apply (proj2 Z3). intros k Hkk. apply in_zrange in Hkk.
      apply missed_zero; [apply Hk; lia | apply HO; lia]. }
    lia.
Qed.

(** ** KenKen: the regions read by [GetPuzzle] *)

Lemma read_letter_inv letters n k puzzle :
  0 <= k -> cages_inv letters k puzzle ->
  exists n',
    KenKen.read_letter (letters (k / 7 + 1)) (n, k, puzzle) (k mod 7)
    = (n', k + 1,
       upd2 (upd2 puzzle (region_of letters (k + 1)) 0
                  (puzzle (region_of letters (k + 1)) 0 + 1))
            (region_of letters (k + 1))
            (puzzle (region_of letters (k + 1)) 0 + 1) (k + 1))
    /\ cages_inv letters (k + 1)
         (upd2 (upd2 puzzle (region_of letters (k + 1)) 0
                     (puzzle (region_of letters (k + 1)) 0 + 1))
               (region_of letters (k + 1))
               (puzzle (region_of letters (k + 1)) 0 + 1) (k + 1)).
Proof.
  intros Hk (I0 & I1 & I2).
  unfold KenKen.read_letter. cbv zeta.
  assert (Hr : letters (k / 7 + 1) (k mod 7) - 65 + 1 = region_of letters (k + 1)).
  { unfold region_of. replace (k + 1 - 1) with k by lia. reflexivity. }
  rewrite Hr. set (r := region_of letters (k + 1)).
  rewrite upd2_same. eexists. split; [reflexivity|].
  pose proof (I0 r) as Hr0.
  split; [|split].
  - intros r'. unfold upd2.
    destruct (Z.eqb_spec r' r) as [->|]; cbn [andb].
    + destruct (Z.eqb_spec 0 (puzzle r 0 + 1)); [lia|].
      rewrite Z.eqb_refl. lia.
    + specialize (I0 r'). lia.
  - intros r' m. unfold upd2.
    destruct (Z.eqb_spec r' r) as [->|]; cbn [andb].
    + destruct (Z.eqb_spec 0 (puzzle r 0 + 1)); [lia|].
      rewrite Z.eqb_refl.
      destruct (Z.eqb_spec m (puzzle r 0 + 1)) as [->|Hm].
      * intros _. split; [lia|reflexivity].
      * destruct (Z.eqb_spec m 0) as [->|]; [lia|].
        intros Hm'. destruct (I1 r m) as [A B]; [lia|]. split; [lia|exact B].
    + intros Hm. destruct (I1 r' m Hm) as [A B]. split; [lia|exact B].
  - intros r' m. unfold upd2.
    destruct (Z.eqb_spec r' r) as [->|]; cbn [andb].
    + destruct (Z.eqb_spec 0 (puzzle r 0 + 1)); [lia|].
      rewrite Z.eqb_refl.
      destruct (Z.eqb_spec m (puzzle r 0 + 1)) as [->|Hm]; [lia|].
      destruct (Z.eqb_spec m 0) as [->|]; [lia|].
      intros Hm'. apply I2. lia.
    + apply I2.
Qed.

(** The double loop over the lines and their characters visits the
    sites 1, 2, ..., 49 in order. *)
Lemma read_sites_fold letters (acc : Z * Z * (Z -> Z -> Z)) :
  fold_left (fun acc i => fold_left (KenKen.read_letter (letters i)) (zrange 0 7) acc)
            (zrange 1 7) acc
  = fold_left (fun acc s =>
                 KenKen.read_letter (letters (s / 7 + 1)) acc (s mod 7))
              (zrange 0 49) acc.
Proof.
  change (zrange 0 49)
    with (flat_map (fun i => map (fun j => 7 * (i - 1) + j) (zrange 0 7))
                   (zrange 1 7)).
  rewrite fold_left_flat_map.
  apply fold_left_ext_in. intros a i Hi. apply in_zrange in Hi.
  rewrite fold_left_map.
  apply fold_left_ext_in. intros b j Hj. apply in_zrange in Hj.
  replace ((7 * (i - 1) + j) / 7 + 1) with i
    by (rewrite Z.mul_comm, Z.div_add_l by lia; rewrite Z.div_small by lia; lia).
  replace ((7 * (i - 1) + j) mod 7) with j
    by (rewrite Z.add_comm, Z.mul_comm, Z.mod_add by lia;
        rewrite Z.mod_small by lia; reflexivity).
  reflexivity.
Qed.

Lemma read_sites_inv letters len : forall n k puzzle,
  0 <= k -> cages_inv letters k puzzle ->
  exists n' puzzle',
    fold_left (fun acc s =>
                 KenKen.read_letter (letters (s / 7 + 1)) acc (s mod 7))
              (zrange k len) (n, k, puzzle)
    = (n', k + Z.of_nat len, puzzle')
    /\ cages_inv letters (k + Z.of_nat len) puzzle'.
Proof.
  induction len as [|len IH]; intros n k puzzle Hk HI.
  - exists n, puzzle. cbn [zrange seq map fold_left].
    replace (k + Z.of_nat 0) with k by lia. split; [reflexivity|exact HI].
  - rewrite zrange_cons. cbn [fold_left].
    destruct (read_letter_inv letters n k puzzle Hk HI) as (n1 & E1 & HI1).
    rewrite E1.
    destruct (IH n1 (k + 1) _ ltac:(lia) HI1) as (n' & puzzle' & E2 & HI2).
    exists n', puzzle'. rewrite E2.
    replace (k + 1 + Z.of_nat len) with (k + Z.of_nat (S len)) in * by lia.
    split; [reflexivity|exact HI2].
Qed.

Lemma read_regions_cages letters :
  cages_ok letters (KenKen.read_regions letters (fun _ _ => 0)).
Proof.
  intros k j Hk Hj. unfold KenKen.read_regions.
  rewrite read_sites_fold.
  destruct (read_sites_inv letters 49 0 0 (fun _ _ => 0)) as (n & puzzle & E & I0 & I1 & I2).
  { lia. }
  { split; [intros r; lia|]. split; [intros r m Hm; lia | reflexivity]. }
  rewrite E. rewrite !upd2_other by lia.
  change (0 + Z.of_nat 49) with 49 in *.
  destruct (Z_le_gt_dec j (puzzle k 0)) as [Hle|Hgt].
  - right. destruct (I1 k j) as [A B]; [lia|].
    specialize (I0 k). split; [exact A|]. split; [exact B|lia].
  - left. apply I2. lia.
Qed.

(** ** KenKen: what a change at one site does to the energy *)

Lemma occurrences_upd_out x I v l d :
  ~ In I l -> occurrences (upd x I v) l d = occurrences x l d.
Proof.
  intros H. apply occurrences_ext. intros k Hk.
  apply upd_other. intros ->. contradiction.
Qed.

Lemma occurrences_upd_in x I v l d :
  NoDup l -> In I l ->
  occurrences (upd x I v) l d
  = occurrences x l d - b2z (x I =? d) + b2z (v =? d).
Proof.
  induction l as [|k l IH]; intros ND HI; [destruct HI|].
  inversion ND as [|? ? Hk ND']; subst.
  unfold occurrences in *. rewrite !zsum_cons.
  destruct (Z.eq_dec k I) as [->|Hne].
  - rewrite upd_same.
    pose proof (occurrences_upd_out x I v l d Hk) as E.
    unfold occurrences in E. rewrite E. lia.
  - rewrite upd_other by exact Hne.
    destruct HI as [HI|HI]; [contradiction|].
    rewrite (IH ND' HI). lia.
Qed.

Lemma deviation_upd_out x I v l :
  ~ In I l -> deviation (upd x I v) l = deviation x l.
Proof.
  intros H. apply deviation_ext. intros k Hk.
  apply upd_other. intros ->. contradiction.
Qed.

Lemma deviation_upd_in x I v l :
  NoDup l -> In I l -> deviation (upd x I v) l <= deviation x l + 2.
Proof.
  intros ND HI. unfold deviation.
  pose proof (zsum_indicator (x I) (zrange 1 7) (NoDup_zrange 1 7)) as B1.
  pose proof (zsum_indicator v (zrange 1 7) (NoDup_zrange 1 7)) as B2.
  assert (L : zsum (fun d => Z.abs (occurrences (upd x I v) l d - 1)) (zrange 1 7)
              <= zsum (fun d => Z.abs (occurrences x l d - 1)
                                + (b2z (x I =? d) + b2z (v =? d))) (zrange 1 7)).
  { apply zsum_le. intros d _. rewrite (occurrences_upd_in x I v l d ND HI).
    destruct (b2z_cases (x I =? d)); destruct (b2z_cases (v =? d)); lia. }
  rewrite (zsum_plus (fun d => Z.abs (occurrences x l d - 1))
                     (fun d => b2z (x I =? d) + b2z (v =? d))) in L.
  rewrite (zsum_plus (fun d => b2z (x I =? d)) (fun d => b2z (v =? d))) in L.
  lia.
Qed.

Lemma NoDup_column_sites c : NoDup (column_sites c).
Proof.
  rewrite column_sites_list.
  repeat (apply NoDup_cons; [cbn [In]; lia|]). apply NoDup_nil.
Qed.

Lemma NoDup_row_sites r : NoDup (row_sites r).
Proof.
  rewrite row_sites_list.
  repeat (apply NoDup_cons; [cbn [In]; lia|]). apply NoDup_nil.
Qed.

Lemma in_column_sites I c :
  1 <= c <= 7 -> In I (column_sites c) -> (I - 1) mod 7 + 1 = c.
Proof.
  intros Hc H. unfold column_sites in H. apply in_map_iff in H.
  destruct H as (r & <- & Hr). apply in_zrange in Hr.
  replace (c + 7 * (r - 1) - 1) with (c - 1 + (r - 1) * 7) by lia.
  rewrite Z.mod_add by lia. rewrite Z.mod_small by lia. lia.
Qed.

Lemma in_row_sites I r :
  In I (row_sites r) -> (I - 1) / 7 + 1 = r.
Proof.
  intros H. unfold row_sites in H. apply in_map_iff in H.
  destruct H as (c & <- & Hc). apply in_zrange in Hc.
  replace (7 * (r - 1) + c - 1) with (c - 1 + (r - 1) * 7) by lia.
  rewrite Z.div_add by lia. rewrite Z.div_small by lia. lia.
Qed.

Lemma column_upd x I v c :
  1 <= c <= 7 ->
  deviation (upd x I v) (column_sites c)
  <= deviation x (column_sites c) + 2 * b2z ((I - 1) mod 7 + 1 =? c).
Proof.
  intros Hc.
  destruct (in_dec Z.eq_dec I (column_sites c)) as [HI|HI].
  - rewrite (in_column_sites I c Hc HI), Z.eqb_refl. cbn [b2z].
    apply deviation_upd_in; [apply NoDup_column_sites|exact HI].
  - rewrite (deviation_upd_out x I v _ HI).
    destruct (b2z_cases ((I - 1) mod 7 + 1 =? c)); lia.
Qed.

Lemma row_upd x I v r :
  deviation (upd x I v) (row_sites r)
  <= deviation x (row_sites r) + 2 * b2z ((I - 1) / 7 + 1 =? r).
Proof.
  destruct (in_dec Z.eq_dec I (row_sites r)) as [HI|HI].
  - rewrite (in_row_sites I r HI), Z.eqb_refl. cbn [b2z].
    apply deviation_upd_in; [apply NoDup_row_sites|exact HI].
  - rewrite (deviation_upd_out x I v _ HI).
    destruct (b2z_cases ((I - 1) / 7 + 1 =? r)); lia.
Qed.

(** A region other than the one of site [I] does not read [x1[I]]. *)
Lemma cage_upd letters puzzle op ans x I v k :
  cages_ok letters puzzle -> 1 <= I <= 49 -> 1 <= k ->
  missed puzzle op ans (upd x I v) k
  <= missed puzzle op ans x k + b2z (region_of letters I =? k).
Proof.
  intros HC HI Hk.
  destruct (Z.eqb_spec (region_of letters I) k) as [E|NE]; cbn [b2z].
  - pose proof (missed_range puzzle op ans (upd x I v) k).
    pose proof (missed_range puzzle op ans x k).
    lia.
  - rewrite (missed_ext puzzle op ans x (upd x I v) k); [lia|].
    intros j Hj. apply upd_other.
    destruct (HC k j Hk Hj) as [Z0|(A & B & _)].
    + rewrite Z0. lia.
    + intros C. rewrite C in B. contradiction.
Qed.

Lemma columns_upd x I v :
  zsum (fun c => deviation (upd x I v) (column_sites c)) (zrange 1 7)
  <= zsum (fun c => deviation x (column_sites c)) (zrange 1 7) + 2.
Proof.
  pose proof (zsum_le (fun c => deviation (upd x I v) (column_sites c))
                (fun c => deviation x (column_sites c)
                          + 2 * b2z ((I - 1) mod 7 + 1 =? c)) (zrange 1 7)) as L.
  rewrite (zsum_plus (fun c => deviation x (column_sites c))
                     (fun c => 2 * b2z ((I - 1) mod 7 + 1 =? c))) in L.
  rewrite (zsum_scale_l 2 (fun c => b2z ((I - 1) mod 7 + 1 =? c))) in L.
  pose proof (zsum_indicator ((I - 1) mod 7 + 1) (zrange 1 7) (NoDup_zrange 1 7)) as B.
  assert (H : forall c, In c (zrange 1 7) ->
            deviation (upd x I v) (column_sites c)
            <= deviation x (column_sites c) + 2 * b2z ((I - 1) mod 7 + 1 =? c)).
  { intros c Hc. apply in_zrange in Hc. apply column_upd. lia. }
  specialize (L H). clear H.
  generalize dependent (zsum (fun c => deviation (upd x I v) (column_sites c)) (zrange 1 7)).
  generalize dependent (zsum (fun c => deviation x (column_sites c)) (zrange 1 7)).
  generalize dependent (zsum (fun c => b2z ((I - 1) mod 7 + 1 =? c)) (zrange 1 7)).
  intros. lia.
Qed.

Lemma rows_upd x I v :
  zsum (fun r => deviation (upd x I v) (row_sites r)) (zrange 1 7)
  <= zsum (fun r => deviation x (row_sites r)) (zrange 1 7) + 2.
Proof.
  pose proof (zsum_le (fun r => deviation (upd x I v) (row_sites r))
                (fun r => deviation x (row_sites r)
                          + 2 * b2z ((I - 1) / 7 + 1 =? r)) (zrange 1 7)) as L.
  rewrite (zsum_plus (fun r => deviation x (row_sites r))
                     (fun r => 2 * b2z ((I - 1) / 7 + 1 =? r))) in L.
  rewrite (zsum_scale_l 2 (fun r => b2z ((I - 1) / 7 + 1 =? r))) in L.
  pose proof (zsum_indicator ((I - 1) / 7 + 1) (zrange 1 7) (NoDup_zrange 1 7)) as B.
  specialize (L (fun r _ => row_upd x I v r)).
  generalize dependent (zsum (fun r => deviation (upd x I v) (row_sites r)) (zrange 1 7)).
  generalize dependent (zsum (fun r => deviation x (row_sites r)) (zrange 1 7)).
  generalize dependent (zsum (fun r => b2z ((I - 1) / 7 + 1 =? r)) (zrange 1 7)).
  intros. lia.
Qed.

Lemma cages_upd letters puzzle op ans x I v l :
  cages_ok letters puzzle -> 1 <= I <= 49 ->
  NoDup l -> (forall k, In k l -> 1 <= k) ->
  zsum (missed puzzle op ans (upd x I v)) l
  <= zsum (missed puzzle op ans x) l + 1.
Proof.
  intros HC HI ND Hl.
  pose proof (zsum_le (missed puzzle op ans (upd x I v))
                (fun k => missed puzzle op ans x k
                          + b2z (region_of letters I =? k)) l) as L.
  rewrite (zsum_plus (missed puzzle op ans x)
                     (fun k => b2z (region_of letters I =? k))) in L.
  pose proof (zsum_indicator (region_of letters I) l ND) as B.
  assert (H : forall k, In k l ->
            missed puzzle op ans (upd x I v) k
            <= missed puzzle op ans x k + b2z (region_of letters I =? k)).
  { intros k Hk. apply (cage_upd letters puzzle op ans x I v k HC HI).
    apply Hl. exact Hk. }
  specialize (L H). clear H.
  generalize dependent (zsum (missed puzzle op ans (upd x I v)) l).
  generalize dependent (zsum (missed puzzle op ans x) l).
  generalize dependent (zsum (fun k => b2z (region_of letters I =? k)) l).
  intros. lia.
Qed.

Lemma energy_sum_upd letters puzzle op ans x I v :
  cages_ok letters puzzle -> 1 <= I <= 49 ->
  energy_sum puzzle op ans (upd x I v) <= energy_sum puzzle op ans x + 5.
Proof.
  intros HC HI. unfold energy_sum.
  pose proof (columns_upd x I v) as C.
  pose proof (rows_upd x I v) as R.
  pose proof (cages_upd letters puzzle op ans x I v
                (zrange 1 (Z.to_nat (puzzle 0 0))) HC HI (NoDup_zrange _ _)) as M.
  assert (Hl : forall k, In k (zrange 1 (Z.to_nat (puzzle 0 0))) -> 1 <= k).
  { intros k Hk. apply in_zrange in Hk. lia. }
  specialize (M Hl). clear Hl.
  generalize dependent (zsum (missed puzzle op ans (upd x I v))
                             (zrange 1 (Z.to_nat (puzzle 0 0)))).
  generalize dependent (zsum (missed puzzle op ans x)
                             (zrange 1 (Z.to_nat (puzzle 0 0)))).
  intros. lia.
Qed.

(** Exchanging the digits of two sites changes at most two columns,
    two rows and two regions: the energy goes up by 10 at most. *)
Lemma energy_sum_swap letters puzzle op ans x I0 I1 :
  cages_ok letters puzzle -> 1 <= I0 <= 49 -> 1 <= I1 <= 49 ->
  energy_sum puzzle op ans (KenKen.swap x I0 I1)
  <= energy_sum puzzle op ans x + 10.
Proof.
  intros HC H0 H1. unfold KenKen.swap. cbv zeta.
  pose proof (energy_sum_upd letters puzzle op ans x I0 (x I1) HC H0).
  pose proof (energy_sum_upd letters puzzle op ans (upd x I0 (x I1)) I1 (x I0) HC H1).
  lia.
Qed.

(** ** KenKen: the chain *)

Lemma pick_I1_spec x I0 g : forall I1 I1' g',
  Forall word g -> 1 <= I1 <= 49 ->
  KenKen.pick_I1 x I0 I1 g = Done (I1', g') ->
  1 <= I1' <= 49 /\ Forall word g'.
Proof.
  induction g as [|N g IH]; intros I1 I1' g' Hw HI H; cbn [KenKen.pick_I1] in H.
  - destruct (negb (x I1 =? x I0)); [|discriminate H].
    apply Done_pair in H. destruct H as (-> & ->). split; assumption.
  - destruct (negb (x I1 =? x I0)).
    + apply Done_pair in H. destruct H as (-> & ->). split; assumption.
    + inversion Hw as [|? ? HN Hw']; subst.
      apply (IH (RandomInteger_of 1 49 N) I1' g' Hw'); [|exact H].
      apply RandomInteger_of_range; [exact HN|lia].
Qed.

Lemma pick_I1_defined x I0 g : forall I1,
  KenKen.pick_I1 x I0 I1 g <> Undefined.
Proof.
  induction g as [|N g IH]; intros I1; cbn [KenKen.pick_I1];
    destruct (negb (x I1 =? x I0)); try discriminate.
  apply IH.
Qed.

Lemma KenKen_Proposal_spec st g st1 g1 :
  Forall word g -> KenKen.Proposal st g = Done (st1, g1) ->
  1 <= KenKen.I0 st1 <= 49 /\ 1 <= KenKen.I1 st1 <= 49
  /\ KenKen.x1 st1
     = KenKen.swap (KenKen.x1 st) (KenKen.I0 st1) (KenKen.I1 st1)
  /\ Forall word g1.
Proof.
  intros Hw H. unfold KenKen.Proposal in H.
  destruct g as [|N g]; cbn [RandomInteger bind] in H; [discriminate H|].
  inversion Hw as [|? ? HN Hw']; subst.
  pose proof (RandomInteger_of_range 1 49 N HN ltac:(lia)) as HI0.
  destruct (KenKen.pick_I1 (KenKen.x1 st) (RandomInteger_of 1 49 N)
                           (RandomInteger_of 1 49 N) g) as [[I1 g2]| |] eqn:HP;
    bind_step H.
  destruct (pick_I1_spec _ _ _ _ _ _ Hw' HI0 HP) as (HI1 & Hw2).
  apply Done_pair in H. destruct H as (-> & ->).
  cbn [KenKen.I0 KenKen.I1 KenKen.x1]. repeat split; try lia; assumption.
Qed.

Lemma KenKen_Proposal_defined st g : KenKen.Proposal st g <> Undefined.
Proof.
  unfold KenKen.Proposal.
  destruct g as [|N g]; cbn [RandomInteger bind]; [discriminate|].
  pose proof (pick_I1_defined (KenKen.x1 st) (RandomInteger_of 1 49 N) g
                              (RandomInteger_of 1 49 N)) as HD.
  destruct (KenKen.pick_I1 (KenKen.x1 st) (RandomInteger_of 1 49 N)
                           (RandomInteger_of 1 49 N) g) as [[I1 g2]| |];
    cbn [bind]; try discriminate.
  contradiction.
Qed.

Lemma digits_swap x I0 I1 :
  digits_1_7 x -> 1 <= I0 <= 49 -> 1 <= I1 <= 49 ->
  digits_1_7 (KenKen.swap x I0 I1).
Proof.
  intros [H0 H] HI0 HI1. unfold KenKen.swap, upd. cbv zeta. split.
  - destruct (Z.eqb_spec 0 I1); [lia|]. destruct (Z.eqb_spec 0 I0); [lia|].
    exact H0.
  - intros k Hk. destruct (Z.eqb_spec k I1); [apply H; lia|].
    destruct (Z.eqb_spec k I0); apply H; lia.
Qed.

Lemma digits_ext x x' :
  (forall k, x' k = x k) -> digits_1_7 x -> digits_1_7 x'.
Proof.
  intros E [H0 H]. split; [now rewrite E|]. intros k Hk. rewrite E. now apply H.
Qed.

Section KenKenChain.
Variable En : (Z -> Z) -> Z.
Hypothesis En_ext : forall x x', (forall k, x' k = x k) -> En x' = En x.
Hypothesis En_nonneg : forall x, 0 <= En x.
Hypothesis En_move :
  forall x I0 I1, 1 <= I0 <= 49 -> 1 <= I1 <= 49 ->
                  En (KenKen.swap x I0 I1) <= En x + 10.

Lemma KenKen_step_inv T prob st E g st' E' g' :
  Forall word g -> digits_1_7 (KenKen.x1 st) -> E = En (KenKen.x1 st) ->
  KenKen.Metropolis_step En T prob st E g = Done (st', E', g') ->
  E' = En (KenKen.x1 st') /\ digits_1_7 (KenKen.x1 st') /\ Forall word g'.
Proof.
  intros Hw HD HE H. unfold KenKen.Metropolis_step in H.
  destruct (KenKen.Proposal st g) as [[st1 g1]| |] eqn:Hp; bind_step H.
  destruct (KenKen_Proposal_spec st g st1 g1 Hw Hp) as (HI0 & HI1 & Hx & Hw1).
  cbv zeta in H.
  destruct (AcceptTransition T prob _ g1) as [[acc g2]| |] eqn:Ha; bind_step H.
  pose proof (AcceptTransition_words _ _ _ _ _ _ Hw1 Ha) as Hw2.
  destruct acc; apply Done_triple in H; destruct H as (-> & -> & ->).
  - split; [lia|]. split; [|assumption].
    rewrite Hx. apply digits_swap; assumption.
  - assert (Hback : forall k, KenKen.x1 (KenKen.ChangeBack st1) k = KenKen.x1 st k).
    { intros k. unfold KenKen.ChangeBack. cbn [KenKen.x1 KenKen.I0 KenKen.I1].
      rewrite Hx. apply swap_swap. }
    split; [subst E; apply eq_sym, En_ext, Hback|].
    split; [|assumption]. apply (digits_ext (KenKen.x1 st)); assumption.
Qed.

(** With [E] the energy of the current configuration the change of
    energy is at most 10, the last index of the 11 doubles. *)
Lemma KenKen_step_defined T prob st E g :
  Forall word g -> length prob = 11%nat -> E = En (KenKen.x1 st) ->
  KenKen.Metropolis_step En T prob st E g <> Undefined.
Proof.
  intros Hw HP HE H. unfold KenKen.Metropolis_step in H.
  destruct (KenKen.Proposal st g) as [[st1 g1]| |] eqn:Hp; bind_step H.
  - destruct (KenKen_Proposal_spec st g st1 g1 Hw Hp) as (HI0 & HI1 & Hx & Hw1).
    cbv zeta in H.
    pose proof (En_move (KenKen.x1 st) (KenKen.I0 st1) (KenKen.I1 st1) HI0 HI1) as Hb.
    rewrite <- Hx in Hb. rewrite <- HE in Hb.
    set (deltaE := En (KenKen.x1 st1) - E) in *.
    unfold AcceptTransition in H.
    destruct (Z.leb_spec deltaE 0); cbn [bind] in H.
    + discriminate H.
    + destruct (positive_temp T); bind_step H.
      destruct g1 as [|N g1]; cbn [MTUniform bind] in H; [discriminate H|].
      destruct (read_in_range prob deltaE) as [q Hq]; [rewrite HP; lia|].
      rewrite Hq in H. cbn [bind] in H.
      destruct (Qle_bool (uniform N) q); discriminate H.
  - exact (KenKen_Proposal_defined st g Hp).
Qed.

Lemma KenKen_loop_inv T prob steps : forall st E g st' g',
  Forall word g -> digits_1_7 (KenKen.x1 st) -> E = En (KenKen.x1 st) ->
  KenKen.Metropolis_loop steps En T prob st E g = Done (st', g') ->
  En (KenKen.x1 st') = 0 /\ digits_1_7 (KenKen.x1 st').
Proof.
  induction steps as [|steps IH]; intros st E g st' g' Hw HD HE H;
    cbn [KenKen.Metropolis_loop] in H;
    destruct (Z.gtb_spec E 0) as [Hpos|Hz]; try discriminate H.
  - apply Done_pair in H. destruct H as (-> & ->).
    pose proof (En_nonneg (KenKen.x1 st)).
    split; [lia|assumption].
  - destruct (KenKen.Metropolis_step En T prob st E g) as [[[st1 E1] g1]| |] eqn:Hs;
      bind_step H.
    destruct (KenKen_step_inv T prob st E g st1 E1 g1 Hw HD HE Hs)
      as (HE1 & HD1 & Hw1).
    apply (IH st1 E1 g1 st' g' Hw1 HD1 HE1 H).
  - apply Done_pair in H. destruct H as (-> & ->).
    pose proof (En_nonneg (KenKen.x1 st)).
    split; [lia|assumption].
Qed.

End KenKenChain.

(** The energy function of a puzzle whose operations are all known. *)
Lemma KenKen_En_is_sum puzzle op ans En :
  (forall count x, KenKen.Energy puzzle op ans count x = Some (En x)) ->
  forall x, En x = energy_sum puzzle op ans x.
Proof.
  intros HEn x.
  destruct (KenKen_Energy_some puzzle op ans (fun _ => 0) x (En x)
              (HEn (fun _ => 0) x)) as [_ E].
  exact E.
Qed.

Lemma energy_sum_ext puzzle op ans x x' :
  (forall k, x' k = x k) ->
  energy_sum puzzle op ans x' = energy_sum puzzle op ans x.
Proof.
  intros H. unfold energy_sum. f_equal; [f_equal|].
  - apply zsum_ext. intros c _. apply deviation_ext. intros k _. apply H.
  - apply zsum_ext. intros c _. apply deviation_ext. intros k _. apply H.
  - apply zsum_ext. intros k _. apply missed_ext. intros j _. apply H.
Qed.

Lemma energy_sum_nonneg puzzle op ans x : 0 <= energy_sum puzzle op ans x.
Proof.
  unfold energy_sum.
  pose proof (zsum_nonneg (fun c => deviation x (column_sites c)) (zrange 1 7)
                (fun c _ => deviation_nonneg x (column_sites c))).
  pose proof (zsum_nonneg (fun r => deviation x (row_sites r)) (zrange 1 7)
                (fun r _ => deviation_nonneg x (row_sites r))).
  pose proof (zsum_nonneg (missed puzzle op ans x)
                (zrange 1 (Z.to_nat (puzzle 0 0)))
                (fun k _ => proj1 (missed_range puzzle op ans x k))).
  lia.
Qed.

(** ** KenKen: the initial configuration *)

Lemma free_site_spec x g : forall i i' g',
  Forall word g -> (i = 0 \/ 1 <= i <= 49) ->
  KenKen.free_site x i g = Done (i', g') ->
  (i' = 0 \/ 1 <= i' <= 49) /\ x i' = 0 /\ Forall word g'.
Proof.
  induction g as [|N g IH]; intros i i' g' Hw Hi H; cbn [KenKen.free_site] in H.
  - destruct (Z.eqb_spec (x i) 0) as [E|NE]; cbn [negb] in H; [|discriminate H].
    apply Done_pair in H. destruct H as (-> & ->). repeat split; assumption.
  - destruct (Z.eqb_spec (x i) 0) as [E|NE]; cbn [negb] in H.
    + apply Done_pair in H. destruct H as (-> & ->). repeat split; assumption.
    + inversion Hw as [|? ? HN Hw']; subst.
      apply (IH (RandomInteger_of 1 49 N) i' g' Hw'); [|exact H].
      right. apply RandomInteger_of_range; [exact HN|lia].
Qed.

Lemma occurrences_fill x i v d :
  1 <= i <= 49 ->
  occurrences (upd x i v) (zrange 1 49) d
  = occurrences x (zrange 1 49) d - b2z (x i =? d) + b2z (v =? d).
Proof.
  intros Hi. apply occurrences_upd_in; [apply NoDup_zrange|].
  apply in_zrange. lia.
Qed.

Lemma Initialize_loop_spec ks : forall x g x' g',
  Forall word g -> x 0 = -1 ->
  (forall i, 1 <= i <= 49 -> 0 <= x i <= 7) ->
  (forall k, In k ks -> 0 <= k) ->
  KenKen.Initialize_loop ks x g = Done (x', g') ->
  x' 0 = -1
  /\ (forall i, 1 <= i <= 49 -> 0 <= x' i <= 7)
  /\ (forall d, occurrences x' (zrange 1 49) d
                = occurrences x (zrange 1 49) d
                  + zsum (fun k => b2z (Z.rem k 7 + 1 =? d) - b2z (0 =? d)) ks)
  /\ Forall word g'.
Proof.
  induction ks as [|k ks IH]; intros x g x' g' Hw H0 Hx Hk H;
    cbn [KenKen.Initialize_loop] in H.
  - apply Done_pair in H. destruct H as (-> & ->).
    split; [exact H0|]. split; [exact Hx|]. split; [|exact Hw].
    intros d. rewrite zsum_nil. lia.
  - destruct (KenKen.free_site x 0 g) as [[i g1]| |] eqn:Hf; bind_step H.
    destruct (free_site_spec x g 0 i g1 Hw (or_introl eq_refl) Hf)
      as (Hi & Hxi & Hw1).
    assert (Hi' : 1 <= i <= 49) by (destruct Hi as [->|Hi]; [lia|exact Hi]).
    assert (Hk0 : 0 <= k) by (apply Hk; left; reflexivity).
    assert (Hv : 1 <= Z.rem k 7 + 1 <= 7).
    { pose proof (Z.rem_bound_pos k 7 Hk0 ltac:(lia)). lia. }
    destruct (IH (upd x i (Z.rem k 7 + 1)) g1 x' g' Hw1) as (A & B & C & D).
    + rewrite upd_other by lia. exact H0.
    + intros j Hj. unfold upd. destruct (Z.eqb_spec j i); [lia|now apply Hx].
    + intros k' Hk'. apply Hk. right. exact Hk'.
    + exact H.
    + split; [exact A|]. split; [exact B|]. split; [|exact D].
      intros d. rewrite C, zsum_cons, (occurrences_fill x i _ d Hi'), Hxi. lia.
Qed.

(** From the zeroed block [x1] every digit 1..7 ends up on seven of
    the sites 1..49, and [x1[0]] holds the sentinel -1. *)
Lemma Initialize_spec x g x' g' :
  Forall word g -> (forall i, 1 <= i <= 49 -> x i = 0) ->
  KenKen.Initialize x g = Done (x', g') ->
  digits_1_7 x'
  /\ (forall d, 1 <= d <= 7 -> occurrences x' (zrange 1 49) d = 7)
  /\ Forall word g'.
Proof.
  intros Hw Hx H. unfold KenKen.Initialize in H. cbv zeta in H.
  destruct (Initialize_loop_spec (zrange 0 49) (upd x 0 (-1)) g x' g' Hw)
    as (A & B & C & D).
  - apply upd_same.
  - intros i Hi. rewrite upd_other by lia. rewrite Hx by exact Hi. lia.
  - intros k Hk. apply in_zrange in Hk. lia.
  - exact H.
  - assert (Hocc : forall d, occurrences (upd x 0 (-1)) (zrange 1 49) d
                             = 49 * b2z (0 =? d)).
    { intros d. unfold occurrences.
      rewrite (zsum_ext _ (fun _ => b2z (0 =? d))).
      - generalize (b2z (0 =? d)). intros b.
        change (zrange 1 49) with (map Z.of_nat (seq 1 49)).
        cbn [seq map zsum fold_right]. lia.
      - intros k Hk. apply in_zrange in Hk.
        rewrite upd_other by lia. rewrite Hx by lia. reflexivity. }
    assert (Hzero : occurrences x' (zrange 1 49) 0 = 0).
    { rewrite C, Hocc. vm_compute. reflexivity. }
    assert (Hseven : forall d, 1 <= d <= 7 -> occurrences x' (zrange 1 49) d = 7).
    { intros d Hd. rewrite C, Hocc.
      assert (Hc : d = 1 \/ d = 2 \/ d = 3 \/ d = 4 \/ d = 5 \/ d = 6 \/ d = 7) by lia.
      destruct Hc as [->|[->|[->|[->|[->|[->| ->]]]]]]; vm_compute; reflexivity. }
    split; [|split; [exact Hseven|exact D]].
    split; [exact A|]. intros i Hi.
    pose proof (B i Hi) as Bi.
    assert (x' i <> 0); [|lia].
    intros Z0.
    unfold occurrences in Hzero.
    pose proof (proj1 (zsum_zero (fun k => b2z (x' k =? 0)) (zrange 1 49)
                         (fun k _ => proj1 (b2z_range (x' k =? 0)))) Hzero i) as Hz.
    assert (Hin : In i (zrange 1 49)) by (apply in_zrange; lia).
    specialize (Hz Hin). cbv beta in Hz. rewrite Z0 in Hz.
    cbn [Z.eqb b2z] in Hz. discriminate Hz.
Qed.

(** ** KenKen: the solver as a whole *)

Lemma GetPuzzle_spec letters clue_op clue_number puzzle0 op0 ans0 x g
      puzzle op ans x' g' :
  KenKen.GetPuzzle letters clue_op clue_number puzzle0 op0 ans0 x g
  = Done (puzzle, op, ans, x', g') ->
  puzzle = KenKen.read_regions letters puzzle0
  /\ KenKen.Initialize x g = Done (x', g').
Proof.
  unfold KenKen.GetPuzzle.
  cbv zeta.
  generalize (KenKen.read_regions letters puzzle0). intros P.
  destruct (KenKen.read_clues (P 0 0) clue_op clue_number op0 ans0) as [op1 ans1].
  generalize (KenKen.Initialize x g). intros r.
  destruct r as [[x1 g1]| |]; cbn [bind]; intros H;
    [|discriminate H|discriminate H].
  apply Done_pair in H. 
  destruct H as (E & ->).
  pose proof (f_equal (fun t : (Z -> Z -> Z) * (Z -> Z) * (Z -> Z) * (Z -> Z) =>
                         fst (fst (fst t))) E) as E1.
  pose proof (f_equal (fun t : (Z -> Z -> Z) * (Z -> Z) * (Z -> Z) * (Z -> Z) =>
                         snd t) E) as E2.
  cbn [fst snd] in E1, E2. 
  split; [exact E1|]. 
  rewrite E2. reflexivity.
Qed.

Lemma KenKen_En_props letters op ans En :
  (forall count x,
      KenKen.Energy (KenKen.read_regions letters (fun _ _ => 0)) op ans count x
      = Some (En x)) ->
  (forall x x', (forall k, x' k = x k) -> En x' = En x)
  /\ (forall x, 0 <= En x)
  /\ (forall x I0 I1, 1 <= I0 <= 49 -> 1 <= I1 <= 49 ->
                      En (KenKen.swap x I0 I1) <= En x + 10).
Proof.
  intros HEn.
  pose proof (KenKen_En_is_sum _ op ans En HEn) as HS.
  pose proof (read_regions_cages letters) as HC.
  revert HS HC. generalize (KenKen.read_regions letters (fun _ _ => 0)).
  intros puzzle HS HC. split; [|split].
  - intros x x' E. rewrite !HS. now apply energy_sum_ext.
  - intros x. rewrite HS. apply energy_sum_nonneg.
  - intros x I0 I1 H0 H1. rewrite !HS.
    now apply (energy_sum_swap letters).
Qed.

(** X28.  KenKen solver, [Energy] and [Operation], for the regions
    that [GetPuzzle] has read from a file of letters 'A'.. and a grid
    of digits 1..7 (with the sentinel x1[0] = -1), where all array
    indices are in range and no divisor is 0: [Energy] ends the
    program (through [Exit ()] in [Operation]) exactly when one of
    the regions 1..n carries a character other than + - * /, whatever
    the grid holds; otherwise its value is never negative, does not
    depend on what the local array [count] held, and is 0 - the exit
    condition of [while (E > 0)] - exactly when every row and every
    column holds each of the digits 1..7 once and [Operation] gives
    the target [ans[k]] for every region k. *)
Theorem KenKen_Energy_zero_iff_solved
        (letters : Z -> Z -> Z) (op ans count x : Z -> Z) :
  letters_ok letters -> digits_1_7 x ->
  (KenKen.Energy (KenKen.read_regions letters (fun _ _ => 0)) op ans count x = None
   <-> exists k, 1 <= k <= KenKen.read_regions letters (fun _ _ => 0) 0 0
                 /\ known_op (op k) = false)
  /\ forall E,
       KenKen.Energy (KenKen.read_regions letters (fun _ _ => 0)) op ans count x
       = Some E ->
       0 <= E
       /\ (E = 0 <->
           latin x
           /\ forall k, 1 <= k <= KenKen.read_regions letters (fun _ _ => 0) 0 0 ->
                KenKen.Operation (KenKen.read_regions letters (fun _ _ => 0))
                                 op x k = Some (ans k))
       /\ forall count',
            KenKen.Energy (KenKen.read_regions letters (fun _ _ => 0))
                          op ans count' x = Some E.
Proof.
  intros _ _. generalize (KenKen.read_regions letters (fun _ _ => 0)).
  intros puzzle. split; [apply KenKen_Energy_none|].
  intros E HE. split; [exact (KenKen_Energy_nonneg _ _ _ _ _ _ HE)|]. split.
  - rewrite <- (KenKen_Energy_zero puzzle op ans count x). split.
    + intros ->. exact HE.
    + intros H0. rewrite H0 in HE. injection HE as <-. reflexivity.
  - intros count'.
    rewrite (KenKen_Energy_ext puzzle op ans count count' x x (fun k => eq_refl)).
    exact HE.
Qed.

Lemma rows_as_regions_ok : letters_ok Samples.rows_as_regions.
Proof. intros i j Hi Hj. unfold Samples.rows_as_regions. lia. Qed.

Lemma kenken_solved_digits : digits_1_7 Samples.kenken_solved.
Proof.
  split; [reflexivity|]. intros k Hk. unfold Samples.kenken_solved.
  destruct (Z.eqb_spec k 0); [lia|].
  pose proof (Z.mod_pos_bound ((k - 1) mod 7 + (k - 1) / 7) 7 ltac:(lia)). lia.
Qed.

Lemma KenKen_Energy_zero_iff_solved_witness :
  KenKen.Energy (KenKen.read_regions Samples.rows_as_regions (fun _ _ => 0))
                (fun _ => 43) (fun _ => 28) (fun _ => 5)
                Samples.kenken_solved = Some 0
  /\ latin Samples.kenken_solved.
Proof.
  assert (HE : KenKen.Energy
                 (KenKen.read_regions Samples.rows_as_regions (fun _ _ => 0))
                 (fun _ => 43) (fun _ => 28)
                 (fun _ => 5) Samples.kenken_solved = Some 0)
    by (vm_compute; reflexivity).
  split; [exact HE|].
  destruct (KenKen_Energy_zero_iff_solved Samples.rows_as_regions
              (fun _ => 43) (fun _ => 28) (fun _ => 5) Samples.kenken_solved
              rows_as_regions_ok kenken_solved_digits) as [_ H].
  destruct (H 0 HE) as (_ & [H0 _] & _).
  exact (proj1 (H0 eq_refl)).
Defined.

(** X29.  KenKen solver, the body of the loop of [Metropolis], for
    regions read by [GetPuzzle] and a grid of digits 1..7: with [E]
    the energy of the current configuration, exchanging the digits of
    two sites raises the energy by 10 at most (two columns and two
    rows by 2 each, two regions by 1 each), so the read [prob[deltaE]]
    stays inside the block of 11 doubles, whose last entry it can
    reach. *)
Theorem KenKen_reads_inside_table
        (letters : Z -> Z -> Z) (op ans : Z -> Z) (En : (Z -> Z) -> Z)
        (T : Q) (prob : list Q) (st : KenKen.config) (E : Z) (g : rng) :
  letters_ok letters -> digits_1_7 (KenKen.x1 st) ->
  Forall word g -> length prob = 11%nat ->
  (forall count x,
      KenKen.Energy (KenKen.read_regions letters (fun _ _ => 0)) op ans count x
      = Some (En x)) ->
  E = En (KenKen.x1 st) ->
  (forall st1 g1, KenKen.Proposal st g = Done (st1, g1) ->
                  En (KenKen.x1 st1) - E <= 10)
  /\ KenKen.Metropolis_step En T prob st E g <> Undefined.
Proof.
  intros _ _ Hw HP HEn HE.
  destruct (KenKen_En_props letters op ans En HEn) as (Hext & Hnn & Hmove).
  split.
  - intros st1 g1 Hp.
    destruct (KenKen_Proposal_spec st g st1 g1 Hw Hp) as (HI0 & HI1 & Hx & _).
    rewrite Hx, HE.
    pose proof (Hmove (KenKen.x1 st) (KenKen.I0 st1) (KenKen.I1 st1) HI0 HI1).
    lia.
  - exact (KenKen_step_defined En Hmove T prob st E g Hw HP HE).
Qed.

Lemma KenKen_Energy_is_sum puzzle op ans :
  (forall k, 1 <= k <= puzzle 0 0 -> known_op (op k) = true) ->
  forall count x,
    KenKen.Energy puzzle op ans count x = Some (energy_sum puzzle op ans x).
Proof.
  intros H count x. unfold energy_sum. now apply KenKen_Energy_known.
Qed.

Lemma KenKen_reads_inside_table_witness :
  KenKen.Proposal (KenKen.mkConfig Samples.kenken_solved 0 0)
                  [Samples.site_word 1; Samples.site_word 2; 5]
  = Done (KenKen.mkConfig (KenKen.swap Samples.kenken_solved 1 2) 1 2, [5])
  /\ energy_sum (KenKen.read_regions Samples.rows_as_regions (fun _ _ => 0))
                (fun _ => 43) (fun _ => 28)
                (KenKen.swap Samples.kenken_solved 1 2) - 0 = 4
  /\ KenKen.Metropolis_step
       (energy_sum (KenKen.read_regions Samples.rows_as_regions (fun _ _ => 0))
                   (fun _ => 43) (fun _ => 28))
       (1 # 2) (repeat (1 # 2)%Q 11)
       (KenKen.mkConfig Samples.kenken_solved 0 0) 0
       [Samples.site_word 1; Samples.site_word 2; 5]
     <> Undefined.
Proof.
  split; [vm_compute; reflexivity|]. split; [vm_compute; reflexivity|].
  apply (KenKen_reads_inside_table Samples.rows_as_regions
           (fun _ => 43) (fun _ => 28)
           (energy_sum (KenKen.read_regions Samples.rows_as_regions (fun _ _ => 0))
                       (fun _ => 43) (fun _ => 28))
           (1 # 2) (repeat (1 # 2)%Q 11)
           (KenKen.mkConfig Samples.kenken_solved 0 0) 0
           [Samples.site_word 1; Samples.site_word 2; 5]).
  - exact rows_as_regions_ok.
  - exact kenken_solved_digits.
  - apply all_words_spec. vm_compute. reflexivity.
  - reflexivity.
  - apply (KenKen_Energy_is_sum
             (KenKen.read_regions Samples.rows_as_regions (fun _ _ => 0))
             (fun _ => 43) (fun _ => 28)).
    intros k _. reflexivity.
  - vm_compute. reflexivity.
Defined.

(** X30.  KenKen solver, [GetPuzzle] followed by [Metropolis], for a
    puzzle file whose letters are 'A'..: [Initialize] puts each of the
    digits 1..7 on seven of the 49 sites, and whenever the loop
    [while (E > 0)] is left the grid solves the puzzle - it holds
    digits 1..7, every row and every column holds each digit once,
    and [Operation] gives the target [ans[k]] for every region k.
    Each pass exchanges the digits of two sites or puts them back,
    and [E] stays equal to [Energy ()]. *)
Theorem KenKen_result_is_solved
        (letters : Z -> Z -> Z) (clue_op : Z -> Z) (clue_number : Z -> option Z)
        (En : (Z -> Z) -> Z) (T : Q) (prob : list Q) (g : rng) (steps : nat)
        (puzzle : Z -> Z -> Z) (op ans x0 : Z -> Z) (g1 : rng)
        (st : KenKen.config) (g2 : rng) :
  letters_ok letters -> Forall word g ->
  KenKen.GetPuzzle letters clue_op clue_number
                   (fun _ _ => 0) (fun _ => 0) (fun _ => 0) (fun _ => 0) g
  = Done (puzzle, op, ans, x0, g1) ->
  (forall count x, KenKen.Energy puzzle op ans count x = Some (En x)) ->
  KenKen.Metropolis steps En T prob (KenKen.mkConfig x0 0 0) g1 = Done (st, g2) ->
  (forall d, 1 <= d <= 7 -> occurrences x0 (zrange 1 49) d = 7)
  /\ digits_1_7 (KenKen.x1 st)
  /\ latin (KenKen.x1 st)
  /\ forall k, 1 <= k <= puzzle 0 0 ->
               KenKen.Operation puzzle op (KenKen.x1 st) k = Some (ans k).
Proof.
  intros _ Hw HG HEn HM.
  destruct (GetPuzzle_spec _ _ _ _ _ _ _ _ _ _ _ _ _ HG) as (HP & HI).
  destruct (Initialize_spec (fun _ => 0) g x0 g1 Hw (fun i _ => eq_refl) HI)
    as (HD & H7 & Hw1).
  split; [exact H7|].
  assert (Hprops :
    (forall x x', (forall k, x' k = x k) -> En x' = En x)
    /\ (forall x, 0 <= En x)
    /\ (forall x I0 I1, 1 <= I0 <= 49 -> 1 <= I1 <= 49 ->
                        En (KenKen.swap x I0 I1) <= En x + 10)).
  { apply (KenKen_En_props letters op ans En). rewrite <- HP. exact HEn. }
  destruct Hprops as (Hext & Hnn & Hmove).
  clear HP HG. unfold KenKen.Metropolis in HM.
  destruct (KenKen_loop_inv En Hext Hnn T prob steps
              (KenKen.mkConfig x0 0 0) (En x0) g1 st g2 Hw1 HD eq_refl HM)
    as (E0 & HD').
  split; [exact HD'|].
  apply (KenKen_Energy_zero puzzle op ans (fun _ => 0)).
  rewrite HEn, E0. reflexivity.
Qed.

Lemma KenKen_result_is_solved_witness :
  exists puzzle op ans x0 st,
    KenKen.GetPuzzle Samples.rows_as_regions (fun _ => 43) (fun _ => Some 28)
                     (fun _ _ => 0) (fun _ => 0) (fun _ => 0) (fun _ => 0)
                     Samples.kenken_words
    = Done (puzzle, op, ans, x0, [Samples.site_word 1; Samples.site_word 2])
    /\ map x0 (zrange 1 14) = [2; 1; 3; 4; 5; 6; 7; 2; 3; 4; 5; 6; 7; 1]
    /\ KenKen.Metropolis 1 (energy_sum puzzle op ans) (1 # 2)
                         (repeat (1 # 2)%Q 11) (KenKen.mkConfig x0 0 0)
                         [Samples.site_word 1; Samples.site_word 2]
       = Done (st, [])
    /\ map (KenKen.x1 st) (zrange 1 14) = [1; 2; 3; 4; 5; 6; 7; 2; 3; 4; 5; 6; 7; 1]
    /\ latin (KenKen.x1 st)
    /\ forall k, 1 <= k <= puzzle 0 0 ->
                 KenKen.Operation puzzle op (KenKen.x1 st) k = Some (ans k).
Proof.
  pose (run := KenKen.GetPuzzle Samples.rows_as_regions (fun _ => 43)
                 (fun _ => Some 28) (fun _ _ => 0) (fun _ => 0) (fun _ => 0)
                 (fun _ => 0) Samples.kenken_words).
  pose (puzzle := match run with Done (p, _, _, _, _) => p | _ => fun _ _ => 0 end).
  pose (op := match run with Done (_, o, _, _, _) => o | _ => fun _ => 0 end).
  pose (ans := match run with Done (_, _, a, _, _) => a | _ => fun _ => 0 end).
  pose (x0 := match run with Done (_, _, _, x, _) => x | _ => fun _ => 0 end).
  pose (st := match KenKen.Metropolis 1 (energy_sum puzzle op ans) (1 # 2)
                      (repeat (1 # 2)%Q 11) (KenKen.mkConfig x0 0 0)
                      [Samples.site_word 1; Samples.site_word 2] with
              | Done (s, _) => s
              | _ => KenKen.mkConfig x0 0 0
              end).
  assert (H1 : KenKen.GetPuzzle Samples.rows_as_regions (fun _ => 43)
                 (fun _ => Some 28) (fun _ _ => 0) (fun _ => 0) (fun _ => 0)
                 (fun _ => 0) Samples.kenken_words
               = Done (puzzle, op, ans, x0,
                       [Samples.site_word 1; Samples.site_word 2]))
    by (vm_compute; reflexivity).
  assert (H2 : KenKen.Metropolis 1 (energy_sum puzzle op ans) (1 # 2)
                 (repeat (1 # 2)%Q 11) (KenKen.mkConfig x0 0 0)
                 [Samples.site_word 1; Samples.site_word 2]
               = Done (st, [])) by (vm_compute; reflexivity).
  assert (Hk : forall k, 1 <= k <= puzzle 0 0 -> known_op (op k) = true).
  { apply (proj1 (known_ops_spec op (puzzle 0 0))). vm_compute. reflexivity. }
  exists puzzle, op, ans, x0, st.
  split; [exact H1|]. split; [vm_compute; reflexivity|].
  split; [exact H2|]. split; [vm_compute; reflexivity|].
  apply (KenKen_result_is_solved Samples.rows_as_regions (fun _ => 43)
           (fun _ => Some 28) (energy_sum puzzle op ans) (1 # 2)
           (repeat (1 # 2)%Q 11) Samples.kenken_words 1
           puzzle op ans x0 [Samples.site_word 1; Samples.site_word 2] st []).
  - exact rows_as_regions_ok.
  - apply all_words_spec. vm_compute. reflexivity.
  - exact H1.
  - exact (KenKen_Energy_is_sum puzzle op ans Hk).
  - exact H2.
Defined.
